(* ===== verification/_CoqProject ===== *)
-Q . S2P
Prelude.v
RustStr.v
Resp3.v
Resp3Reader.v
Resp3Spec.v
Externals.v
Command.v
ParseCommand.v
Response.v
Idempotency.v
Handlers.v
Dispatch.v
Concurrent.v
RateLimiter.v
Connection.v
ClientResponse.v
ClientConnection.v
ClientApi.v
RemoteStore.v
ServerConfig.v
Background.v
Scheduler.v
Server.v
Cli.v
Maintenance.v
Startup.v
Toy.v
ParseSpec.v
ClientSpec.v
DispatchSpec.v
ConcurrentSpec.v
ConnectionSpec.v
RemoteSpec.v
RemoteStoreSpec.v
AclSpec.v
MaintenanceSpec.v
ServerSpec.v
CompositionSpec.v
SchedulerSpec.v
StartupSpec.v
CliSpec.v
