(* ===== verification/Prelude.v ===== *)
(** * ShrouDB: a verification development

    ShrouDB is a versioned, encrypted key-value store.  The repository holds
    four crates: [shroudb-protocol] (the RESP3 wire format, the commands and
    their dispatch), [shroudb-server] (connections, configuration, background
    work, the maintenance commands), [shroudb-client] (a client library, with
    a [Store] implementation that talks to a server) and [shroudb-cli].  The
    storage engine, the store trait, the ACL types and the cryptography are
    crates outside the repository.

    ** How the program works, and what models what

    A client's bytes reach [handle_connection], which reads a RESP3 frame
    ([resp3/reader.rs]), parses it to a command ([resp3/parse_command.rs]),
    checks the rate limit, the authentication and the token's expiry, and
    hands it to the dispatcher ([dispatch.rs]); the dispatcher checks the ACL,
    runs a handler ([handlers/*.rs]) against the store or the engine, counts
    and audits what was done; the response becomes a frame
    ([resp3/serialize.rs]) and goes back through [resp3/writer.rs].  On the
    other side the client writes commands, reads responses and turns them into
    typed results, and the remote store implements the store's operations with
    them.

    The files, in dependency order:
    - [Prelude]: results and their monad, machine integers, tactics, the
      [shroud] hint database and shared lemmas.
    - [RustStr]: what the code uses of Rust's strings: UTF-8 validity and lossy
      decoding, integer parsing and printing, splitting and trimming.  A Rust
      [String] is a Rocq [string] read as UTF-8 bytes; [Vec<u8>] is [list byte].
    - [Resp3], [Resp3Reader], [Resp3Spec]: frames, protocol errors, the stream
      interfaces, the writer, the reader with its limits, and the theorems on
      them.  A stream is any instance of [AsyncBufRead] or [AsyncWrite] that
      satisfies its laws.
    - [Externals]: the interfaces of the crates outside the repository, as
      classes: [Serde], [Acl], [TokenValidator], [StoreTypes], [Store],
      [StoreErrorText], [Subscribes], [Engine].
    - [Command], [ParseCommand], [ParseSpec]: [command.rs], [error.rs],
      [resp3/parse_command.rs] and what holds of a command that parses.
    - [Response], [Idempotency], [Handlers], [Dispatch], [DispatchSpec]:
      [response.rs], [resp3/serialize.rs], [idempotency.rs], [handlers/*.rs],
      [dispatch.rs] and the theorems on executing commands.  A dispatcher's
      state is the store, the engine if there is one, the idempotency map, the
      clock and the list of reports (metrics and audit records) made so far.
    - [Concurrent], [ConcurrentSpec]: [execute] cut into the steps between which
      calls of other tasks can come ([flight_step]), and a pool of such calls
      over one dispatcher under any schedule.
    - [RateLimiter], [Connection], [ConnectionSpec]: the server's
      [connection.rs].  One iteration of the command loop or of the streaming
      loop is a step ([conn_step]); which branch of the loop's [select!]
      completes is the step's input ([Wakeup]).  The token bucket computes in
      IEEE double precision.
    - [ClientResponse], [ClientConnection], [ClientApi], [ClientSpec]: the
      client's [response.rs], [error.rs], [connection.rs] and [lib.rs], from the
      URI to the open connection.
    - [RemoteStore], [RemoteSpec], [RemoteStoreSpec]: [remote_store.rs], and its
      refinement of a server's store through the client, the wire and the
      dispatcher, operation by operation.
    - [Toy]: concrete instances of the external interfaces (a store in memory,
      tokens, clocks), on which the witnesses evaluate the model.
    - [ServerConfig], [Background], [ServerSpec]: the server's [config.rs]
      (with decimal to double conversion for the cache budget), [webhooks.rs],
      [reload.rs] and the accept loop of [server.rs]; loops are step functions
      of the [select!] branch that completes.
    - [Scheduler], [SchedulerSpec]: the tasks of [scheduler.rs], each with its
      interval, what a tick does and when it ends.
    - [Server], [CompositionSpec]: the parts put together as [run_server] and
      [run] do: the accept loop, the connection tasks over the one dispatcher,
      the reloader, the reaper and the shutdown signal.  What happens next
      ([Happening]) is the input of a step, so a theorem on [happen_all] is one
      on every interleaving.
    - [Startup], [StartupSpec]: [main] of the server up to its job, the sockets
      of [server.rs], [run_server] as the trace of what it does, and the doctor.
    - [Cli], [CliSpec]: [shroudb-cli]: arguments, connecting, the prompt, word
      splitting, completion, help texts and printing.
    - [Maintenance], [MaintenanceSpec]: [run_export], [run_import] and
      [run_rekey] of the server's [main.rs], over an engine, serializers and a
      cipher given as classes with laws.
    - [AclSpec]: integrity and confidentiality of namespaces, over any store
      whose operations are local to the namespace they name.

    ** What the theorems show

    - Wire format ([Resp3Spec]): what is written is read back, in order,
      whatever follows; frames that are read are within the limits; the limits
      are exact and checked before the payload is read.
    - Commands ([ParseSpec]): every command off the wire is well formed; how
      pipelines and errors parse.
    - Execution ([DispatchSpec], [Idempotency]): refused requests have no
      effect; the audit log is complete; no command panics; a pipeline is the
      sequence of its commands; the idempotency map refines a log with a time
      to live, and a repeated request is replayed without effect.
    - Connections ([ConnectionSpec], [RateLimiter]): without a valid token no
      reachable step has an effect; expired tokens stop working; each request
      is answered once; a subscription only streams; no burst on connect.
    - Client ([ClientSpec], [RemoteSpec], [RemoteStoreSpec]): what the client sends is what the
      server reads and conversely; reading ends; remote operations refine
      those of the server's store; which errors survive the wire.
    - Security ([AclSpec]): without a write grant a namespace cannot be changed;
      without any grant it cannot be observed.
    - Composition ([ConcurrentSpec], [CompositionSpec]): requests in flight are
      answered within a bounded number of their own steps; interleaved requests
      do what some sequence of their commands does; a connection task is the
      connection loop; the server stays well formed, isolates namespaces end to
      end and completes its shutdown.
    - Server ([ServerSpec], [SchedulerSpec], [StartupSpec], [MaintenanceSpec]):
      environment expansion is a single pass; the last loadable configuration is in force; the delivery
      schedule of webhooks; export and import, and rekey, keep every history;
      compaction is exact; what a run starts with and stops.
    - Command line ([CliSpec]): what is typed is what the server parses; the
      examples of the help and the completions against the parser.

    The theorems and lemmas [namespace_not_found_lost], [error_reply_splits],
    [subscription_read_not_cancel_safe], [pipeline_hides_errors],
    [alter_ignores_malformed], [rekey_wipes_first], [expand_env_vars_diverges],
    [find_config_too_large], [accept_loop_keeps_tasks], [retry_runs_twice],
    [refused_token_unnoticed], [remote_queries_refine] (for errors),
    [remote_validate_silent], [help_examples_parsed] (for one example),
    [completion_knows_verbs] (for PIPELINE and REKEY), [run_is_orderly] (for a
    server that cannot listen) and
    [client_crashes_on_negative_count] state behaviour of the code that its
    documentation or its own conventions contradict.

    ** Fuel and bounds

    [read_frame] has fuel for the depths 0 to 8; depth 9 is refused before
    anything is read, which is also what running out of fuel gives, so the fuel
    is never observable.  [read_value] of the client has no depth limit; its
    fuel is an argument, and [read_value_terminates] shows that one level per
    byte on the stream is enough.  Trimming and splitting ([RustStr]) have the
    length of the text as fuel and take at least one byte per step.
    A call in flight needs at most [cost] steps and a connection that shuts down
    at most [budget], both computed from the command; more steps change nothing.
    [expand_env_vars] may loop for ever, so its fuel is an argument;
    [expand_env_vars_single_pass] shows that the length of the text is enough
    for values that cannot form a new reference.

    ** What is not modelled

    Asynchronous scheduling within a single command: its handler makes one
    call to the store, which is taken as one step; between the commands of a
    pipeline, and between the lookup of a request id and its storing, the
    steps of other connections come in any order ([Concurrent], [Server]).
    The work the storage engine does on its own is an arbitrary change of the
    store ([EvStorage]), and theorems that need it constrain it.  Sockets, the
    TLS handshake, the line editor, argument parsing by clap, signals, files,
    HTTP, JSON, the metrics exporter and the wording of log lines are
    parameters or left out.  What a failed exchange leaves of the client's
    streams is not described.  The storage engine, its encryption and its
    replication are outside the repository.  The fuzz targets and tests are not
    modelled.

    Left for later: the remote store's operations with metadata; the relation
    between the scheduler's work on the engine and the [EvStorage] steps of
    the server. *)
From Stdlib Require Export ZArith Lia ZifyBool ZifyN Ascii String.
From Stdlib Require Export Strings.Byte.
From stdpp Require Export base list strings gmap.

(** ** Results

    [Result<A, E>] of Rust.  The error type comes first so that [result E] is
    a monad for stdpp's [x ← m; k] notation, which plays the role of [?]. *)
Inductive result (E A : Type) : Type :=
| Ok (a : A)
| Err (e : E).
Arguments Ok {E A} a.
Arguments Err {E A} e.

#[export] Instance result_ret E : MRet (result E) := fun A a => Ok a.
#[export] Instance result_bind E : MBind (result E) :=
  fun A B f m => match m with Ok a => f a | Err e => Err e end.

Definition map_err {E F A} (f : E -> F) (r : result E A) : result F A :=
  match r with Ok a => Ok a | Err e => Err (f e) end.

Definition ok_or {E A} (o : option A) (e : E) : result E A :=
  match o with Some a => Ok a | None => Err e end.

(** [Result::ok]. *)
Definition ok {E A} (r : result E A) : option A :=
  match r with Ok a => Some a | Err _ => None end.

Definition is_ok {E A} (r : result E A) : bool :=
  match r with Ok _ => true | Err _ => false end.

(** [iter.map(f).collect::<Result<Vec<_>, _>>()]: stops at the first error. *)
Fixpoint collect {E A B} (f : A -> result E B) (l : list A) : result E (list B) :=
  match l with
  | [] => Ok []
  | x :: l' => y ← f x; ys ← collect f l'; Ok (y :: ys)
  end.

(** ** Machine integers

    A [w]-bit integer is a [Z] with its range; the casts of Rust ([as]) are
    written out. *)
Definition two63 : Z := 2 ^ 63.
Definition two64 : Z := 2 ^ 64.

Definition in_u64 (n : Z) : Prop := (0 <= n < two64)%Z.
Definition in_i64 (n : Z) : Prop := (- two63 <= n < two63)%Z.

(** [v as i64] for [v : u64]. *)
Definition u64_as_i64 (v : Z) : Z := if (v <? two63)%Z then v else (v - two64)%Z.

(** [v as u64] for [v : i64]. *)
Definition i64_as_u64 (v : Z) : Z := if (v <? 0)%Z then (v + two64)%Z else v.

(** ** Automation *)
Create HintDb shroud.

(** Case analysis on every [match] scrutinee in the goal or a hypothesis that
    is blocking, with [simplify_eq] in between. *)
Ltac cases := repeat (case_match; simplify_eq/=; try done).

(** Inverts a successful monadic computation hypothesis by hypothesis. *)
Ltac inv_bind H :=
  repeat match type of H with
  | mbind _ ?m = Ok _ => let E := fresh "E" in destruct m eqn:E; simpl in H; [|discriminate H]
  end.

(** ** Shared lemmas *)

Lemma result_bind_Ok {E A B} (m : result E A) (f : A -> result E B) b :
  (m ≫= f) = Ok b <-> exists a, m = Ok a /\ f a = Ok b.
Proof.
  destruct m as [a|e]; simpl; split.
  - intros H; by exists a.
  - by intros (? & [= ->] & ?).
  - done.
  - by intros (? & ? & ?).
Qed.

Lemma collect_app {E A B} (f : A -> result E B) l1 l2 :
  collect f (l1 ++ l2) = (xs ← collect f l1; ys ← collect f l2; Ok (xs ++ ys)).
Proof.
  induction l1 as [|x l1 IH]; simpl; [by destruct (collect f l2)|].
  destruct (f x) as [y|e]; simpl; [|done].
  rewrite IH. destruct (collect f l1) as [ys|e]; simpl; [|done].
  by destruct (collect f l2).
Qed.

Lemma collect_Ok_Forall2 {E A B} (f : A -> result E B) l ys :
  collect f l = Ok ys <-> Forall2 (fun x y => f x = Ok y) l ys.
Proof.
  revert ys; induction l as [|x l IH]; intros ys; simpl.
  - split; [intros [= <-]; constructor | by inversion 1].
  - destruct (f x) as [y|e] eqn:Ex; simpl.
    + destruct (collect f l) as [zs|e] eqn:El; simpl.
      * split.
        -- intros [= <-]. constructor; [done|]. by apply IH.
        -- inversion 1 as [|? ? ? ? Hx Hl]; subst. apply IH in Hl. congruence.
      * split; [done|]. inversion 1 as [|? ? ? ? Hx Hl]; subst. apply IH in Hl. congruence.
    + split; [done|]. inversion 1; congruence.
Qed.

Lemma collect_ext {E A B} (f g : A -> result E B) l :
  (forall x, x ∈ l -> f x = g x) -> collect f l = collect g l.
Proof.
  induction l as [|x l IH]; intros Hfg; simpl; [done|].
  rewrite Hfg by set_solver. rewrite IH; [done|]. set_solver.
Qed.

Lemma collect_pure {E A B} (g : A -> B) l :
  collect (E:=E) (fun x => Ok (g x)) l = Ok (map g l).
Proof. induction l as [|x l IH]; simpl; [done|]. by rewrite IH. Qed.

Lemma i64_as_u64_u64_as_i64 v : in_u64 v -> i64_as_u64 (u64_as_i64 v) = v.
Proof. unfold in_u64, i64_as_u64, u64_as_i64, two63, two64. intros H. cases; lia. Qed.

Lemma u64_as_i64_range v : in_u64 v -> in_i64 (u64_as_i64 v).
Proof. unfold in_u64, in_i64, u64_as_i64, two63, two64. intros H. cases; lia. Qed.

#[export] Hint Resolve u64_as_i64_range : shroud.

(** Induction for loops that consume one or two elements at a time. *)
Lemma list_ind_1_2 {A} (P : list A -> Prop) :
  P [] ->
  (forall x l, P l -> (forall y l', l = y :: l' -> P l') -> P (x :: l)) ->
  forall l, P l.
Proof.
  intros Hnil Hcons l.
  enough (P l /\ forall x l', l = x :: l' -> P l') by naive_solver.
  induction l as [|x l [IH1 IH2]]; [naive_solver|].
  split; [by apply Hcons|]. by intros ? ? [= -> ->].
Qed.

Lemma Forall_lookup_default {A} (P : A -> Prop) l i d :
  Forall P l -> P d -> P (nth i l d).
Proof.
  intros Hl Hd. revert i. induction Hl as [|x l Hx _ IH]; intros [|i]; simpl; auto.
Qed.
