(* ===== verification/RustStr.v ===== *)
(** * The parts of Rust's [str], [u8] and integer formatting the code uses

    A [String] (or [&str]) is a Rocq [string], read as its UTF-8 bytes: an
    [ascii] is an 8-bit value, not a 7-bit one.  A [Vec<u8>] (or [&[u8]]) is a
    [list byte].  [as_bytes] is the (bijective) change of view; that the bytes
    of a Rust [String] are valid UTF-8 is the predicate [utf8_valid], which
    [from_utf8] establishes and the code maintains. *)
From S2P Require Import Prelude.

Abbreviation byte := Byte.byte.
Abbreviation bytes := (list Byte.byte).

Open Scope Z_scope.

#[export] Instance byte_eq_dec : EqDecision byte := Byte.byte_eq_dec.

(** ** Bytes *)
Definition byte_val (b : byte) : Z := Z.of_N (Byte.to_N b).

Definition as_bytes (s : string) : bytes := list_byte_of_string s.
Definition of_bytes (b : bytes) : string := string_of_list_byte b.

Arguments as_bytes : simpl never.
Arguments of_bytes : simpl never.

(** ["\r\n"]. *)
Definition CR : byte := Byte.x0d.
Definition LF : byte := Byte.x0a.
Definition crlf : bytes := [CR; LF].

(** ** ASCII case *)
Definition ascii_upper (c : ascii) : ascii :=
  let n := N_of_ascii c in
  if ((97 <=? n) && (n <=? 122))%N then ascii_of_N (n - 32) else c.

Definition ascii_lower (c : ascii) : ascii :=
  let n := N_of_ascii c in
  if ((65 <=? n) && (n <=? 90))%N then ascii_of_N (n + 32) else c.

Fixpoint map_string (f : ascii -> ascii) (s : string) : string :=
  match s with
  | EmptyString => EmptyString
  | String c s' => String (f c) (map_string f s')
  end.

(** [str::to_ascii_uppercase], [str::to_ascii_lowercase],
    [str::eq_ignore_ascii_case]. *)
Definition to_ascii_uppercase : string -> string := map_string ascii_upper.
Definition to_ascii_lowercase : string -> string := map_string ascii_lower.
Definition eq_ignore_ascii_case (a b : string) : bool :=
  String.eqb (to_ascii_lowercase a) (to_ascii_lowercase b).

(** ** Prefixes and substrings *)

(** [s.strip_prefix(p)]. *)
Fixpoint strip_prefix (p s : string) : option string :=
  match p, s with
  | EmptyString, _ => Some s
  | String a p', String b s' => if Ascii.eqb a b then strip_prefix p' s' else None
  | String _ _, EmptyString => None
  end.

(** [s.starts_with(p)]. *)
Definition starts_with (p s : string) : bool :=
  match strip_prefix p s with Some _ => true | None => false end.

(** [s.contains(p)]. *)
Fixpoint contains (p s : string) : bool :=
  starts_with p s
  || match s with EmptyString => false | String _ s' => contains p s' end.

(** ** Decimal integers *)

(** [core::num::IntErrorKind] and its [Display]. *)
Inductive IntErrorKind := IEmpty | InvalidDigit | PosOverflow | NegOverflow.

Definition int_error_display (e : IntErrorKind) : string :=
  match e with
  | IEmpty => "cannot parse integer from empty string"
  | InvalidDigit => "invalid digit found in string"
  | PosOverflow => "number too large to fit in target type"
  | NegOverflow => "number too small to fit in target type"
  end.

Definition char_digit (c : ascii) : option Z :=
  let n := N_of_ascii c in
  if ((48 <=? n) && (n <=? 57))%N then Some (Z.of_N n - 48) else None.

(** The checked digit loop of [from_str_radix] with radix 10: for each
    character the digit test, then [checked_mul], then [checked_add]
    (resp. [checked_sub] after a minus sign). *)
Fixpoint parse_pos (hi acc : Z) (s : string) : result IntErrorKind Z :=
  match s with
  | EmptyString => Ok acc
  | String c s' =>
      match char_digit c with
      | None => Err InvalidDigit
      | Some x =>
          if hi <? acc * 10 then Err PosOverflow
          else if hi <? acc * 10 + x then Err PosOverflow
          else parse_pos hi (acc * 10 + x) s'
      end
  end.

Fixpoint parse_neg (lo acc : Z) (s : string) : result IntErrorKind Z :=
  match s with
  | EmptyString => Ok acc
  | String c s' =>
      match char_digit c with
      | None => Err InvalidDigit
      | Some x =>
          if acc * 10 <? lo then Err NegOverflow
          else if acc * 10 - x <? lo then Err NegOverflow
          else parse_neg lo (acc * 10 - x) s'
      end
  end.

(** [str::parse] at an integer type with bounds [lo, hi]; the type is signed
    when [lo < 0], and only then is a leading minus sign accepted. *)
Definition parse_int (lo hi : Z) (s : string) : result IntErrorKind Z :=
  match s with
  | EmptyString => Err IEmpty
  | String c EmptyString =>
      if Ascii.eqb c "+" || Ascii.eqb c "-" then Err InvalidDigit
      else parse_pos hi 0 s
  | String c s' =>
      if Ascii.eqb c "+" then parse_pos hi 0 s'
      else if Ascii.eqb c "-" && (lo <? 0) then parse_neg lo 0 s'
      else parse_pos hi 0 s
  end.

Definition parse_i64 : string -> result IntErrorKind Z := parse_int (- two63) (two63 - 1).
Definition parse_u64 : string -> result IntErrorKind Z := parse_int 0 (two64 - 1).
(** [usize] on the 64-bit targets the server is built for. *)
Definition parse_usize : string -> result IntErrorKind Z := parse_u64.
Definition parse_u16 : string -> result IntErrorKind Z := parse_int 0 65535.

(** [ToString] for integers. *)
Definition digit_char (d : Z) : ascii := ascii_of_N (Z.to_N (48 + d)).

Fixpoint digits_go (fuel : nat) (n : Z) (acc : string) : string :=
  match fuel with
  | O => acc
  | S f =>
      let acc' := String (digit_char (n mod 10)) acc in
      if n / 10 =? 0 then acc' else digits_go f (n / 10) acc'
  end.

Definition nat_to_string (n : Z) : string :=
  digits_go (S (Z.to_nat (Z.log2 n))) n EmptyString.

Definition int_to_string (z : Z) : string :=
  if z <? 0 then String "-" (nat_to_string (- z)) else nat_to_string z.

(** ** Suffixes and splitting *)

(** [s.strip_suffix(p)]. *)
Fixpoint strip_suffix (p s : string) : option string :=
  if String.eqb s p then Some EmptyString
  else match s with
       | EmptyString => None
       | String c s' => option_map (String c) (strip_suffix p s')
       end.

(** [s.trim_end_matches(p)] for a [p] that is not empty: at most as many
    suffixes are taken off as there are bytes. *)
Fixpoint trim_end_go (fuel : nat) (p s : string) : string :=
  match fuel with
  | O => s
  | S fuel' => match strip_suffix p s with Some s' => trim_end_go fuel' p s' | None => s end
  end.
Definition trim_end_matches (p s : string) : string := trim_end_go (String.length s) p s.

(** The text before and after the first [c], when there is one. *)
Fixpoint split_once (c : ascii) (s : string) : option (string * string) :=
  match s with
  | EmptyString => None
  | String a s' =>
      if Ascii.eqb a c then Some (EmptyString, s')
      else option_map (fun '(l, r) => (String a l, r)) (split_once c s')
  end.

(** The text before and after the last [c], when there is one. *)
Fixpoint rsplit_once (c : ascii) (s : string) : option (string * string) :=
  match s with
  | EmptyString => None
  | String a s' =>
      match rsplit_once c s' with
      | Some (l, r) => Some (String a l, r)
      | None => if Ascii.eqb a c then Some (EmptyString, s') else None
      end
  end.

(** [s.trim_start_matches(c)], for a character. *)
Fixpoint trim_start_matches (c : ascii) (s : string) : string :=
  match s with
  | String a s' => if Ascii.eqb a c then trim_start_matches c s' else s
  | EmptyString => s
  end.

(** ** Whitespace *)

(** The characters with the [White_Space] property, as bytes. *)
Definition whitespace : list string :=
  map of_bytes
    ([[Byte.x09]; [Byte.x0a]; [Byte.x0b]; [Byte.x0c]; [Byte.x0d]; [Byte.x20];
      [Byte.xc2; Byte.x85]; [Byte.xc2; Byte.xa0]; [Byte.xe1; Byte.x9a; Byte.x80]]
     ++ map (fun b => [Byte.xe2; Byte.x80; b])
          [Byte.x80; Byte.x81; Byte.x82; Byte.x83; Byte.x84; Byte.x85; Byte.x86; Byte.x87;
           Byte.x88; Byte.x89; Byte.x8a; Byte.xa8; Byte.xa9; Byte.xaf]
     ++ [[Byte.xe2; Byte.x81; Byte.x9f]; [Byte.xe3; Byte.x80; Byte.x80]]).

(** The text after a leading whitespace character. *)
Definition strip_whitespace (s : string) : option string :=
  (fix go (ws : list string) : option string :=
     match ws with
     | [] => None
     | w :: ws' => match strip_prefix w s with Some s' => Some s' | None => go ws' end
     end) whitespace.

(** [s.trim_start()]. *)
Fixpoint trim_start_go (fuel : nat) (s : string) : string :=
  match fuel with
  | O => s
  | S fuel' => match strip_whitespace s with Some s' => trim_start_go fuel' s' | None => s end
  end.
Definition trim_start (s : string) : string := trim_start_go (String.length s) s.

(** [s.split_whitespace()]: [word] is what has been read of the current word. *)
Fixpoint split_whitespace_go (fuel : nat) (word s : string) : list string :=
  let emit := match word with EmptyString => [] | _ => [word] end in
  match fuel with
  | O => emit
  | S fuel' =>
      match strip_whitespace s with
      | Some s' => emit ++ split_whitespace_go fuel' EmptyString s'
      | None =>
          match s with
          | EmptyString => emit
          | String c s' => split_whitespace_go fuel' (word +:+ String c EmptyString) s'
          end
      end
  end.
Definition split_whitespace (s : string) : list string :=
  split_whitespace_go (S (String.length s)) EmptyString s.

(** A lower-case hexadecimal digit. *)
Definition hex_char (n : N) : ascii :=
  ascii_of_N (if (n <? 10)%N then n + 48 else n + 87).

(** Whether a string can be cut before this byte: it is no continuation byte. *)
Definition is_boundary (rest : string) : bool :=
  match rest with
  | EmptyString => true
  | String c _ => let n := N_of_ascii c in negb ((128 <=? n) && (n <? 192))%N
  end.

Lemma eq_ignore_length a b :
  eq_ignore_ascii_case a b = true -> String.length a = String.length b.
Proof.
  assert (forall f s, String.length (map_string f s) = String.length s) as Hm.
  { intros f s. induction s as [|c s IH]; simpl; congruence. }
  unfold eq_ignore_ascii_case. intros Hab%String.eqb_eq.
  apply (f_equal String.length) in Hab. unfold to_ascii_lowercase in Hab. by rewrite !Hm in Hab.
Qed.

(** ** UTF-8 *)
Definition in_range (lo hi : Z) (b : byte) : bool :=
  (lo <=? byte_val b) && (byte_val b <=? hi).
Definition is_cont (b : byte) : bool := in_range 128 191 b.

(** The outcome of decoding at the head of a non-empty input: a well-formed
    sequence, or a maximal ill-formed prefix, with its length. *)
Inductive chunk := Valid (n : nat) | Invalid (n : nat).

Definition cont1 (ok : byte -> bool) (l : bytes) : chunk :=
  match l with
  | b :: _ => if ok b then Valid 2 else Invalid 1
  | [] => Invalid 1
  end.

Definition cont2 (ok : byte -> bool) (l : bytes) : chunk :=
  match l with
  | b :: l' =>
      if ok b then
        match l' with
        | c :: _ => if is_cont c then Valid 3 else Invalid 2
        | [] => Invalid 2
        end
      else Invalid 1
  | [] => Invalid 1
  end.

Definition cont3 (ok : byte -> bool) (l : bytes) : chunk :=
  match l with
  | b :: l' =>
      if ok b then
        match l' with
        | c :: l'' =>
            if is_cont c then
              match l'' with
              | d :: _ => if is_cont d then Valid 4 else Invalid 3
              | [] => Invalid 3
              end
            else Invalid 2
        | [] => Invalid 2
        end
      else Invalid 1
  | [] => Invalid 1
  end.

Definition utf8_next (b : byte) (l : bytes) : chunk :=
  let v := byte_val b in
  if v <? 128 then Valid 1
  else if (194 <=? v) && (v <=? 223) then cont1 is_cont l
  else if v =? 224 then cont2 (in_range 160 191) l
  else if v =? 237 then cont2 (in_range 128 159) l
  else if (225 <=? v) && (v <=? 239) then cont2 is_cont l
  else if v =? 240 then cont3 (in_range 144 191) l
  else if (241 <=? v) && (v <=? 243) then cont3 is_cont l
  else if v =? 244 then cont3 (in_range 128 143) l
  else Invalid 1.

Fixpoint utf8_valid_go (fuel : nat) (l : bytes) : bool :=
  match fuel, l with
  | _, [] => true
  | O, _ :: _ => false
  | S f, b :: l' =>
      match utf8_next b l' with
      | Valid n => utf8_valid_go f (drop n l)
      | Invalid _ => false
      end
  end.

Definition utf8_valid (l : bytes) : bool := utf8_valid_go (length l) l.

(** [String::from_utf8]. *)
Definition from_utf8 (l : bytes) : option string :=
  if utf8_valid l then Some (of_bytes l) else None.

(** U+FFFD, the replacement character. *)
Definition replacement : bytes := [Byte.xef; Byte.xbf; Byte.xbd].

Fixpoint utf8_lossy_go (fuel : nat) (l : bytes) : bytes :=
  match fuel, l with
  | _, [] => []
  | O, _ :: _ => []
  | S f, b :: l' =>
      match utf8_next b l' with
      | Valid n => take n l ++ utf8_lossy_go f (drop n l)
      | Invalid n => replacement ++ utf8_lossy_go f (drop n l)
      end
  end.

(** [String::from_utf8_lossy]. *)
Definition from_utf8_lossy (l : bytes) : string := of_bytes (utf8_lossy_go (length l) l).

(** ** Lemmas on bytes and strings *)

Lemma of_as_bytes s : of_bytes (as_bytes s) = s.
Proof. apply string_of_list_byte_of_string. Qed.

Lemma as_of_bytes b : as_bytes (of_bytes b) = b.
Proof. apply list_byte_of_string_of_list_byte. Qed.

Lemma as_bytes_cons c s : as_bytes (String c s) = byte_of_ascii c :: as_bytes s.
Proof. done. Qed.

Lemma as_bytes_app s1 s2 : as_bytes (s1 +:+ s2) = as_bytes s1 ++ as_bytes s2.
Proof.
  induction s1 as [|c s1 IH]; [done|].
  change (String c s1 +:+ s2) with (String c (s1 +:+ s2)).
  by rewrite !as_bytes_cons, IH.
Qed.

Lemma of_bytes_app b1 b2 : of_bytes (b1 ++ b2) = of_bytes b1 +:+ of_bytes b2.
Proof. rewrite <- (of_as_bytes (_ +:+ _)), as_bytes_app, !as_of_bytes. done. Qed.

Lemma as_bytes_inj s1 s2 : as_bytes s1 = as_bytes s2 -> s1 = s2.
Proof. intros H. by rewrite <- (of_as_bytes s1), H, of_as_bytes. Qed.

Lemma length_as_bytes s : length (as_bytes s) = String.length s.
Proof. induction s as [|c s IH]; [done|]. rewrite as_bytes_cons; simpl. by rewrite IH. Qed.

Lemma byte_val_range b : 0 <= byte_val b < 256.
Proof.
  unfold byte_val. pose proof (Byte.to_N_bounded b). lia.
Qed.

Lemma byte_val_inj b c : byte_val b = byte_val c -> b = c.
Proof.
  unfold byte_val. intros H%N2Z.inj.
  pose proof (Byte.of_to_N b) as Hb. pose proof (Byte.of_to_N c) as Hc.
  rewrite H in Hb. congruence.
Qed.

Lemma byte_val_of_ascii c : byte_val (byte_of_ascii c) = Z.of_N (N_of_ascii c).
Proof. by destruct c as [[] [] [] [] [] [] [] []]. Qed.

(** ** Lemmas on decimal integers *)

Lemma char_digit_digit_char d : 0 <= d < 10 -> char_digit (digit_char d) = Some d.
Proof.
  intros Hd. unfold char_digit, digit_char.
  rewrite N_ascii_embedding by lia.
  case_match; [f_equal; lia|exfalso; lia].
Qed.

Lemma digits_go_parse f n hi t :
  0 <= n <= hi -> n < 2 ^ Z.of_nat f -> (f <> 0)%nat ->
  parse_pos hi 0 (digits_go f n t) = parse_pos hi n t.
Proof.
  revert n t. induction f as [|f IH]; intros n t Hn Hf Hf0; [done|]. clear Hf0.
  simpl. pose proof (Z.mod_pos_bound n 10 ltac:(lia)) as Hm.
  pose proof (Z.div_mod n 10 ltac:(lia)) as Hdm.
  destruct (Z.eqb_spec (n / 10) 0) as [H0|H0].
  - simpl. rewrite char_digit_digit_char by lia.
    cases; [lia..|]. f_equal; lia.
  - assert (0 < n / 10) by (pose proof (Z.div_pos n 10); lia).
    rewrite IH.
    + simpl. rewrite char_digit_digit_char by lia. cases; [lia..|]. f_equal; lia.
    + lia.
    + rewrite Nat2Z.inj_succ, Z.pow_succ_r in Hf by lia. lia.
    + intros ->. simpl in Hf. lia.
Qed.

Lemma digits_go_parse_neg f n lo t :
  0 <= n -> lo <= - n -> n < 2 ^ Z.of_nat f -> (f <> 0)%nat ->
  parse_neg lo 0 (digits_go f n t) = parse_neg lo (- n) t.
Proof.
  revert n t. induction f as [|f IH]; intros n t Hn Hlo Hf Hf0; [done|]. clear Hf0.
  simpl. pose proof (Z.mod_pos_bound n 10 ltac:(lia)) as Hm.
  pose proof (Z.div_mod n 10 ltac:(lia)) as Hdm.
  destruct (Z.eqb_spec (n / 10) 0) as [H0|H0].
  - simpl. rewrite char_digit_digit_char by lia.
    cases; [lia..|]. f_equal; lia.
  - assert (0 < n / 10) by (pose proof (Z.div_pos n 10); lia).
    rewrite IH; [|lia|lia| |].
    + simpl. rewrite char_digit_digit_char by lia. cases; [lia..|]. f_equal; lia.
    + rewrite Nat2Z.inj_succ, Z.pow_succ_r in Hf by lia. lia.
    + intros ->. simpl in Hf. lia.
Qed.

Lemma log2_fuel n : 0 <= n -> n < 2 ^ Z.of_nat (S (Z.to_nat (Z.log2 n))).
Proof.
  intros Hn. rewrite Nat2Z.inj_succ, Z2Nat.id by apply Z.log2_nonneg.
  destruct (Z.eq_dec n 0) as [->|Hn0]; [done|].
  apply Z.log2_spec. lia.
Qed.

(** Every character of a printed integer is a digit, or the sign. *)
Definition is_digit (c : ascii) : bool := match char_digit c with Some _ => true | None => false end.

Fixpoint all_chars (P : ascii -> bool) (s : string) : bool :=
  match s with EmptyString => true | String c s' => P c && all_chars P s' end.

Lemma digits_go_all f n t :
  0 <= n -> all_chars is_digit t = true -> all_chars is_digit (digits_go f n t) = true.
Proof.
  revert n t. induction f as [|f IH]; intros n t Hn Ht; simpl; [done|].
  assert (all_chars is_digit (String (digit_char (n mod 10)) t) = true) as Ht'.
  { simpl. unfold is_digit. rewrite char_digit_digit_char; [done|].
    apply Z.mod_pos_bound; lia. }
  case_match; [done|]. apply IH; [|done]. apply Z.div_pos; lia.
Qed.

Lemma digits_go_ne f n t : (f <> 0)%nat -> digits_go f n t <> EmptyString.
Proof.
  revert n t. induction f as [|f IH]; intros n t Hf; [done|]; simpl.
  case_match; [done|]. destruct f; [done|]. by apply IH.
Qed.

Lemma nat_to_string_cons n :
  0 <= n -> exists c s, nat_to_string n = String c s /\ is_digit c = true
                        /\ all_chars is_digit s = true.
Proof.
  intros Hn. unfold nat_to_string.
  pose proof (digits_go_all (S (Z.to_nat (Z.log2 n))) n "" Hn eq_refl) as Hall.
  pose proof (digits_go_ne (S (Z.to_nat (Z.log2 n))) n "" ltac:(lia)) as Hne.
  destruct (digits_go _ _ _) as [|c s]; [done|].
  simpl in Hall. apply andb_true_iff in Hall as [? ?]. eauto.
Qed.

Lemma parse_int_digit lo hi c s :
  is_digit c = true -> parse_int lo hi (String c s) = parse_pos hi 0 (String c s).
Proof.
  intros Hc. unfold parse_int.
  assert (Ascii.eqb c "+" = false) as -> by (destruct (Ascii.eqb_spec c "+"); by subst).
  assert (Ascii.eqb c "-" = false) as -> by (destruct (Ascii.eqb_spec c "-"); by subst).
  by destruct s.
Qed.

(** Printing then parsing an integer of the type gives it back. *)
Lemma parse_int_to_string lo hi n :
  lo <= 0 -> lo <= n <= hi -> parse_int lo hi (int_to_string n) = Ok n.
Proof.
  intros Hlo Hn. unfold int_to_string. destruct (Z.ltb_spec n 0) as [Hneg|Hpos].
  - destruct (nat_to_string_cons (- n)) as (c & s & Hs & Hc & _); [lia|].
    assert (parse_neg lo 0 (nat_to_string (- n)) = Ok n) as Hp.
    { unfold nat_to_string. rewrite digits_go_parse_neg; simpl; [f_equal; lia|lia..| |lia].
      apply log2_fuel; lia. }
    rewrite Hs in Hp |- *. unfold parse_int.
    replace (lo <? 0) with true by lia. exact Hp.
  - destruct (nat_to_string_cons n) as (c & s & Hs & Hc & _); [lia|].
    assert (parse_pos hi 0 (nat_to_string n) = Ok n) as Hp.
    { unfold nat_to_string. rewrite digits_go_parse; [done|lia| |lia].
      apply log2_fuel; lia. }
    rewrite Hs in Hp |- *. by rewrite parse_int_digit.
Qed.

Lemma parse_i64_to_string n : in_i64 n -> parse_i64 (int_to_string n) = Ok n.
Proof. unfold in_i64, two63. intros H. apply parse_int_to_string; unfold two63; lia. Qed.

Lemma parse_u64_to_string n : in_u64 n -> parse_u64 (int_to_string n) = Ok n.
Proof. unfold in_u64, two64. intros H. apply parse_int_to_string; unfold two64; lia. Qed.

(** What parsing accepts is in the range of the type. *)
Lemma parse_pos_range hi acc s n :
  0 <= acc <= hi -> parse_pos hi acc s = Ok n -> acc <= n <= hi.
Proof.
  revert acc. induction s as [|c s IH]; intros acc Ha; simpl.
  - intros [= ->]. lia.
  - destruct (char_digit c) as [x|] eqn:Hc; [|done].
    assert (0 <= x) by (unfold char_digit in Hc; cases; lia).
    cases. intros Hp. apply IH in Hp; lia.
Qed.

Lemma parse_neg_range lo acc s n :
  lo <= acc <= 0 -> parse_neg lo acc s = Ok n -> lo <= n <= acc.
Proof.
  revert acc. induction s as [|c s IH]; intros acc Ha; simpl.
  - intros [= ->]. lia.
  - destruct (char_digit c) as [x|] eqn:Hc; [|done].
    assert (0 <= x) by (unfold char_digit in Hc; cases; lia).
    cases. intros Hp. apply IH in Hp; lia.
Qed.

Lemma parse_int_range lo hi s n :
  lo <= 0 <= hi -> parse_int lo hi s = Ok n -> lo <= n <= hi.
Proof.
  intros Hb H. unfold parse_int in H.
  destruct s as [|c [|d s]]; [done|..];
    repeat case_match; try done;
    (apply parse_pos_range in H; lia) || (apply parse_neg_range in H; lia).
Qed.

Lemma parse_i64_range s n : parse_i64 s = Ok n -> in_i64 n.
Proof. intros H%parse_int_range; [|unfold two63; lia]. unfold in_i64. lia. Qed.

Lemma parse_u64_range s n : parse_u64 s = Ok n -> in_u64 n.
Proof. intros H%parse_int_range; [|unfold two64; lia]. unfold in_u64. lia. Qed.

#[export] Hint Resolve parse_i64_range parse_u64_range : shroud.

(** ** Lemmas on UTF-8 *)

(** Well-formed byte sequences, one scalar value at a time. *)
Inductive utf8 : bytes -> Prop :=
| utf8_nil : utf8 []
| utf8_step b l n : utf8_next b l = Valid n -> utf8 (drop n (b :: l)) -> utf8 (b :: l).

#[export] Hint Constructors utf8 : shroud.

Ltac unfold_next H :=
  unfold utf8_next, cont1, cont2, cont3 in H.

(** A valid chunk has between one and four bytes, all of them present. *)
Lemma utf8_next_length b l n :
  utf8_next b l = Valid n -> (1 <= n <= S (length l))%nat.
Proof. intros H. unfold_next H. cases; simpl; lia. Qed.

(** Decoding at the head is not affected by what follows the chunk. *)
Lemma utf8_next_app b l m n :
  utf8_next b l = Valid n -> utf8_next b (l ++ m) = Valid n.
Proof.
  intros H. unfold_next H. unfold utf8_next, cont1, cont2, cont3.
  destruct l as [|c l]; cases; destruct l as [|d l]; cases; destruct l; cases.
Qed.

Lemma utf8_valid_go_utf8 f l :
  (length l <= f)%nat -> utf8_valid_go f l = true <-> utf8 l.
Proof.
  revert l. induction f as [|f IH]; intros l Hl.
  - destruct l as [|b l]; simpl in *; [|lia]. split; [constructor|done].
  - destruct l as [|b l]; [simpl; split; [constructor|done]|].
    change (utf8_valid_go (S f) (b :: l)) with
      (match utf8_next b l with
       | Valid n => utf8_valid_go f (drop n (b :: l)) | Invalid _ => false end).
    destruct (utf8_next b l) as [n|n] eqn:Hn.
    + pose proof (utf8_next_length _ _ _ Hn). rewrite IH.
      * split; [by econstructor|]. inversion 1; congruence.
      * rewrite length_drop. simpl in *. lia.
    + split; [done|]. inversion 1; congruence.
Qed.

Lemma utf8_valid_spec l : utf8_valid l = true <-> utf8 l.
Proof. by apply utf8_valid_go_utf8. Qed.

Lemma utf8_app l m : utf8 l -> utf8 m -> utf8 (l ++ m).
Proof.
  intros Hl Hm. induction Hl as [|b l n Hn _ IH]; [done|].
  pose proof (utf8_next_length _ _ _ Hn) as Hlen.
  simpl. eapply utf8_step; [by apply utf8_next_app|].
  rewrite app_comm_cons, drop_app_le by (simpl; lia). done.
Qed.

(** A byte below 128 is a scalar value of its own. *)
Definition is_ascii (b : byte) : bool := byte_val b <? 128.

Lemma utf8_ascii l : Forall (fun b => is_ascii b = true) l -> utf8 l.
Proof.
  induction 1 as [|b l Hb _ IH]; [constructor|].
  apply (utf8_step _ _ 1); [|done].
  unfold utf8_next, is_ascii in *. by rewrite Hb.
Qed.

Lemma utf8_next_snoc_ascii b l c n :
  is_ascii c = true -> utf8_next b (l ++ [c]) = Valid n -> utf8_next b l = Valid n.
Proof.
  intros Hc H. unfold_next H. unfold utf8_next, cont1, cont2, cont3.
  unfold is_ascii in Hc.
  destruct l as [|d [|e [|g l]]]; simpl in *;
    unfold in_range, is_cont, in_range in *; repeat case_match; simplify_eq; try done; lia.
Qed.

(** Cutting a trailing ASCII byte off well-formed text leaves it well formed. *)
Lemma utf8_snoc_ascii l c : is_ascii c = true -> utf8 (l ++ [c]) -> utf8 l.
Proof.
  intros Hc. remember (length l) as k eqn:Hk. revert l Hk.
  induction k as [k IH] using lt_wf_ind. intros [|b l] Hk Hu; [constructor|].
  inversion Hu as [|b' l' n Hn Hd]; subst b' l'.
  apply utf8_next_snoc_ascii in Hn; [|done].
  pose proof (utf8_next_length _ _ _ Hn) as Hlen.
  eapply utf8_step; [done|].
  rewrite app_comm_cons, drop_app_le in Hd by (simpl; lia).
  eapply IH; [|done|exact Hd]. rewrite length_drop. simpl in *. lia.
Qed.

Lemma from_utf8_Some l s : from_utf8 l = Some s <-> utf8 l /\ s = of_bytes l.
Proof.
  unfold from_utf8. destruct (utf8_valid l) eqn:Hv.
  - apply utf8_valid_spec in Hv. split; [by intros [= <-]|by intros [_ ->]].
  - split; [done|]. intros [Hu _]. apply utf8_valid_spec in Hu. congruence.
Qed.

Lemma from_utf8_as_bytes s : utf8 (as_bytes s) -> from_utf8 (as_bytes s) = Some s.
Proof. intros H. apply from_utf8_Some. by rewrite of_as_bytes. Qed.

(** The lossy conversion is the identity on well-formed text. *)
Lemma utf8_lossy_go_id f l : (length l <= f)%nat -> utf8 l -> utf8_lossy_go f l = l.
Proof.
  revert l. induction f as [|f IH]; intros l Hl Hu.
  - by destruct l; simpl in *; [|lia].
  - destruct Hu as [|b l n Hn Hd]; [done|].
    change (utf8_lossy_go (S f) (b :: l)) with
      (match utf8_next b l with
       | Valid n => take n (b :: l) ++ utf8_lossy_go f (drop n (b :: l))
       | Invalid n => replacement ++ utf8_lossy_go f (drop n (b :: l)) end).
    rewrite Hn. pose proof (utf8_next_length _ _ _ Hn).
    rewrite IH; [by rewrite take_drop| |done].
    rewrite length_drop. simpl in *. lia.
Qed.

Lemma from_utf8_lossy_id l : utf8 l -> from_utf8_lossy l = of_bytes l.
Proof. intros H. unfold from_utf8_lossy. by rewrite utf8_lossy_go_id. Qed.

(** ** Lemmas on printed integers as bytes *)

Lemma all_chars_bytes P s :
  all_chars P s = true <-> Forall (fun b => P (ascii_of_byte b) = true) (as_bytes s).
Proof.
  induction s as [|c s IH]; [done|].
  rewrite as_bytes_cons, Forall_cons; simpl. rewrite andb_true_iff, IH.
  by rewrite ascii_of_byte_of_ascii.
Qed.

Definition is_int_char (c : ascii) : bool := is_digit c || Ascii.eqb c "-".

Lemma int_to_string_chars n : all_chars is_int_char (int_to_string n) = true.
Proof.
  assert (forall s, all_chars is_digit s = true -> all_chars is_int_char s = true) as Himp.
  { induction s as [|c s IH]; simpl; [done|]. unfold is_int_char at 1.
    intros [-> ?]%andb_true_iff. simpl. by apply IH. }
  unfold int_to_string. case_match; simpl; apply Himp.
  - apply digits_go_all; [lia|done].
  - apply digits_go_all; [lia|done].
Qed.

Lemma int_char_ascii b : is_int_char (ascii_of_byte b) = true -> is_ascii b = true /\ b <> LF.
Proof. destruct b; vm_compute; try discriminate; split; congruence. Qed.

Lemma int_to_string_bytes n :
  Forall (fun b => is_ascii b = true /\ b <> LF) (as_bytes (int_to_string n)).
Proof.
  pose proof (int_to_string_chars n) as H. apply all_chars_bytes in H.
  eapply Forall_impl; [exact H|]. apply int_char_ascii.
Qed.

Lemma int_to_string_utf8 n : utf8 (as_bytes (int_to_string n)).
Proof.
  apply utf8_ascii. eapply Forall_impl; [apply int_to_string_bytes|]. by intros ? [].
Qed.

Lemma int_to_string_no_LF n : LF ∉ as_bytes (int_to_string n).
Proof.
  intros Hin. pose proof (int_to_string_bytes n) as H.
  rewrite Forall_forall in H. by destruct (H _ Hin).
Qed.

#[export] Hint Resolve int_to_string_utf8 int_to_string_no_LF : shroud.

(** ** Concatenation *)

Lemma string_app_assoc (a b c : string) : (a +:+ b) +:+ c = a +:+ (b +:+ c).
Proof. induction a as [|x a IH]; [done|]. exact (f_equal (String x) IH). Qed.

Lemma string_app_nil (a : string) : a +:+ "" = a.
Proof. induction a as [|c a IH]; [done|]. exact (f_equal (String c) IH). Qed.

Lemma string_length_app (a b : string) :
  String.length (a +:+ b) = (String.length a + String.length b)%nat.
Proof. induction a as [|c a IH]; [done|]. exact (f_equal Datatypes.S IH). Qed.

Lemma all_chars_app P (a b : string) : all_chars P (a +:+ b) = all_chars P a && all_chars P b.
Proof.
  induction a as [|c a IH]; [done|]. change (String c a +:+ b) with (String c (a +:+ b)).
  cbn [all_chars]. by rewrite IH, andb_assoc.
Qed.

(** ** Lemmas on splitting *)

(** [c] does not occur in [s]. *)
Definition has_no (c : ascii) (s : string) : bool := all_chars (fun a => negb (Ascii.eqb a c)) s.

Lemma string_app_empty (s : string) : "" +:+ s = s.
Proof. done. Qed.
Lemma string_app_cons c (s t : string) : String c s +:+ t = String c (s +:+ t).
Proof. done. Qed.

Lemma split_once_none c s : has_no c s = true -> split_once c s = None.
Proof.
  unfold has_no. induction s as [|a s IH]; [done|]. cbn [all_chars split_once rsplit_once]. intros [Ha Hs]%andb_true_iff.
  apply negb_true_iff in Ha. by rewrite Ha, IH.
Qed.

Lemma split_once_first c l r : has_no c l = true -> split_once c (l +:+ String c r) = Some (l, r).
Proof.
  induction l as [|a l IH]; [rewrite string_app_empty|rewrite string_app_cons]; cbn [split_once rsplit_once]; [by rewrite Ascii.eqb_refl|].
  unfold has_no in *. cbn [all_chars]. intros [Ha Hs]%andb_true_iff. apply negb_true_iff in Ha. by rewrite Ha, IH.
Qed.

Lemma rsplit_once_none c s : has_no c s = true -> rsplit_once c s = None.
Proof.
  unfold has_no. induction s as [|a s IH]; [done|]. cbn [all_chars split_once rsplit_once]. intros [Ha Hs]%andb_true_iff.
  apply negb_true_iff in Ha. by rewrite IH, Ha.
Qed.

Lemma rsplit_once_last c l r : has_no c r = true -> rsplit_once c (l +:+ String c r) = Some (l, r).
Proof.
  intros Hr. induction l as [|a l IH]; [rewrite string_app_empty|rewrite string_app_cons]; cbn [split_once rsplit_once]; [by rewrite (rsplit_once_none c r Hr), Ascii.eqb_refl|].
  by rewrite IH.
Qed.

Lemma all_chars_impl (P Q : ascii -> bool) s :
  (forall a, P a = true -> Q a = true) -> all_chars P s = true -> all_chars Q s = true.
Proof.
  intros HPQ. induction s as [|a s IH]; [done|]. cbn.
  intros [Ha Hs]%andb_true_iff. by rewrite (HPQ _ Ha), IH.
Qed.

(** No character of a printed number separates the parts of a URI. *)
Lemma int_to_string_has_no c n : is_int_char c = false -> has_no c (int_to_string n) = true.
Proof.
  intros Hc. eapply all_chars_impl; [|apply int_to_string_chars]. intros a Ha. cbn beta in Ha |- *.
  destruct (Ascii.eqb_spec a c) as [->|]; [congruence|done].
Qed.
