(* ===== verification/Resp3.v ===== *)
(** * RESP3 frames: data, encoding, and the byte-stream interfaces

    Models [shroudb-protocol/src/resp3/mod.rs] (frames and protocol errors)
    and [resp3/writer.rs] (the frame writer), together with the interfaces to
    the asynchronous byte streams the reader and the writer are generic in.
    The stream implementations (tokio) are outside the repository: a reader or
    a writer is any instance of [AsyncBufRead] or [AsyncWrite], and what the
    code relies on is the classes [AsyncBufReadLaws] and [AsyncWriteLaws]. *)
From S2P Require Import Prelude RustStr.
Set Warnings "-register-all".
Open Scope Z_scope.

(** The text of a [std::io::Error], which is all the code looks at. *)
Abbreviation IoError := string (only parsing).

Inductive Resp3Frame :=
| SimpleString (s : string)
| SimpleError (s : string)
| Integer (n : Z)
| BulkString (b : bytes)
| Array (fs : list Resp3Frame)
| Map (ps : list (Resp3Frame * Resp3Frame))
| Push (fs : list Resp3Frame)
| Null.

Inductive ProtocolError :=
| InvalidTypeByte (b : byte)
| FrameTooLarge (n : Z)
| NestingTooDeep
| InvalidFormat (msg : string)
| Io (e : IoError).

(** [{:02x}] of a byte. *)
Definition hex_digit (n : Z) : ascii :=
  ascii_of_N (Z.to_N (if n <? 10 then 48 + n else 87 + n)).
Definition hex_byte (b : byte) : string :=
  String (hex_digit (byte_val b / 16)) (String (hex_digit (byte_val b mod 16)) "").

(** [Display for ProtocolError]. *)
Definition protocol_error_display (e : ProtocolError) : string :=
  match e with
  | InvalidTypeByte b => "invalid type byte: 0x" +:+ hex_byte b
  | FrameTooLarge n => "frame too large: " +:+ int_to_string n +:+ " bytes"
  | NestingTooDeep => "nesting too deep"
  | InvalidFormat m => "invalid format: " +:+ m
  | Io e => e
  end.

(** ** Byte streams *)

(** What [tokio::io::AsyncBufRead(Ext)] offers to the code: [fill_buf] peeks
    at the buffered bytes, [read_exact n] delivers exactly [n] bytes,
    [read_line] delivers a line with its terminator as text. *)
Class AsyncBufRead (R : Type) := {
  fill_buf : R -> result IoError (bytes * R);
  read_exact : nat -> R -> result IoError (bytes * R);
  reader_line : R -> result IoError (string * R);
}.

(** The bytes up to and including the first line feed, and the rest. *)
Fixpoint split_line (l : bytes) : bytes * bytes :=
  match l with
  | [] => ([], [])
  | b :: l' =>
      if decide (b = LF) then ([b], l')
      else let '(line, rest) := split_line l' in (b :: line, rest)
  end.

(** The documented behaviour of a stream that delivers [pending] and then
    ends: [fill_buf] returns an empty buffer only at the end of the stream and
    consumes nothing; [read_exact] fails when fewer bytes are left;
    [read_line] stops after a line feed or at the end, and fails on text that
    is not UTF-8. *)
Class AsyncBufReadLaws (R : Type) `{AsyncBufRead R} := {
  pending : R -> bytes;
  fill_buf_ok r : exists b r',
    fill_buf r = Ok (b, r') /\ pending r' = pending r /\ (b = [] <-> pending r = []);
  read_exact_ok n r : (n <= length (pending r))%nat -> exists r',
    read_exact n r = Ok (take n (pending r), r') /\ pending r' = drop n (pending r);
  read_exact_eof n r : (length (pending r) < n)%nat -> exists e, read_exact n r = Err e;
  reader_line_ok r : utf8 (split_line (pending r)).1 -> exists r',
    reader_line r = Ok (of_bytes (split_line (pending r)).1, r')
    /\ pending r' = (split_line (pending r)).2;
  reader_line_invalid r : ~ utf8 (split_line (pending r)).1 ->
    exists e, reader_line r = Err e;
}.

(** A stream held in memory, as the reader's own tests use it. *)
#[export] Instance bytes_reader : AsyncBufRead bytes := {
  fill_buf r := Ok (r, r);
  read_exact n r := if (length r <? n)%nat then Err "early eof" else Ok (take n r, drop n r);
  reader_line r :=
    let '(line, rest) := split_line r in
    match from_utf8 line with
    | Some s => Ok (s, rest)
    | None => Err "stream did not contain valid UTF-8"
    end;
}.

#[export, refine] Instance bytes_reader_laws : AsyncBufReadLaws bytes := {
  pending r := r;
}.
Proof.
  - intros r. by exists r, r.
  - intros n r Hn. exists (drop n r). simpl. by destruct (Nat.ltb_spec (length r) n); [lia|].
  - intros n r Hn. simpl. destruct (Nat.ltb_spec (length r) n); [eauto|lia].
  - intros r Hu. simpl. destruct (split_line r) as [line rest]; simpl in *.
    exists rest. unfold from_utf8. apply utf8_valid_spec in Hu. by rewrite Hu.
  - intros r Hu. simpl. destruct (split_line r) as [line rest]; simpl in *.
    unfold from_utf8. destruct (utf8_valid line) eqn:Hv; [|eauto].
    by apply utf8_valid_spec in Hv.
Defined.

(** What [tokio::io::AsyncWrite(Ext)] offers: [write_all] and [flush]. *)
Class AsyncWrite (W : Type) := {
  write_all : bytes -> W -> result IoError unit * W;
  flush : W -> result IoError unit * W;
}.

(** [written] is what has been handed to the stream: all of the data of a
    successful [write_all], a prefix of it when it fails. *)
Class AsyncWriteLaws (W : Type) `{AsyncWrite W} := {
  written : W -> bytes;
  write_all_ok d w w' : write_all d w = (Ok tt, w') -> written w' = written w ++ d;
  write_all_err d w e w' : write_all d w = (Err e, w') ->
    exists p, p `prefix_of` d /\ written w' = written w ++ p;
  flush_written w : written (flush w).2 = written w;
}.

(** ** The frame writer *)

(** Sequencing of writes: [?] on an [io::Result<()>]. *)
Definition then_write {W} (m : result IoError unit * W)
    (k : W -> result IoError unit * W) : result IoError unit * W :=
  match m with
  | (Ok _, w) => k w
  | (Err e, w) => (Err e, w)
  end.

Declare Scope write_scope.
Delimit Scope write_scope with write.
Notation "m ;; k" := (then_write m k) (at level 100, right associativity) : write_scope.

(** [for x in xs { f(x).await?; }] *)
Fixpoint write_each {W A} (f : A -> W -> result IoError unit * W) (xs : list A) (w : W)
    : result IoError unit * W :=
  match xs with
  | [] => (Ok tt, w)
  | x :: xs' => (f x w ;; write_each f xs')%write
  end.

Section Writer.
Context {W : Type} `{AsyncWrite W}.

Definition write_header (tag : string) (n : Z) (w : W) : result IoError unit * W :=
  (write_all (as_bytes tag) w ;; fun w =>
   write_all (as_bytes (int_to_string n)) w ;;
   write_all crlf)%write.

Fixpoint write_frame (f : Resp3Frame) (w : W) : result IoError unit * W :=
  (match f with
   | SimpleString s =>
       write_all (as_bytes "+") w ;; fun w => write_all (as_bytes s) w ;; write_all crlf
   | SimpleError s =>
       write_all (as_bytes "-") w ;; fun w => write_all (as_bytes s) w ;; write_all crlf
   | Integer n => write_header ":" n w
   | BulkString data =>
       write_header "$" (Z.of_nat (length data)) w ;; fun w =>
       write_all data w ;; write_all crlf
   | Array frames =>
       write_header "*" (Z.of_nat (length frames)) w ;; fun w =>
       write_each write_frame frames w
   | Map pairs =>
       write_header "%" (Z.of_nat (length pairs)) w ;; fun w =>
       write_each (fun '(k, v) w => write_frame k w ;; write_frame v) pairs w
   | Push frames =>
       write_header ">" (Z.of_nat (length frames)) w ;; fun w =>
       write_each write_frame frames w
   | Null => write_all (as_bytes "_" ++ crlf) w
   end)%write.

End Writer.

(** ** The encoding, as a function

    The reference the writer is compared with: the bytes of a frame. *)
Definition header (tag : string) (n : Z) : bytes :=
  as_bytes tag ++ as_bytes (int_to_string n) ++ crlf.

Fixpoint encode (f : Resp3Frame) : bytes :=
  match f with
  | SimpleString s => as_bytes "+" ++ as_bytes s ++ crlf
  | SimpleError s => as_bytes "-" ++ as_bytes s ++ crlf
  | Integer n => header ":" n
  | BulkString data => header "$" (Z.of_nat (length data)) ++ data ++ crlf
  | Array frames => header "*" (Z.of_nat (length frames)) ++ flat_map encode frames
  | Map pairs =>
      header "%" (Z.of_nat (length pairs))
      ++ flat_map (fun '(k, v) => encode k ++ encode v) pairs
  | Push frames => header ">" (Z.of_nat (length frames)) ++ flat_map encode frames
  | Null => as_bytes "_" ++ crlf
  end.

(** ** Induction over frames *)
Section FrameInd.
Variable P : Resp3Frame -> Prop.
Hypothesis P_simple : forall s, P (SimpleString s).
Hypothesis P_error : forall s, P (SimpleError s).
Hypothesis P_int : forall n, P (Integer n).
Hypothesis P_bulk : forall b, P (BulkString b).
Hypothesis P_array : forall fs, Forall P fs -> P (Array fs).
Hypothesis P_map : forall ps, Forall (fun p => P p.1 /\ P p.2) ps -> P (Map ps).
Hypothesis P_push : forall fs, Forall P fs -> P (Push fs).
Hypothesis P_null : P Null.

Fixpoint frame_ind' (f : Resp3Frame) : P f :=
  let go := fix go fs : Forall P fs :=
    match fs with
    | [] => Forall_nil_2 _
    | f :: fs' => Forall_cons_2 _ _ _ (frame_ind' f) (go fs')
    end in
  match f with
  | SimpleString s => P_simple s
  | SimpleError s => P_error s
  | Integer n => P_int n
  | BulkString b => P_bulk b
  | Array fs => P_array fs (go fs)
  | Map ps => P_map ps ((fix gop ps : Forall (fun p => P p.1 /\ P p.2) ps :=
      match ps with
      | [] => Forall_nil_2 _
      | (k, v) :: ps' =>
          Forall_cons_2 _ (k, v) ps' (conj (frame_ind' k) (frame_ind' v)) (gop ps')
      end) ps)
  | Push fs => P_push fs (go fs)
  | Null => P_null
  end.
End FrameInd.

(** ** The writer writes the encoding *)
Section WriterSpec.
Context {W : Type} `{AsyncWriteLaws W}.

(** [m], started in [w], hands over [d], or a prefix of it when it fails. *)
Definition writes (d : bytes) (w : W) (m : result IoError unit * W) : Prop :=
  match m with
  | (Ok _, w') => written w' = written w ++ d
  | (Err _, w') => exists p, p `prefix_of` d /\ written w' = written w ++ p
  end.

Lemma writes_all d w : writes d w (write_all d w).
Proof.
  unfold writes. destruct (write_all d w) as [[[]|e] w'] eqn:Hw.
  - by apply write_all_ok.
  - by eapply write_all_err.
Qed.

Lemma writes_then d1 d2 w m k :
  writes d1 w m -> (forall w1, writes d2 w1 (k w1)) -> writes (d1 ++ d2) w (then_write m k).
Proof.
  unfold writes, then_write. destruct m as [[u|e] w1]; intros H1 Hk.
  - specialize (Hk w1). destruct (k w1) as [[u'|e] w2].
    + by rewrite Hk, H1, app_assoc.
    + destruct Hk as (p & Hp & ->). exists (d1 ++ p). split.
      * by apply prefix_app.
      * by rewrite H1, app_assoc.
  - destruct H1 as (p & Hp & ->). exists p. split; [|done].
    by apply prefix_app_r.
Qed.

Lemma writes_each {A} (g : A -> bytes) (f : A -> W -> result IoError unit * W) xs :
  Forall (fun x => forall w, writes (g x) w (f x w)) xs ->
  forall w, writes (flat_map g xs) w (write_each f xs w).
Proof.
  induction 1 as [|x xs Hx _ IH]; intros w; simpl; [by rewrite app_nil_r|].
  apply writes_then; [apply Hx|apply IH].
Qed.

Lemma writes_header tag n w : writes (header tag n) w (write_header tag n w).
Proof. repeat (apply writes_then; [apply writes_all|intros]). apply writes_all. Qed.

(** The writer, on success, has written exactly the encoding of the frame
    and, on a failure of the stream, a prefix of it. *)
Lemma write_frame_writes f : forall w, writes (encode f) w (write_frame f w).
Proof.
  induction f as [s|s|n|b|fs IH|ps IH|fs IH|] using frame_ind'; intros w; cbn [encode write_frame].
  - repeat (apply writes_then; [apply writes_all|intros]). apply writes_all.
  - repeat (apply writes_then; [apply writes_all|intros]). apply writes_all.
  - apply writes_header.
  - apply writes_then; [apply writes_header|intros].
    apply writes_then; [apply writes_all|intros]. apply writes_all.
  - apply writes_then; [apply writes_header|]. by apply writes_each.
  - apply writes_then; [apply writes_header|].
    apply (writes_each (fun '(k, v) => encode k ++ encode v)).
    eapply Forall_impl; [exact IH|]. intros [k v] [Hk Hv] w1; simpl in *.
    by apply writes_then.
  - apply writes_then; [apply writes_header|]. by apply writes_each.
  - apply writes_all.
Qed.
End WriterSpec.
