(* ===== verification/Resp3Reader.v ===== *)
(** * The RESP3 frame reader

    Models [shroudb-protocol/src/resp3/reader.rs]: [read_frame],
    [read_frame_depth] and [read_line], over any buffered stream. *)
From S2P Require Import Prelude RustStr Resp3.
Open Scope Z_scope.

(** Maximum bulk string size: 16 MiB. *)
Definition MAX_BULK_SIZE : Z := 16 * 1024 * 1024.
(** Maximum number of elements in an array or map. *)
Definition MAX_COLLECTION_SIZE : Z := 100000.
(** Maximum nesting depth for arrays and maps. *)
Definition MAX_DEPTH : Z := 8.

(** [ends_with(c)] followed by [pop()]: the text without its last character
    when that character is [c]. *)
Fixpoint pop_char (c : ascii) (s : string) : option string :=
  match s with
  | EmptyString => None
  | String a EmptyString => if Ascii.eqb a c then Some EmptyString else None
  | String a s' =>
      match pop_char c s' with Some t => Some (String a t) | None => None end
  end.

(** The line terminator removal of [read_line]: a final [\n], and then one
    [\r] before it. *)
Definition chomp (line : string) : string :=
  match pop_char (ascii_of_byte LF) line with
  | Some l => match pop_char (ascii_of_byte CR) l with Some l' => l' | None => l end
  | None => line
  end.

Section Reader.
Context {R : Type} `{AsyncBufRead R}.

Definition read_line (r : R) : result ProtocolError (string * R) :=
  '(line, r) ← map_err Io (reader_line r);
  Ok (chomp line, r).

(** The length or count after a type byte: a line, parsed as a [usize]. *)
Definition read_length (what : string) (r : R) : result ProtocolError (Z * R) :=
  '(line, r) ← read_line r;
  n ← map_err (fun e => InvalidFormat ("bad " +:+ what +:+ " length: " +:+ int_error_display e))
        (parse_usize line);
  Ok (n, r).

(** The trailing [\r\n] of a bulk string or a null. *)
Definition read_crlf (what : string) (r : R) : result ProtocolError (unit * R) :=
  '(b, r) ← map_err Io (read_exact 2 r);
  if decide (b = crlf) then Ok (tt, r)
  else Err (InvalidFormat ("missing CRLF after " +:+ what)).

(** [for _ in 0..count { frames.push(read(..)?) }], an end of stream inside
    being an error. *)
Fixpoint read_elements (rd : R -> result ProtocolError (option Resp3Frame * R))
    (what : string) (count : nat) (r : R) : result ProtocolError (list Resp3Frame * R) :=
  match count with
  | O => Ok ([], r)
  | S count' =>
      '(o, r) ← rd r;
      match o with
      | None => Err (InvalidFormat ("unexpected EOF in " +:+ what))
      | Some f =>
          '(fs, r) ← read_elements rd what count' r;
          Ok (f :: fs, r)
      end
  end.

Fixpoint read_pairs (rd : R -> result ProtocolError (option Resp3Frame * R))
    (count : nat) (r : R) : result ProtocolError (list (Resp3Frame * Resp3Frame) * R) :=
  match count with
  | O => Ok ([], r)
  | S count' =>
      '(ok, r) ← rd r;
      match ok with
      | None => Err (InvalidFormat "unexpected EOF in map key")
      | Some key =>
          '(ov, r) ← rd r;
          match ov with
          | None => Err (InvalidFormat "unexpected EOF in map value")
          | Some value =>
              '(ps, r) ← read_pairs rd count' r;
              Ok ((key, value) :: ps, r)
          end
      end
  end.

(** What follows the type byte; [rd] reads a frame one level deeper. *)
Definition read_typed (rd : R -> result ProtocolError (option Resp3Frame * R))
    (type_byte : byte) (r : R) : result ProtocolError (option Resp3Frame * R) :=
  if decide (type_byte = Byte.x2b) then       (* '+' *)
    '(line, r) ← read_line r; Ok (Some (SimpleString line), r)
  else if decide (type_byte = Byte.x2d) then  (* '-' *)
    '(line, r) ← read_line r; Ok (Some (SimpleError line), r)
  else if decide (type_byte = Byte.x3a) then  (* ':' *)
    '(line, r) ← read_line r;
    n ← map_err (fun e => InvalidFormat ("bad integer: " +:+ int_error_display e))
          (parse_i64 line);
    Ok (Some (Integer n), r)
  else if decide (type_byte = Byte.x24) then  (* '$' *)
    '(len, r) ← read_length "bulk" r;
    if MAX_BULK_SIZE <? len then Err (FrameTooLarge len)
    else
      '(buf, r) ← map_err Io (read_exact (Z.to_nat len) r);
      '(_, r) ← read_crlf "bulk string" r;
      Ok (Some (BulkString buf), r)
  else if decide (type_byte = Byte.x2a) then  (* '*' *)
    '(count, r) ← read_length "array" r;
    if MAX_COLLECTION_SIZE <? count then Err (FrameTooLarge count)
    else
      '(frames, r) ← read_elements rd "array" (Z.to_nat count) r;
      Ok (Some (Array frames), r)
  else if decide (type_byte = Byte.x25) then  (* '%' *)
    '(count, r) ← read_length "map" r;
    if MAX_COLLECTION_SIZE <? count then Err (FrameTooLarge count)
    else
      '(pairs, r) ← read_pairs rd (Z.to_nat count) r;
      Ok (Some (Map pairs), r)
  else if decide (type_byte = Byte.x3e) then  (* '>' *)
    '(count, r) ← read_length "push" r;
    if MAX_COLLECTION_SIZE <? count then Err (FrameTooLarge count)
    else
      '(frames, r) ← read_elements rd "push frame" (Z.to_nat count) r;
      Ok (Some (Push frames), r)
  else if decide (type_byte = Byte.x5f) then  (* '_' *)
    '(_, r) ← read_crlf "null" r;
    Ok (Some Null, r)
  else Err (InvalidTypeByte type_byte).

(** One frame at nesting depth [depth].  The recursion stops by itself once
    [depth] exceeds [MAX_DEPTH]; [fuel] only makes this visible to Rocq, and
    [read_frame_depth_fuel] shows that it never decides the result. *)
Fixpoint read_frame_depth (fuel : nat) (depth : Z) (r : R)
    : result ProtocolError (option Resp3Frame * R) :=
  if MAX_DEPTH <? depth then Err NestingTooDeep
  else
    match fuel with
    | O => Err NestingTooDeep
    | S fuel' =>
        '(buf, r) ← map_err Io (fill_buf r);
        match buf with
        | [] => Ok (None, r)
        | _ :: _ =>
            '(b, r) ← map_err Io (read_exact 1 r);
            read_typed (read_frame_depth fuel' (depth + 1)) (hd Byte.x00 b) r
        end
    end.

(** Depths 0 to 8 are read, depth 9 is refused before anything is read. *)
Definition read_fuel : nat := 9.

Definition read_frame (r : R) : result ProtocolError (option Resp3Frame * R) :=
  read_frame_depth read_fuel 0 r.

End Reader.

(** ** Frames the protocol can carry

    [frame_sane] collects what the wire format needs of a frame: simple
    strings and errors are one line of UTF-8 text, integers fit an [i64],
    bulk strings and collections respect the reader's limits. *)
Definition line_safe (s : string) : bool :=
  utf8_valid (as_bytes s) && forallb (fun b => negb (bool_decide (b = LF))) (as_bytes s).

Fixpoint frame_sane (f : Resp3Frame) : bool :=
  match f with
  | SimpleString s | SimpleError s => line_safe s
  | Integer n => (- two63 <=? n) && (n <? two63)
  | BulkString b => Z.of_nat (length b) <=? MAX_BULK_SIZE
  | Array fs | Push fs =>
      (Z.of_nat (length fs) <=? MAX_COLLECTION_SIZE) && forallb frame_sane fs
  | Map ps =>
      (Z.of_nat (length ps) <=? MAX_COLLECTION_SIZE)
      && forallb (fun '(k, v) => frame_sane k && frame_sane v) ps
  | Null => true
  end.

Definition max_list (l : list nat) : nat := foldr Nat.max 0%nat l.

(** Levels of nesting below the frame. *)
Fixpoint frame_depth (f : Resp3Frame) : nat :=
  match f with
  | Array fs | Push fs => max_list (map (fun g => S (frame_depth g)) fs)
  | Map ps => max_list (map (fun '(k, v) => S (Nat.max (frame_depth k) (frame_depth v))) ps)
  | _ => 0%nat
  end.

(** ** Lines *)

Lemma pop_char_snoc c s : pop_char c (s +:+ String c "") = Some s.
Proof.
  induction s as [|a s IH]; [simpl; by rewrite Ascii.eqb_refl|].
  change (String a s +:+ String c "") with (String a (s +:+ String c "")).
  assert (s +:+ String c "" <> EmptyString) as Hne by (by destruct s).
  destruct (s +:+ String c "") as [|b t] eqn:Ht; [done|].
  cbn [pop_char]. cbn [pop_char] in IH. by rewrite IH.
Qed.

Lemma chomp_crlf b : chomp (of_bytes (b ++ crlf)) = of_bytes b.
Proof.
  unfold chomp, crlf. change [CR; LF] with ([CR] ++ [LF]).
  rewrite app_assoc, of_bytes_app.
  change (of_bytes [LF]) with (String (ascii_of_byte LF) "").
  rewrite pop_char_snoc, of_bytes_app.
  change (of_bytes [CR]) with (String (ascii_of_byte CR) "").
  by rewrite pop_char_snoc.
Qed.

Lemma split_line_crlf b rest :
  LF ∉ b -> split_line (b ++ crlf ++ rest) = (b ++ crlf, rest).
Proof.
  induction b as [|c b IH]; intros Hb; [done|].
  apply not_elem_of_cons in Hb as [Hc Hb]. cbn [split_line app].
  destruct (decide (c = LF)) as [->|_]; [done|].
  by rewrite IH.
Qed.

Lemma utf8_crlf b : utf8 b -> utf8 (b ++ crlf).
Proof. intros Hb. apply utf8_app; [done|]. apply utf8_ascii. by repeat constructor. Qed.

Lemma line_safe_spec s : line_safe s = true <-> utf8 (as_bytes s) /\ LF ∉ as_bytes s.
Proof.
  unfold line_safe. rewrite andb_true_iff, utf8_valid_spec, forallb_forall.
  split; intros [Hu Hl]; split; try done.
  - intros Hin. apply list_elem_of_In in Hin. by apply Hl in Hin.
  - intros b Hin. apply list_elem_of_In in Hin. apply negb_true_iff, bool_decide_eq_false.
    by intros ->.
Qed.

(** Reading back a line that was written with its terminator. *)
Lemma read_line_crlf s rest :
  utf8 (as_bytes s) -> LF ∉ as_bytes s ->
  read_line (as_bytes s ++ crlf ++ rest) = Ok (s, rest).
Proof.
  intros Hu Hl. unfold read_line. cbn [reader_line bytes_reader]. rewrite split_line_crlf by done.
  assert (from_utf8 (as_bytes s ++ crlf) = Some (of_bytes (as_bytes s ++ crlf))) as ->.
  { apply from_utf8_Some. split; [by apply utf8_crlf|done]. }
  simpl. by rewrite chomp_crlf, of_as_bytes.
Qed.

Lemma read_length_crlf what n rest :
  in_u64 n ->
  read_length what (as_bytes (int_to_string n) ++ crlf ++ rest) = Ok (n, rest).
Proof.
  intros Hn. unfold read_length.
  rewrite read_line_crlf by auto with shroud. simpl.
  unfold parse_usize. by rewrite parse_u64_to_string.
Qed.

Lemma read_crlf_crlf what rest : read_crlf what (crlf ++ rest) = Ok (tt, rest).
Proof. by destruct rest. Qed.

Lemma read_exact_app b rest :
  read_exact (length b) (b ++ rest) = Ok (b, rest).
Proof.
  simpl. rewrite (proj2 (Nat.ltb_ge _ _)) by (rewrite length_app; lia).
  by rewrite take_app_length, drop_app_length.
Qed.

(** ** Round trip *)

(** Selects the branch of [read_typed] for a known type byte. *)
Ltac typed :=
  unfold read_typed; repeat (rewrite decide_False by done); rewrite decide_True by done.

Lemma read_frame_depth_cons fuel depth b l :
  depth <= MAX_DEPTH ->
  read_frame_depth (S fuel) depth (b :: l)
  = read_typed (read_frame_depth fuel (depth + 1)) b l.
Proof.
  intros Hd. cbn [read_frame_depth]. rewrite (proj2 (Z.ltb_ge _ _)) by done.
  cbn [fill_buf read_exact bytes_reader map_err mbind result_bind length Nat.ltb Nat.leb take drop hd].
  by rewrite drop_0.
Qed.

Lemma read_elements_encode rd what fs rest :
  Forall (fun f => forall rest, rd (encode f ++ rest) = Ok (Some f, rest)) fs ->
  read_elements rd what (length fs) (flat_map encode fs ++ rest) = Ok (fs, rest).
Proof.
  induction 1 as [|f fs Hf _ IH]; [done|].
  cbn [length read_elements flat_map]. rewrite <- app_assoc, Hf. simpl.
  by rewrite IH.
Qed.

Lemma read_pairs_encode rd ps rest :
  Forall (fun p => forall rest, rd (encode p.1 ++ rest) = Ok (Some p.1, rest)) ps ->
  Forall (fun p => forall rest, rd (encode p.2 ++ rest) = Ok (Some p.2, rest)) ps ->
  read_pairs rd (length ps) (flat_map (fun '(k, v) => encode k ++ encode v) ps ++ rest)
  = Ok (ps, rest).
Proof.
  induction ps as [|[k v] ps IH]; [done|].
  intros [Hk Hks]%Forall_cons [Hv Hvs]%Forall_cons. simpl in Hk, Hv.
  cbn [length read_pairs flat_map]. rewrite <- !app_assoc, Hk. simpl.
  rewrite Hv. simpl. by rewrite IH.
Qed.

Lemma max_list_le l n : (max_list l <= n)%nat <-> Forall (fun x => (x <= n)%nat) l.
Proof.
  induction l as [|x l IH]; simpl; [split; [constructor|lia]|].
  rewrite Forall_cons, <- IH. fold (max_list l). lia.
Qed.

Lemma frame_depth_array fs n :
  (max_list (map (fun g => S (frame_depth g)) fs) <= n)%nat ->
  Forall (fun f => (S (frame_depth f) <= n)%nat) fs.
Proof. by rewrite max_list_le, Forall_map. Qed.

Lemma in_u64_collection n : 0 <= n <= MAX_COLLECTION_SIZE -> in_u64 n.
Proof. unfold MAX_COLLECTION_SIZE, in_u64, two64. lia. Qed.

Lemma in_u64_bulk n : 0 <= n <= MAX_BULK_SIZE -> in_u64 n.
Proof. unfold MAX_BULK_SIZE, in_u64, two64. lia. Qed.

(** [read_frame_depth] applied to an encoding that starts with tag [c]. *)
Ltac read_tag :=
  unfold header; rewrite <- ?app_assoc;
  match goal with |- context [as_bytes ?t ++ _] =>
    let b := eval vm_compute in (as_bytes t) in change (as_bytes t) with b end;
  cbn [app]; rewrite read_frame_depth_cons by (unfold MAX_DEPTH in *; lia); typed.

Lemma read_encode_elements (what : string) fuel depth fs rest :
  Forall (fun f => forall fuel depth rest, frame_sane f = true ->
    (frame_depth f < fuel)%nat -> depth + Z.of_nat (frame_depth f) <= MAX_DEPTH ->
    read_frame_depth fuel depth (encode f ++ rest) = Ok (Some f, rest)) fs ->
  forallb frame_sane fs = true ->
  (max_list (map (fun g => S (frame_depth g)) fs) < S fuel)%nat ->
  depth + Z.of_nat (max_list (map (fun g => S (frame_depth g)) fs)) <= MAX_DEPTH ->
  read_elements (read_frame_depth fuel (depth + 1)) what (length fs)
    (flat_map encode fs ++ rest) = Ok (fs, rest).
Proof.
  intros IH Hsane Hfuel Hdepth. apply read_elements_encode.
  pose proof (frame_depth_array fs _ (le_n _)) as Hmax.
  rewrite forallb_forall in Hsane. rewrite Forall_forall in IH, Hmax |- *.
  intros f Hin rest'. specialize (Hmax f Hin). apply IH; [done| |lia|lia].
  by apply Hsane, list_elem_of_In.
Qed.

(** The general form, at any depth and with any sufficient fuel. *)
Lemma read_encode f : forall fuel depth rest,
  frame_sane f = true ->
  (frame_depth f < fuel)%nat -> depth + Z.of_nat (frame_depth f) <= MAX_DEPTH ->
  read_frame_depth fuel depth (encode f ++ rest) = Ok (Some f, rest).
Proof.
  induction f as [s|s|n|b|fs IH|ps IH|fs IH|] using frame_ind';
    intros fuel depth rest Hsane Hfuel Hdepth;
    (destruct fuel as [|fuel]; [lia|]); cbn [encode frame_sane frame_depth] in *.
  - read_tag. apply line_safe_spec in Hsane as []. by rewrite read_line_crlf.
  - read_tag. apply line_safe_spec in Hsane as []. by rewrite read_line_crlf.
  - read_tag. rewrite read_line_crlf by auto with shroud. simpl.
    rewrite parse_i64_to_string; [done|]. unfold in_i64, two63 in *. lia.
  - read_tag. rewrite read_length_crlf by (apply in_u64_bulk; lia).
    cbn [mbind result_bind]. rewrite (proj2 (Z.ltb_ge _ _)) by lia.
    rewrite Nat2Z.id, read_exact_app. cbn [mbind result_bind map_err].
    by rewrite read_crlf_crlf.
  - apply andb_true_iff in Hsane as [Hlen Hsane].
    read_tag. rewrite read_length_crlf by (apply in_u64_collection; lia).
    cbn [mbind result_bind]. rewrite (proj2 (Z.ltb_ge _ _)) by lia.
    rewrite Nat2Z.id, read_encode_elements by done. done.
  - apply andb_true_iff in Hsane as [Hlen Hsane].
    read_tag. rewrite read_length_crlf by (apply in_u64_collection; lia).
    cbn [mbind result_bind]. rewrite (proj2 (Z.ltb_ge _ _)) by lia.
    rewrite Nat2Z.id, read_pairs_encode; [done|..];
      rewrite forallb_forall in Hsane;
      pose proof (proj1 (max_list_le _ _) (le_n (max_list (map (fun '(k, v) =>
        S (Nat.max (frame_depth k) (frame_depth v))) ps)))) as Hmax;
      rewrite Forall_map, Forall_forall in Hmax;
      rewrite Forall_forall in IH |- *; intros [k v] Hin rest';
      specialize (Hmax _ Hin); cbn beta iota in Hmax;
      destruct (IH _ Hin) as [IHk IHv]; cbn [fst snd] in IHk, IHv;
      apply list_elem_of_In in Hin; apply Hsane, andb_true_iff in Hin as [??]; simpl.
    + apply IHk; [done|lia|lia].
    + apply IHv; [done|lia|lia].
  - apply andb_true_iff in Hsane as [Hlen Hsane].
    read_tag. rewrite read_length_crlf by (apply in_u64_collection; lia).
    cbn [mbind result_bind]. rewrite (proj2 (Z.ltb_ge _ _)) by lia.
    rewrite Nat2Z.id, read_encode_elements by done. done.
  - read_tag. by rewrite read_crlf_crlf.
Qed.

Lemma read_encode_frame f rest :
  frame_sane f = true -> Z.of_nat (frame_depth f) <= MAX_DEPTH ->
  read_frame (encode f ++ rest) = Ok (Some f, rest).
Proof.
  intros Hs Hd. apply read_encode; [done| |lia].
  unfold read_fuel, MAX_DEPTH in *. lia.
Qed.

(** A sane frame nested too deeply is refused, wherever the deep part is. *)
Lemma read_elements_deep rd what fs rest :
  Forall (fun f => forall rest, rd (encode f ++ rest) = Ok (Some f, rest)
                   \/ rd (encode f ++ rest) = Err NestingTooDeep) fs ->
  Exists (fun f => forall rest, rd (encode f ++ rest) = Err NestingTooDeep) fs ->
  read_elements rd what (length fs) (flat_map encode fs ++ rest) = Err NestingTooDeep.
Proof.
  intros Hall Hex. induction Hall as [|f fs Hf _ IH]; [by inversion Hex|].
  cbn [length read_elements flat_map]. rewrite <- app_assoc.
  destruct (Hf (flat_map encode fs ++ rest)) as [Hok| ->]; [|done].
  rewrite Hok. simpl. apply Exists_cons in Hex as [Hbad|Hex]; [congruence|].
  by rewrite IH.
Qed.

Lemma read_pairs_deep rd ps rest :
  Forall (fun p => forall rest, rd (encode p.1 ++ rest) = Ok (Some p.1, rest)
                   \/ rd (encode p.1 ++ rest) = Err NestingTooDeep) ps ->
  Forall (fun p => forall rest, rd (encode p.2 ++ rest) = Ok (Some p.2, rest)
                   \/ rd (encode p.2 ++ rest) = Err NestingTooDeep) ps ->
  Exists (fun p => (forall rest, rd (encode p.1 ++ rest) = Err NestingTooDeep)
                   \/ (forall rest, rd (encode p.2 ++ rest) = Err NestingTooDeep)) ps ->
  read_pairs rd (length ps) (flat_map (fun '(k, v) => encode k ++ encode v) ps ++ rest)
  = Err NestingTooDeep.
Proof.
  induction ps as [|[k v] ps IH]; intros Hk Hv Hex; [by inversion Hex|].
  apply Forall_cons in Hk as [Hk Hks], Hv as [Hv Hvs]. cbn [fst snd] in Hk, Hv.
  cbn [length read_pairs flat_map]. rewrite <- !app_assoc.
  destruct (Hk (encode v ++ flat_map (fun '(k, v) => encode k ++ encode v) ps ++ rest))
    as [Hok| ->]; [|done].
  rewrite Hok. cbn [mbind result_bind].
  destruct (Hv (flat_map (fun '(k, v) => encode k ++ encode v) ps ++ rest))
    as [Hok'| ->]; [|done].
  rewrite Hok'. cbn [mbind result_bind].
  apply Exists_cons in Hex as [[Hbad|Hbad]|Hex]; [cbn [fst snd] in Hbad; congruence..|].
  by rewrite IH.
Qed.

Lemma max_list_lt l n : (n < max_list l)%nat -> Exists (fun x => (n < x)%nat) l.
Proof.
  induction l as [|x l IH]; simpl; [lia|]. fold (max_list l).
  intros H. destruct (decide (n < x)%nat); [by constructor|]. right. apply IH. lia.
Qed.

(** The two outcomes for a sane frame at a given depth. *)
Definition deep_or_read (f : Resp3Frame) : Prop :=
  forall fuel depth rest,
  frame_sane f = true -> depth <= MAX_DEPTH + 1 -> (Z.to_nat (MAX_DEPTH + 1 - depth) <= fuel)%nat ->
  read_frame_depth fuel depth (encode f ++ rest)
  = if depth + Z.of_nat (frame_depth f) <=? MAX_DEPTH
    then Ok (Some f, rest) else Err NestingTooDeep.

Lemma read_frame_depth_over fuel depth (l : bytes) :
  MAX_DEPTH < depth -> read_frame_depth fuel depth l = Err NestingTooDeep.
Proof. intros Hd. destruct fuel; simpl; by rewrite (proj2 (Z.ltb_lt _ _)). Qed.

(** What [deep_or_read] gives for an element read one level down. *)
Lemma deep_or_read_element f fuel depth :
  deep_or_read f -> frame_sane f = true -> depth <= MAX_DEPTH ->
  (Z.to_nat (MAX_DEPTH - depth) <= fuel)%nat ->
  (forall rest, read_frame_depth fuel (depth + 1) (encode f ++ rest) = Ok (Some f, rest)
    \/ read_frame_depth fuel (depth + 1) (encode f ++ rest) = Err NestingTooDeep)
  /\ (MAX_DEPTH < depth + Z.of_nat (S (frame_depth f)) ->
      forall rest, read_frame_depth fuel (depth + 1) (encode f ++ rest) = Err NestingTooDeep).
Proof.
  intros Hf Hs Hd Hfuel. split.
  - intros rest. rewrite Hf by (done || lia). case_match; auto.
  - intros Hdeep rest. rewrite Hf by (done || lia).
    by rewrite (proj2 (Z.leb_gt _ _)) by lia.
Qed.

Lemma deep_elements what fuel depth fs rest :
  Forall deep_or_read fs -> forallb frame_sane fs = true -> depth <= MAX_DEPTH ->
  (Z.to_nat (MAX_DEPTH - depth) <= fuel)%nat ->
  MAX_DEPTH < depth + Z.of_nat (max_list (map (fun g => S (frame_depth g)) fs)) ->
  read_elements (read_frame_depth fuel (depth + 1)) what (length fs)
    (flat_map encode fs ++ rest) = Err NestingTooDeep.
Proof.
  intros IH Hsane Hd Hfuel Hdeep. rewrite forallb_forall in Hsane.
  rewrite Forall_forall in IH. apply read_elements_deep.
  - apply Forall_forall. intros f Hin.
    apply deep_or_read_element; [by apply IH| |done|done].
    by apply Hsane, list_elem_of_In.
  - assert (Z.to_nat (MAX_DEPTH - depth) < max_list (map (fun g => S (frame_depth g)) fs))%nat
      as Hlt%max_list_lt by lia.
    apply Exists_exists in Hlt as (x & Hx & Hlt).
    apply list_elem_of_fmap in Hx as (f & -> & Hin).
    apply Exists_exists. exists f. split; [done|].
    apply deep_or_read_element; [by apply IH| |done|done|lia].
    by apply Hsane, list_elem_of_In.
Qed.

Lemma deep_pairs fuel depth ps rest :
  Forall (fun p => deep_or_read p.1 /\ deep_or_read p.2) ps ->
  forallb (fun '(k, v) => frame_sane k && frame_sane v) ps = true -> depth <= MAX_DEPTH ->
  (Z.to_nat (MAX_DEPTH - depth) <= fuel)%nat ->
  MAX_DEPTH < depth + Z.of_nat (max_list (map (fun '(k, v) =>
    S (Nat.max (frame_depth k) (frame_depth v))) ps)) ->
  read_pairs (read_frame_depth fuel (depth + 1)) (length ps)
    (flat_map (fun '(k, v) => encode k ++ encode v) ps ++ rest) = Err NestingTooDeep.
Proof.
  intros IH Hsane Hd Hfuel Hdeep. rewrite forallb_forall in Hsane.
  rewrite Forall_forall in IH.
  assert (forall p, p ∈ ps -> frame_sane p.1 = true /\ frame_sane p.2 = true) as Hs.
  { intros [k v] Hin%list_elem_of_In. apply Hsane in Hin. by apply andb_true_iff in Hin. }
  apply read_pairs_deep.
  - apply Forall_forall. intros p Hin.
    apply deep_or_read_element; [by apply IH|by apply Hs|done|done].
  - apply Forall_forall. intros p Hin.
    apply deep_or_read_element; [by apply IH|by apply Hs|done|done].
  - assert (Z.to_nat (MAX_DEPTH - depth) < max_list (map (fun '(k, v) =>
      S (Nat.max (frame_depth k) (frame_depth v))) ps))%nat as Hlt%max_list_lt by lia.
    apply Exists_exists in Hlt as (x & Hx & Hlt).
    apply list_elem_of_fmap in Hx as ([k v] & -> & Hin).
    apply Exists_exists. exists (k, v). split; [done|].
    destruct (IH _ Hin) as [IHk IHv]. destruct (Hs _ Hin) as [Hsk Hsv].
    destruct (Nat.max_spec (frame_depth k) (frame_depth v)) as [[? ?]|[? ?]];
      [right|left]; eapply deep_or_read_element; eauto; cbn [fst snd] in *; lia.
Qed.

Lemma read_encode_deep f : deep_or_read f.
Proof.
  induction f as [s|s|n|b|fs IH|ps IH|fs IH|] using frame_ind';
    intros fuel depth rest Hsane Hle Hfuel;
    (match goal with |- context [if ?x <=? ?y then _ else _] =>
       destruct (Z.leb_spec x y) as [Hshallow|Hdeep] end;
     [apply read_encode; [done|lia|lia]|]);
    (destruct (Z.ltb_spec MAX_DEPTH depth) as [Hover|Hd];
     [by apply read_frame_depth_over|]);
    cbn [encode frame_sane frame_depth] in *; try lia;
    (destruct fuel as [|fuel]; [unfold MAX_DEPTH in *; lia|]);
    apply andb_true_iff in Hsane as [Hlen Hsane];
    read_tag; rewrite read_length_crlf by (apply in_u64_collection; lia);
    cbn [mbind result_bind]; rewrite (proj2 (Z.ltb_ge _ _)) by lia; rewrite Nat2Z.id.
  - rewrite deep_elements; [done|done|done|done|lia|lia].
  - rewrite deep_pairs; [done|done|done|done|lia|lia].
  - rewrite deep_elements; [done|done|done|done|lia|lia].
Qed.

(** ** What the reader accepts *)

Lemma split_line_app l line rest :
  split_line l = (line, rest) -> l = line ++ rest.
Proof.
  revert line rest. induction l as [|b l IH]; intros line rest; simpl.
  - by intros [= <- <-].
  - case_decide; [by intros [= <- <-]|].
    destruct (split_line l) as [line' rest'] eqn:Hl. intros [= <- <-].
    simpl. f_equal. by apply IH.
Qed.

(** A line has its only line feed at the end, if it has one. *)
Lemma split_line_LF l line rest :
  split_line l = (line, rest) ->
  LF ∉ line \/ exists body, line = body ++ [LF] /\ LF ∉ body.
Proof.
  revert line rest. induction l as [|b l IH]; intros line rest; simpl.
  - intros [= <- <-]. left. apply not_elem_of_nil.
  - case_decide as Hb.
    + intros [= <- <-]. right. exists []. subst b. split; [done|apply not_elem_of_nil].
    + destruct (split_line l) as [line' rest'] eqn:Hl. intros [= <- <-].
      destruct (IH line' rest' eq_refl) as [Hn|(body & -> & Hn)].
      * left. by apply not_elem_of_cons.
      * right. exists (b :: body). split; [done|]. by apply not_elem_of_cons.
Qed.

Lemma pop_char_Some c s t : pop_char c s = Some t -> s = t +:+ String c "".
Proof.
  revert t. induction s as [|a s IH]; intros t; [done|].
  destruct s as [|b s].
  - simpl. destruct (Ascii.eqb_spec a c); [|done]. intros [= <-]. by subst.
  - cbn [pop_char] in *. destruct (match s with EmptyString => _ | _ => _ end) as [t'|]; [|done].
    intros [= <-]. rewrite (IH t') by done. done.
Qed.

Lemma pop_char_of_bytes b l t :
  pop_char (ascii_of_byte b) (of_bytes l) = Some t -> l = as_bytes t ++ [b].
Proof.
  intros H%pop_char_Some. apply (f_equal as_bytes) in H.
  rewrite as_of_bytes, as_bytes_app in H. rewrite H, as_bytes_cons.
  by rewrite byte_of_ascii_of_byte.
Qed.

(** What is left of a line without its terminator is one line of text. *)
Lemma chomp_safe l line rest :
  split_line l = (line, rest) -> utf8 line -> line_safe (chomp (of_bytes line)) = true.
Proof.
  intros Hl Hu. apply line_safe_spec. unfold chomp.
  destruct (pop_char (ascii_of_byte LF) (of_bytes line)) as [t|] eqn:Hp.
  - apply pop_char_of_bytes in Hp. subst line.
    assert (utf8 (as_bytes t)) as Hut by (by eapply utf8_snoc_ascii; [|exact Hu]).
    assert (LF ∉ as_bytes t) as Hlt.
    { destruct (split_line_LF _ _ _ Hl) as [Hn|(body & Hb & Hn)].
      - rewrite not_elem_of_app, not_elem_of_cons in Hn. by destruct Hn as (? & ? & ?).
      - by apply app_inj_tail in Hb as [-> _]. }
    destruct (pop_char (ascii_of_byte CR) t) as [u|] eqn:Hp'; [|done].
    rewrite <- (of_as_bytes t) in Hp'. apply pop_char_of_bytes in Hp'.
    rewrite Hp' in Hut, Hlt. rewrite not_elem_of_app in Hlt.
    split; [by eapply utf8_snoc_ascii; [|exact Hut]|by destruct Hlt].
  - rewrite as_of_bytes. split; [done|].
    destruct (split_line_LF _ _ _ Hl) as [Hn|(body & -> & _)]; [done|].
    rewrite of_bytes_app in Hp. change (of_bytes [LF]) with (String (ascii_of_byte LF) "") in Hp.
    by rewrite pop_char_snoc in Hp.
Qed.

Lemma read_line_sound (l : bytes) s rest :
  read_line l = Ok (s, rest) -> line_safe s = true /\ exists c, l = c ++ rest.
Proof.
  unfold read_line. cbn [reader_line bytes_reader].
  destruct (split_line l) as [line rest'] eqn:Hl.
  destruct (from_utf8 line) as [t|] eqn:Hu; [|done]. apply from_utf8_Some in Hu as [Hu ->].
  intros [= <- <-]. split; [by eapply chomp_safe|]. exists line. by eapply split_line_app.
Qed.

Lemma read_length_sound what (l : bytes) n rest :
  read_length what l = Ok (n, rest) -> in_u64 n /\ exists c, l = c ++ rest.
Proof.
  unfold read_length. destruct (read_line l) as [[s r]|] eqn:Hl; [|done]. simpl.
  destruct (parse_usize s) as [m|] eqn:Hp; [|done]. intros [= <- <-].
  split; [by eapply parse_u64_range|by eapply read_line_sound].
Qed.

Lemma read_exact_sound n (l : bytes) b rest :
  read_exact n l = Ok (b, rest) -> length b = n /\ l = b ++ rest.
Proof.
  simpl. destruct (Nat.ltb_spec (length l) n); [done|]. intros [= <- <-].
  rewrite length_take, take_drop. split; [lia|done].
Qed.

Lemma read_crlf_sound what (l : bytes) u rest :
  read_crlf what l = Ok (u, rest) -> exists c, l = c ++ rest.
Proof.
  unfold read_crlf. destruct (read_exact 2 l) as [[b r]|] eqn:Hr; [|done]. simpl.
  case_decide; [|done]. intros [= <- <-].
  apply read_exact_sound in Hr as [_ ->]. by exists b.
Qed.

(** [rd] reads sane frames nested at most [d] deep and consumes input for them. *)
Definition reads_sane (d : Z) (rd : bytes -> result ProtocolError (option Resp3Frame * bytes)) :=
  forall l o rest, rd l = Ok (o, rest) ->
  (exists c, l = c ++ rest)
  /\ match o with
     | None => l = []
     | Some f => (length rest < length l)%nat /\ frame_sane f = true /\ Z.of_nat (frame_depth f) <= d
     end.

Lemma read_elements_sound d rd what n l fs rest :
  -1 <= d -> reads_sane d rd -> read_elements rd what n l = Ok (fs, rest) ->
  length fs = n /\ (exists c, l = c ++ rest)
  /\ forallb frame_sane fs = true /\ Z.of_nat (max_list (map (fun g => S (frame_depth g)) fs)) <= d + 1.
Proof.
  intros Hd0 Hrd. revert l fs rest. induction n as [|n IH]; intros l fs rest; simpl.
  - intros [= <- <-]. repeat split; [by exists []|simpl; lia].
  - destruct (rd l) as [[o r]|] eqn:Hr; [|done]. simpl.
    destruct o as [f|]; [|done].
    destruct (read_elements rd what n r) as [[fs' r']|] eqn:He; [|done].
    intros [= <- <-]. apply Hrd in Hr as [[c ->] (_ & Hs & Hd)].
    apply IH in He as (<- & [c' ->] & Hfs & Hm). simpl. rewrite Hs, Hfs. fold max_list.
    repeat split; [by exists (c ++ c'); rewrite app_assoc|].
    unfold max_list in *. lia.
Qed.

Lemma read_pairs_sound d rd n l ps rest :
  -1 <= d -> reads_sane d rd -> read_pairs rd n l = Ok (ps, rest) ->
  length ps = n /\ (exists c, l = c ++ rest)
  /\ forallb (fun '(k, v) => frame_sane k && frame_sane v) ps = true
  /\ Z.of_nat (max_list (map (fun '(k, v) => S (Nat.max (frame_depth k) (frame_depth v))) ps)) <= d + 1.
Proof.
  intros Hd0 Hrd. revert l ps rest. induction n as [|n IH]; intros l ps rest; simpl.
  - intros [= <- <-]. repeat split; [by exists []|simpl; lia].
  - destruct (rd l) as [[[k|] r]|] eqn:Hk; [simpl|done..].
    destruct (rd r) as [[[v|] r']|] eqn:Hv; [simpl|done..].
    destruct (read_pairs rd n r') as [[ps' r'']|] eqn:He; [|done].
    intros [= <- <-].
    apply Hrd in Hk as [[c ->] (_ & Hsk & Hdk)], Hv as [[c' ->] (_ & Hsv & Hdv)].
    apply IH in He as (<- & [c'' ->] & Hps & Hm). simpl. rewrite Hsk, Hsv, Hps.
    repeat split; [by exists (c ++ c' ++ c''); rewrite <- !app_assoc|].
    unfold max_list in *. lia.
Qed.

Lemma read_typed_sound d rd b l o rest :
  -1 <= d -> reads_sane d rd -> read_typed rd b l = Ok (o, rest) ->
  (exists c, l = c ++ rest)
  /\ exists f, o = Some f /\ frame_sane f = true /\ Z.of_nat (frame_depth f) <= d + 1.
Proof.
  intros Hd0 Hrd. unfold read_typed. repeat case_decide; try discriminate; intros Hr;
    apply result_bind_Ok in Hr as ([x r] & Hx & Hr).
  - apply read_line_sound in Hx as [Hs Hc]. simplify_eq/=.
    split; [done|]. eexists. split; [done|]. simpl. split; [done|lia].
  - apply read_line_sound in Hx as [Hs Hc]. simplify_eq/=.
    split; [done|]. eexists. split; [done|]. simpl. split; [done|lia].
  - apply read_line_sound in Hx as [_ Hc].
    destruct (parse_i64 x) as [n|] eqn:Hn; [|done]. apply parse_i64_range in Hn.
    simplify_eq/=. split; [done|]. eexists. split; [done|].
    unfold in_i64, two63 in *. simpl. unfold two63. lia.
  - apply read_length_sound in Hx as [Hn [c ->]]. case_match; [done|].
    apply result_bind_Ok in Hr as ([buf r1] & He & Hr).
    destruct (read_exact (Z.to_nat x) r) as [[buf' r2]|] eqn:He'; [|done]. simplify_eq/=.
    apply read_exact_sound in He' as [Hlen ->].
    apply result_bind_Ok in Hr as ([u r3] & [c' ->]%read_crlf_sound & Hr). simplify_eq/=.
    split; [by exists (c ++ buf ++ c'); rewrite <- !app_assoc|].
    eexists. split; [done|]. simpl. split; [|lia].
    apply Z.leb_le. rewrite Hlen, Z2Nat.id; [lia|]. unfold in_u64 in Hn. lia.
  - apply read_length_sound in Hx as [Hn [c ->]]. case_match; [done|].
    apply result_bind_Ok in Hr as ([fs r1] & He & Hr). simplify_eq/=.
    eapply read_elements_sound in He as (Hlen & [c' ->] & Hs & Hd); [|done..].
    split; [by exists (c ++ c'); rewrite <- !app_assoc|].
    eexists. split; [done|]. simpl. rewrite Hs, Hlen, Z2Nat.id by (unfold in_u64 in Hn; lia).
    split; [lia|done].
  - apply read_length_sound in Hx as [Hn [c ->]]. case_match; [done|].
    apply result_bind_Ok in Hr as ([ps r1] & He & Hr). simplify_eq/=.
    eapply read_pairs_sound in He as (Hlen & [c' ->] & Hs & Hd); [|done..].
    split; [by exists (c ++ c'); rewrite <- !app_assoc|].
    eexists. split; [done|]. simpl. rewrite Hs, Hlen, Z2Nat.id by (unfold in_u64 in Hn; lia).
    split; [lia|done].
  - apply read_length_sound in Hx as [Hn [c ->]]. case_match; [done|].
    apply result_bind_Ok in Hr as ([fs r1] & He & Hr). simplify_eq/=.
    eapply read_elements_sound in He as (Hlen & [c' ->] & Hs & Hd); [|done..].
    split; [by exists (c ++ c'); rewrite <- !app_assoc|].
    eexists. split; [done|]. simpl. rewrite Hs, Hlen, Z2Nat.id by (unfold in_u64 in Hn; lia).
    split; [lia|done].
  - apply read_crlf_sound in Hx as Hc. simplify_eq/=.
    split; [done|]. eexists. split; [done|]. simpl. split; [done|lia].
Qed.

Lemma read_frame_depth_sound fuel depth :
  0 <= depth <= MAX_DEPTH + 1 -> reads_sane (MAX_DEPTH - depth) (read_frame_depth fuel depth).
Proof.
  revert depth. induction fuel as [|fuel IH]; intros depth Hd l o rest; cbn [read_frame_depth].
  - by case_match.
  - destruct (Z.ltb_spec MAX_DEPTH depth) as [|Hle]; [done|].
    destruct l as [|b l].
    + cbn [fill_buf bytes_reader map_err mbind result_bind]. intros [= <- <-]. by split; [exists []|].
    + cbn [fill_buf read_exact bytes_reader map_err mbind result_bind length Nat.ltb Nat.leb
             take drop hd].
      rewrite drop_0. intros Hr.
      eapply read_typed_sound in Hr as ([c ->] & f & -> & Hs & Hf); [| |apply IH; lia]; [|lia].
      split; [by exists (b :: c)|]. cbn [length]. rewrite length_app. split_and!; [lia|done|lia].
Qed.

(** ** Fuel *)

Section Fuel.
Context {R : Type} `{AsyncBufRead R}.

Lemma read_elements_ext rd1 rd2 what n (r : R) :
  (forall r, rd1 r = rd2 r) -> read_elements rd1 what n r = read_elements rd2 what n r.
Proof.
  intros Hrd. revert r. induction n as [|n IH]; intros r; simpl; [done|].
  rewrite Hrd. destruct (rd2 r) as [[[f|] r']|]; simpl; [|done..]. by rewrite IH.
Qed.

Lemma read_pairs_ext rd1 rd2 n (r : R) :
  (forall r, rd1 r = rd2 r) -> read_pairs rd1 n r = read_pairs rd2 n r.
Proof.
  intros Hrd. revert r. induction n as [|n IH]; intros r; simpl; [done|].
  rewrite Hrd. destruct (rd2 r) as [[[k|] r1]|]; simpl; [|done..].
  rewrite Hrd. destruct (rd2 r1) as [[[v|] r2]|]; simpl; [|done..]. by rewrite IH.
Qed.

Lemma read_typed_ext rd1 rd2 b (r : R) :
  (forall r, rd1 r = rd2 r) -> read_typed rd1 b r = read_typed rd2 b r.
Proof.
  intros Hrd. unfold read_typed.
  repeat (case_decide; [try done|]); [..|done];
    destruct (read_length _ r) as [[n r']|]; simpl; [|done| |done| |done];
    case_match; try done.
  - by rewrite (read_elements_ext rd1 rd2).
  - by rewrite (read_pairs_ext rd1 rd2).
  - by rewrite (read_elements_ext rd1 rd2).
Qed.

(** Any fuel of at least [9 - depth] gives the same result: the depth limit,
    not the fuel, ends the recursion. *)
Lemma read_frame_depth_fuel fuel1 fuel2 depth (r : R) :
  (Z.to_nat (MAX_DEPTH + 1 - depth) <= fuel1)%nat ->
  (Z.to_nat (MAX_DEPTH + 1 - depth) <= fuel2)%nat ->
  read_frame_depth fuel1 depth r = read_frame_depth fuel2 depth r.
Proof.
  revert fuel2 depth r. induction fuel1 as [|fuel1 IH]; intros fuel2 depth r H1 H2;
    destruct fuel2 as [|fuel2]; cbn [read_frame_depth];
    destruct (Z.ltb_spec MAX_DEPTH depth); try done; unfold MAX_DEPTH in *; [lia..|].
  destruct (fill_buf r) as [[[|x buf] r']|]; simpl; [done| |done].
  destruct (read_exact 1 r') as [[b r'']|]; simpl; [|done].
  apply read_typed_ext. intros r0. apply IH; lia.
Qed.

End Fuel.
