(* ===== verification/Resp3Spec.v ===== *)
(** * What the RESP3 codec guarantees

    The properties of the frame reader ([resp3/reader.rs]) and writer
    ([resp3/writer.rs]) over arbitrary byte streams: every lawful stream reads
    like the sequence of bytes it delivers, the writer produces the encoding,
    the two are inverse to each other, and the reader's limits hold. *)
From S2P Require Import Prelude RustStr Resp3 Resp3Reader.
Open Scope Z_scope.

(** ** Any lawful stream reads like its bytes *)
Section Simulation.
Context {R : Type} `{AsyncBufReadLaws R}.

(** Errors agree, up to the text of an I/O error. *)
Definition same_error (e e' : ProtocolError) : Prop :=
  match e, e' with
  | Io _, Io _ => True
  | _, _ => e = e'
  end.

(** A read from a stream and a read from the bytes it delivers agree: the
    same value and the same rest, or the same error. *)
Definition agrees {A} (m : result ProtocolError (A * R))
    (m' : result ProtocolError (A * bytes)) : Prop :=
  match m, m' with
  | Ok (a, r), Ok (a', l) => a = a' /\ pending r = l
  | Err e, Err e' => same_error e e'
  | _, _ => False
  end.

Lemma same_error_refl e : same_error e e.
Proof. by destruct e. Qed.

Lemma agrees_ret {A} (a : A) r : agrees (Ok (a, r)) (Ok (a, pending r)).
Proof. done. Qed.

Lemma agrees_err {A} e : agrees (A:=A) (Err e) (Err e).
Proof. apply same_error_refl. Qed.

Lemma agrees_bind {A B} (m : result ProtocolError (A * R)) m'
    (k : A * R -> result ProtocolError (B * R)) k' :
  agrees m m' -> (forall a r, agrees (k (a, r)) (k' (a, pending r))) ->
  agrees (m ≫= k) (m' ≫= k').
Proof.
  intros Hm Hk. destruct m as [[a r]|e], m' as [[a' l]|e']; simpl in *; try done.
  destruct Hm as [-> <-]. apply Hk.
Qed.

Lemma agrees_read_exact n r :
  agrees (map_err Io (read_exact n r)) (map_err Io (read_exact n (pending r))).
Proof.
  destruct (decide (n <= length (pending r))%nat) as [Hn|Hn].
  - destruct (read_exact_ok n r Hn) as (r' & -> & Hp). simpl.
    rewrite (proj2 (Nat.ltb_ge _ _)) by lia. done.
  - destruct (read_exact_eof n r ltac:(lia)) as [e ->]. simpl.
    by rewrite (proj2 (Nat.ltb_lt _ _)) by lia.
Qed.

Lemma agrees_read_line r : agrees (read_line r) (read_line (pending r)).
Proof.
  unfold read_line. apply agrees_bind; [|intros; apply agrees_ret].
  cbn [reader_line bytes_reader].
  destruct (split_line (pending r)) as [line rest] eqn:Hl.
  destruct (from_utf8 line) as [s|] eqn:Hu.
  - apply from_utf8_Some in Hu as [Hu ->].
    destruct (reader_line_ok r) as (r' & -> & Hp); rewrite Hl in *; done.
  - destruct (reader_line_invalid r) as [e ->]; [|done].
    rewrite Hl. simpl. intros Hv. apply utf8_valid_spec in Hv. unfold from_utf8 in Hu.
    by rewrite Hv in Hu.
Qed.

Lemma agrees_read_length what r : agrees (read_length what r) (read_length what (pending r)).
Proof.
  unfold read_length. apply agrees_bind; [apply agrees_read_line|intros].
  destruct (parse_usize a); simpl; done.
Qed.

Lemma agrees_read_crlf what r : agrees (read_crlf what r) (read_crlf what (pending r)).
Proof.
  unfold read_crlf. apply agrees_bind; [apply agrees_read_exact|intros].
  by case_decide.
Qed.

Lemma agrees_read_elements rd rd' what n r :
  (forall r, agrees (rd r) (rd' (pending r))) ->
  agrees (read_elements rd what n r) (read_elements rd' what n (pending r)).
Proof.
  intros Hrd. revert r. induction n as [|n IH]; intros r; cbn [read_elements]; [done|].
  apply agrees_bind; [apply Hrd|intros [f|] r1]; [|apply agrees_err].
  apply agrees_bind; [apply IH|intros]. done.
Qed.

Lemma agrees_read_pairs rd rd' n r :
  (forall r, agrees (rd r) (rd' (pending r))) ->
  agrees (read_pairs rd n r) (read_pairs rd' n (pending r)).
Proof.
  intros Hrd. revert r. induction n as [|n IH]; intros r; cbn [read_pairs]; [done|].
  apply agrees_bind; [apply Hrd|intros [k|] r1]; [|apply agrees_err].
  apply agrees_bind; [apply Hrd|intros [v|] r2]; [|apply agrees_err].
  apply agrees_bind; [apply IH|intros]. done.
Qed.

Lemma agrees_read_typed rd rd' b r :
  (forall r, agrees (rd r) (rd' (pending r))) ->
  agrees (read_typed rd b r) (read_typed rd' b (pending r)).
Proof.
  intros Hrd. unfold read_typed. repeat (case_decide; [|]); [..|apply agrees_err];
    (apply agrees_bind; [first [apply agrees_read_line | apply agrees_read_length
                               | apply agrees_read_crlf]|intros]);
    try (case_match; [apply agrees_err|]);
    repeat (apply agrees_bind; [first [apply agrees_read_exact | apply agrees_read_crlf
      | by apply agrees_read_elements | by apply agrees_read_pairs]|intros]); try done.
  destruct (parse_i64 a); simpl; done.
Qed.

Lemma agrees_read_frame_depth fuel depth r :
  agrees (read_frame_depth fuel depth r) (read_frame_depth fuel depth (pending r)).
Proof.
  revert depth r. induction fuel as [|fuel IH]; intros depth r; cbn [read_frame_depth];
    (case_match; [apply agrees_err|]); [apply agrees_err|].
  destruct (fill_buf_ok r) as (b & r' & -> & Hp & Hb).
  cbn [fill_buf bytes_reader mbind result_bind map_err].
  rewrite <- Hp in Hb |- *. destruct b as [|x b], (pending r') as [|y l] eqn:Hr'.
  - simpl. by rewrite Hr'.
  - by destruct Hb as [Hb _]; specialize (Hb eq_refl).
  - by destruct Hb as [_ Hb]; specialize (Hb eq_refl).
  - rewrite <- Hr'. apply agrees_bind; [apply agrees_read_exact|intros].
    apply agrees_read_typed. intros. apply IH.
Qed.

Lemma agrees_read_frame r : agrees (read_frame r) (read_frame (pending r)).
Proof. apply agrees_read_frame_depth. Qed.

End Simulation.

(** [Vec<u8>] as a writer: it never fails. *)
#[export] Instance bytes_writer : AsyncWrite bytes := {
  write_all d w := (Ok tt, w ++ d);
  flush w := (Ok tt, w);
}.

#[export, refine] Instance bytes_writer_laws : AsyncWriteLaws bytes := {
  written w := w;
}.
Proof. all: intros; simpl in *; simplify_eq; done. Defined.

(** A frame the protocol can carry from one end to the other. *)
Definition carriable (f : Resp3Frame) : bool :=
  frame_sane f && (Z.of_nat (frame_depth f) <=? MAX_DEPTH).

Lemma read_elements_carriable what fs rest :
  forallb carriable fs = true ->
  read_elements read_frame what (length fs) (flat_map encode fs ++ rest) = Ok (fs, rest).
Proof.
  intros Hfs. apply read_elements_encode. rewrite forallb_forall in Hfs.
  apply Forall_forall. intros f Hin%list_elem_of_In rest'.
  apply Hfs, andb_true_iff in Hin as [Hs Hd]. apply read_encode_frame; [done|lia].
Qed.

Lemma agrees_Ok {R} `{AsyncBufReadLaws R} {A} (m : result ProtocolError (A * R)) a l :
  agrees m (Ok (a, l)) -> exists r, m = Ok (a, r) /\ pending r = l.
Proof. destruct m as [[a' r]|]; simpl; [|done]. intros [-> <-]. eauto. Qed.

(** ** Claims *)

(** C10. Wire round trip: whatever sequence of carriable frames a writer sends
    over a stream, a reader on the other end gets exactly those frames, in
    order, and what follows them on the stream is left for the next read.
    Holds for every lawful pair of streams and any bytes around the frames. *)
Theorem resp3_stream_roundtrip {W R} `{AsyncWriteLaws W} `{AsyncBufReadLaws R}
    (fs : list Resp3Frame) (w w' : W) (r : R) (rest : bytes) :
  forallb carriable fs = true ->
  write_each write_frame fs w = (Ok tt, w') ->
  pending r = drop (length (written w)) (written w') ++ rest ->
  exists r', read_elements read_frame "stream" (length fs) r = Ok (fs, r') /\ pending r' = rest.
Proof.
  intros Hfs Hw Hr.
  pose proof (writes_each encode write_frame fs
    (proj2 (Forall_forall _ _) (fun f _ => write_frame_writes f)) w) as Hwr.
  rewrite Hw in Hwr. simpl in Hwr. rewrite Hwr, drop_app_length in Hr.
  apply agrees_Ok. rewrite <- (read_elements_carriable "stream" fs rest Hfs), <- Hr.
  apply agrees_read_elements, agrees_read_frame.
Qed.

Lemma resp3_stream_roundtrip_witness :
  exists r' : bytes,
    read_elements read_frame "stream" 2
      (encode (Array [BulkString (as_bytes "GET"); Integer (-7)])
       ++ encode (Map [(SimpleString "status", Null)]) ++ as_bytes "*1")
    = Ok ([Array [BulkString (as_bytes "GET"); Integer (-7)];
           Map [(SimpleString "status", Null)]], r')
    /\ r' = as_bytes "*1".
Proof.
  exact (resp3_stream_roundtrip
    [Array [BulkString (as_bytes "GET"); Integer (-7)]; Map [(SimpleString "status", Null)]]
    ([] : bytes) _ _ (as_bytes "*1") eq_refl eq_refl eq_refl).
Defined.

Lemma read_frame_carriable {R} `{AsyncBufReadLaws R} (r : R) f r' :
  read_frame r = Ok (Some f, r') -> carriable f = true.
Proof.
  intros Hr. pose proof (agrees_read_frame r) as Ha. rewrite Hr in Ha.
  destruct (read_frame (pending r)) as [[o' l]|] eqn:Hl; [|done].
  destruct Ha as [<- _].
  apply (read_frame_depth_sound read_fuel 0) in Hl as [_ (_ & Hs & Hd)]; [|unfold MAX_DEPTH; lia].
  unfold carriable. rewrite Hs. simpl. lia.
Qed.

(** C35. The reader only returns frames within its limits: a frame that is read
    has one-line UTF-8 simple strings, 64-bit integers, bulk strings of at
    most 16 MiB, collections of at most 100000 elements and at most eight
    levels of nesting; its bytes were taken, in order, off the front of the
    stream (at least one of them); and "no frame" means the stream has ended. *)
Theorem read_frame_sound {R} `{AsyncBufReadLaws R} (r : R) o r' :
  read_frame r = Ok (o, r') ->
  (exists c, pending r = c ++ pending r')
  /\ match o with
     | Some f => carriable f = true /\ (length (pending r') < length (pending r))%nat
     | None => pending r = []
     end.
Proof.
  intros Hr. pose proof (agrees_read_frame r) as Ha. rewrite Hr in Ha.
  destruct (read_frame (pending r)) as [[o' l]|] eqn:Hl; [|done].
  destruct Ha as [<- ->].
  apply (read_frame_depth_sound read_fuel 0) in Hl as [Hc Ho]; [|unfold MAX_DEPTH; lia].
  split; [done|]. destruct o as [f|]; [|done]. destruct Ho as (Hlen & Hs & Hd).
  split; [|done]. unfold carriable. rewrite Hs. simpl. lia.
Qed.

Lemma read_frame_sound_witness :
  carriable (BulkString (as_bytes "hello")) = true.
Proof.
  exact (proj1 (proj2 (read_frame_sound (encode (BulkString (as_bytes "hello")))
    (Some (BulkString (as_bytes "hello"))) [] eq_refl))).
Defined.

(** The nesting limit is exact: a frame that is sane but for its nesting is
    read back when it has at most eight levels, and refused with
    [NestingTooDeep] when it has more, whichever branch is the deep one. *)
Theorem read_frame_nesting {R} `{AsyncBufReadLaws R} (r : R) f rest :
  frame_sane f = true -> pending r = encode f ++ rest ->
  (Z.of_nat (frame_depth f) <= MAX_DEPTH /\
   exists r', read_frame r = Ok (Some f, r') /\ pending r' = rest)
  \/ (MAX_DEPTH < Z.of_nat (frame_depth f) /\ read_frame r = Err NestingTooDeep).
Proof.
  intros Hs Hr. pose proof (agrees_read_frame r) as Ha. rewrite Hr in Ha.
  pose proof (read_encode_deep f read_fuel 0 rest Hs) as Hf.
  unfold read_frame in Ha at 2. rewrite Hf in Ha by (unfold MAX_DEPTH, read_fuel; lia).
  destruct (Z.leb_spec (0 + Z.of_nat (frame_depth f)) MAX_DEPTH).
  - left. split; [lia|]. by apply agrees_Ok.
  - right. split; [lia|]. destruct (read_frame r) as [[]|e]; [done|].
    by destruct e; simpl in Ha; simplify_eq.
Qed.

(** Nine arrays inside each other, and then one more. *)
Fixpoint nest (n : nat) (f : Resp3Frame) : Resp3Frame :=
  match n with O => f | S n' => Array [nest n' f] end.

Lemma read_frame_nesting_witness :
  read_frame (encode (nest 9 Null)) = Err NestingTooDeep.
Proof.
  destruct (read_frame_nesting (H:=bytes_reader) (H0:=bytes_reader_laws)
              (encode (nest 9 Null)) (nest 9 Null) [] eq_refl
              (eq_sym (app_nil_r (encode (nest 9 Null))))) as [[H _]|[_ H]].
  - exfalso. vm_compute in H. by apply H.
  - exact H.
Defined.

(** The size limits are checked on the announced length, before any of the
    payload is read: a length above 16 MiB for a bulk string, or above 100000
    for an array, map or push, is refused with [FrameTooLarge] whatever
    follows. *)
Theorem read_frame_too_large (tag : string) (n limit : Z) (rest : bytes) :
  (tag, limit) ∈ [("$", MAX_BULK_SIZE); ("*", MAX_COLLECTION_SIZE);
                  ("%", MAX_COLLECTION_SIZE); (">", MAX_COLLECTION_SIZE)] ->
  limit < n -> in_u64 n ->
  read_frame (header tag n ++ rest) = Err (FrameTooLarge n).
Proof.
  intros Htag Hlim Hn.
  assert (forall what, read_length what (as_bytes (int_to_string n) ++ crlf ++ rest) = Ok (n, rest))
    as Hlen by (intros; by apply read_length_crlf).
  unfold read_frame, read_fuel.
  rewrite !elem_of_cons in Htag.
  destruct Htag as [Ht|[Ht|[Ht|[Ht|Ht]]]]; [..|by apply not_elem_of_nil in Ht];
    injection Ht as -> ->; read_tag; rewrite Hlen; cbn [mbind result_bind];
    by rewrite (proj2 (Z.ltb_lt _ _)) by done.
Qed.

Lemma read_frame_too_large_witness :
  read_frame (header "%" 33333333332 ++ as_bytes "x") = Err (FrameTooLarge 33333333332).
Proof.
  apply (read_frame_too_large "%" 33333333332 MAX_COLLECTION_SIZE).
  - rewrite !elem_of_cons. auto.
  - reflexivity.
  - split; [discriminate|reflexivity].
Defined.

(** The writer is exact: on success it has handed exactly the encoding of
    the frame to the stream, and when the stream fails, a prefix of it. *)
Theorem write_frame_exact {W} `{AsyncWriteLaws W} (f : Resp3Frame) (w : W) :
  match write_frame f w with
  | (Ok _, w') => written w' = written w ++ encode f
  | (Err _, w') => exists p, p `prefix_of` encode f /\ written w' = written w ++ p
  end.
Proof. apply write_frame_writes. Qed.

Lemma write_frame_exact_witness :
  (write_frame (Array [Null; SimpleError "ERR"]) ([] : bytes)).2
  = encode (Array [Null; SimpleError "ERR"]).
Proof. exact (write_frame_exact (Array [Null; SimpleError "ERR"]) ([] : bytes)). Defined.

(** An unterminated line is accepted at the end of the stream: a stream cut
    off inside a simple string yields a simple string with the text received so
    far, not an error.  (The reader's [read_line] is documented to read "a line
    terminated by [\r\n]".) *)
Theorem read_frame_unterminated (s : string) :
  line_safe s = true -> read_frame (as_bytes "+" ++ as_bytes s) = Ok (Some (SimpleString s), []).
Proof.
  intros [Hu Hl]%line_safe_spec. unfold read_frame, read_fuel. read_tag.
  unfold read_line. cbn [reader_line bytes_reader].
  assert (split_line (as_bytes s) = (as_bytes s, [])) as ->.
  { clear Hu. induction (as_bytes s) as [|b l IH]; [done|].
    apply not_elem_of_cons in Hl as [Hb Hl]. cbn [split_line].
    rewrite decide_False by done. by rewrite IH. }
  rewrite from_utf8_as_bytes by done. cbn [map_err mbind result_bind].
  unfold chomp. destruct (pop_char (ascii_of_byte LF) s) as [t|] eqn:Hp; [|done].
  rewrite <- (of_as_bytes s) in Hp. apply pop_char_of_bytes in Hp.
  rewrite Hp, not_elem_of_app, not_elem_of_cons in Hl. by destruct Hl as (_ & ? & _).
Qed.

Lemma read_frame_unterminated_witness :
  read_frame (as_bytes "+" ++ as_bytes "OK") = Ok (Some (SimpleString "OK"), []).
Proof. exact (read_frame_unterminated "OK" eq_refl). Defined.
