(* ===== verification/Externals.v ===== *)
(** * Interfaces to code outside the repository

    The protocol layer is written against crates whose sources are not in the
    repository: [serde_json], [shroudb-acl], [shroudb-store] and
    [shroudb-storage].  Everything the code uses of them is a field of a class
    below, and every definition that uses one is generic in it.  The enums and
    structs are those the code builds and takes apart; their variants are the
    ones it names. *)
From S2P Require Import Prelude RustStr.
Open Scope Z_scope.

(** ** serde_json *)
Class Serde := {
  Value : Type;
  (** [serde_json::from_str::<Value>], with the error's text. *)
  json_from_str : string -> result string Value;
  (** [serde_json::to_string(v).unwrap_or_default()]. *)
  json_to_string : Value -> string;
}.

(** ** shroudb-acl *)
Inductive Scope := ScopeRead | ScopeWrite.

Inductive AclRequirement :=
| AclNone
| AclAdmin
| AclNamespace (ns : string) (scope : Scope) (tenant_override : option string).

#[export] Instance Scope_eq_dec : EqDecision Scope.
Proof. solve_decision. Defined.
#[export] Instance AclRequirement_eq_dec : EqDecision AclRequirement.
Proof. solve_decision. Defined.

Class Acl := {
  AuthContext : Type;
  (** [AuthContext::platform(tenant, actor)]. *)
  auth_platform : string -> string -> AuthContext;
  auth_actor : AuthContext -> string;
  (** [ctx.check(&requirement)], with the text of the [AclError]. *)
  auth_check : AuthContext -> AclRequirement -> result string unit;
  (** [ctx.is_expired(now)]. *)
  auth_is_expired : AuthContext -> Z -> bool;
}.

(** [TokenValidator::validate], followed by [into_context] on success. *)
Class TokenValidator `{Acl} (V : Type) :=
  validate : V -> string -> result string AuthContext.

(** ** shroudb-store: data *)
Inductive EntryState := Active | Deleted.

Inductive EventType := EventPut | EventDelete.

Record SubscriptionEvent := {
  ev_event : EventType;
  ev_namespace : string;
  ev_key : bytes;
  ev_version : Z;
  ev_actor : string;
  ev_timestamp : Z;
}.

Record SubscriptionFilter := {
  filter_key : option bytes;
  filter_events : list EventType;
}.

Record VersionInfo := {
  vi_version : Z;
  vi_state : EntryState;
  vi_updated_at : Z;
  vi_actor : string;
}.

Record Page := {
  page_keys : list bytes;
  page_cursor : option string;
}.

Class StoreTypes `{Serde} := {
  Metadata : Type;
  metadata_from_json : Value -> result string Metadata;
  metadata_to_json : Metadata -> Value;
  MetaSchema : Type;
  (** [serde_json::from_value::<MetaSchema>]. *)
  meta_schema_from_json : Value -> result string MetaSchema;
  (** A violation of a metadata schema. *)
  ValidationError : Type;
  validation_error_display : ValidationError -> string;
  (** [format!("{errors:?}")]. *)
  validation_errors_debug : list ValidationError -> string;
}.

Section StoreData.
Context `{StoreTypes}.

Record Entry := {
  entry_key : bytes;
  entry_value : bytes;
  entry_version : Z;
  entry_metadata : Metadata;
  entry_created_at : Z;
  entry_updated_at : Z;
}.

Record NamespaceConfig := {
  meta_schema : option MetaSchema;
  max_versions : option Z;
  tombstone_retention_secs : option Z;
}.

Record NamespaceInformation := {
  info_name : string;
  info_key_count : Z;
  info_created_at : Z;
  info_config : NamespaceConfig;
}.

Record PutOptions := {
  put_metadata : option Metadata;
  put_ttl_ms : option Z;      (* [Option<Duration>], in milliseconds *)
  put_expected_version : option Z;
}.

Record ValidationReport := {
  report_key : bytes;
  report_version : Z;
  report_errors : list ValidationError;
}.

(** [StoreError]; [SeOther] stands for the variants the code never names. *)
Inductive StoreError :=
| SeNotFound
| SeNamespaceNotFound (ns : string)
| SeNamespaceExists (ns : string)
| SeNamespaceNotEmpty (ns : string)
| SeVersionConflict (current : Z)
| SePrefixTooLarge (matched limit : Z)
| SeValidationFailed (errors : list ValidationError)
| SeInvalidCursor (msg : string)
| SeStorage (msg : string)
| SeConnection (msg : string)
| SeOther (text : string).
End StoreData.

(** [Display for StoreError]. *)
Class StoreErrorText `{StoreTypes} := store_error_display : StoreError -> string.

(** ** shroudb-store: the [Store] trait

    The operations the server and the client call, as state transformers: an
    operation returns its result and the store after it, in particular when it
    fails. *)
Class Store `{StoreTypes} (S : Type) := {
  st_put_with_options : string -> bytes -> bytes -> PutOptions -> S -> result StoreError Z * S;
  st_get : string -> bytes -> option Z -> S -> result StoreError Entry * S;
  st_delete : string -> bytes -> S -> result StoreError Z * S;
  st_put_if_version : string -> bytes -> bytes -> option Metadata -> Z -> S -> result StoreError Z * S;
  st_delete_if_version : string -> bytes -> Z -> S -> result StoreError Z * S;
  st_delete_prefix : string -> bytes -> S -> result StoreError Z * S;
  st_list : string -> option bytes -> option string -> Z -> S -> result StoreError Page * S;
  st_versions : string -> bytes -> Z -> option Z -> S -> result StoreError (list VersionInfo) * S;
  st_namespace_create : string -> NamespaceConfig -> S -> result StoreError unit * S;
  st_namespace_drop : string -> bool -> S -> result StoreError unit * S;
  st_namespace_list : option string -> Z -> S -> result StoreError Page * S;
  st_namespace_info : string -> S -> result StoreError NamespaceInformation * S;
  st_namespace_alter : string -> NamespaceConfig -> S -> result StoreError unit * S;
  st_namespace_validate : string -> S -> result StoreError (list ValidationReport) * S;
}.

(** [Store::subscribe]; what the subscription delivers is up to the store. *)
Class Subscribes `{StoreTypes} (S Sub : Type) :=
  st_subscribe : string -> SubscriptionFilter -> S -> result StoreError Sub * S.

(** ** shroudb-storage: the engine behind CONFIG and REKEY *)
Record ConfigEntry := {
  config_value : string;
  config_source : string;    (* its [to_string()] *)
}.

Record RekeyProgress := {
  rp_in_progress : bool;
  rp_percent : string;       (* [format!("{:.1}%", progress * 100.0)] *)
  rp_segments_completed : Z;
  rp_total_segments : Z;
  rp_started_at : Z;
}.

Class Engine (E : Type) := {
  config_get : E -> string -> option ConfigEntry;
  (** [config_store().validate(key, value)]. *)
  config_validate : E -> string -> string -> result string unit;
  (** [config_store().set(key, value, timestamp, Runtime)]. *)
  config_set : string -> string -> Z -> E -> result string unit * E;
  (** [apply("__system__", ConfigChanged, ConfigChanged { key, value })]. *)
  apply_config_changed : string -> string -> E -> result string unit * E;
  begin_rekey_from_bytes : bytes -> E -> result string unit * E;
  rekey_status : E -> option RekeyProgress;
}.
