(* ===== verification/Command.v ===== *)
(** * Commands and command errors

    Models [shroudb-protocol/src/command.rs] (the command type, its ACL
    requirement, its verb, the read predicate) and
    [shroudb-protocol/src/error.rs] (the command errors and their wire text). *)
From S2P Require Import Prelude RustStr Externals.
Set Warnings "-register-all".
Open Scope Z_scope.

Section Command.
Context `{StoreTypes}.

Inductive Command :=
| Auth (token : string)
| Ping
| Put (ns : string) (key value : bytes) (metadata : option Value) (ttl_ms : option Z)
| Get (ns : string) (key : bytes) (version : option Z) (meta : bool)
| Delete (ns : string) (key : bytes)
| PutIf (ns : string) (key value : bytes) (metadata : option Value) (expected_version : Z)
| DelIf (ns : string) (key : bytes) (expected_version : Z)
| DelPrefix (ns : string) (prefix : bytes)
| List (ns : string) (prefix : option bytes) (cursor : option string) (limit : option Z)
| Versions (ns : string) (key : bytes) (limit : option Z) (from : option Z)
| NamespaceCreate (name : string) (schema : option Value)
    (max_versions tombstone_retention_secs : option Z)
| NamespaceDrop (name : string) (force : bool)
| NamespaceList (cursor : option string) (limit : option Z)
| NamespaceInfo (name : string)
| NamespaceAlter (name : string) (schema : option Value)
    (max_versions tombstone_retention_secs : option Z)
| NamespaceValidate (name : string)
| Pipeline (commands : list Command) (request_id : option string)
| Subscribe (ns : string) (key : option bytes) (events : list string)
| Unsubscribe
| Health
| ConfigGet (key : string)
| ConfigSet (key value : string)
| CommandList
| Rekey (new_key_hex : string)
| RekeyStatus.

Definition acl_requirement (c : Command) : AclRequirement :=
  match c with
  (* Unscoped: allowed pre-auth or without grants *)
  | Auth _ | Ping | Health | ConfigGet _ | CommandList | RekeyStatus => AclNone
  (* Admin: global privilege *)
  | NamespaceCreate _ _ _ _ | NamespaceDrop _ _ | NamespaceAlter _ _ _ _
  | ConfigSet _ _ | Rekey _ => AclAdmin
  (* Read: per namespace *)
  | Get ns _ _ _ | List ns _ _ _ | Versions ns _ _ _ | NamespaceInfo ns
  | NamespaceValidate ns | Subscribe ns _ _ => AclNamespace ns ScopeRead None
  (* Write: per namespace *)
  | Put ns _ _ _ _ | Delete ns _ | PutIf ns _ _ _ _ | DelIf ns _ _ | DelPrefix ns _ =>
      AclNamespace ns ScopeWrite None
  (* NAMESPACE LIST: filtering is left to the handler *)
  | NamespaceList _ _ => AclNone
  | Unsubscribe => AclNone
  (* Pipeline: checked per command during execution *)
  | Pipeline _ _ => AclNone
  end.

Definition verb (c : Command) : string :=
  match c with
  | Auth _ => "AUTH"
  | Ping => "PING"
  | Put _ _ _ _ _ => "PUT"
  | Get _ _ _ _ => "GET"
  | Delete _ _ => "DELETE"
  | PutIf _ _ _ _ _ => "PUTIF"
  | DelIf _ _ _ => "DELIF"
  | DelPrefix _ _ => "DELPREFIX"
  | List _ _ _ _ => "LIST"
  | Versions _ _ _ _ => "VERSIONS"
  | NamespaceCreate _ _ _ _ => "NAMESPACE CREATE"
  | NamespaceDrop _ _ => "NAMESPACE DROP"
  | NamespaceList _ _ => "NAMESPACE LIST"
  | NamespaceInfo _ => "NAMESPACE INFO"
  | NamespaceAlter _ _ _ _ => "NAMESPACE ALTER"
  | NamespaceValidate _ => "NAMESPACE VALIDATE"
  | Pipeline _ _ => "PIPELINE"
  | Subscribe _ _ _ => "SUBSCRIBE"
  | Unsubscribe => "UNSUBSCRIBE"
  | Health => "HEALTH"
  | ConfigGet _ => "CONFIG GET"
  | ConfigSet _ _ => "CONFIG SET"
  | CommandList => "COMMAND LIST"
  | Rekey _ => "REKEY"
  | RekeyStatus => "REKEY STATUS"
  end.

Definition is_read (c : Command) : bool :=
  match c with
  | Get _ _ _ _ | List _ _ _ _ | Versions _ _ _ _ | NamespaceList _ _ | NamespaceInfo _
  | NamespaceValidate _ | Health | ConfigGet _ | CommandList | RekeyStatus | Ping => true
  | _ => false
  end.

(** Induction that reaches into pipelines. *)
Lemma command_ind' (P : Command -> Prop) :
  (forall cs rid, Forall P cs -> P (Pipeline cs rid)) ->
  (forall c, (forall cs rid, c <> Pipeline cs rid) -> P c) -> forall c, P c.
Proof.
  intros HP HS. fix IH 1. intros c.
  destruct c; try (apply HS; discriminate).
  apply HP. induction commands as [|c cs IHc]; constructor; [apply IH|apply IHc].
Qed.

(** The commands a command consists of: those of a pipeline, all the way down. *)
Fixpoint leaves (c : Command) : list Command :=
  match c with Pipeline cs _ => flat_map leaves cs | _ => [c] end.

Inductive CommandError :=
| NotFound
| NamespaceNotFound (ns : string)
| NamespaceExists (ns : string)
| NamespaceNotEmpty (ns : string)
| VersionNotFound (v : Z)
| ValidationFailed (msg : string)
| Denied (reason : string)
| NotAuthenticated
| NotReady (state : string)
| BadArg (message : string)
| PipelineAborted (index : Z) (reason : string)
| VersionConflict (current : Z)
| PrefixTooLarge (matched limit : Z)
| StoreErr (e : StoreError)          (* [CommandError::Store] *)
| Internal (msg : string).

Context `{!StoreErrorText}.

(** [Display for CommandError]. *)
Definition command_error_display (e : CommandError) : string :=
  match e with
  | NotFound => "not found"
  | NamespaceNotFound ns => "namespace not found: " +:+ ns
  | NamespaceExists ns => "namespace already exists: " +:+ ns
  | NamespaceNotEmpty ns => "namespace not empty: " +:+ ns
  | VersionNotFound v => "version not found: " +:+ int_to_string v
  | ValidationFailed m => "validation failed: " +:+ m
  | Denied r => "permission denied: " +:+ r
  | NotAuthenticated => "not authenticated"
  | NotReady s => "not ready: server is in " +:+ s +:+ " state"
  | BadArg m => "bad argument: " +:+ m
  | PipelineAborted i r =>
      "pipeline aborted: command " +:+ int_to_string i +:+ " failed: " +:+ r
  | VersionConflict c => "VERSIONCONFLICT current=" +:+ int_to_string c
  | PrefixTooLarge m l =>
      "PREFIXTOOLARGE matched=" +:+ int_to_string m +:+ " limit=" +:+ int_to_string l
  | StoreErr e => "store error: " +:+ store_error_display e
  | Internal m => "internal error: " +:+ m
  end.

End Command.
