(* ===== verification/ParseCommand.v ===== *)
(** * From RESP3 frames to commands

    Models [shroudb-protocol/src/resp3/parse_command.rs]: [parse_command] and
    the parser of each command.  A loop over [args] with an index is a
    recursion over the arguments that are left; a slice [&args[n..]] is what
    is left after the first [n]. *)
From S2P Require Import Prelude RustStr Externals Resp3 Command.
Open Scope Z_scope.
Open Scope string_scope.

Section Parse.
Context `{StoreErrorText}.

Abbreviation parse_result := (result CommandError Command).

Definition frame_to_string (f : Resp3Frame) : result CommandError string :=
  match f with
  | BulkString b => ok_or (from_utf8 b) (BadArg "invalid UTF-8 in argument")
  | SimpleString s => Ok s
  | Integer i => Ok (int_to_string i)
  | _ => Err (BadArg "expected string or bulk string argument")
  end.

Definition require_args (args : list string) (min : Z) (cmd : string) : result CommandError unit :=
  if (Z.of_nat (length args) <? min)%Z
  then Err (BadArg (cmd +:+ " requires at least " +:+ int_to_string min +:+ " argument(s)"))
  else Ok tt.

(** [args[i].clone()], where a previous [require_args] put [i] in range. *)
Definition arg (args : list string) (i : nat) : string := nth i args "".

(** [s.parse::<u64>().map_err(|_| BadArg { message })]. *)
Definition number (s message : string) : result CommandError Z :=
  map_err (fun _ => BadArg message) (parse_u64 s).

(** [serde_json::from_str(s).map_err(|e| BadArg { .. })]. *)
Definition json (s what : string) : result CommandError Value :=
  map_err (fun e => BadArg ("invalid " +:+ what +:+ " JSON: " +:+ e)) (json_from_str s).

Definition unexpected (s : string) : CommandError := BadArg ("unexpected argument: " +:+ s).

(** ** AUTH <token> *)
Definition parse_auth (args : list string) : parse_result :=
  _ ← require_args args 1 "AUTH";
  Ok (Auth (arg args 0)).

(** ** PUT <ns> <key> [VALUE <bytes>] [META <json>] [TTL <ms>] *)
Fixpoint put_options (ns : string) (key value : bytes) (metadata : option Value)
    (ttl_ms : option Z) (args : list string) : parse_result :=
  match args with
  | [] => Ok (Put ns key value metadata ttl_ms)
  | kw :: rest =>
      let upper := to_ascii_uppercase kw in
      if upper =? "VALUE" then
        match rest with
        | [] => Err (BadArg "VALUE requires a value")
        | v :: rest' => put_options ns key (as_bytes v) metadata ttl_ms rest'
        end
      else if upper =? "META" then
        match rest with
        | [] => Err (BadArg "META requires a JSON value")
        | m :: rest' =>
            j ← json m "META";
            put_options ns key value (Some j) ttl_ms rest'
        end
      else if upper =? "TTL" then
        match rest with
        | [] => Err (BadArg "TTL requires a duration in milliseconds")
        | t :: rest' =>
            n ← number t "TTL must be a non-negative integer (milliseconds)";
            put_options ns key value metadata (Some n) rest'
        end
      else Err (unexpected kw)
  end.

Definition parse_put (args : list string) : parse_result :=
  _ ← require_args args 2 "PUT";
  let ns := arg args 0 in
  let key := as_bytes (arg args 1) in
  if (length args =? 3)%nat then Ok (Put ns key (as_bytes (arg args 2)) None None)
  else put_options ns key [] None None (drop 2 args).

(** ** GET <ns> <key> [VERSION <n>] [META] *)
Fixpoint get_options (ns : string) (key : bytes) (version : option Z) (meta : bool)
    (args : list string) : parse_result :=
  match args with
  | [] => Ok (Get ns key version meta)
  | kw :: rest =>
      let upper := to_ascii_uppercase kw in
      if upper =? "VERSION" then
        match rest with
        | [] => Err (BadArg "VERSION requires a number")
        | v :: rest' =>
            n ← number v "VERSION must be a positive integer";
            get_options ns key (Some n) meta rest'
        end
      else if upper =? "META" then get_options ns key version true rest
      else Err (unexpected kw)
  end.

Definition parse_get (args : list string) : parse_result :=
  _ ← require_args args 2 "GET";
  get_options (arg args 0) (as_bytes (arg args 1)) None false (drop 2 args).

(** ** DELETE <ns> <key> *)
Definition parse_delete (args : list string) : parse_result :=
  _ ← require_args args 2 "DELETE";
  Ok (Delete (arg args 0) (as_bytes (arg args 1))).

(** ** PUTIF <ns> <key> <value> EXPECT <version> [META <json>] *)
Fixpoint put_if_options (expected : option Z) (metadata : option Value) (args : list string)
    : result CommandError (option Z * option Value) :=
  match args with
  | [] => Ok (expected, metadata)
  | kw :: rest =>
      let upper := to_ascii_uppercase kw in
      if upper =? "EXPECT" then
        match rest with
        | [] => Err (BadArg "EXPECT requires a version")
        | v :: rest' =>
            n ← number v "EXPECT must be a non-negative integer";
            put_if_options (Some n) metadata rest'
        end
      else if upper =? "META" then
        match rest with
        | [] => Err (BadArg "META requires a JSON value")
        | m :: rest' =>
            j ← json m "META";
            put_if_options expected (Some j) rest'
        end
      else Err (unexpected kw)
  end.

Definition parse_put_if (args : list string) : parse_result :=
  _ ← require_args args 5 "PUTIF";
  '(expected, metadata) ← put_if_options None None (drop 3 args);
  expected ← ok_or expected (BadArg "PUTIF requires EXPECT <version>");
  Ok (PutIf (arg args 0) (as_bytes (arg args 1)) (as_bytes (arg args 2)) metadata expected).

(** ** DELPREFIX <ns> <prefix> *)
Definition parse_del_prefix (args : list string) : parse_result :=
  _ ← require_args args 2 "DELPREFIX";
  let prefix := as_bytes (arg args 1) in
  match prefix with
  | [] => Err (BadArg
      "DELPREFIX: empty prefix not allowed; use NAMESPACE DROP for full-namespace teardown")
  | _ :: _ =>
      if (2 <? length args)%nat then Err (unexpected (arg args 2))
      else Ok (DelPrefix (arg args 0) prefix)
  end.

(** ** DELIF <ns> <key> EXPECT <version> *)
Definition parse_del_if (args : list string) : parse_result :=
  _ ← require_args args 4 "DELIF";
  if negb (eq_ignore_ascii_case (arg args 2) "EXPECT") then
    Err (BadArg ("DELIF: expected EXPECT keyword, got " +:+ arg args 2))
  else
    expected ← number (arg args 3) "EXPECT must be a non-negative integer";
    if (4 <? length args)%nat then Err (unexpected (arg args 4))
    else Ok (DelIf (arg args 0) (as_bytes (arg args 1)) expected).

(** ** LIST <ns> [PREFIX <prefix>] [CURSOR <cursor>] [LIMIT <n>] *)
Fixpoint list_options (ns : string) (prefix : option bytes) (cursor : option string)
    (limit : option Z) (args : list string) : parse_result :=
  match args with
  | [] => Ok (List ns prefix cursor limit)
  | kw :: rest =>
      let upper := to_ascii_uppercase kw in
      if upper =? "PREFIX" then
        match rest with
        | [] => Err (BadArg "PREFIX requires a value")
        | p :: rest' => list_options ns (Some (as_bytes p)) cursor limit rest'
        end
      else if upper =? "CURSOR" then
        match rest with
        | [] => Err (BadArg "CURSOR requires a value")
        | c :: rest' => list_options ns prefix (Some c) limit rest'
        end
      else if upper =? "LIMIT" then
        match rest with
        | [] => Err (BadArg "LIMIT requires a number")
        | l :: rest' =>
            n ← number l "LIMIT must be a positive integer";
            list_options ns prefix cursor (Some n) rest'
        end
      else Err (unexpected kw)
  end.

Definition parse_list (args : list string) : parse_result :=
  _ ← require_args args 1 "LIST";
  list_options (arg args 0) None None None (drop 1 args).

(** ** VERSIONS <ns> <key> [LIMIT <n>] [FROM <version>] *)
Fixpoint versions_options (ns : string) (key : bytes) (limit from : option Z)
    (args : list string) : parse_result :=
  match args with
  | [] => Ok (Versions ns key limit from)
  | kw :: rest =>
      let upper := to_ascii_uppercase kw in
      if upper =? "LIMIT" then
        match rest with
        | [] => Err (BadArg "LIMIT requires a number")
        | l :: rest' =>
            n ← number l "LIMIT must be a positive integer";
            versions_options ns key (Some n) from rest'
        end
      else if upper =? "FROM" then
        match rest with
        | [] => Err (BadArg "FROM requires a version number")
        | f :: rest' =>
            n ← number f "FROM must be a positive integer";
            versions_options ns key limit (Some n) rest'
        end
      else Err (unexpected kw)
  end.

Definition parse_versions (args : list string) : parse_result :=
  _ ← require_args args 2 "VERSIONS";
  versions_options (arg args 0) (as_bytes (arg args 1)) None None (drop 2 args).

(** ** NAMESPACE <subcommand> ... *)
Fixpoint create_options (name : string) (schema : option Value) (max_v ret : option Z)
    (args : list string) : parse_result :=
  match args with
  | [] => Ok (NamespaceCreate name schema max_v ret)
  | kw :: rest =>
      let upper := to_ascii_uppercase kw in
      if upper =? "SCHEMA" then
        match rest with
        | [] => Err (BadArg "SCHEMA requires a JSON value")
        | s :: rest' =>
            j ← json s "SCHEMA";
            create_options name (Some j) max_v ret rest'
        end
      else if upper =? "MAX_VERSIONS" then
        match rest with
        | [] => Err (BadArg "MAX_VERSIONS requires a number")
        | m :: rest' =>
            n ← number m "MAX_VERSIONS must be a positive integer";
            create_options name schema (Some n) ret rest'
        end
      else if upper =? "TOMBSTONE_RETENTION" then
        match rest with
        | [] => Err (BadArg "TOMBSTONE_RETENTION requires a number (seconds)")
        | t :: rest' =>
            n ← number t "TOMBSTONE_RETENTION must be a positive integer";
            create_options name schema max_v (Some n) rest'
        end
      else Err (unexpected kw)
  end.

(** The option loops of LIST and ALTER skip what they do not know, and an
    option without a (valid) value is [None]. *)
Fixpoint namespace_list_options (cursor : option string) (limit : option Z)
    (args : list string) : Command :=
  match args with
  | [] => NamespaceList cursor limit
  | kw :: rest =>
      let upper := to_ascii_uppercase kw in
      if upper =? "CURSOR" then
        match rest with
        | [] => NamespaceList None limit
        | c :: rest' => namespace_list_options (Some c) limit rest'
        end
      else if upper =? "LIMIT" then
        match rest with
        | [] => NamespaceList cursor None
        | l :: rest' => namespace_list_options cursor (ok (parse_usize l)) rest'
        end
      else namespace_list_options cursor limit rest
  end.

Fixpoint alter_options (name : string) (schema : option Value) (max_v ret : option Z)
    (args : list string) : Command :=
  match args with
  | [] => NamespaceAlter name schema max_v ret
  | kw :: rest =>
      let upper := to_ascii_uppercase kw in
      if upper =? "SCHEMA" then
        match rest with
        | [] => NamespaceAlter name None max_v ret
        | s :: rest' => alter_options name (ok (json_from_str s)) max_v ret rest'
        end
      else if upper =? "MAX_VERSIONS" then
        match rest with
        | [] => NamespaceAlter name schema None ret
        | m :: rest' => alter_options name schema (ok (parse_u64 m)) ret rest'
        end
      else if upper =? "TOMBSTONE_RETENTION" then
        match rest with
        | [] => NamespaceAlter name schema max_v None
        | t :: rest' => alter_options name schema max_v (ok (parse_u64 t)) rest'
        end
      else alter_options name schema max_v ret rest
  end.

Definition parse_namespace (args : list string) : parse_result :=
  _ ← require_args args 1 "NAMESPACE";
  let sub := to_ascii_uppercase (arg args 0) in
  let sub_args := drop 1 args in
  if sub =? "CREATE" then
    _ ← require_args sub_args 1 "NAMESPACE CREATE";
    create_options (arg sub_args 0) None None None (drop 1 sub_args)
  else if sub =? "DROP" then
    _ ← require_args sub_args 1 "NAMESPACE DROP";
    Ok (NamespaceDrop (arg sub_args 0)
          (match sub_args !! 1%nat with
           | Some s => eq_ignore_ascii_case s "FORCE" | None => false end))
  else if sub =? "LIST" then Ok (namespace_list_options None None sub_args)
  else if sub =? "INFO" then
    _ ← require_args sub_args 1 "NAMESPACE INFO";
    Ok (NamespaceInfo (arg sub_args 0))
  else if sub =? "ALTER" then
    _ ← require_args sub_args 1 "NAMESPACE ALTER";
    Ok (alter_options (arg sub_args 0) None None None (drop 1 sub_args))
  else if sub =? "VALIDATE" then
    _ ← require_args sub_args 1 "NAMESPACE VALIDATE";
    Ok (NamespaceValidate (arg sub_args 0))
  else Err (BadArg ("unknown NAMESPACE subcommand: " +:+ sub)).

(** ** SUBSCRIBE <ns> [KEY <key>] [EVENTS <PUT|DELETE|*>] *)

(** [in_events] is set inside the inner loop after [EVENTS], which collects
    everything up to the next [KEY]. *)
Fixpoint subscribe_options (ns : string) (key : option bytes) (events : list string)
    (in_events : bool) (args : list string) : Command :=
  match args with
  | [] => Subscribe ns key events
  | kw :: rest =>
      let upper := to_ascii_uppercase kw in
      if upper =? "KEY" then
        match rest with
        | [] => Subscribe ns key events
        | k :: rest' => subscribe_options ns (Some (as_bytes k)) events false rest'
        end
      else if in_events then subscribe_options ns key (events ++ [upper]) true rest
      else if upper =? "EVENTS" then subscribe_options ns key events true rest
      else subscribe_options ns key events false rest
  end.

Definition parse_subscribe (args : list string) : parse_result :=
  _ ← require_args args 1 "SUBSCRIBE";
  Ok (subscribe_options (arg args 0) None [] false (drop 1 args)).

(** ** CONFIG GET|SET *)
Definition parse_config (args : list string) : parse_result :=
  _ ← require_args args 1 "CONFIG";
  let sub := to_ascii_uppercase (arg args 0) in
  if sub =? "GET" then
    _ ← require_args (drop 1 args) 1 "CONFIG GET";
    Ok (ConfigGet (arg args 1))
  else if sub =? "SET" then
    _ ← require_args (drop 1 args) 2 "CONFIG SET";
    Ok (ConfigSet (arg args 1) (arg args 2))
  else Err (BadArg ("unknown CONFIG subcommand: " +:+ sub)).

(** ** REKEY <new_key_hex> | REKEY STATUS *)

(** [char::is_ascii_hexdigit]; a multi-byte character has no such byte. *)
Definition is_ascii_hexdigit (c : ascii) : bool :=
  let n := N_of_ascii c in
  (((48 <=? n) && (n <=? 57)) || ((65 <=? n) && (n <=? 70)) || ((97 <=? n) && (n <=? 102)))%N.

Definition parse_rekey (args : list string) : parse_result :=
  match args with
  | [] => Err (BadArg "REKEY requires a subcommand: <new_key_hex> or STATUS")
  | hex :: _ =>
      if eq_ignore_ascii_case hex "STATUS" then Ok RekeyStatus
      else if negb (String.length hex =? 64)%nat then
        Err (BadArg ("REKEY key must be 32 bytes (64 hex chars), got "
                     +:+ int_to_string (Z.of_nat (String.length hex)) +:+ " chars"))
      else if negb (all_chars is_ascii_hexdigit hex) then
        Err (BadArg "REKEY key is not valid hex")
      else Ok (Rekey hex)
  end.

(** ** COMMAND LIST *)
Definition parse_command_sub (args : list string) : parse_result :=
  match args with
  | [] => Ok CommandList
  | a :: _ =>
      if eq_ignore_ascii_case a "LIST" then Ok CommandList
      else Err (BadArg ("unknown COMMAND subcommand: " +:+ a))
  end.

(** ** Dispatch on the verb *)
Definition parse_flat (strings : list string) : parse_result :=
  let verb := to_ascii_uppercase (arg strings 0) in
  let args := drop 1 strings in
  if verb =? "AUTH" then parse_auth args
  else if verb =? "PING" then Ok Ping
  else if verb =? "PUT" then parse_put args
  else if verb =? "GET" then parse_get args
  else if verb =? "DELETE" then parse_delete args
  else if verb =? "PUTIF" then parse_put_if args
  else if verb =? "DELIF" then parse_del_if args
  else if verb =? "DELPREFIX" then parse_del_prefix args
  else if verb =? "LIST" then parse_list args
  else if verb =? "VERSIONS" then parse_versions args
  else if verb =? "NAMESPACE" then parse_namespace args
  else if verb =? "SUBSCRIBE" then parse_subscribe args
  else if verb =? "UNSUBSCRIBE" then Ok Unsubscribe
  else if verb =? "HEALTH" then Ok Health
  else if verb =? "CONFIG" then parse_config args
  else if verb =? "COMMAND" then parse_command_sub args
  else if verb =? "REKEY" then parse_rekey args
  else Err (BadArg ("unknown command: " +:+ verb)).

(** ** PIPELINE [REQUEST_ID id] <cmd1> <cmd2> ... *)

(** The leading keywords: the request id, and where the sub-commands start. *)
Fixpoint pipeline_keywords (request_id : option string) (cmd_start : nat)
    (elements : list Resp3Frame) : result CommandError (option string * nat) :=
  match elements with
  | [] => Ok (request_id, cmd_start)
  | Array _ :: _ => Ok (request_id, cmd_start)
  | f :: rest =>
      s ← frame_to_string f;
      if eq_ignore_ascii_case s "REQUEST_ID" then
        match rest with
        | [] => Err (BadArg "REQUEST_ID requires a value")
        | g :: rest' =>
            id ← frame_to_string g;
            pipeline_keywords (Some id) (cmd_start + 2) rest'
        end
      else Err (BadArg ("unexpected PIPELINE keyword: " +:+ s))
  end.

(** [for (i, frame) in elements[skip..].iter().enumerate()]: the sub-commands,
    each parsed by [parse], the first failure aborting with its index. *)
Definition parse_subcommands (parse : Resp3Frame -> parse_result)
    : nat -> Z -> list Resp3Frame -> result CommandError (list Command) :=
  fix go skip i elements :=
    match elements with
    | [] => Ok []
    | f :: rest =>
        match skip with
        | S skip' => go skip' i rest
        | O =>
            c ← map_err (fun e => PipelineAborted i (command_error_display e)) (parse f);
            cs ← go O (i + 1)%Z rest;
            Ok (c :: cs)
        end
    end.

Definition no_commands : CommandError := BadArg "PIPELINE requires at least one command".

Definition parse_pipeline_frame (parse : Resp3Frame -> parse_result)
    (elements : list Resp3Frame) : parse_result :=
  match elements with
  | [] => Err no_commands
  | _ :: _ =>
      '(request_id, cmd_start) ← pipeline_keywords None 0 elements;
      commands ← parse_subcommands parse cmd_start 0 elements;
      match commands with
      | [] => Err no_commands
      | _ :: _ => Ok (Pipeline commands request_id)
      end
  end.

Fixpoint parse_command (frame : Resp3Frame) : parse_result :=
  match frame with
  | Array parts =>
      match parts with
      | [] => Err (BadArg "empty command")
      | p :: elements =>
          verb ← frame_to_string p;
          if eq_ignore_ascii_case verb "PIPELINE" then
            parse_pipeline_frame parse_command elements
          else
            strings ← collect frame_to_string parts;
            parse_flat strings
      end
  | _ => Err (BadArg "expected array frame")
  end.

End Parse.
