(* ===== verification/Response.v ===== *)
(** * Command responses and their frames

    Models [shroudb-protocol/src/response.rs] (responses, response maps and
    values) and [shroudb-protocol/src/resp3/serialize.rs] (the frame a response
    is sent as). *)
From S2P Require Import Prelude RustStr Externals Resp3 Command.
Set Warnings "-register-all".
Open Scope Z_scope.

Section Response.
Context `{StoreErrorText}.

(** [ResponseValue]; a [ResponseMap] is its list of fields.  A [Float] is
    given by the text [f64::to_string] prints it as, the only thing the code
    does with one. *)
Inductive ResponseValue :=
| RVString (s : string)
| RVInteger (n : Z)
| RVFloat (printed : string)
| RVBoolean (b : bool)
| RVBytes (data : bytes)
| RVNull
| RVMap (fields : list (string * ResponseValue))
| RVArray (items : list ResponseValue)
| RVJson (v : Value).

Abbreviation ResponseMap := (list (string * ResponseValue)).

Definition map_ok : ResponseMap := [("status", RVString "OK")].

(** [ResponseMap::with]. *)
Definition map_with (m : ResponseMap) (key : string) (value : ResponseValue) : ResponseMap :=
  m ++ [(key, value)].

Inductive CommandResponse :=
| Success (m : ResponseMap)
| Error (e : CommandError)
| RespArray (items : list CommandResponse)
| CachedFrame (frame : Resp3Frame).

Fixpoint response_value_to_frame (v : ResponseValue) : Resp3Frame :=
  match v with
  | RVString s => BulkString (as_bytes s)
  | RVInteger n => Integer n
  | RVFloat f => BulkString (as_bytes f)
  | RVBoolean b => BulkString (as_bytes (if b then "true" else "false"))
  | RVBytes data => BulkString data
  | RVNull => Null
  | RVMap fields =>
      Map (map (fun '(k, w) => (BulkString (as_bytes k), response_value_to_frame w)) fields)
  | RVArray items => Array (map response_value_to_frame items)
  | RVJson v => BulkString (as_bytes (json_to_string v))
  end.

Definition response_map_to_frame (m : ResponseMap) : Resp3Frame :=
  Map (map (fun '(k, w) => (BulkString (as_bytes k), response_value_to_frame w)) m).

Fixpoint response_to_frame (r : CommandResponse) : Resp3Frame :=
  match r with
  | Success m => response_map_to_frame m
  | Error e => SimpleError (command_error_display e)
  | RespArray items => Array (map response_to_frame items)
  | CachedFrame f => f
  end.

(** ** Induction on responses *)

Lemma response_ind' (P : CommandResponse -> Prop) :
  (forall m, P (Success m)) -> (forall e, P (Error e)) ->
  (forall items, Forall P items -> P (RespArray items)) ->
  (forall f, P (CachedFrame f)) -> forall r, P r.
Proof.
  intros HS HE HA HC. fix IH 1. intros [m|e|items|f]; [apply HS|apply HE| |apply HC].
  apply HA. induction items as [|r items IHi]; constructor; [apply IH|apply IHi].
Qed.

End Response.

Abbreviation ResponseMap := (list (string * ResponseValue)).
