(* ===== verification/Idempotency.v ===== *)
(** * The idempotency map

    Models [shroudb-protocol/src/idempotency.rs]: the cache of pipeline
    responses by request id.  The concurrent map is a finite map, an [Instant]
    is a number of nanoseconds, and [elapsed()] is the difference to the
    instant the operation is given as [now], as [Instant] subtraction
    saturates, never below zero. *)
From S2P Require Import Prelude RustStr Resp3.
Open Scope Z_scope.

Definition nanos_per_sec : Z := 1000000000.

(** [earlier.elapsed().as_secs()] read at [now]. *)
Definition elapsed_secs (now earlier : Z) : Z := Z.max 0 (now - earlier) / nanos_per_sec.

Definition DEFAULT_TTL_SECS : Z := 300.

Record CachedResponse := {
  frame : Resp3Frame;
  created_at : Z;
}.

Record IdempotencyMap := {
  entries : gmap string CachedResponse;
  ttl_secs : Z;
}.

Definition idem_new : IdempotencyMap := {| entries := ∅; ttl_secs := DEFAULT_TTL_SECS |}.

Definition set_entries (m : IdempotencyMap) (e : gmap string CachedResponse) : IdempotencyMap :=
  {| entries := e; ttl_secs := ttl_secs m |}.

(** [IdempotencyMap::get]: an expired entry is removed on the way. *)
Definition idem_get (now : Z) (request_id : string) (m : IdempotencyMap)
    : option Resp3Frame * IdempotencyMap :=
  match entries m !! request_id with
  | None => (None, m)
  | Some c =>
      if ttl_secs m <=? elapsed_secs now (created_at c)
      then (None, set_entries m (delete request_id (entries m)))
      else (Some (frame c), m)
  end.

Definition idem_insert (now : Z) (request_id : string) (f : Resp3Frame) (m : IdempotencyMap)
    : IdempotencyMap :=
  set_entries m (<[request_id := {| frame := f; created_at := now |}]> (entries m)).

(** [retain]: every entry reads the clock for itself; [now] gives the instant
    an entry is visited at. *)
Definition idem_prune (now : string -> Z) (m : IdempotencyMap) : IdempotencyMap :=
  set_entries m
    (filter (fun kv => elapsed_secs (now kv.1) (created_at kv.2) < ttl_secs m) (entries m)).

Definition idem_len (m : IdempotencyMap) : nat := size (entries m).

Definition idem_is_empty (m : IdempotencyMap) : bool := (idem_len m =? 0)%nat.

(** ** Abstract view: what is cached at an instant *)

(** The response that is fresh for a request id at [now]. *)
Definition cached (m : IdempotencyMap) (now : Z) (id : string) : option Resp3Frame :=
  c ← entries m !! id;
  if elapsed_secs now (created_at c) <? ttl_secs m then Some (frame c) else None.

Lemma elapsed_mono now now' t : now <= now' -> elapsed_secs now t <= elapsed_secs now' t.
Proof. intros. unfold elapsed_secs. apply Z.div_le_mono; [done|lia]. Qed.

Lemma elapsed_under now t n :
  now - t < n * nanos_per_sec -> 0 < n -> elapsed_secs now t < n.
Proof.
  intros. unfold elapsed_secs. apply Z.div_lt_upper_bound; [done|].
  unfold nanos_per_sec in *. lia.
Qed.

Lemma elapsed_over now t n : n * nanos_per_sec <= now - t -> n <= elapsed_secs now t.
Proof.
  intros. unfold elapsed_secs. apply Z.div_le_lower_bound; [done|]. lia.
Qed.

Lemma idem_get_cached now id m : (idem_get now id m).1 = cached m now id.
Proof.
  unfold idem_get, cached. destruct (entries m !! id) as [c|]; [|done]. simpl.
  destruct (Z.leb_spec (ttl_secs m) (elapsed_secs now (created_at c))) as [Hl|Hl].
  - by rewrite (proj2 (Z.ltb_ge _ _)).
  - by rewrite (proj2 (Z.ltb_lt _ _)).
Qed.

(** [get] and [prune] change nothing anyone can see from then on. *)
Lemma idem_get_keeps now id m now' id' :
  now <= now' -> cached (idem_get now id m).2 now' id' = cached m now' id'.
Proof.
  intros Hn. unfold idem_get. destruct (entries m !! id) as [c|] eqn:Hc; [|done].
  case_match eqn:Hx; [|done]. apply Z.leb_le in Hx. unfold cached. simpl.
  destruct (decide (id' = id)) as [->|Hne]; [|by rewrite lookup_delete_ne].
  rewrite lookup_delete_eq, Hc. simpl. rewrite (proj2 (Z.ltb_ge _ _)); [done|].
  pose proof (elapsed_mono now now' (created_at c) Hn). lia.
Qed.

Lemma idem_prune_keeps now m now' id :
  (forall k, now k <= now') -> cached (idem_prune now m) now' id = cached m now' id.
Proof.
  intros Hn. unfold cached. simpl. rewrite map_lookup_filter.
  destruct (entries m !! id) as [c|]; [|done]. simpl.
  destruct (Z.ltb_spec (elapsed_secs now' (created_at c)) (ttl_secs m)) as [Hl|Hl].
  - rewrite option_guard_True; simpl; [by rewrite (proj2 (Z.ltb_lt _ _))|].
    pose proof (elapsed_mono (now id) now' (created_at c) (Hn id)). lia.
  - case_guard; simpl; [by rewrite (proj2 (Z.ltb_ge _ _))|done].
Qed.

Lemma idem_insert_lookup now id f m now' id' :
  cached (idem_insert now id f m) now' id' =
    if decide (id' = id)
    then if elapsed_secs now' now <? ttl_secs m then Some f else None
    else cached m now' id'.
Proof.
  unfold cached. simpl. case_decide as Hd.
  - subst. by rewrite lookup_insert_eq.
  - by rewrite lookup_insert_ne.
Qed.

(** ** Refinement of a log of insertions *)

(** What callers do with the map, each at an instant. *)
Inductive IdemOp :=
| OpGet (id : string)
| OpInsert (id : string) (f : Resp3Frame)
| OpPrune.

Definition idem_step (now : Z) (op : IdemOp) (m : IdempotencyMap) : IdempotencyMap :=
  match op with
  | OpGet id => (idem_get now id m).2
  | OpInsert id f => idem_insert now id f m
  | OpPrune => idem_prune (fun _ => now) m
  end.

(** A history, the most recent operation first. *)
Fixpoint idem_run (history : list (Z * IdemOp)) : IdempotencyMap :=
  match history with
  | [] => idem_new
  | (t, op) :: earlier => idem_step t op (idem_run earlier)
  end.

(** The instants never go back, and none is after [now]. *)
Fixpoint history_upto (now : Z) (history : list (Z * IdemOp)) : Prop :=
  match history with
  | [] => True
  | (t, _) :: earlier => t <= now /\ history_upto t earlier
  end.

(** The specification: the last insertion for the id, if it is young enough. *)
Fixpoint last_insert (id : string) (history : list (Z * IdemOp)) : option (Z * Resp3Frame) :=
  match history with
  | [] => None
  | (t, OpInsert id' f) :: earlier =>
      if decide (id = id') then Some (t, f) else last_insert id earlier
  | _ :: earlier => last_insert id earlier
  end.

Definition idem_spec (now : Z) (id : string) (history : list (Z * IdemOp)) : option Resp3Frame :=
  '(t, f) ← last_insert id history;
  if elapsed_secs now t <? DEFAULT_TTL_SECS then Some f else None.

Lemma history_upto_le now now' h : now <= now' -> history_upto now h -> history_upto now' h.
Proof. destruct h as [|[t op] h]; simpl; [done|]. intros ? [? ?]. split; [lia|done]. Qed.

Lemma idem_run_ttl h : ttl_secs (idem_run h) = DEFAULT_TTL_SECS.
Proof.
  induction h as [|[t op] h IH]; [done|]. simpl. destruct op; simpl; try done.
  unfold idem_get. repeat case_match; done.
Qed.

Lemma idem_run_cached h : forall now id,
  history_upto now h -> cached (idem_run h) now id = idem_spec now id h.
Proof.
  induction h as [|[t op] h IH]; intros now id; [done|]. intros [Ht Hh].
  assert (cached (idem_run h) now id = idem_spec now id h) as Heq
    by (apply IH; by apply (history_upto_le t)).
  destruct op as [id'|id' f|]; simpl.
  - by rewrite idem_get_keeps.
  - rewrite idem_insert_lookup, idem_run_ttl. unfold idem_spec. simpl. by case_decide.
  - by rewrite idem_prune_keeps.
Qed.

(** C9. The idempotency map implements a cache with a time to live: whatever
    lookups, insertions and prunings happened before, in whatever order, a
    lookup returns exactly the response of the last insertion for that id
    when less than 300 whole seconds have passed since, and nothing
    otherwise; lookups and prunings are never observable. *)
Theorem idempotency_refines_log (history : list (Z * IdemOp)) (now : Z) (id : string) :
  history_upto now history ->
  (idem_get now id (idem_run history)).1 = idem_spec now id history.
Proof. intros Hh. by rewrite idem_get_cached, idem_run_cached. Qed.

Lemma idempotency_refines_log_witness :
  (idem_get 299999999999 "a"
    (idem_run [(5, OpPrune); (3, OpGet "b"); (0, OpInsert "a" Null)])).1 = Some Null.
Proof.
  refine (idempotency_refines_log [(5, OpPrune); (3, OpGet "b"); (0, OpInsert "a" Null)]
    299999999999 "a" _).
  simpl. lia.
Defined.

(** Pruning bounds the map: after [prune] every entry that is left was
    still fresh when it was visited, and a map whose entries have all expired
    is empty. *)
Theorem idempotency_prune_fresh (now : string -> Z) (m : IdempotencyMap) :
  (forall id c, entries (idem_prune now m) !! id = Some c ->
     entries m !! id = Some c /\ elapsed_secs (now id) (created_at c) < ttl_secs m)
  /\ ((forall id c, entries m !! id = Some c -> ttl_secs m <= elapsed_secs (now id) (created_at c)) ->
      idem_is_empty (idem_prune now m) = true).
Proof.
  split.
  - intros id c Hc. by apply map_lookup_filter_Some in Hc.
  - intros Hold. unfold idem_is_empty, idem_len. apply Nat.eqb_eq, map_size_empty_iff.
    apply map_empty. intros id. apply map_lookup_filter_None. right. intros c Hc. simpl.
    specialize (Hold id c Hc). lia.
Qed.

Lemma idempotency_prune_fresh_witness :
  idem_is_empty (idem_prune (fun _ => 300000000000) (idem_insert 0 "a" Null idem_new)) = true.
Proof.
  apply (proj2 (idempotency_prune_fresh (fun _ => 300000000000) (idem_insert 0 "a" Null idem_new))).
  intros id c Hc. simpl in Hc. destruct (decide (id = "a")) as [->|Hne].
  - rewrite lookup_insert_eq in Hc. injection Hc as <-. vm_compute. discriminate.
  - rewrite lookup_insert_ne in Hc by congruence. discriminate.
Defined.
