(* ===== verification/Handlers.v ===== *)
(** * The command handlers

    Models [shroudb-protocol/src/handlers/*.rs]: what each command does to the
    store or to the storage engine, how the errors of these become command
    errors, and the response it builds.  A handler is a function of the store
    (or engine) state. *)
From S2P Require Import Prelude RustStr Externals Command Response.
Open Scope Z_scope.
Open Scope string_scope.

Section Handlers.
Context `{StoreErrorText} {S : Type} `{!Store S}.

Abbreviation handled := (result CommandError ResponseMap * S)%type.

(** [.await?] and [.await.map_err(f)?] on a store operation. *)
Definition on_store {A : Type} (op : S -> result StoreError A * S) (err : StoreError -> CommandError)
    (ok : A -> ResponseMap) (s : S) : handled :=
  let '(r, s') := op s in
  (match r with Ok a => Ok (ok a) | Err e => Err (err e) end, s').

(** [format!("{ns}/{}: {other}", String::from_utf8_lossy(key))]. *)
Definition internal_at (ns : string) (key : bytes) (e : StoreError) : CommandError :=
  Internal (ns +:+ "/" +:+ from_utf8_lossy key +:+ ": " +:+ store_error_display e).

(** [metadata_json.map(metadata_from_json)], as PUT and PUTIF do it. *)
Definition parse_metadata (json : option Value) : result CommandError (option Metadata) :=
  match json with
  | None => Ok None
  | Some j =>
      match metadata_from_json j with
      | Ok m => Ok (Some m)
      | Err e => Err (BadArg ("invalid metadata: " +:+ e))
      end
  end.

(** [ResponseMap::ok().with("version", Integer(version as i64))]. *)
Definition version_response (version : Z) : ResponseMap :=
  map_with map_ok "version" (RVInteger (u64_as_i64 version)).

(** ** Data *)
Definition put_handle (ns : string) (key value : bytes) (metadata_json : option Value)
    (ttl_ms : option Z) (s : S) : handled :=
  match parse_metadata metadata_json with
  | Err e => (Err e, s)
  | Ok metadata =>
      on_store
        (st_put_with_options ns key value
           {| put_metadata := metadata; put_ttl_ms := ttl_ms; put_expected_version := None |})
        StoreErr version_response s
  end.

(** The errors GET and DELETE tell apart. *)
Definition keyed_error (ns : string) (key : bytes) (e : StoreError) : CommandError :=
  match e with
  | SeNotFound => NotFound
  | SeNamespaceNotFound _ => NamespaceNotFound ns
  | other => internal_at ns key other
  end.

Definition get_response (include_meta : bool) (entry : Entry) : ResponseMap :=
  let resp :=
    map_with (map_with (map_with map_ok "key" (RVBytes (entry_key entry)))
      "value" (RVBytes (entry_value entry)))
      "version" (RVInteger (u64_as_i64 (entry_version entry))) in
  if include_meta
  then map_with resp "metadata" (RVJson (metadata_to_json (entry_metadata entry)))
  else resp.

Definition get_handle (ns : string) (key : bytes) (version : option Z) (include_meta : bool)
    (s : S) : handled :=
  on_store (st_get ns key version) (keyed_error ns key) (get_response include_meta) s.

Definition delete_handle (ns : string) (key : bytes) (s : S) : handled :=
  on_store (st_delete ns key) (keyed_error ns key) version_response s.

Definition put_if_error (ns : string) (key : bytes) (e : StoreError) : CommandError :=
  match e with
  | SeVersionConflict current => VersionConflict current
  | SeNamespaceNotFound _ => NamespaceNotFound ns
  | SeValidationFailed errors => ValidationFailed (validation_errors_debug errors)
  | other => internal_at ns key other
  end.

Definition put_if_handle (ns : string) (key value : bytes) (metadata_json : option Value)
    (expected_version : Z) (s : S) : handled :=
  match parse_metadata metadata_json with
  | Err e => (Err e, s)
  | Ok metadata =>
      on_store (st_put_if_version ns key value metadata expected_version)
        (put_if_error ns key) version_response s
  end.

Definition del_if_error (ns : string) (key : bytes) (e : StoreError) : CommandError :=
  match e with
  | SeVersionConflict current => VersionConflict current
  | SeNotFound => NotFound
  | SeNamespaceNotFound _ => NamespaceNotFound ns
  | other => internal_at ns key other
  end.

Definition del_if_handle (ns : string) (key : bytes) (expected_version : Z) (s : S) : handled :=
  on_store (st_delete_if_version ns key expected_version) (del_if_error ns key) version_response s.

Definition del_prefix_error (ns : string) (e : StoreError) : CommandError :=
  match e with
  | SePrefixTooLarge matched limit => PrefixTooLarge matched limit
  | SeNamespaceNotFound _ => NamespaceNotFound ns
  | SeStorage msg =>
      if contains "empty prefix" msg then BadArg msg
      else Internal (ns +:+ ": " +:+ store_error_display e)
  | _ => Internal (ns +:+ ": " +:+ store_error_display e)
  end.

Definition del_prefix_handle (ns : string) (prefix : bytes) (s : S) : handled :=
  on_store (st_delete_prefix ns prefix) (del_prefix_error ns)
    (fun deleted => map_with map_ok "deleted" (RVInteger (u64_as_i64 deleted))) s.

Definition list_error (ns : string) (e : StoreError) : CommandError :=
  match e with
  | SeNamespaceNotFound _ => NamespaceNotFound ns
  | SeInvalidCursor msg => BadArg msg
  | other => Internal (ns +:+ ": " +:+ store_error_display other)
  end.

(** A page: the items under their name, and the cursor when there is one. *)
Definition page_response (name : string) (items : list ResponseValue) (cursor : option string)
    : ResponseMap :=
  let resp := map_with map_ok name (RVArray items) in
  match cursor with Some c => map_with resp "cursor" (RVString c) | None => resp end.

Definition list_handle (ns : string) (prefix : option bytes) (cursor : option string) (limit : Z)
    (s : S) : handled :=
  on_store (st_list ns prefix cursor limit) (list_error ns)
    (fun page => page_response "keys" (map RVBytes (page_keys page)) (page_cursor page)) s.

Definition version_entry (v : VersionInfo) : ResponseValue :=
  let state := match vi_state v with Active => "active" | Deleted => "deleted" end in
  RVMap (map_with (map_with (map_with (map_with map_ok
    "version" (RVInteger (u64_as_i64 (vi_version v))))
    "state" (RVString state))
    "updated_at" (RVInteger (u64_as_i64 (vi_updated_at v))))
    "actor" (RVString (vi_actor v))).

Definition versions_handle (ns : string) (key : bytes) (limit : Z) (from_version : option Z)
    (s : S) : handled :=
  on_store (st_versions ns key limit from_version) (internal_at ns key)
    (fun vs => map_with map_ok "versions" (RVArray (map version_entry vs))) s.

(** ** Namespaces *)
Definition namespace_parse_config (schema_json : option Value) (max_v ret : option Z)
    : result CommandError NamespaceConfig :=
  match schema_json with
  | None =>
      Ok {| meta_schema := None; max_versions := max_v; tombstone_retention_secs := ret |}
  | Some j =>
      match meta_schema_from_json j with
      | Err e => Err (BadArg ("invalid schema: " +:+ e))
      | Ok schema =>
          Ok {| meta_schema := Some schema; max_versions := max_v;
                tombstone_retention_secs := ret |}
      end
  end.

Definition namespace_handle_create (name : string) (schema_json : option Value)
    (max_v ret : option Z) (s : S) : handled :=
  match namespace_parse_config schema_json max_v ret with
  | Err e => (Err e, s)
  | Ok config => on_store (st_namespace_create name config) StoreErr (fun _ => map_ok) s
  end.

Definition namespace_handle_drop (name : string) (force : bool) (s : S) : handled :=
  on_store (st_namespace_drop name force) StoreErr (fun _ => map_ok) s.

Definition namespace_handle_list (cursor : option string) (limit : Z) (s : S) : handled :=
  on_store (st_namespace_list cursor limit) StoreErr
    (fun page => page_response "namespaces"
       (map (fun k => RVString (from_utf8_lossy k)) (page_keys page)) (page_cursor page)) s.

Definition namespace_handle_info (name : string) (s : S) : handled :=
  on_store (st_namespace_info name) StoreErr
    (fun info => map_with (map_with (map_with map_ok
       "name" (RVString (info_name info)))
       "key_count" (RVInteger (u64_as_i64 (info_key_count info))))
       "created_at" (RVInteger (u64_as_i64 (info_created_at info)))) s.

Definition namespace_handle_alter (name : string) (schema_json : option Value)
    (max_v ret : option Z) (s : S) : handled :=
  match namespace_parse_config schema_json max_v ret with
  | Err e => (Err e, s)
  | Ok config => on_store (st_namespace_alter name config) StoreErr (fun _ => map_ok) s
  end.

Definition report_entry (r : ValidationReport) : ResponseValue :=
  RVMap (map_with (map_with (map_with map_ok
    "key" (RVBytes (report_key r)))
    "version" (RVInteger (u64_as_i64 (report_version r))))
    "errors" (RVArray (map (fun e => RVString (validation_error_display e)) (report_errors r)))).

Definition namespace_handle_validate (name : string) (s : S) : handled :=
  on_store (st_namespace_validate name) StoreErr
    (fun reports =>
       let entries := map report_entry reports in
       map_with (map_with map_ok "count" (RVInteger (u64_as_i64 (Z.of_nat (length entries)))))
         "reports" (RVArray entries)) s.

(** ** Operations that need no state *)
Definition health_handle : result CommandError ResponseMap :=
  Ok (map_with map_ok "message" (RVString "healthy")).

Definition commands : list string :=
  ["AUTH"; "PING"; "PUT"; "GET"; "DELETE"; "LIST"; "VERSIONS"; "NAMESPACE CREATE";
   "NAMESPACE DROP"; "NAMESPACE LIST"; "NAMESPACE INFO"; "NAMESPACE ALTER"; "NAMESPACE VALIDATE";
   "PIPELINE"; "SUBSCRIBE"; "UNSUBSCRIBE"; "HEALTH"; "CONFIG GET"; "CONFIG SET"; "COMMAND LIST"].

Definition command_list_handle : result CommandError ResponseMap :=
  let values := map RVString commands in
  Ok (map_with (map_with map_ok "count" (RVInteger (u64_as_i64 (Z.of_nat (length values)))))
        "commands" (RVArray values)).

(** ** CONFIG and REKEY, on the engine *)
Context {E : Type} `{!Engine E}.

Definition config_handle_get (key : string) (e : E) : result CommandError ResponseMap :=
  match config_get e key with
  | Some entry =>
      Ok (map_with (map_with (map_with map_ok "key" (RVString key))
            "value" (RVString (config_value entry)))
            "source" (RVString (config_source entry)))
  | None => Ok (map_with (map_with map_ok "key" (RVString key)) "value" RVNull)
  end.

(** [now] is the system time in seconds, [None] when it is before 1970. *)
Definition config_handle_set (now : option Z) (key value : string) (e : E)
    : result CommandError ResponseMap * E :=
  match now with
  | None => (Err (Internal "system clock error"), e)
  | Some timestamp =>
      match config_validate e key value with
      | Err m => (Err (BadArg m), e)
      | Ok _ =>
          let '(r, e1) := apply_config_changed key value e in
          match r with
          | Err m => (Err (Internal m), e1)
          | Ok _ =>
              let '(r, e2) := config_set key value timestamp e1 in
              match r with
              | Err m => (Err (BadArg m), e2)
              | Ok _ => (Ok map_ok, e2)
              end
          end
      end
  end.

(** A hexadecimal digit, [char::to_digit(16)]. *)
Definition hex_digit (c : ascii) : option Z :=
  let n := Z.of_N (N_of_ascii c) in
  if (48 <=? n)%Z && (n <=? 57)%Z then Some (n - 48)%Z
  else if (65 <=? n)%Z && (n <=? 70)%Z then Some (n - 55)%Z
  else if (97 <=? n)%Z && (n <=? 102)%Z then Some (n - 87)%Z
  else None.

(** [u8::from_str_radix(s, 16)] on two bytes, with the error's text: a leading
    [+] is accepted, a leading [-] is no digit of an unsigned number. *)
Definition hex_byte (a b : ascii) : result string Z :=
  let bad := Err "invalid digit found in string" in
  match hex_digit b with
  | None => bad
  | Some l =>
      if Ascii.eqb a "+" then Ok l
      else match hex_digit a with Some h => Ok (16 * h + l)%Z | None => bad end
  end.

(** [(0..len).step_by(2).map(|i| from_str_radix(&hex[i..i + 2], 16)).collect()];
    [None] is the panic of a slice that cuts a character in two. *)
Fixpoint decode_pairs (hex : string) : option (result string bytes) :=
  match hex with
  | String a (String b rest) =>
      if negb (is_boundary rest) then None
      else
        match hex_byte a b with
        | Err e => Some (Err e)
        | Ok n =>
            r ← decode_pairs rest;
            Some (match r with
                  | Ok bs => Ok (byte_of_ascii (ascii_of_N (Z.to_N n)) :: bs)
                  | Err e => Err e
                  end)
        end
  | _ => Some (Ok [])
  end.

Definition decode_hex (hex : string) : option (result string bytes) :=
  if Nat.odd (String.length hex) then Some (Err "odd number of hex characters")
  else decode_pairs hex.

(** [None] is a panic. *)
Definition rekey_handle (new_key_hex : string) (e : E)
    : option (result CommandError ResponseMap) * E :=
  match decode_hex new_key_hex with
  | None => (None, e)
  | Some (Err m) => (Some (Err (BadArg ("invalid hex key: " +:+ m))), e)
  | Some (Ok key_bytes) =>
      if negb (length key_bytes =? 32)%nat then
        (Some (Err (BadArg ("key must be 32 bytes (64 hex chars), got "
                            +:+ int_to_string (Z.of_nat (length key_bytes))))), e)
      else
        let '(r, e') := begin_rekey_from_bytes key_bytes e in
        (Some (match r with
               | Err m => Err (Internal m)
               | Ok _ => Ok (map_with map_ok "message" (RVString "rekey started"))
               end), e')
  end.

Definition rekey_handle_status (e : E) : result CommandError ResponseMap :=
  match rekey_status e with
  | Some p =>
      Ok (map_with (map_with (map_with (map_with (map_with map_ok
            "in_progress" (RVBoolean (rp_in_progress p)))
            "progress" (RVString (rp_percent p)))
            "segments_completed" (RVInteger (u64_as_i64 (rp_segments_completed p))))
            "total_segments" (RVInteger (u64_as_i64 (rp_total_segments p))))
            "started_at" (RVInteger (u64_as_i64 (rp_started_at p))))
  | None =>
      Ok (map_with (map_with map_ok "in_progress" (RVBoolean false))
            "message" (RVString "no rekey in progress"))
  end.
End Handlers.
