(* ===== verification/Dispatch.v ===== *)
(** * The command dispatcher

    Models [shroudb-protocol/src/dispatch.rs]: [execute] checks the ACL, runs
    the handler and records what was done; a pipeline runs its sub-commands one
    after the other and remembers its response under its request id. *)
From S2P Require Import Prelude RustStr Externals Resp3 Command Response Idempotency Handlers.
Open Scope Z_scope.

(** ** The clocks: [Instant::now] in nanoseconds, [SystemTime] in seconds

    [system_secs] is [None] when the system time is before 1970. *)
Class Clock (C : Type) := {
  instant_now : C -> Z * C;
  system_secs : C -> option Z * C;
}.

(** Instants never go back: every reading lies between a lower bound on what
    the clock can still show before and after it. *)
Class ClockLaws (C : Type) `{Clock C} := {
  not_before : C -> Z;
  instant_now_between c t c' :
    instant_now c = (t, c') -> not_before c <= t /\ t <= not_before c';
  system_secs_keeps c t c' : system_secs c = (t, c') -> not_before c <= not_before c';
}.

(** What the dispatcher reports: the metrics and the audit log. *)
Inductive Report :=
| CommandsTotal (command result : string)
| CommandDuration (command : string) (nanos : Z)
| Audit (op result : string) (duration_ms : Z) (actor : string).

Section Dispatch.
Context `{StoreErrorText} `{!Acl}.
Context {S : Type} `{!Store S} {E : Type} `{!Engine E} {C : Type} `{!Clock C}.

(** The dispatcher with everything its operations read and change. *)
Record Dispatcher := {
  store : S;
  engine : option E;          (* [None] in remote store mode *)
  idempotency : IdempotencyMap;
  clock : C;
  reports : list Report;      (* oldest first *)
}.

Definition new (s : S) (e : E) (c : C) : Dispatcher :=
  {| store := s; engine := Some e; idempotency := idem_new; clock := c; reports := [] |}.

Definition new_remote (s : S) (c : C) : Dispatcher :=
  {| store := s; engine := None; idempotency := idem_new; clock := c; reports := [] |}.

Definition set_store (s : S) (d : Dispatcher) : Dispatcher :=
  {| store := s; engine := engine d; idempotency := idempotency d; clock := clock d;
     reports := reports d |}.

Definition set_engine (e : E) (d : Dispatcher) : Dispatcher :=
  {| store := store d; engine := Some e; idempotency := idempotency d; clock := clock d;
     reports := reports d |}.

Definition set_idempotency (m : IdempotencyMap) (d : Dispatcher) : Dispatcher :=
  {| store := store d; engine := engine d; idempotency := m; clock := clock d;
     reports := reports d |}.

Definition set_clock (c : C) (d : Dispatcher) : Dispatcher :=
  {| store := store d; engine := engine d; idempotency := idempotency d; clock := c;
     reports := reports d |}.

Definition report (r : Report) (d : Dispatcher) : Dispatcher :=
  {| store := store d; engine := engine d; idempotency := idempotency d; clock := clock d;
     reports := reports d ++ [r] |}.

Definition read_instant (d : Dispatcher) : Z * Dispatcher :=
  let '(t, c) := instant_now (clock d) in (t, set_clock c d).

(** The outcome of a step: [None] is a panic. *)
Abbreviation outcome A := (option A * Dispatcher)%type.
Abbreviation handled := (result CommandError ResponseMap).

Definition with_store (h : S -> handled * S) (d : Dispatcher) : outcome handled :=
  let '(r, s) := h (store d) in (Some r, set_store s d).

Definition without_engine (what : string) : CommandError :=
  Internal (what +:+ " not available in remote store mode").

Definition dispatch (cmd : Command) (d : Dispatcher) : outcome handled :=
  match cmd with
  | Auth _ =>
      (Some (Err (Internal
        "AUTH must be handled at the connection level (bug: reached dispatcher)")), d)
  | Ping => (Some (Ok (map_with map_ok "message" (RVString "PONG"))), d)
  | Put ns key value metadata ttl_ms => with_store (put_handle ns key value metadata ttl_ms) d
  | Get ns key version meta => with_store (get_handle ns key version meta) d
  | Delete ns key => with_store (delete_handle ns key) d
  | PutIf ns key value metadata expected =>
      with_store (put_if_handle ns key value metadata expected) d
  | DelIf ns key expected => with_store (del_if_handle ns key expected) d
  | DelPrefix ns prefix => with_store (del_prefix_handle ns prefix) d
  | List ns prefix cursor limit =>
      with_store (list_handle ns prefix cursor (default 100 limit)) d
  | Versions ns key limit from => with_store (versions_handle ns key (default 100 limit) from) d
  | NamespaceCreate name schema max_v ret =>
      with_store (namespace_handle_create name schema max_v ret) d
  | NamespaceDrop name force => with_store (namespace_handle_drop name force) d
  | NamespaceList cursor limit => with_store (namespace_handle_list cursor (default 100 limit)) d
  | NamespaceInfo name => with_store (namespace_handle_info name) d
  | NamespaceAlter name schema max_v ret =>
      with_store (namespace_handle_alter name schema max_v ret) d
  | NamespaceValidate name => with_store (namespace_handle_validate name) d
  | Health => (Some health_handle, d)
  | ConfigGet key =>
      match engine d with
      | Some e => (Some (config_handle_get key e), d)
      | None => (Some (Err (without_engine "CONFIG")), d)
      end
  | ConfigSet key value =>
      match engine d with
      | Some e =>
          let '(now, c) := system_secs (clock d) in
          let '(r, e') := config_handle_set now key value e in
          (Some r, set_engine e' (set_clock c d))
      | None => (Some (Err (without_engine "CONFIG")), d)
      end
  | CommandList => (Some command_list_handle, d)
  | Rekey new_key_hex =>
      match engine d with
      | Some e => let '(r, e') := rekey_handle new_key_hex e in (r, set_engine e' d)
      | None => (Some (Err (without_engine "REKEY")), d)
      end
  | RekeyStatus =>
      match engine d with
      | Some e => (Some (rekey_handle_status e), d)
      | None => (Some (Err (without_engine "REKEY STATUS")), d)
      end
  | Subscribe _ _ _ =>
      (Some (Err (BadArg "SUBSCRIBE must be handled at the connection level")), d)
  | Unsubscribe => (Some (Err (BadArg "UNSUBSCRIBE: no active subscription")), d)
  | Pipeline _ _ => (None, d)     (* unreachable!() *)
  end.

(** The ACL middleware: the error a command is refused with, if it is. *)
Definition acl_refusal (cmd : Command) (auth : option AuthContext) : option CommandError :=
  match acl_requirement cmd with
  | AclNone => None
  | requirement =>
      match auth with
      | None => Some NotAuthenticated
      | Some ctx =>
          match auth_check ctx requirement with
          | Err e => Some (Denied e)
          | Ok _ => None
          end
      end
  end.

(** Elapsed time: an [Instant] difference saturates at zero. *)
Definition elapsed (start now : Z) : Z := Z.max 0 (now - start).

(** [duration.as_millis() as u64]. *)
Definition as_millis_u64 (nanos : Z) : Z := (nanos / 1000000) mod two64.

Definition actor_name (auth : option AuthContext) : string :=
  match auth with Some a => auth_actor a | None => "anonymous" end.

(** A command that is not a pipeline. *)
Definition execute_single (cmd : Command) (auth : option AuthContext) (d : Dispatcher)
    : outcome CommandResponse :=
  match acl_refusal cmd auth with
  | Some e => (Some (Error e), d)
  | None =>
      let is_write := negb (is_read cmd) in
      let '(start, d) := read_instant d in
      let '(result, d) := dispatch cmd d in
      match result with
      | None => (None, d)
      | Some result =>
          let '(now, d) := read_instant d in
          let duration := elapsed start now in
          let label := match result with Ok _ => "ok" | Err _ => "error" end in
          let d := report (CommandsTotal (verb cmd) label) d in
          let d := report (CommandDuration (verb cmd) duration) d in
          let d := if is_write
                   then report (Audit (verb cmd) label (as_millis_u64 duration) (actor_name auth)) d
                   else d in
          (Some (match result with Ok resp => Success resp | Err e => Error e end), d)
      end
  end.

(** [for c in commands { results.push(self.execute(c, auth).await) }]. *)
Definition execute_each (exec : Command -> Dispatcher -> outcome CommandResponse)
    : list Command -> Dispatcher -> outcome (list CommandResponse) :=
  fix go cs d :=
    match cs with
    | [] => (Some [], d)
    | c :: rest =>
        let '(r, d) := exec c d in
        match r with
        | None => (None, d)
        | Some r =>
            let '(rs, d) := go rest d in
            (match rs with Some rs => Some (r :: rs) | None => None end, d)
        end
    end.

(** [self.idempotency.get(id)], when there is an id. *)
Definition lookup_request (request_id : option string) (d : Dispatcher)
    : option Resp3Frame * Dispatcher :=
  match request_id with
  | None => (None, d)
  | Some id =>
      let '(now, d) := read_instant d in
      let '(f, m) := idem_get now id (idempotency d) in
      (f, set_idempotency m d)
  end.

Definition remember_request (request_id : option string) (response : CommandResponse)
    (d : Dispatcher) : Dispatcher :=
  match request_id with
  | None => d
  | Some id =>
      let '(now, d) := read_instant d in
      set_idempotency (idem_insert now id (response_to_frame response) (idempotency d)) d
  end.

Definition execute_pipeline (run : Dispatcher -> outcome (list CommandResponse))
    (request_id : option string) (d : Dispatcher) : outcome CommandResponse :=
  let '(seen, d) := lookup_request request_id d in
  match seen with
  | Some f => (Some (CachedFrame f), d)
  | None =>
      let '(results, d) := run d in
      match results with
      | None => (None, d)
      | Some results =>
          let response := RespArray results in
          (Some response, remember_request request_id response d)
      end
  end.

Fixpoint execute (auth : option AuthContext) (cmd : Command) (d : Dispatcher) {struct cmd}
    : outcome CommandResponse :=
  match cmd with
  | Pipeline commands request_id =>
      execute_pipeline (execute_each (execute auth) commands) request_id d
  | _ => execute_single cmd auth d
  end.

End Dispatch.
