(* ===== verification/Concurrent.v ===== *)
(** * Requests in flight

    The dispatcher is shared: every connection task calls
    [CommandDispatcher::execute] of [shroudb-protocol/src/dispatch.rs] on the
    same [Arc].  Here [execute] is cut into the steps other tasks can come
    between: looking a request id up, running one command, going on with the
    next one of a pipeline, remembering the response.  A task carries its
    position (the pipelines it is inside, with the results so far); the
    scheduler picks the task that makes the next step.

    One command that is not a pipeline is one step: its handler makes one call
    to the store, and what precedes and follows the call (the ACL check, the
    metrics, the audit record) is not shared. *)
From S2P Require Import Prelude RustStr Externals Resp3 Command Response Idempotency Handlers Dispatch.
Open Scope Z_scope.

Section Concurrent.
Context `{StoreErrorText} `{!Acl}.
Context {S : Type} `{!Store S} {E : Type} `{!Engine E} {C : Type} `{!Clock C}.

(** A pipeline whose commands are being executed: [commands] as far as they
    are left, [results] so far. *)
Record Pending := {
  pd_rest : list Command;
  pd_results : list CommandResponse;
  pd_request_id : option string;
}.

Inductive Flight :=
| Calling (cmd : Command) (stack : list Pending)       (* at the entry of [execute] *)
| Looping (p : Pending) (stack : list Pending)         (* at the head of the [for] loop *)
| Returning (r : CommandResponse) (stack : list Pending)
| Crashed.

(** The next step of a call to [execute]; a call that has returned to the
    connection, or has panicked, makes none. *)
Definition flight_step (auth : option AuthContext) (t : Flight) (d : Dispatcher (S:=S) (E:=E) (C:=C))
    : Flight * Dispatcher :=
  match t with
  | Calling (Pipeline commands request_id) stack =>
      let '(seen, d) := lookup_request request_id d in
      match seen with
      | Some f => (Returning (CachedFrame f) stack, d)
      | None =>
          (Looping {| pd_rest := commands; pd_results := []; pd_request_id := request_id |} stack, d)
      end
  | Calling cmd stack =>
      let '(r, d) := execute_single cmd auth d in
      (match r with Some r => Returning r stack | None => Crashed end, d)
  | Looping p stack =>
      match pd_rest p with
      | c :: rest =>
          (Calling c ({| pd_rest := rest; pd_results := pd_results p;
                         pd_request_id := pd_request_id p |} :: stack), d)
      | [] =>
          let response := RespArray (pd_results p) in
          (Returning response stack, remember_request (pd_request_id p) response d)
      end
  | Returning r (p :: stack) =>
      (Looping {| pd_rest := pd_rest p; pd_results := pd_results p ++ [r];
                  pd_request_id := pd_request_id p |} stack, d)
  | Returning _ [] | Crashed => (t, d)
  end.

(** ** Tasks over one dispatcher *)
Record Pool := {
  shared : Dispatcher (S:=S) (E:=E) (C:=C);
  flights : list (option AuthContext * Flight);
}.

Definition pool_step (i : nat) (s : Pool) : Pool :=
  match flights s !! i with
  | None => s
  | Some (auth, t) =>
      let '(t, d) := flight_step auth t (shared s) in
      {| shared := d; flights := <[i := (auth, t)]> (flights s) |}
  end.

(** The tasks make their steps in the order of the schedule. *)
Definition pool_run (schedule : list nat) (s : Pool) : Pool :=
  fold_left (fun s i => pool_step i s) schedule s.

(** Requests that have just arrived. *)
Definition launch (requests : list (option AuthContext * Command)) (d : Dispatcher) : Pool :=
  {| shared := d; flights := map (fun '(auth, cmd) => (auth, Calling cmd [])) requests |}.

End Concurrent.
