(* ===== verification/RateLimiter.v ===== *)
(** * The per-connection rate limiter

    Models [RateLimiter] of [shroudb-server/src/connection.rs].  An [f64] is an
    IEEE 754 binary64 number of the Standard Library's [SpecFloat], with its
    rounding; an instant is in nanoseconds. *)
From S2P Require Import Prelude.
From Stdlib Require Import SpecFloat.
Open Scope Z_scope.

(** ** [f64] *)
Abbreviation f64 := spec_float.

Definition f64_of_Z (n : Z) : f64 := binary_normalize 53 1024 n 0 false.
Definition f64_add : f64 -> f64 -> f64 := SFadd 53 1024.
Definition f64_sub : f64 -> f64 -> f64 := SFsub 53 1024.
Definition f64_mul : f64 -> f64 -> f64 := SFmul 53 1024.
Definition f64_div : f64 -> f64 -> f64 := SFdiv 53 1024.

(** [x >= y]. *)
Definition f64_ge (x y : f64) : bool := SFleb y x.

(** [x.min(y)]: a NaN is ignored. *)
Definition f64_min (x y : f64) : f64 :=
  match x, y with
  | S754_nan, _ => y
  | _, S754_nan => x
  | _, _ => if SFltb y x then y else x
  end.

(** [Duration::as_secs_f64]. *)
Definition as_secs_f64 (nanos : Z) : f64 :=
  f64_add (f64_of_Z (nanos / 1000000000))
    (f64_div (f64_of_Z (nanos mod 1000000000)) (f64_of_Z 1000000000)).

(** ** The limiter *)
Record RateLimiter := {
  tokens : f64;
  max_tokens : f64;
  refill_rate : f64;
  last_refill : Z;
}.

Definition rl_new (max_tokens refill_rate : f64) (now : Z) : RateLimiter :=
  {| tokens := f64_of_Z 1; max_tokens := max_tokens; refill_rate := refill_rate;
     last_refill := now |}.

(** The limiter of a connection with [rate_limit = limit]. *)
Definition limiter_for (limit now : Z) : RateLimiter :=
  rl_new (f64_of_Z limit) (f64_of_Z limit) now.

(** [duration_since] saturates at zero. *)
Definition try_acquire (now : Z) (l : RateLimiter) : bool * RateLimiter :=
  let elapsed := as_secs_f64 (Z.max 0 (now - last_refill l)) in
  let refilled :=
    f64_min (f64_add (tokens l) (f64_mul elapsed (refill_rate l))) (max_tokens l) in
  let granted := f64_ge refilled (f64_of_Z 1) in
  (granted,
   {| tokens := if granted then f64_sub refilled (f64_of_Z 1) else refilled;
      max_tokens := max_tokens l; refill_rate := refill_rate l; last_refill := now |}).

(** The answers to commands that arrive at the given instants. *)
Fixpoint acquire_all (arrivals : list Z) (l : RateLimiter) : list bool :=
  match arrivals with
  | [] => []
  | t :: rest => let '(granted, l') := try_acquire t l in granted :: acquire_all rest l'
  end.

(** ** Floating-point facts *)

Lemma digits2_pos_log p : Z.pos (digits2_pos p) = Z.succ (Z.log2 (Z.pos p)).
Proof.
  induction p as [p IH|p IH|]; [| |done]; cbn [digits2_pos]; rewrite Pos2Z.inj_succ, IH.
  - replace (Z.pos p~1) with (Z.succ_double (Z.pos p)) by done.
    rewrite Z.succ_double_spec, Z.log2_succ_double; lia.
  - replace (Z.pos p~0) with (2 * Z.pos p) by done. rewrite Z.log2_double; lia.
Qed.

(** A 53-bit significand is not rounded. *)
Lemma round_exact s m e :
  Z.pos (digits2_pos m) = 53 -> -1074 <= e <= 971 ->
  binary_round_aux 53 1024 s (Z.pos m) e loc_Exact = S754_finite s m e.
Proof.
  intros Hd He. unfold binary_round_aux.
  assert (shr_fexp 53 1024 (Z.pos m) e loc_Exact
          = ({| shr_m := Z.pos m; shr_r := false; shr_s := false |}, e)) as Hs.
  { unfold shr_fexp, Zdigits2, fexp, emin. rewrite Hd.
    by replace (Z.max (53 + e - 53) (3 - 1024 - 53) - e) with 0 by lia. }
  rewrite Hs. cbn [shr_m loc_of_shr_record round_nearest_even]. rewrite Hs. cbn [shr_m].
  rewrite (proj2 (Z.leb_le _ _)) by lia. done.
Qed.

Lemma digits2_shift p k :
  Z.pos (digits2_pos (Pos.iter xO p k)) = Z.pos (digits2_pos p) + Z.pos k.
Proof.
  revert k. apply (Pos.peano_ind (fun k => _)); [simpl; lia|].
  intros k IH. rewrite Pos.iter_succ. cbn [digits2_pos].
  rewrite Pos2Z.inj_succ, IH, Pos2Z.inj_succ. lia.
Qed.

(** Integers below 2^53 are represented exactly; the exponent is that of the
    leading digit. *)
Lemma f64_of_Z_exact p : (Z.pos (digits2_pos p) <= 53) ->
  exists m, f64_of_Z (Z.pos p) = S754_finite false m (Z.pos (digits2_pos p) - 53).
Proof.
  intros Hd. unfold f64_of_Z, binary_normalize, binary_round, shl_align, fexp, emin.
  replace (Z.max (Z.pos (digits2_pos p) + 0 - 53) (3 - 1024 - 53) - 0)
    with (Z.pos (digits2_pos p) - 53) by lia.
  replace (Z.max (Z.pos (digits2_pos p) + 0 - 53) (3 - 1024 - 53))
    with (Z.pos (digits2_pos p) - 53) by lia.
  destruct (Z.pos (digits2_pos p) - 53) as [|k|k] eqn:Hk; [|lia|].
  - exists p. apply round_exact; lia.
  - exists (Pos.iter xO p k). apply round_exact; [rewrite digits2_shift|]; lia.
Qed.

(** A limit of at least one is at least [1.0] as a float. *)
Lemma f64_ge_one n : 1 <= n < 2 ^ 32 -> SFltb (f64_of_Z n) (f64_of_Z 1) = false.
Proof.
  intros Hn. destruct n as [|p|p]; [lia| |lia].
  assert (Z.pos (digits2_pos p) <= 32) as Hd.
  { rewrite digits2_pos_log. assert (Z.log2 (Z.pos p) < 32) by (apply Z.log2_lt_pow2; lia). lia. }
  destruct (Z.eq_dec (Z.pos (digits2_pos p)) 1) as [H1|H1].
  - destruct p; simpl in H1; [lia..|]. reflexivity.
  - destruct (f64_of_Z_exact p) as [m ->]; [lia|].
    replace (f64_of_Z 1) with (S754_finite false 4503599627370496 (-52)) by reflexivity.
    unfold SFltb. cbn [SFcompare]. rewrite (proj2 (Z.compare_gt_iff _ _)) by lia. done.
Qed.

Lemma f64_zero_time : as_secs_f64 0 = S754_zero false.
Proof. reflexivity. Qed.

Lemma f64_of_Z_finite n : 0 < n < 2 ^ 32 -> exists m e, f64_of_Z n = S754_finite false m e.
Proof.
  intros Hn. destruct n as [|p|p]; [lia| |lia].
  destruct (f64_of_Z_exact p) as [m Hm]; [|eauto].
  rewrite digits2_pos_log. assert (Z.log2 (Z.pos p) < 32) by (apply Z.log2_lt_pow2; lia). lia.
Qed.

(** Acquiring at the instant of the last refill only spends what is there. *)
Lemma try_acquire_now limit now k :
  1 <= limit < 2 ^ 32 -> k = 0 \/ k = 1 ->
  try_acquire now {| tokens := f64_of_Z k; max_tokens := f64_of_Z limit;
                     refill_rate := f64_of_Z limit; last_refill := now |}
  = (k =? 1, {| tokens := f64_of_Z 0; max_tokens := f64_of_Z limit;
                refill_rate := f64_of_Z limit; last_refill := now |}).
Proof.
  intros Hl Hk. unfold try_acquire. cbn [tokens max_tokens refill_rate last_refill].
  rewrite Z.sub_diag, Z.max_id, f64_zero_time.
  pose proof (f64_ge_one limit Hl) as Hge.
  destruct (f64_of_Z_finite limit) as (m & e & Hf); [lia|]. rewrite Hf in *.
  destruct Hk as [-> | ->].
  - unfold f64_min, f64_ge. simpl. reflexivity.
  - replace (f64_of_Z 1) with (S754_finite false 4503599627370496 (-52)) in * by reflexivity.
    unfold f64_mul, f64_add, f64_min. cbn [SFmul SFadd xorb]. rewrite Hge. reflexivity.
Qed.

(** No burst after connecting: whatever the configured limit (at least one
    command per second), of the commands that arrive in the instant a
    connection is accepted the first is admitted and all others are refused. *)
Theorem rate_limiter_no_burst (limit now : Z) (n : nat) :
  1 <= limit < 2 ^ 32 ->
  acquire_all (repeat now (S n)) (limiter_for limit now) = true :: repeat false n.
Proof.
  intros Hl. cbn [repeat acquire_all]. unfold limiter_for, rl_new.
  rewrite (try_acquire_now limit now 1) by auto. cbn [Z.eqb Pos.eqb]. f_equal.
  induction n as [|n IH]; [done|]. cbn [repeat acquire_all].
  rewrite (try_acquire_now limit now 0) by auto. cbn [Z.eqb]. by rewrite IH.
Qed.

Lemma rate_limiter_no_burst_witness :
  acquire_all [7; 7; 7] (limiter_for 100 7) = [true; false; false].
Proof. apply (rate_limiter_no_burst 100 7 2). lia. Defined.

(** A limit of zero locks a connection out: every command on it is
    refused, however long the client waits. *)
Theorem rate_limiter_zero (arrivals : list Z) (now : Z) :
  acquire_all arrivals (limiter_for 0 now) = repeat false (length arrivals).
Proof.
  unfold limiter_for, rl_new. generalize (f64_of_Z 1) at 1. revert now.
  induction arrivals as [|t arrivals IH]; intros now tk; [done|].
  cbn [acquire_all length repeat]. unfold try_acquire.
  cbn [tokens max_tokens refill_rate last_refill].
  set (x := f64_add tk _).
  assert (f64_ge (f64_min x (f64_of_Z 0)) (f64_of_Z 1) = false) as ->.
  { replace (f64_of_Z 0) with (S754_zero false) by reflexivity.
    destruct x as [[]|[]| |[] m e]; reflexivity. }
  f_equal. apply IH.
Qed.
