(* ===== verification/Connection.v ===== *)
(** * Client connections

    Models [shroudb-server/src/connection.rs]: the loop that reads a frame,
    parses it, checks the rate limit, the authentication and the expiry of the
    token, and executes the command; and the streaming loop a subscription
    enters.  One iteration of a loop is a step; which branch of its [select!]
    completes is the step's input. *)
From S2P Require Import Prelude RustStr Externals Resp3 Resp3Reader Command ParseCommand Response Idempotency Handlers Dispatch RateLimiter.
Open Scope Z_scope.

Section Connection.
Context `{StoreErrorText} `{!Acl} {V : Type} `{!TokenValidator V}.
Context {S : Type} `{!Store S} {Sub : Type} `{!Subscribes S Sub}.
Context {E : Type} `{!Engine E} {C : Type} `{!Clock C}.
Context {R : Type} `{!AsyncBufRead R} {W : Type} `{!AsyncWrite W}.

(** What a connection task owns, and the dispatcher it shares with the others. *)
Record Conn := {
  reader : R;
  writer : W;
  auth : option AuthContext;
  rate_limiter : option RateLimiter;
  dispatcher : Dispatcher (S:=S) (E:=E) (C:=C);
}.

Definition set_reader (r : R) (c : Conn) : Conn :=
  {| reader := r; writer := writer c; auth := auth c; rate_limiter := rate_limiter c;
     dispatcher := dispatcher c |}.

Definition set_writer (w : W) (c : Conn) : Conn :=
  {| reader := reader c; writer := w; auth := auth c; rate_limiter := rate_limiter c;
     dispatcher := dispatcher c |}.

Definition set_auth (a : option AuthContext) (c : Conn) : Conn :=
  {| reader := reader c; writer := writer c; auth := a; rate_limiter := rate_limiter c;
     dispatcher := dispatcher c |}.

Definition set_limiter (l : option RateLimiter) (c : Conn) : Conn :=
  {| reader := reader c; writer := writer c; auth := auth c; rate_limiter := l;
     dispatcher := dispatcher c |}.

Definition set_dispatcher (d : Dispatcher) (c : Conn) : Conn :=
  {| reader := reader c; writer := writer c; auth := auth c; rate_limiter := rate_limiter c;
     dispatcher := d |}.

(** Where a connection task goes on. *)
Inductive Next :=
| Loop                    (* [continue] *)
| Streaming (sub : Sub)   (* into [handle_subscription] *)
| Closed                  (* [break] *)
| Panicked.

(** The configuration of the server a connection is handled with. *)
Record ConnParams := {
  token_validator : V;
  auth_required : bool;
  rate_limit : option Z;
}.
Variable p : ConnParams.

(** A fresh connection. *)
Definition accept (r : R) (w : W) (d : Dispatcher) : Conn :=
  let auth := if auth_required p then None else Some (auth_platform "default" "anonymous") in
  match rate_limit p with
  | None => {| reader := r; writer := w; auth := auth; rate_limiter := None; dispatcher := d |}
  | Some limit =>
      let '(now, d) := read_instant d in
      {| reader := r; writer := w; auth := auth; rate_limiter := Some (limiter_for limit now);
         dispatcher := d |}
  end.

(** [if write_frame(..).is_err() { break; } let _ = flush(); continue;] *)
Definition reply (f : Resp3Frame) (c : Conn) : Next * Conn :=
  let '(r, w) := write_frame f (writer c) in
  match r with
  | Err _ => (Closed, set_writer w c)
  | Ok _ => (Loop, set_writer (flush w).2 c)
  end.

(** [let _ = write_frame(..); let _ = flush();] *)
Definition reply_ignoring (f : Resp3Frame) (c : Conn) : Conn :=
  let '(_, w) := write_frame f (writer c) in set_writer (flush w).2 c.

(** [if write_frame(..).is_err() { .. } if flush().is_err() { .. }]: whether
    both succeeded. *)
Definition reply_flushed (f : Resp3Frame) (c : Conn) : bool * Conn :=
  let '(r, w) := write_frame f (writer c) in
  match r with
  | Err _ => (false, set_writer w c)
  | Ok _ => let '(r, w) := flush w in (is_ok r, set_writer w c)
  end.

Definition reply_error (e : CommandError) (c : Conn) : Next * Conn :=
  reply (response_to_frame (Error e)) c.

(** The rate limit check: whether the command may go on. *)
Definition check_rate (c : Conn) : bool * Conn :=
  match rate_limiter c with
  | None => (true, c)
  | Some l =>
      let '(now, d) := read_instant (dispatcher c) in
      let '(ok, l) := try_acquire now l in
      (ok, set_limiter (Some l) (set_dispatcher d c))
  end.

Definition handle_auth (token : string) (c : Conn) : Next * Conn :=
  match validate (token_validator p) token with
  | Ok ctx =>
      reply (response_to_frame (Success (map_with map_ok "actor" (RVString (auth_actor ctx)))))
        (set_auth (Some ctx) c)
  | Err e => reply_error (Denied e) c
  end.

(** [e.to_ascii_lowercase()] as an event type. *)
Definition event_type (e : string) : option EventType :=
  let l := to_ascii_lowercase e in
  if String.eqb l "put" then Some EventPut
  else if String.eqb l "delete" then Some EventDelete
  else None.

Definition subscribe_refusal (cmd : Command) (c : Conn) : option CommandError :=
  match auth c with
  | Some ctx =>
      match auth_check ctx (acl_requirement cmd) with
      | Err e => Some (Denied e)
      | Ok _ => None
      end
  | None => if auth_required p then Some NotAuthenticated else None
  end.

Definition handle_subscribe (cmd : Command) (ns : string) (key : option bytes)
    (events : list string) (c : Conn) : Next * Conn :=
  match subscribe_refusal cmd c with
  | Some e => reply_error e c
  | None =>
      let flt := {| filter_key := key; filter_events := omap event_type events |} in
      let '(r, s) := st_subscribe ns flt (store (dispatcher c)) in
      let c := set_dispatcher (set_store s (dispatcher c)) c in
      match r with
      | Err e => reply_error (StoreErr e) c
      | Ok sub =>
          let ok := Success (map_with map_ok "namespace" (RVString ns)) in
          let '(next, c) := reply (response_to_frame ok) c in
          (match next with Loop => Streaming sub | other => other end, c)
      end
  end.

Definition handle_execute (cmd : Command) (c : Conn) : Next * Conn :=
  let '(response, d) := execute (auth c) cmd (dispatcher c) in
  let c := set_dispatcher d c in
  match response with
  | None => (Panicked, c)
  | Some response =>
      let '(ok, c) := reply_flushed (response_to_frame response) c in
      (if ok then Loop else Closed, c)
  end.

(** The token expiry check, failing closed on a clock error: [Some] is where
    the command ends. *)
Definition check_expiry (c : Conn) : option Next * Conn :=
  match auth c with
  | None => (None, c)
  | Some ctx =>
      let '(now, ck) := system_secs (clock (dispatcher c)) in
      let c := set_dispatcher (set_clock ck (dispatcher c)) c in
      match now with
      | None =>
          (Some Closed,
           reply_ignoring (response_to_frame (Error (Internal "system clock error"))) c)
      | Some now =>
          if auth_is_expired ctx now
          then let '(next, c) := reply_error NotAuthenticated (set_auth None c) in (Some next, c)
          else (None, c)
      end
  end.

(** A command that is not AUTH, once it is past the rate limit. *)
Definition handle_checked (cmd : Command) (c : Conn) : Next * Conn :=
  let is_ping := match cmd with Ping => true | _ => false end in
  let is_none := match auth c with None => true | Some _ => false end in
  if auth_required p && is_none && negb is_ping then reply_error NotAuthenticated c
  else
    let '(ended, c) := check_expiry c in
    match ended with
    | Some next => (next, c)
    | None =>
        match cmd with
        | Subscribe ns key events => handle_subscribe cmd ns key events c
        | _ => handle_execute cmd c
        end
    end.

Definition handle_command (cmd : Command) (c : Conn) : Next * Conn :=
  let '(ok, c) := check_rate c in
  if negb ok then reply_error (Denied "rate limit exceeded") c
  else
    match cmd with
    | Auth token => handle_auth token c
    | _ => handle_checked cmd c
    end.

Definition handle_frame (f : Resp3Frame) (c : Conn) : Next * Conn :=
  match parse_command f with
  | Err e => reply (SimpleError ("ERR " +:+ command_error_display e)) c
  | Ok cmd => handle_command cmd c
  end.

(** ** What a [select!] completes with

    When another branch completes first, the read is cancelled where it was;
    [r] is the reader it leaves behind, less the bytes it had taken. *)
Inductive Wakeup :=
| ShutdownChanged (shutdown : bool) (r : R)
| FrameReady
| EventReady (event : option SubscriptionEvent) (r : R).

(** One iteration of the loop of [handle_connection]. *)
Definition command_step (w : Wakeup) (c : Conn) : Next * Conn :=
  match w with
  | ShutdownChanged true r => (Closed, set_reader r c)
  | ShutdownChanged false r => (Loop, set_reader r c)
  | FrameReady =>
      match read_frame (reader c) with
      | Ok (Some f, r) => handle_frame f (set_reader r c)
      | Ok (None, r) => (Closed, set_reader r c)
      | Err e =>
          let err := SimpleError ("ERR protocol: " +:+ protocol_error_display e) in
          (Closed, reply_ignoring err c)
      end
  | EventReady _ _ => (Loop, c)     (* no such branch in this loop *)
  end.

(** ** Subscriptions *)
Definition subscription_event_to_push_frame (ev : SubscriptionEvent) : Resp3Frame :=
  let event_str := match ev_event ev with EventPut => "put" | EventDelete => "delete" end in
  Push [SimpleString "subscribe";
        SimpleString event_str;
        BulkString (as_bytes (ev_namespace ev));
        BulkString (ev_key ev);
        Integer (u64_as_i64 (ev_version ev));
        BulkString (as_bytes (ev_actor ev));
        Integer (u64_as_i64 (ev_timestamp ev))].

Definition pong : CommandResponse := Success (map_with map_ok "message" (RVString "PONG")).

(** One iteration of the loop of [handle_subscription]: [true] and [false], the
    results of the function, are [Loop] and [Closed]. *)
Definition subscription_step (sub : Sub) (w : Wakeup) (c : Conn) : Next * Conn :=
  match w with
  | ShutdownChanged true r => (Closed, set_reader r c)
  | ShutdownChanged false r => (Streaming sub, set_reader r c)
  | EventReady (Some ev) r =>
      let '(ok, c) := reply_flushed (subscription_event_to_push_frame ev) (set_reader r c) in
      (if ok then Streaming sub else Closed, c)
  | EventReady None r =>
      (Loop, reply_ignoring (Push [SimpleString "subscription"; SimpleString "closed"])
               (set_reader r c))
  | FrameReady =>
      match read_frame (reader c) with
      | Ok (Some f, r) =>
          let c := set_reader r c in
          match parse_command f with
          | Ok Unsubscribe => (Loop, reply_ignoring (response_to_frame (Success map_ok)) c)
          | Ok Ping => (Streaming sub, reply_ignoring (response_to_frame pong) c)
          | Ok _ =>
              (Streaming sub, reply_ignoring
                 (SimpleError "ERR only UNSUBSCRIBE and PING allowed during subscription") c)
          | Err _ => (Streaming sub, c)
          end
      | Ok (None, r) => (Closed, set_reader r c)
      | Err _ => (Closed, c)
      end
  end.

(** A connection in whichever loop it is. *)
Definition conn_step (w : Wakeup) (st : Next * Conn) : Next * Conn :=
  match st.1 with
  | Loop => command_step w st.2
  | Streaming sub => subscription_step sub w st.2
  | Closed | Panicked => st
  end.

Definition run_connection (ws : list Wakeup) (st : Next * Conn) : Next * Conn :=
  fold_left (fun st w => conn_step w st) ws st.

End Connection.
