(* ===== verification/ClientResponse.v ===== *)
(** * The client's view of a response

    Models [shroudb-client/src/response.rs] (the response type, its accessors,
    its raw and displayed forms) and [shroudb-client/src/error.rs]. *)
From S2P Require Import Prelude RustStr Externals Resp3.
Set Warnings "-register-all".
Open Scope Z_scope.
Open Scope string_scope.

Inductive Response :=
| RString (s : string)
| RError (e : string)
| RInteger (n : Z)
| RNull
| RArray (items : list Response)
| RMap (entries : list (Response * Response)).

Definition as_str (r : Response) : option string :=
  match r with RString s => Some s | _ => None end.

Definition as_int (r : Response) : option Z :=
  match r with RInteger n => Some n | _ => None end.

Definition is_error (r : Response) : bool := match r with RError _ => true | _ => false end.

Definition is_null (r : Response) : bool := match r with RNull => true | _ => false end.

Definition type_name (r : Response) : string :=
  match r with
  | RString _ => "String" | RError _ => "Error" | RInteger _ => "Integer" | RNull => "Null"
  | RArray _ => "Array" | RMap _ => "Map"
  end.

Definition to_display_string (r : Response) : string :=
  match r with
  | RString s => s
  | RError e => "(error) " +:+ e
  | RInteger n => int_to_string n
  | RNull => "(nil)"
  | RArray _ => "(array)"
  | RMap _ => "(map)"
  end.

(** [Response::get_field]: the first entry with that key. *)
Definition get_field (r : Response) (key : string) : option Response :=
  match r with
  | RMap entries =>
      option_map snd (find (fun '(k, _) => String.eqb (to_display_string k) key) entries)
  | _ => None
  end.

Definition get_string_field (r : Response) (key : string) : option string :=
  v ← get_field r key; as_str v.

Definition get_int_field (r : Response) (key : string) : option Z :=
  v ← get_field r key;
  match v with
  | RInteger n => Some n
  | RString s => ok (parse_i64 s)
  | _ => None
  end.

(** ["\r\n"] as text. *)
Definition crlf_str : string := of_bytes crlf.

(** [write_raw], without the buffer it appends to. *)
Fixpoint to_raw (r : Response) : string :=
  match r with
  | RString s =>
      "$" +:+ int_to_string (Z.of_nat (String.length s)) +:+ crlf_str +:+ s +:+ crlf_str
  | RError e => "-" +:+ e +:+ crlf_str
  | RInteger n => ":" +:+ int_to_string n +:+ crlf_str
  | RNull => "_" +:+ crlf_str
  | RArray items =>
      "*" +:+ int_to_string (Z.of_nat (length items)) +:+ crlf_str
      +:+ String.concat "" (map to_raw items)
  | RMap entries =>
      "%" +:+ int_to_string (Z.of_nat (length entries)) +:+ crlf_str
      +:+ String.concat "" (map (fun '(k, v) => to_raw k +:+ to_raw v) entries)
  end.

(** [response_to_inline_string]. *)
Definition inline_string (r : Response) : string :=
  match r with
  | RString s => s
  | RError e => "(error) " +:+ e
  | RInteger n => "(integer) " +:+ int_to_string n
  | RNull => "(nil)"
  | RArray items => "(array, " +:+ int_to_string (Z.of_nat (length items)) +:+ " items)"
  | RMap entries => "(map, " +:+ int_to_string (Z.of_nat (length entries)) +:+ " entries)"
  end.

(** ["  ".repeat(indent)]. *)
Fixpoint pad (indent : nat) : string :=
  match indent with O => "" | S n => "  " +:+ pad n end.

Definition newline : string := of_bytes [LF].

(** The text [print(indent)] sends to the terminal. *)
Fixpoint print (r : Response) (indent : nat) : string :=
  match r with
  | RString s => pad indent +:+ s +:+ newline
  | RError e => pad indent +:+ "(error) " +:+ e +:+ newline
  | RInteger n => pad indent +:+ "(integer) " +:+ int_to_string n +:+ newline
  | RNull => pad indent +:+ "(nil)" +:+ newline
  | RArray items =>
      match items with
      | [] => pad indent +:+ "(empty array)" +:+ newline
      | _ :: _ =>
          (fix numbered (i : Z) (l : list Response) : string :=
             match l with
             | [] => ""
             | item :: l' =>
                 pad indent +:+ int_to_string i +:+ ". "
                 +:+ match item with
                     | RMap _ | RArray _ => newline +:+ print item (indent + 1)
                     | _ => inline_string item +:+ newline
                     end
                 +:+ numbered (i + 1)%Z l'
             end) 1%Z items
      end
  | RMap entries =>
      match entries with
      | [] => pad indent +:+ "(empty map)" +:+ newline
      | _ :: _ =>
          String.concat "" (map (fun '(key, val) =>
            let key_str := to_display_string key in
            match val with
            | RMap _ | RArray _ =>
                pad indent +:+ key_str +:+ ":" +:+ newline +:+ print val (indent + 1)
            | _ => pad indent +:+ key_str +:+ ": " +:+ inline_string val +:+ newline
            end) entries)
      end
  end.

(** ** JSON *)

(** How [serde_json] builds values: [Value::String], [json!(n)], [Value::Null],
    [Value::Array], and an object collected from pairs. *)
Class SerdeBuild `{Serde} := {
  json_string : string -> Value;
  json_int : Z -> Value;
  json_null : Value;
  json_array : list Value -> Value;
  json_object : list (string * Value) -> Value;
  (** [serde_json::to_string(&v)], with the error's text. *)
  json_serialize : Value -> result string string;
}.

Fixpoint to_json `{SerdeBuild} (r : Response) : Value :=
  match r with
  | RString s => json_string s
  | RError e => json_object [("error", json_string e)]
  | RInteger n => json_int n
  | RNull => json_null
  | RArray items => json_array (map to_json items)
  | RMap entries => json_object (map (fun '(k, v) => (to_display_string k, to_json v)) entries)
  end.

(** The pairs [to_hash_map] collects. *)
Definition to_hash_map `{SerdeBuild} (r : Response) : option (list (string * Value)) :=
  match r with
  | RMap entries => Some (map (fun '(k, v) => (to_display_string k, to_json v)) entries)
  | _ => None
  end.

(** ** Errors *)
Inductive ClientError :=
| ConnectionErr (e : IoError)      (* [ClientError::Connection] *)
| ServerErr (msg : string)         (* [ClientError::Server] *)
| ProtocolErr (msg : string)       (* [ClientError::Protocol] *)
| AuthRequired
| Serialization (msg : string)
| ResponseFormat (msg : string)
| Timeout.

Definition client_error_display (e : ClientError) : string :=
  match e with
  | ConnectionErr e => "connection failed: " +:+ e
  | ServerErr m => "server error: " +:+ m
  | ProtocolErr m => "protocol error: " +:+ m
  | AuthRequired => "authentication required"
  | Serialization m => "serialization failed: " +:+ m
  | ResponseFormat m => "unexpected response format: " +:+ m
  | Timeout => "operation timed out"
  end.
