(* ===== verification/ClientConnection.v ===== *)
(** * The client's connection

    Models [shroudb-client/src/connection.rs]: how a command is written, how a
    response is read, and the exchange of the two with its timeout. *)
From S2P Require Import Prelude RustStr Resp3 ClientResponse.
Open Scope Z_scope.
Open Scope string_scope.

(** How an exchange fails: with an error the caller sees, with a panic (or an
    abort, when memory runs out), or, in the model only, for lack of fuel. *)
Inductive Failure :=
| Fails (e : ClientError)
| Crashes
| OutOfFuel.

(** [for _ in 0..n { items.push(f(reader).await?) }]. *)
Fixpoint read_times {A R E : Type} (f : R -> result E (A * R)) (n : nat) (r : R)
    : result E (list A * R) :=
  match n with
  | O => Ok ([], r)
  | S n' =>
      '(a, r) ← f r;
      '(l, r) ← read_times f n' r;
      Ok (a :: l, r)
  end.

Section Reader.
Context {R : Type} `{AsyncBufRead R}.

(** Whether room for so many elements can be allocated; where it cannot, Rust
    panics or aborts. *)
Variable fits : Z -> bool.

Definition protocol {A : Type} (msg : string) : result Failure A := Err (Fails (ProtocolErr msg)).

(** [payload.parse::<i64>().map_err(|e| Protocol(format!("{what}: {e}")))]. *)
Definition parse_count (what payload : string) : result Failure Z :=
  map_err (fun e => Fails (ProtocolErr (what +:+ ": " +:+ int_error_display e)))
    (parse_i64 payload).

(** [Vec::with_capacity(count as usize)]. *)
Definition with_capacity (count : Z) : result Failure unit :=
  if fits (i64_as_u64 count) then Ok tt else Err Crashes.

(** [format!("{:02x}", b)]. *)
Definition hex2 (c : ascii) : string :=
  let n := N_of_ascii c in String (hex_char (n / 16)) (String (hex_char (n mod 16)) "").

Definition unsupported (t : ascii) : string :=
  "unsupported RESP3 type: '" +:+ String t "" +:+ "' (0x" +:+ hex2 t +:+ ")".

(** A key and its value. *)
Definition read_entry (read : R -> result Failure (Response * R)) (r : R)
    : result Failure (Response * Response * R) :=
  '(key, r) ← read r;
  '(val, r) ← read r;
  Ok (key, val, r).

(** The collections whose count may not be negative: a negative one is turned
    into a capacity no allocation can satisfy. *)
Definition read_collection (read : R -> result Failure (Response * R)) (what payload : string)
    (r : R) : result Failure (Response * R) :=
  count ← parse_count what payload;
  _ ← with_capacity count;
  '(items, r) ← read_times read (Z.to_nat count) r;
  Ok (RArray items, r).

Definition read_bulk (payload : string) (r : R) : result Failure (Response * R) :=
  len ← parse_count "invalid bulk length" payload;
  if (len <? 0)%Z then Ok (RNull, r)
  else
    _ ← with_capacity (len + 2);
    '(buf, r) ← map_err (fun e => Fails (ConnectionErr e)) (read_exact (Z.to_nat len + 2) r);
    Ok (RString (from_utf8_lossy (take (Z.to_nat len) buf)), r).

(** The rest of a value, once its first line is known. *)
Definition read_payload (read : R -> result Failure (Response * R)) (type_byte : ascii)
    (payload : string) (r : R) : result Failure (Response * R) :=
  let t := String type_byte "" in
  if t =? "+" then Ok (RString payload, r)
  else if t =? "-" then Ok (RError payload, r)
  else if t =? ":" then
    n ← parse_count "invalid integer" payload;
    Ok (RInteger n, r)
  else if t =? "_" then Ok (RNull, r)
  else if t =? "$" then read_bulk payload r
  else if t =? "*" then
    count ← parse_count "invalid array length" payload;
    if (count <? 0)%Z then Ok (RNull, r)
    else
      _ ← with_capacity count;
      '(items, r) ← read_times read (Z.to_nat count) r;
      Ok (RArray items, r)
  else if t =? "%" then
    count ← parse_count "invalid map length" payload;
    _ ← with_capacity count;
    '(entries, r) ← read_times (read_entry read) (Z.to_nat count) r;
    Ok (RMap entries, r)
  else if t =? "#" then
    if payload =? "t" then Ok (RString "true", r)
    else if payload =? "f" then Ok (RString "false", r)
    else protocol ("invalid boolean value: " +:+ payload)
  else if t =? "," then Ok (RString payload, r)
  else if t =? ">" then read_collection read "invalid push length" payload r
  else if t =? "~" then read_collection read "invalid set length" payload r
  else protocol (unsupported type_byte).

(** [line.trim_end_matches("\r\n").trim_end_matches('\n')]. *)
Definition trim_line (line : string) : string :=
  trim_end_matches newline (trim_end_matches crlf_str line).

(** [&line[1..]] panics when the first character takes more than one byte. *)
Fixpoint read_value (fuel : nat) (r : R) : result Failure (Response * R) :=
  match fuel with
  | O => Err OutOfFuel
  | S fuel' =>
      '(line, r) ← map_err (fun e => Fails (ConnectionErr e)) (reader_line r);
      if line =? "" then protocol "connection closed"
      else
        match trim_line line with
        | EmptyString => protocol "empty response"
        | String type_byte payload =>
            if negb (is_boundary payload) then Err Crashes
            else read_payload (read_value fuel') type_byte payload r
        end
  end.
End Reader.

(** ** Writing commands *)
Section Writer.
Context {W : Type} `{AsyncWrite W}.

(** [write_all(format!("{tag}{n}\r\n").as_bytes())]. *)
Definition write_count (tag : string) (n : nat) (w : W) : result IoError unit * W :=
  write_all (as_bytes (tag +:+ int_to_string (Z.of_nat n) +:+ crlf_str)) w.

Definition write_arg (arg : string) (w : W) : result IoError unit * W :=
  let bytes := as_bytes arg in
  (write_count "$" (length bytes) w ;; fun w =>
   write_all bytes w ;; write_all crlf)%write.

Definition write_command (args : list string) (w : W) : result IoError unit * W :=
  (write_count "*" (length args) w ;; write_each write_arg args)%write.

(** What [ShrouDBClient::pipeline] ([lib.rs]) writes. *)
Definition write_pipeline (commands : list (list string)) (request_id : option string) (w : W)
    : result IoError unit * W :=
  let keyword_count := match request_id with Some _ => 2%nat | None => O end in
  (write_count "*" (1 + keyword_count + length commands) w ;; fun w =>
   write_all (as_bytes ("$8" +:+ crlf_str +:+ "PIPELINE" +:+ crlf_str)) w ;; fun w =>
   (match request_id with
    | Some id =>
        write_all (as_bytes ("$10" +:+ crlf_str +:+ "REQUEST_ID" +:+ crlf_str)) w ;;
        write_arg id
    | None => (Ok tt, w)
    end) ;; fun w =>
   write_each write_command commands w)%write.
End Writer.

(** ** Exchanges *)
Section Connection.
Context {R : Type} `{AsyncBufRead R} {W : Type} `{AsyncWrite W}.

Record Connection := {
  c_reader : R;
  c_writer : W;
  command_prefix : option string;
}.

(** *** Connecting

    The sockets and TLS are outside: [tcp_connect] and [tls_connect] give the
    two halves of a stream, [add_roots] says whether the system's certificates
    could be added, and [valid_name] whether a text is a server's name. *)
Section Dial.
Variable tcp_connect : string -> result IoError (R * W).
Variable add_roots : result string unit.
Variable valid_name : string -> result string unit.
Variable tls_connect : string -> R * W -> result string (R * W).

Definition connected (halves : R * W) (prefix : option string) : Connection :=
  {| c_reader := halves.1; c_writer := halves.2; command_prefix := prefix |}.

Definition connect (addr : string) : result ClientError Connection :=
  stream ← map_err ConnectionErr (tcp_connect addr);
  Ok (connected stream None).

Definition connect_moat (addr prefix : string) : result ClientError Connection :=
  stream ← map_err ConnectionErr (tcp_connect addr);
  Ok (connected stream (Some (to_ascii_uppercase prefix))).

(** The name the server's certificate is checked against. *)
Definition tls_server_name (addr : string) : string :=
  if starts_with "[" addr
  then trim_start_matches "[" (match split_once "]" addr with Some (h, _) => h | None => addr end)
  else match rsplit_once ":" addr with Some (h, _) => h | None => addr end.

Definition connect_tls (addr : string) : result ClientError Connection :=
  _ ← map_err (fun e => ProtocolErr ("failed to add root cert: " +:+ e)) add_roots;
  stream ← map_err ConnectionErr (tcp_connect addr);
  let host := tls_server_name addr in
  _ ← map_err (fun e => ProtocolErr ("invalid server name: " +:+ e)) (valid_name host);
  tls_stream ← map_err (fun e => ProtocolErr ("TLS handshake failed: " +:+ e)) (tls_connect host stream);
  Ok (connected tls_stream None).
End Dial.

Variable fits : Z -> bool.
Variable fuel : nat.

(** [read_response_streaming]: there is no bound on the wait. *)
Definition read_response_streaming (c : Connection) : result Failure (Response * Connection) :=
  '(resp, r) ← read_value fits fuel (c_reader c);
  Ok (resp, {| c_reader := r; c_writer := c_writer c; command_prefix := command_prefix c |}).

(** [read_response]: [late] says whether the 30 seconds run out first. *)
Definition read_response (late : bool) (c : Connection) : result Failure (Response * Connection) :=
  if late then Err (Fails Timeout) else read_response_streaming c.

(** [write_raw] and [flush] of a connection. *)
Definition on_writer (op : W -> result IoError unit * W) (c : Connection)
    : result ClientError unit * Connection :=
  let '(r, w) := op (c_writer c) in
  (map_err ConnectionErr r, {| c_reader := c_reader c; c_writer := w; command_prefix := command_prefix c |}).
Definition write_raw (data : bytes) : Connection -> result ClientError unit * Connection :=
  on_writer (write_all data).
Definition flush_connection : Connection -> result ClientError unit * Connection := on_writer flush.

(** Writing and flushing a request, then reading the response; where the
    exchange fails, what it leaves of the streams is not described. *)
Definition exchange (request : W -> result IoError unit * W) (late : bool) (c : Connection)
    : result Failure (Response * Connection) :=
  if late then Err (Fails Timeout)
  else
    let '(sent, w) := (request (c_writer c) ;; flush)%write in
    match sent with
    | Err e => Err (Fails (ConnectionErr e))
    | Ok _ =>
        '(resp, r) ← read_value fits fuel (c_reader c);
        Ok (resp, {| c_reader := r; c_writer := w; command_prefix := command_prefix c |})
    end.

Definition send_raw (args : list string) (late : bool) (c : Connection)
    : result Failure (Response * Connection) :=
  exchange (write_command args) late c.

(** Also [send_command_strs]. *)
Definition send_command (args : list string) (late : bool) (c : Connection)
    : result Failure (Response * Connection) :=
  match command_prefix c with
  | Some prefix => send_raw (prefix :: args) late c
  | None => send_raw args late c
  end.

(** [send_meta_command_strs]. *)
Definition send_meta_command (args : list string) (late : bool) (c : Connection)
    : result Failure (Response * Connection) :=
  send_raw args late c.
End Connection.
