(* ===== verification/ClientApi.v ===== *)
(** * The client library

    Models [shroudb-client/src/lib.rs]: the connection URI, the typed
    operations and the parsing of their responses, over any transport that can
    exchange a command for a response. *)
From S2P Require Import Prelude RustStr Externals Resp3 ClientResponse ClientConnection.
Open Scope Z_scope.
Open Scope string_scope.

(** ** Connection URIs *)
Record ConnectionConfig := {
  host : string;
  port : Z;
  tls : bool;
  auth_token : option string;
}.

Definition default_port : Z := 6399.

(** The host and the port; without a valid port the whole text is the host. *)
Definition parse_hostport (hostport : string) : string * Z :=
  match rsplit_once ":" hostport with
  | Some (h, port_str) =>
      match parse_u16 port_str with
      | Ok p => (h, p)
      | Err _ => (hostport, default_port)
      end
  | None => (hostport, default_port)
  end.

Definition parse_uri (uri : string) : result ClientError ConnectionConfig :=
  '(tls, rest) ←
    match strip_prefix "shroudb+tls://" uri with
    | Some rest => Ok (true, rest)
    | None =>
        match strip_prefix "shroudb://" uri with
        | Some rest => Ok (false, rest)
        | None => Err (ProtocolErr ("invalid URI scheme: " +:+ uri))
        end
    end;
  let '(auth_token, hostport) :=
    match split_once "@" rest with
    | Some (token, hp) => (Some token, hp)
    | None => (None, rest)
    end in
  let hostport := match split_once "/" hostport with Some (hp, _) => hp | None => hostport end in
  let '(host, port) := parse_hostport hostport in
  Ok {| host := host; port := port; tls := tls; auth_token := auth_token |}.

(** ** What an operation needs of the connection *)
Class Transport (K : Type) := {
  (** [send_command_strs]. *)
  send : list string -> K -> result Failure (Response * K);
  (** [send_meta_command_strs]. *)
  send_meta : list string -> K -> result Failure (Response * K);
  (** Writing a pipeline, flushing, [read_response]. *)
  send_pipeline : list (list string) -> option string -> K -> result Failure (Response * K);
}.

(** Over a connection on which no exchange is late. *)
Definition connection_transport {R W : Type} `{AsyncBufRead R} `{AsyncWrite W} (fits : Z -> bool)
    (fuel : nat) : Transport (Connection (R:=R) (W:=W)) := {|
  send args c := send_command fits fuel args false c;
  send_meta args c := send_meta_command fits fuel args false c;
  send_pipeline cmds rid c := exchange fits fuel (write_pipeline cmds rid) false c;
|}.

Record GetResult `{Serde} := {
  gr_key : bytes;
  gr_value : bytes;
  gr_version : Z;
  gr_metadata : option Value;
}.

Record VersionEntry := {
  ve_version : Z;
  ve_state : string;
  ve_updated_at : Z;
  ve_actor : string;
}.

Record ClientNamespaceInfo := {
  ni_name : string;
  ni_key_count : Z;
  ni_created_at : Z;
}.

Record PageResult := {
  pr_items : list string;
  pr_cursor : option string;
}.

(** ** Parsing responses *)
Definition check_ok (r : Response) : result ClientError unit :=
  match r with
  | RError e => Err (ServerErr e)
  | RNull => Err (ResponseFormat "unexpected null")
  | _ => Ok tt
  end.

(** [.ok_or_else(|| ResponseFormat(msg))]. *)
Definition field {A : Type} (o : option A) (msg : string) : result ClientError A :=
  ok_or o (ResponseFormat msg).

Definition version_field (r : Response) : result ClientError Z :=
  field (option_map i64_as_u64 (get_int_field r "version")) "missing version field".

(** The strings among the items of an array. *)
Definition strings (items : list Response) : list string := omap as_str items.

Definition parse_get_result `{SerdeBuild} (r : Response) : result ClientError GetResult :=
  key ← field (get_string_field r "key") "missing 'key' field in GET response";
  value ← field (get_string_field r "value") "missing 'value' field in GET response";
  version ← field (get_int_field r "version") "missing 'version' field in GET response";
  Ok {| gr_key := as_bytes key; gr_value := as_bytes value; gr_version := i64_as_u64 version;
        gr_metadata := option_map to_json (get_field r "metadata") |}.

Definition parse_page (name : string) (r : Response) : result ClientError PageResult :=
  f ← field (get_field r name) ("missing " +:+ name +:+ " field");
  let items := match f with RArray items => strings items | _ => [] end in
  Ok {| pr_items := items; pr_cursor := get_string_field r "cursor" |}.

Definition parse_key_list : Response -> result ClientError PageResult := parse_page "keys".

Definition parse_namespace_list : Response -> result ClientError PageResult :=
  parse_page "namespaces".

(** [format!("missing '{name}' in versions[{i}]")]. *)
Definition missing_in (name : string) (i : Z) : string :=
  "missing '" +:+ name +:+ "' in versions[" +:+ int_to_string i +:+ "]".

Definition parse_version_item (i : Z) (item : Response) : result ClientError VersionEntry :=
  version ← field (get_int_field item "version") (missing_in "version" i);
  state ← field (get_string_field item "state") (missing_in "state" i);
  updated_at ← field (get_int_field item "updated_at") (missing_in "updated_at" i);
  actor ← field (get_string_field item "actor") (missing_in "actor" i);
  Ok {| ve_version := i64_as_u64 version; ve_state := state;
        ve_updated_at := i64_as_u64 updated_at; ve_actor := actor |}.

Fixpoint parse_version_items (i : Z) (items : list Response) : result ClientError (list VersionEntry) :=
  match items with
  | [] => Ok []
  | item :: rest =>
      e ← parse_version_item i item;
      es ← parse_version_items (i + 1)%Z rest;
      Ok (e :: es)
  end.

Definition parse_versions (r : Response) : result ClientError (list VersionEntry) :=
  f ← field (get_field r "versions") "missing versions field";
  match f with
  | RArray items => parse_version_items 0 items
  | _ => Err (ResponseFormat "versions field is not an array")
  end.

Definition parse_namespace_info (r : Response) : result ClientError ClientNamespaceInfo :=
  name ← field (get_string_field r "name") "missing 'name' field in NAMESPACE INFO response";
  key_count ← field (get_int_field r "key_count")
                "missing 'key_count' field in NAMESPACE INFO response";
  created_at ← field (get_int_field r "created_at")
                 "missing 'created_at' field in NAMESPACE INFO response";
  Ok {| ni_name := name; ni_key_count := i64_as_u64 key_count;
        ni_created_at := i64_as_u64 created_at |}.

Definition parse_command_list (r : Response) : result ClientError (list string) :=
  f ← field (get_field r "commands") "missing commands field";
  match f with
  | RArray items => Ok (strings items)
  | _ => Err (ResponseFormat "commands field is not an array")
  end.

Definition parse_pipeline_response (r : Response) : result ClientError (list Response) :=
  match r with
  | RArray items => Ok items
  | RError e => Err (ServerErr e)
  | _ => Err (ResponseFormat "expected array response from PIPELINE")
  end.

(** ** Operations

    A failure of the transport is an [Err] of the outer result, after which
    there is no connection to speak of; the inner result is what the operation
    makes of the response. *)
Section Client.
Context {K : Type} `{Transport K} `{SerdeBuild}.

Definition call (A : Type) : Type := K -> result Failure (result ClientError A * K).

(** The response, parsed. *)
Definition parsed {A : Type} (exchange : K -> result Failure (Response * K))
    (parse : Response -> result ClientError A) : call A :=
  fun k => '(r, k) ← exchange k; Ok (parse r, k).

(** [check_ok(&resp)?] before the rest. *)
Definition checked {A : Type} (parse : Response -> result ClientError A) (r : Response)
    : result ClientError A :=
  _ ← check_ok r; parse r.

Definition client_auth (token : string) : call unit := parsed (send_meta ["AUTH"; token]) check_ok.

Definition client_ping : call unit := parsed (send_meta ["PING"]) check_ok.

Definition client_put (ns : string) (key value : bytes) : call Z :=
  parsed (send ["PUT"; ns; from_utf8_lossy key; from_utf8_lossy value]) (checked version_field).

Definition client_put_with_metadata (ns : string) (key value : bytes) (metadata : Value) : call Z :=
  fun k =>
    match json_serialize metadata with
    | Err e => Ok (Err (Serialization e), k)
    | Ok meta_str =>
        parsed (send ["PUT"; ns; from_utf8_lossy key; "VALUE"; from_utf8_lossy value; "META"; meta_str])
          (checked version_field) k
    end.

Definition client_get (ns : string) (key : bytes) : call GetResult :=
  parsed (send ["GET"; ns; from_utf8_lossy key]) (checked parse_get_result).

Definition client_get_version (ns : string) (key : bytes) (version : Z) : call GetResult :=
  parsed (send ["GET"; ns; from_utf8_lossy key; "VERSION"; int_to_string version])
    (checked parse_get_result).

Definition client_delete (ns : string) (key : bytes) : call Z :=
  parsed (send ["DELETE"; ns; from_utf8_lossy key]) (checked version_field).

Definition client_list (ns : string) : call PageResult :=
  parsed (send ["LIST"; ns]) (checked parse_key_list).

Definition client_list_prefix (ns prefix : string) : call PageResult :=
  parsed (send ["LIST"; ns; "PREFIX"; prefix]) (checked parse_key_list).

Definition client_list_cursor (ns cursor : string) (limit : Z) : call PageResult :=
  parsed (send ["LIST"; ns; "CURSOR"; cursor; "LIMIT"; int_to_string limit])
    (checked parse_key_list).

Definition client_versions (ns : string) (key : bytes) : call (list VersionEntry) :=
  parsed (send ["VERSIONS"; ns; from_utf8_lossy key]) (checked parse_versions).

Definition client_namespace_create (name : string) : call unit :=
  parsed (send ["NAMESPACE"; "CREATE"; name]) check_ok.

Definition client_namespace_drop (name : string) (force : bool) : call unit :=
  parsed (send (if force then ["NAMESPACE"; "DROP"; name; "FORCE"] else ["NAMESPACE"; "DROP"; name]))
    check_ok.

Definition client_namespace_list : call PageResult :=
  parsed (send ["NAMESPACE"; "LIST"]) (checked parse_namespace_list).

Definition client_namespace_info (name : string) : call ClientNamespaceInfo :=
  parsed (send ["NAMESPACE"; "INFO"; name]) (checked parse_namespace_info).

Definition client_health : call unit := parsed (send_meta ["HEALTH"]) check_ok.

Definition client_config_get (key : string) : call (option string) :=
  parsed (send ["CONFIG"; "GET"; key]) (checked (fun r => Ok (get_string_field r "value"))).

Definition client_config_set (key value : string) : call unit :=
  parsed (send ["CONFIG"; "SET"; key; value]) check_ok.

Definition client_command_list : call (list string) :=
  parsed (send ["COMMAND"; "LIST"]) (checked parse_command_list).

Definition client_pipeline (commands : list (list string)) (request_id : option string)
    : call (list Response) :=
  parsed (send_pipeline commands request_id) parse_pipeline_response.

Definition client_raw_command (args : list string) : call Response := parsed (send args) Ok.

(** ** Opening a client

    [ShrouDBClient] is its connection; [dial] and [dial_tls] are
    [Connection::connect] and [Connection::connect_tls]. *)
Section Open.
Variable dial dial_tls : string -> result ClientError K.

(** A failure of an operation, as the caller's [?] passes it on. *)
Definition run_call {A : Type} (c : call A) (k : K) : result Failure (A * K) :=
  '(r, k) ← c k;
  match r with Ok a => Ok (a, k) | Err e => Err (Fails e) end.

Definition address (config : ConnectionConfig) : string :=
  host config +:+ ":" +:+ int_to_string (port config).

(** The connection of a configuration, authenticated when it has a token:
    [from_uri], and [open_streaming_connection] of [remote_store.rs]. *)
Definition open_connection (config : ConnectionConfig) : result Failure K :=
  k ← map_err Fails (if tls config then dial_tls (address config) else dial (address config));
  match auth_token config with
  | Some token => '(_, k) ← run_call (client_auth token) k; Ok k
  | None => Ok k
  end.

Definition from_uri (uri : string) : result Failure K :=
  config ← map_err Fails (parse_uri uri);
  open_connection config.
End Open.
End Client.
