(* ===== verification/RemoteStore.v ===== *)
(** * The remote store

    Models [shroudb-client/src/remote_store.rs]: the [Store] operations carried
    out by sending commands to a server, the mapping of error texts back to
    store errors, and the parsing of pushed events. *)
From S2P Require Import Prelude RustStr Externals Resp3 ClientResponse ClientConnection ClientApi.
Open Scope Z_scope.
Open Scope string_scope.

(** ** Pushed events *)

(** [items[i].as_str()?] and [items[i].as_int()?]. *)
Definition item_str (items : list Response) (i : nat) : option string :=
  items !! i ≫= as_str.
Definition item_int (items : list Response) (i : nat) : option Z :=
  items !! i ≫= as_int.

Definition parse_event_type (s : string) : option EventType :=
  if s =? "put" then Some EventPut else if s =? "delete" then Some EventDelete else None.

Definition parse_push_frame (r : Response) : option SubscriptionEvent :=
  match r with
  | RArray items =>
      if (length items <? 7)%nat then None
      else
        label ← item_str items 0;
        if negb (label =? "subscribe") then None
        else
          event ← item_str items 1 ≫= parse_event_type;
          namespace ← item_str items 2;
          key ← item_str items 3;
          version ← item_int items 4;
          actor ← item_str items 5;
          timestamp ← item_int items 6;
          Some {| ev_event := event; ev_namespace := namespace; ev_key := as_bytes key;
                  ev_version := i64_as_u64 version; ev_actor := actor;
                  ev_timestamp := i64_as_u64 timestamp |}
  | _ => None
  end.

(** ** Error texts *)
Definition parse_version_conflict (msg : string) : option Z :=
  body ← strip_prefix "VERSIONCONFLICT " msg;
  current ← strip_prefix "current=" (trim_start body);
  ok (parse_u64 current).

(** One field of a PREFIXTOOLARGE text: what has been found so far. *)
Definition prefix_field (found : option Z * option Z) (f : string) : option Z * option Z :=
  let '(matched, limit) := found in
  match strip_prefix "matched=" f with
  | Some v => (ok (parse_u64 v), limit)
  | None =>
      match strip_prefix "limit=" f with
      | Some v => (matched, ok (parse_u64 v))
      | None => found
      end
  end.

Definition parse_prefix_too_large (msg : string) : option (Z * Z) :=
  body ← strip_prefix "PREFIXTOOLARGE " msg;
  let '(matched, limit) := fold_left prefix_field (split_whitespace (trim_start body)) (None, None) in
  matched ← matched;
  limit ← limit;
  Some (matched, limit).

Section RemoteStore.
Context `{StoreTypes}.

(** The [match] of [client_err] on a server's message. *)
Definition server_err (msg : string) : StoreError :=
  match parse_version_conflict msg with
  | Some current => SeVersionConflict current
  | None =>
      match parse_prefix_too_large msg with
      | Some (matched, limit) => SePrefixTooLarge matched limit
      | None =>
          if contains "not found" msg then SeNotFound
          else if contains "namespace not found" msg then SeNamespaceNotFound msg
          else if contains "namespace already exists" msg then SeNamespaceExists msg
          else if contains "namespace not empty" msg then SeNamespaceNotEmpty msg
          else if contains "invalid cursor" msg then SeInvalidCursor msg
          else SeStorage msg
      end
  end.

Definition client_err (e : ClientError) : StoreError :=
  match e with
  | ServerErr msg => server_err msg
  | ConnectionErr e => SeConnection e
  | Timeout => SeConnection "timeout"
  | other => SeStorage (client_error_display other)
  end.

(** What the metadata of an entry is read from: [serde_json::from_value] and
    [Default] of [Metadata]; and [serde_json::to_string] of a schema. *)
Class MetadataCodec := {
  metadata_from_value : Value -> result string Metadata;
  metadata_default : Metadata;
  meta_schema_to_string : MetaSchema -> string;
}.

Context `{!SerdeBuild} `{!MetadataCodec} {K : Type} `{!Transport K}.

(** A store operation over the connection; a failure of the transport reaches
    the caller as [client_err] of it. *)
Definition remote (A : Type) : Type := K -> result Failure (result StoreError A * K).

Definition mapped {A B : Type} (f : A -> B) (c : call (K:=K) A) : remote B :=
  fun k =>
    '(r, k) ← c k;
    Ok (match r with Ok a => Ok (f a) | Err e => Err (client_err e) end, k).

(** [raw_command], and what the operation makes of the response. *)
Definition raw {A : Type} (args : list string) (f : Response -> result StoreError A) : remote A :=
  fun k => '(r, k) ← send args k; Ok (f r, k).

(** [if let Response::Error(msg) = &resp { return Err(..) }] *)
Definition unless_error {A : Type} (f : Response -> result StoreError A) (r : Response)
    : result StoreError A :=
  match r with RError msg => Err (client_err (ServerErr msg)) | _ => f r end.

(** [resp.get_field(name).and_then(as_int).ok_or_else(..)? as u64]. *)
Definition int_field (name : string) (r : Response) : result StoreError Z :=
  n ← ok_or (get_field r name ≫= as_int) (SeStorage ("missing " +:+ name +:+ " field"));
  Ok (i64_as_u64 n).

Definition rs_put (ns : string) (key value : bytes) (metadata : option Metadata) : remote Z :=
  mapped id
    (match metadata with
     | Some meta => client_put_with_metadata ns key value (metadata_to_json meta)
     | None => client_put ns key value
     end).

Definition entry_of (gr : GetResult) : Entry :=
  {| entry_key := gr_key gr; entry_value := gr_value gr; entry_version := gr_version gr;
     entry_metadata :=
       match gr_metadata gr with
       | Some j => match metadata_from_value j with Ok m => m | Err _ => metadata_default end
       | None => metadata_default
       end;
     entry_created_at := 0; entry_updated_at := 0 |}.

Definition rs_get (ns : string) (key : bytes) (version : option Z) : remote Entry :=
  mapped entry_of
    (match version with
     | Some v => client_get_version ns key v
     | None => client_get ns key
     end).

Definition rs_delete (ns : string) (key : bytes) : remote Z := mapped id (client_delete ns key).

Definition rs_put_if_version (ns : string) (key value : bytes) (metadata : option Metadata)
    (expected_version : Z) : remote Z :=
  let meta_args :=
    match metadata with
    | Some m => ["META"; json_to_string (metadata_to_json m)]
    | None => []
    end in
  raw (["PUTIF"; ns; from_utf8_lossy key; from_utf8_lossy value; "EXPECT";
        int_to_string expected_version] ++ meta_args)%list
    (unless_error (int_field "version")).

Definition rs_delete_if_version (ns : string) (key : bytes) (expected_version : Z) : remote Z :=
  raw ["DELIF"; ns; from_utf8_lossy key; "EXPECT"; int_to_string expected_version]
    (unless_error (int_field "version")).

Definition rs_delete_prefix (ns : string) (prefix : bytes) : remote Z :=
  raw ["DELPREFIX"; ns; from_utf8_lossy prefix] (unless_error (int_field "deleted")).

(** The page of a LIST or NAMESPACE LIST response. *)
Definition remote_page (name : string) (r : Response) : result StoreError Page :=
  f ← ok_or (get_field r name) (SeStorage ("missing " +:+ name +:+ " field"));
  let keys := match f with RArray items => map as_bytes (strings items) | _ => [] end in
  Ok {| page_keys := keys; page_cursor := get_string_field r "cursor" |}.

Definition opt_arg (keyword : string) (o : option string) : list string :=
  match o with Some v => [keyword; v] | None => [] end.

Definition rs_list (ns : string) (prefix : option bytes) (cursor : option string) (limit : Z)
    : remote Page :=
  raw (["LIST"; ns] ++ opt_arg "PREFIX" (option_map from_utf8_lossy prefix)
       ++ opt_arg "CURSOR" cursor ++ ["LIMIT"; int_to_string limit])%list
    (remote_page "keys").

Definition remote_version (item : Response) : VersionInfo :=
  let state_str := default "" (get_string_field item "state") in
  {| vi_version := i64_as_u64 (default 0%Z (get_int_field item "version"));
     vi_state := if state_str =? "active" then Active
                 else if state_str =? "deleted" then Deleted else Active;
     vi_updated_at := i64_as_u64 (default 0%Z (get_int_field item "updated_at"));
     vi_actor := default "" (get_string_field item "actor") |}.

Definition rs_versions (ns : string) (key : bytes) (limit : Z) (from_version : option Z)
    : remote (list VersionInfo) :=
  raw (["VERSIONS"; ns; from_utf8_lossy key; "LIMIT"; int_to_string limit]
       ++ opt_arg "FROM" (option_map int_to_string from_version))%list
    (fun r =>
       f ← ok_or (get_field r "versions") (SeStorage "missing versions field");
       match f with
       | RArray items => Ok (map remote_version items)
       | _ => Err (SeStorage "versions not an array")
       end).

(** The options of NAMESPACE CREATE and ALTER. *)
Definition config_args (config : NamespaceConfig) : list string :=
  (opt_arg "MAX_VERSIONS" (option_map int_to_string (max_versions config))
   ++ opt_arg "TOMBSTONE_RETENTION" (option_map int_to_string (tombstone_retention_secs config))
   ++ opt_arg "SCHEMA" (option_map meta_schema_to_string (meta_schema config)))%list.

(** [check_ok(&resp).map_err(client_err)]. *)
Definition remote_ok (r : Response) : result StoreError unit :=
  map_err client_err (check_ok r).

Definition rs_namespace_create (ns : string) (config : NamespaceConfig) : remote unit :=
  raw (["NAMESPACE"; "CREATE"; ns] ++ config_args config)%list remote_ok.

Definition rs_namespace_drop (ns : string) (force : bool) : remote unit :=
  mapped id (client_namespace_drop ns force).

Definition rs_namespace_list (cursor : option string) (limit : Z) : remote Page :=
  raw (["NAMESPACE"; "LIST"] ++ opt_arg "CURSOR" cursor ++ ["LIMIT"; int_to_string limit])%list
    (remote_page "namespaces").

Definition rs_namespace_info (ns : string) : remote NamespaceInformation :=
  mapped (fun info =>
    {| info_name := ni_name info; info_key_count := ni_key_count info;
       info_created_at := ni_created_at info;
       info_config := {| meta_schema := None; max_versions := None;
                         tombstone_retention_secs := None |} |})
    (client_namespace_info ns).

Definition rs_namespace_alter (ns : string) (config : NamespaceConfig) : remote unit :=
  raw (["NAMESPACE"; "ALTER"; ns] ++ config_args config)%list remote_ok.

Definition rs_namespace_validate (ns : string) : remote (list ValidationReport) :=
  raw ["NAMESPACE"; "VALIDATE"; ns]
    (fun r => _ ← remote_ok r; Ok []).

(** ** Pipelines *)
Inductive PipelineCommand :=
| PcPut (ns : string) (key value : bytes) (metadata : option Metadata)
| PcGet (ns : string) (key : bytes) (version : option Z)
| PcDelete (ns : string) (key : bytes)
| PcPutIfVersion (ns : string) (key value : bytes) (metadata : option Metadata) (expected : Z)
| PcDeleteIfVersion (ns : string) (key : bytes) (expected : Z).

Inductive PipelineResult :=
| PrPut (version : Z)
| PrGet (e : Entry)
| PrDelete (version : Z).

(** The words a pipeline command is sent as. *)
Definition pipeline_args (c : PipelineCommand) : list string :=
  match c with
  | PcPut ns key value _ => ["PUT"; ns; from_utf8_lossy key; from_utf8_lossy value]
  | PcGet ns key _ => ["GET"; ns; from_utf8_lossy key]
  | PcDelete ns key => ["DELETE"; ns; from_utf8_lossy key]
  | PcPutIfVersion ns key value _ expected =>
      ["PUTIF"; ns; from_utf8_lossy key; from_utf8_lossy value; "EXPECT"; int_to_string expected]
  | PcDeleteIfVersion ns key expected =>
      ["DELIF"; ns; from_utf8_lossy key; "EXPECT"; int_to_string expected]
  end.

(** [resp.get_int_field("version").unwrap_or(0) as u64]. *)
Definition version_or_zero (r : Response) : Z :=
  i64_as_u64 (default 0%Z (get_int_field r "version")).

Definition pipeline_result (c : PipelineCommand) (r : Response) : PipelineResult :=
  match c with
  | PcPut _ _ _ _ | PcPutIfVersion _ _ _ _ _ => PrPut (version_or_zero r)
  | PcGet _ _ _ =>
      PrGet {| entry_key := as_bytes (default "" (get_string_field r "key"));
               entry_value := as_bytes (default "" (get_string_field r "value"));
               entry_version := version_or_zero r; entry_metadata := metadata_default;
               entry_created_at := 0; entry_updated_at := 0 |}
  | PcDelete _ _ | PcDeleteIfVersion _ _ _ => PrDelete (version_or_zero r)
  end.

Definition rs_pipeline (commands : list PipelineCommand) : remote (list PipelineResult) :=
  mapped (fun results => zip_with pipeline_result commands results)
    (client_pipeline (map pipeline_args commands) None).

(** ** Subscriptions *)

(** [event_strs.join("|")]. *)
Definition event_str (e : EventType) : string :=
  match e with EventPut => "put" | EventDelete => "delete" end.

Definition subscribe_args (ns : string) (flt : SubscriptionFilter) : list string :=
  (["SUBSCRIBE"; ns] ++ opt_arg "KEY" (option_map from_utf8_lossy (filter_key flt))
   ++ match filter_events flt with
      | [] => []
      | events => ["EVENTS"; String.concat "|" (map event_str events)]
      end)%list.

(** The store, and what opening it needs. *)
Record RemoteStoreHandle := {
  rs_client : K;
  rs_config : ConnectionConfig;
}.

Section Open.
Variable dial dial_tls : string -> result ClientError K.

Definition rs_new (client : K) (uri : string) : result Failure RemoteStoreHandle :=
  config ← map_err Fails (parse_uri uri);
  Ok {| rs_client := client; rs_config := config |}.

Definition rs_connect (uri : string) : result Failure RemoteStoreHandle :=
  client ← from_uri dial dial_tls uri;
  rs_new client uri.

Definition open_streaming_connection (s : RemoteStoreHandle) : result Failure K :=
  open_connection dial dial_tls (rs_config s).
End Open.

Definition rs_subscribe (ns : string) (flt : SubscriptionFilter) : remote unit :=
  raw (subscribe_args ns flt) remote_ok.

(** The background task: what it does with a response it reads. *)
Inductive Relayed := Relay (ev : SubscriptionEvent) | Ignore | Stop.

Definition relay (r : Response) : Relayed :=
  let closed :=
    match r with
    | RArray items =>
        match item_str items 0, item_str items 1 with
        | Some a, Some b => (a =? "subscription") && (b =? "closed")
        | _, _ => false
        end
    | _ => false
    end in
  if closed then Stop
  else match parse_push_frame r with Some ev => Relay ev | None => Ignore end.

(** What a subscriber receives of the responses that arrive, until the
    subscription is closed. *)
Fixpoint relayed (rs : list Response) : list SubscriptionEvent :=
  match rs with
  | [] => []
  | r :: rest =>
      match relay r with
      | Relay ev => ev :: relayed rest
      | Ignore => relayed rest
      | Stop => []
      end
  end.
End RemoteStore.
