(* ===== verification/ServerConfig.v ===== *)
(** * The server's configuration

    Models [shroudb-server/src/config.rs]: the configuration file's structure
    and defaults, the expansion of environment variables, and what the storage
    engine and the token validator are built from.  The TOML parser, the
    storage engine's types and the token validator are outside the repository. *)
From S2P Require Import Prelude RustStr Externals RateLimiter.
From Stdlib Require Import SpecFloat.
Open Scope Z_scope.
Open Scope string_scope.

(** ** The structure of the file *)
Record WebhookConfig := {
  wh_url : string;
  wh_secret : string;
  wh_events : list string;
  wh_namespaces : list string;
  wh_max_retries : Z;
  wh_timeout_ms : Z;
}.

Definition default_max_retries : Z := 5.
Definition default_webhook_timeout_ms : Z := 5000.

(** Addresses and paths are their text; the TLS section is left to the crate
    that reads it. *)
Record ServerConfig (Tls : Type) := {
  sc_bind : string;
  sc_tls : option Tls;
  sc_unix_socket : option string;
  sc_rate_limit_per_second : option Z;
  sc_metrics_bind : option string;
  sc_otel_endpoint : option string;
}.
Arguments sc_bind {Tls} _.
Arguments sc_tls {Tls} _.
Arguments sc_unix_socket {Tls} _.
Arguments sc_rate_limit_per_second {Tls} _.
Arguments sc_metrics_bind {Tls} _.
Arguments sc_otel_endpoint {Tls} _.

Definition default_bind : string := "0.0.0.0:6399".

Definition default_server {Tls} : ServerConfig Tls :=
  {| sc_bind := default_bind; sc_tls := None; sc_unix_socket := None;
     sc_rate_limit_per_second := None; sc_metrics_bind := None; sc_otel_endpoint := None |}.

(** [CacheConfig]: an optional budget. *)
Record CacheConfig := { memory_budget : option string }.

Record StorageConfig := {
  st_mode : string;
  st_uri : option string;
  st_data_dir : string;
  st_namespace : option string;
  st_fsync_mode : option string;
  st_fsync_interval_ms : option Z;
  st_max_segment_bytes : option Z;
  st_max_segment_entries : option Z;
  st_snapshot_interval_entries : option Z;
  st_snapshot_interval_minutes : option Z;
  st_cache : option CacheConfig;
}.

Definition default_mode : string := "embedded".
Definition default_data_dir : string := "./data".

Definition default_storage : StorageConfig :=
  {| st_mode := default_mode; st_uri := None; st_data_dir := default_data_dir;
     st_namespace := None; st_fsync_mode := None; st_fsync_interval_ms := None;
     st_max_segment_bytes := None; st_max_segment_entries := None;
     st_snapshot_interval_entries := None; st_snapshot_interval_minutes := None;
     st_cache := None |}.

(** The [auth] section, of [shroudb-acl]. *)
Record GrantConfig := { gc_namespace : string; gc_scopes : list string }.
Record TokenConfig := {
  tc_tenant : string;
  tc_actor : string;
  tc_platform : bool;
  tc_grants : list GrantConfig;
}.
Record ServerAuthConfig := {
  auth_method : option string;
  auth_tokens : gmap string TokenConfig;
}.

Record ShrouDBConfig (Tls : Type) := {
  cfg_server : ServerConfig Tls;
  cfg_storage : StorageConfig;
  cfg_auth : option ServerAuthConfig;
  cfg_webhooks : list WebhookConfig;
}.
Arguments cfg_server {Tls} _.
Arguments cfg_storage {Tls} _.
Arguments cfg_auth {Tls} _.
Arguments cfg_webhooks {Tls} _.

Definition default_shroudb {Tls} : ShrouDBConfig Tls :=
  {| cfg_server := default_server; cfg_storage := default_storage; cfg_auth := None;
     cfg_webhooks := [] |}.

(** ** Environment variables *)

(** The text before and after the first [p]. *)
Fixpoint split_at (p s : string) : option (string * string) :=
  match strip_prefix p s with
  | Some rest => Some (EmptyString, rest)
  | None =>
      match s with
      | EmptyString => None
      | String c s' => option_map (fun '(l, r) => (String c l, r)) (split_at p s')
      end
  end.

(** One round of the loop: the text with its first [${..}] replaced, if there
    is one that is closed.  A variable that is not set is empty. *)
Definition expand_step (env : string -> option string) (s : string) : option string :=
  match split_at "${" s with
  | None => None
  | Some (before, rest) =>
      match split_once "}" rest with
      | None => None
      | Some (var_name, after) => Some (before +:+ default "" (env var_name) +:+ after)
      end
  end.

(** The loop; [None] when [fuel] rounds are not enough. *)
Fixpoint expand_env_vars (env : string -> option string) (fuel : nat) (s : string) : option string :=
  match expand_step env s with
  | None => Some s
  | Some s' => match fuel with O => None | S fuel => expand_env_vars env fuel s' end
  end.

(** [load_config], given the path and the text of the file and the TOML parser;
    the error is the outermost one. *)
Definition load_config {Tls} (toml : string -> result string (ShrouDBConfig Tls))
    (env : string -> option string) (fuel : nat) (path : string) (raw : result string string)
    : option (result string (ShrouDBConfig Tls)) :=
  match raw with
  | Err _ => Some (Err ("failed to read config file: " +:+ path))
  | Ok raw =>
      option_map (fun expanded => map_err (fun _ => "failed to parse config file") (toml expanded))
        (expand_env_vars env fuel raw)
  end.

(** ** The storage engine's settings *)
Inductive FsyncMode :=
| PerWrite
| Batched (interval_ms : Z)
| Periodic (interval_ms : Z).

Definition to_fsync_mode (fsync_default : FsyncMode) (s : StorageConfig) : FsyncMode :=
  match st_fsync_mode s with
  | Some mode =>
      if String.eqb mode "per_write" then PerWrite
      else if String.eqb mode "batched" then Batched (default 10 (st_fsync_interval_ms s))
      else if String.eqb mode "periodic" then Periodic (default 1000 (st_fsync_interval_ms s))
      else fsync_default
  | None => fsync_default
  end.

(** *** [str::trim], [str::to_lowercase], [str::parse::<f64>] *)

Definition strip_whitespace_end (s : string) : option string :=
  (fix go (ws : list string) : option string :=
     match ws with
     | [] => None
     | w :: ws' => match strip_suffix w s with Some s' => Some s' | None => go ws' end
     end) whitespace.

Fixpoint trim_whitespace_end (fuel : nat) (s : string) : string :=
  match fuel with
  | O => s
  | S fuel => match strip_whitespace_end s with Some s' => trim_whitespace_end fuel s' | None => s end
  end.

Definition trim (s : string) : string :=
  let s := trim_start s in trim_whitespace_end (String.length s) s.

(** The digits at the front of [s]: their value after [acc], their number,
    and the rest. *)
Fixpoint take_digits (acc : Z) (n : Z) (s : string) : Z * Z * string :=
  match s with
  | String c s' =>
      match char_digit c with
      | Some x => take_digits (acc * 10 + x) (n + 1) s'
      | None => (acc, n, s)
      end
  | EmptyString => (acc, n, s)
  end.

Definition take_sign (s : string) : bool * string :=
  match s with
  | String c s' => if Ascii.eqb c "-" then (true, s') else if Ascii.eqb c "+" then (false, s') else (false, s)
  | EmptyString => (false, s)
  end.

(** [e], a sign, digits: the exponent, when there is nothing else. *)
Definition take_exponent (s : string) : option Z :=
  match s with
  | EmptyString => Some 0
  | String c s' =>
      if Ascii.eqb c "e" || Ascii.eqb c "E" then
        let '(neg, s') := take_sign s' in
        let '(e, n, rest) := take_digits 0 0 s' in
        if (0 <? n)%Z && String.eqb rest "" then Some (if neg : bool then - e else e) else None
      else None
  end.

(** A decimal number as mantissa and power of ten. *)
Definition take_number (s : string) : option (Z * Z) :=
  let '(m, whole, s1) := take_digits 0 0 s in
  let '(m, frac, s2) :=
    match s1 with
    | String c r => if Ascii.eqb c "." then take_digits m 0 r else (m, 0, s1)
    | EmptyString => (m, 0, s1)
    end in
  if (whole + frac =? 0)%Z then None
  else option_map (fun e => (m, e - frac)) (take_exponent s2).

(** [m * 10 ^ e] rounded to the nearest double: a quotient of at least 64 bits
    with a sticky bit, or zero or infinity beyond the range. *)
Definition f64_of_decimal (neg : bool) (m e : Z) : f64 :=
  let signed n := if neg then - n else n in
  if (m =? 0)%Z then S754_zero neg
  else if (400 <? e)%Z then S754_infinity neg
  else if (e + Z.log2 m + 1 <? -400)%Z then S754_zero neg
  else if (0 <=? e)%Z then binary_normalize 53 1024 (signed (m * 10 ^ e)) 0 neg
  else
    let d := 10 ^ (- e) in
    let s := Z.max 0 (64 + Z.log2 d - Z.log2 m) in
    let q := (m * 2 ^ s) / d in
    let sticky := if ((m * 2 ^ s) mod d =? 0)%Z then 0 else 1 in
    binary_normalize 53 1024 (signed (2 * q + sticky)) (- s - 1) neg.

Definition parse_f64 (s : string) : option f64 :=
  let '(neg, body) := take_sign s in
  if eq_ignore_ascii_case body "inf" || eq_ignore_ascii_case body "infinity"
  then Some (S754_infinity neg)
  else if eq_ignore_ascii_case body "nan" then Some S754_nan
  else option_map (fun '(m, e) => f64_of_decimal neg m e) (take_number body).

(** [x as usize]: towards zero, saturating, NaN to zero. *)
Definition f64_as_usize (x : f64) : Z :=
  match x with
  | S754_zero _ | S754_nan => 0
  | S754_infinity neg => if neg then 0 else two64 - 1
  | S754_finite true _ _ => 0
  | S754_finite false m e => Z.min (Z.shiftl (Zpos m) e) (two64 - 1)
  end.

(** *** The cache budget *)
Inductive CacheMemoryBudget :=
| Unlimited
| Auto
| Fractional (f : f64)
| Explicit (bytes : Z).

Inductive BudgetError :=
| InvalidPercentage (input : string)
| PercentageRange (frac : f64)
| InvalidBudget (input : string).

(** Lowercasing is that of ASCII: with any other letter in it the input is
    refused below (the Kelvin sign, which lowercases to [k], aside). *)
Definition parse_memory_budget (input : string) : result BudgetError CacheMemoryBudget :=
  let input := to_ascii_lowercase (trim input) in
  if String.eqb input "auto" then Ok Auto
  else
    match strip_suffix "%" input with
    | Some pct =>
        match parse_f64 (trim pct) with
        | None => Err (InvalidPercentage input)
        | Some frac =>
            if SFleb (f64_of_Z 0) frac && SFleb frac (f64_of_Z 100)
            then Ok (Fractional (f64_div frac (f64_of_Z 100)))
            else Err (PercentageRange frac)
        end
    | None =>
        let '(num_str, multiplier) :=
          match strip_suffix "gb" input with
          | Some n => (n, 1024 * 1024 * 1024)
          | None =>
              match strip_suffix "mb" input with
              | Some n => (n, 1024 * 1024)
              | None =>
                  match strip_suffix "kb" input with Some n => (n, 1024) | None => (input, 1) end
              end
          end in
        match parse_f64 (trim num_str) with
        | None => Err (InvalidBudget input)
        | Some num => Ok (Explicit (f64_as_usize (f64_mul num (f64_of_Z multiplier))))
        end
    end.

Definition to_cache_budget (s : StorageConfig) : CacheMemoryBudget :=
  match st_cache s with
  | None => Unlimited
  | Some cache =>
      match memory_budget cache with
      | None => Auto
      | Some budget =>
          match parse_memory_budget budget with Ok b => b | Err _ => Unlimited end
      end
  end.

(** The settings the configuration determines; the others keep the engine's
    defaults. *)
Record EngineConfig := {
  ec_data_dir : string;
  ec_namespace : string;
  ec_fsync_mode : FsyncMode;
  ec_max_segment_bytes : Z;
  ec_max_segment_entries : Z;
  ec_snapshot_entry_threshold : Z;
  ec_snapshot_time_threshold_secs : Z;
  ec_cache_memory_budget : CacheMemoryBudget;
}.

(** The product of minutes and 60 wraps, as in a release build. *)
Definition to_engine_config {Tls} (fsync_default : FsyncMode) (config : ShrouDBConfig Tls)
    : EngineConfig :=
  let s := cfg_storage config in
  {| ec_data_dir := st_data_dir s;
     ec_namespace := default "default" (st_namespace s);
     ec_fsync_mode := to_fsync_mode fsync_default s;
     ec_max_segment_bytes := default (64 * 1024 * 1024) (st_max_segment_bytes s);
     ec_max_segment_entries := default 100000 (st_max_segment_entries s);
     ec_snapshot_entry_threshold := default 100000 (st_snapshot_interval_entries s);
     ec_snapshot_time_threshold_secs :=
       match st_snapshot_interval_minutes s with Some m => (m * 60) mod two64 | None => 3600 end;
     ec_cache_memory_budget := to_cache_budget s |}.

(** ** Tokens *)

(** [Token], [TokenGrant] and [StaticTokenValidator] of [shroudb-acl]. *)
Record TokenGrant := { tg_namespace : string; tg_scopes : list Scope }.
Record Token := {
  tok_tenant : string;
  tok_actor : string;
  tok_is_platform : bool;
  tok_grants : list TokenGrant;
  tok_expires_at : option Z;
}.

Class StaticTokens `{Acl} (V : Type) := {
  sv_new : V;
  sv_register : string -> Token -> V -> V;
  sv_len : V -> Z;
  sv_validate : V -> string -> result string Token;
  (** [Token::into_context]. *)
  into_context : Token -> AuthContext;
}.

(** A scope the server knows; any other is ignored. *)
Definition scope_of (s : string) : option Scope :=
  let s := to_ascii_lowercase s in
  if String.eqb s "read" then Some ScopeRead
  else if String.eqb s "write" then Some ScopeWrite
  else None.

Definition token_of (tc : TokenConfig) : Token :=
  {| tok_tenant := tc_tenant tc; tok_actor := tc_actor tc; tok_is_platform := tc_platform tc;
     tok_grants := map (fun g => {| tg_namespace := gc_namespace g;
                                    tg_scopes := omap scope_of (gc_scopes g) |}) (tc_grants tc);
     tok_expires_at := None |}.

Definition build_token_validator {Tls} `{Acl} {V} `{!StaticTokens V} (config : ShrouDBConfig Tls) : V :=
  match cfg_auth config with
  | None => sv_new
  | Some auth =>
      foldl (fun v '(raw_token, tc) => sv_register raw_token (token_of tc) v) sv_new
        (map_to_list (auth_tokens auth))
  end.

Definition cfg_auth_required {Tls} (config : ShrouDBConfig Tls) : bool :=
  match cfg_auth config with
  | None => false
  | Some auth =>
      bool_decide (auth_method auth = Some "token") && bool_decide (auth_tokens auth <> ∅)
  end.
