(* ===== verification/Background.v ===== *)
(** * Background work of the server

    Models [shroudb-server/src/webhooks.rs] (the event filter and the delivery
    with its retries), [reload.rs] (the reloadable validator and the reloader)
    and [server.rs] (the accept loop and the drain at shutdown).  Every loop is a step function of
    the branch of its [select!] that completes; HTTP, JSON and HMAC are
    parameters. *)
From S2P Require Import Prelude RustStr Externals Resp3 Command Response Idempotency Handlers Dispatch RateLimiter ServerConfig.
Open Scope Z_scope.
Open Scope string_scope.

(** ** Webhooks *)

Definition event_type_str (e : EventType) : string :=
  match e with EventPut => "put" | EventDelete => "delete" end.

(** A pattern is a name, or a prefix followed by [*]. *)
Definition matches_pattern (pattern namespace : string) : bool :=
  match strip_suffix "*" pattern with
  | Some prefix => starts_with prefix namespace
  | None => String.eqb namespace pattern
  end.

Definition is_empty {A : Type} (l : list A) : bool := match l with [] => true | _ => false end.

Definition matches_filter (config : WebhookConfig) (event : SubscriptionEvent) : bool :=
  let event_ok :=
    is_empty (wh_events config)
    || existsb (fun e => eq_ignore_ascii_case e (event_type_str (ev_event event))) (wh_events config) in
  let namespace_ok :=
    is_empty (wh_namespaces config)
    || existsb (fun p => matches_pattern p (ev_namespace event)) (wh_namespaces config) in
  event_ok && namespace_ok.

(** What a delivery does: a request, or a pause between two. *)
Record Request := {
  rq_url : string;
  rq_signature : string;     (* the header [X-ShrouDB-Signature-256] *)
  rq_event : string;         (* the header [X-ShrouDB-Event] *)
  rq_body : bytes;
}.

Inductive Action :=
| Post (r : Request)
| Sleep (secs : Z).

Section Webhooks.
(** [serde_json::to_vec(event)]; [hex(hmac_sha256(secret, body))]; whether the
    endpoint answers the given attempt with success. *)
Context (event_to_vec : SubscriptionEvent -> result string bytes).
Context (hmac_hex : string -> bytes -> string).
Context (answers : Z -> bool).

Definition request_for (config : WebhookConfig) (event : SubscriptionEvent) (body : bytes) : Request :=
  {| rq_url := wh_url config;
     rq_signature := "sha256=" +:+ hmac_hex (wh_secret config) body;
     rq_event := event_type_str (ev_event event);
     rq_body := body |}.

(** The attempts from [attempt] on, of which [remaining] are left: whether one
    succeeded, and what was done. *)
Fixpoint attempts (request : Request) (max_retries : Z) (remaining : nat) (attempt : Z)
    : bool * list Action :=
  match remaining with
  | O => (false, [])
  | S remaining =>
      if answers attempt then (true, [Post request])
      else
        let pause := if (attempt <? max_retries)%Z
                     then [Sleep (Z.shiftl 1 (Z.min attempt 3))] else [] in
        let '(ok, rest) := attempts request max_retries remaining (attempt + 1) in
        (ok, (Post request :: pause ++ rest)%list)
  end.

Definition deliver_with_retry (config : WebhookConfig) (event : SubscriptionEvent)
    : bool * list Action :=
  match event_to_vec event with
  | Err _ => (false, [])
  | Ok body =>
      attempts (request_for config event body) (wh_max_retries config)
        (Z.to_nat (wh_max_retries config + 1)) 0
  end.

(** One iteration of the actor's loop: [None] ends it. *)
Inductive WebhookInput :=
| WhShutdown (now : bool)
| WhEvent (event : SubscriptionEvent)
| WhLagged (n : Z)
| WhClosed.

Definition webhook_step (config : WebhookConfig) (input : WebhookInput) : option (list Action) :=
  match input with
  | WhShutdown now => if now : bool then None else Some []
  | WhEvent event =>
      if matches_filter config event then Some (deliver_with_retry config event).2 else Some []
  | WhLagged _ => Some []
  | WhClosed => None
  end.
End Webhooks.

(** ** Reloading *)
Section Reload.
Context `{!Acl} {V : Type} `{!StaticTokens V} {Tls : Type}.

(** The validator behind its lock.  A poisoned lock is recovered from, so what
    it holds is all there is to it. *)
Record ReloadableValidator := { rv_inner : V }.

Definition rv_new (v : V) : ReloadableValidator := {| rv_inner := v |}.
Definition rv_replace (v : V) (_ : ReloadableValidator) : ReloadableValidator := {| rv_inner := v |}.
Definition rv_len (r : ReloadableValidator) : Z := sv_len (rv_inner r).
Definition rv_validate (r : ReloadableValidator) (raw : string) : result string Token :=
  sv_validate (rv_inner r) raw.

(** What the server checks a token with: the token becomes its context. *)
#[export] Instance reloadable_validator : TokenValidator ReloadableValidator := fun r raw =>
  match rv_validate r raw with Ok t => Ok (into_context t) | Err e => Err e end.

Record Reloader := {
  rl_validator : ReloadableValidator;
  rl_last_mtime : option Z;
  rl_rate_limit : option Z;
}.

(** The reloader as [run_server] starts it. *)
Definition reloader_start (config : ShrouDBConfig Tls) (mtime : option Z) : Reloader :=
  {| rl_validator := rv_new (build_token_validator config);
     rl_last_mtime := mtime;
     rl_rate_limit := sc_rate_limit_per_second (cfg_server config) |}.

(** A tick: [mtime] is the file's, [loaded] what loading it gives. *)
Definition reload_tick (mtime : option Z) (loaded : result string (ShrouDBConfig Tls))
    (r : Reloader) : Reloader :=
  if decide (mtime = rl_last_mtime r) then r
  else
    match loaded with
    | Err _ => {| rl_validator := rl_validator r; rl_last_mtime := mtime;
                  rl_rate_limit := rl_rate_limit r |}
    | Ok config =>
        {| rl_validator := rv_replace (build_token_validator config) (rl_validator r);
           rl_last_mtime := mtime;
           rl_rate_limit := sc_rate_limit_per_second (cfg_server config) |}
    end.

(** The loop of [run_reloader]: [None] is its end. *)
Inductive ReloadInput :=
| RlShutdown (now : bool)
| RlTick (mtime : option Z) (loaded : result string (ShrouDBConfig Tls)).

Definition reloader_step (input : ReloadInput) (r : Reloader) : option Reloader :=
  match input with
  | RlShutdown now => if now then None else Some r
  | RlTick mtime loaded => Some (reload_tick mtime loaded r)
  end.
End Reload.

(** ** The accept loop *)

(** A connection that was accepted: its rate limit is the one in force then. *)
Record Task := { task_id : Z; task_rate_limit : option Z }.

Inductive ServerState :=
| Accepting (tasks : list Task)
| Draining (tasks : list Task)
| Stopped (aborted : list Task).

Inductive ServerInput :=
| SrvShutdown (now : bool)
| SrvAccepted (id : Z) (rate_limit : option Z)
| SrvAcceptError
| SrvEnded (id : Z)         (* a connection has ended; the drain joins it *)
| SrvDeadline.              (* the 30 seconds are over *)

Definition without (id : Z) (tasks : list Task) : list Task :=
  List.filter (fun t => negb (task_id t =? id)%Z) tasks.

(** The drain ends when no task is left. *)
Definition drain (tasks : list Task) : ServerState :=
  match tasks with [] => Stopped [] | _ => Draining tasks end.

(** The accept loop joins no tasks: one that ends stays in the set until the
    drain joins it. *)
Definition server_step (input : ServerInput) (s : ServerState) : ServerState :=
  match s with
  | Accepting tasks =>
      match input with
      | SrvShutdown now => if now : bool then drain tasks else s
      | SrvAccepted id rl => Accepting (tasks ++ [{| task_id := id; task_rate_limit := rl |}])
      | SrvAcceptError => s
      | SrvEnded _ | SrvDeadline => s
      end
  | Draining tasks =>
      match input with
      | SrvEnded id => drain (without id tasks)
      | SrvDeadline => Stopped tasks
      | _ => s
      end
  | Stopped _ => s
  end.
