(* ===== verification/Scheduler.v ===== *)
(** * The scheduler

    Models [shroudb-server/src/scheduler.rs]: the background tasks
    [spawn_all] starts with their intervals, what each does at a tick of its
    interval, and the loop around it ([select!], the shutdown signal first).
    What the tasks use of the storage engine is the class [PeriodicEngine], and
    for the compaction of tombstones [TombstoneEngine]. *)
From S2P Require Import Prelude RustStr Externals Resp3 Command Response Idempotency Handlers Dispatch RateLimiter.
Open Scope Z_scope.
Open Scope string_scope.

Record CacheTracker := { total_bytes : Z; resident_len : Z; budget_bytes : Z }.

Class PeriodicEngine (E : Type) := {
  total_entries_since_snapshot : E -> Z;
  time_since_last_snapshot_secs : E -> Z;
  snapshot_entry_threshold : E -> Z;
  snapshot_time_threshold_secs : E -> Z;
  pe_snapshot : E -> result string unit * E;
  (** [None] when every write is synced. *)
  fsync_interval_ms : E -> option Z;
  flush_wal : E -> result string unit * E;
  ttl_sweep_interval_ms : E -> Z;
  (** [sweep_tick(now_ms)]: the number of entries that had expired. *)
  sweep_tick : Z -> E -> result string Z * E;
  (** [active_key_count()] of every namespace. *)
  active_key_counts : E -> list Z;
  cache_tracker : E -> option CacheTracker;
}.

(** What the tombstone compactor uses: the namespaces with their configuration,
    the tombstones up to a time, and the log entry that removes them. *)
Class TombstoneEngine `{StoreTypes} (E Tomb : Type) := {
  te_namespaces : E -> list (string * NamespaceConfig);
  find_expired_tombstones : E -> string -> Z -> list Tomb;
  apply_compacted : string -> list Tomb -> E -> result string unit * E;
}.

(** ** The compaction of tombstones *)
Section Compaction.
Context `{StoreTypes} {E Tomb : Type} `{!TombstoneEngine E Tomb}.

(** The tombstones of one namespace; an error is logged. *)
Definition compact_namespace (now : Z) (e : E) (entry : string * NamespaceConfig) : E :=
  match tombstone_retention_secs entry.2 with
  | Some secs =>
      if (0 <? secs)%Z then
        let cutoff := Z.max 0 (now - secs) in
        match find_expired_tombstones e entry.1 cutoff with
        | [] => e
        | expired => (apply_compacted entry.1 expired e).2
        end
      else e
  | None => e
  end.

(** [now] is [None] when the clock is before 1970. *)
Definition compact_tombstones (now : option Z) (e : E) : E :=
  match now with
  | None => e
  | Some now => foldl (compact_namespace now) e (te_namespaces e)
  end.
End Compaction.

(** ** The tasks *)
Inductive SchedTask :=
| SnapshotCompactor
| FsyncBatcher
| MetricsReporter
| IdempotencyReaper
| TombstoneReaper
| TtlSweeper.

(** A gauge is set, a counter incremented. *)
Inductive Metric :=
| Gauge (name : string) (value : f64)
| Counter (name : string) (by' : Z).

(** The clocks at a tick: [SystemTime] in seconds and milliseconds since 1970,
    the instant at which an entry of the idempotency map is visited, and the
    time since the task was started, in nanoseconds. *)
Record Tick := {
  tk_secs : option Z;
  tk_millis : option Z;
  tk_instant : string -> Z;
  tk_uptime : Z;
}.

(** The snapshot compactor's condition. *)
Definition snapshot_due (entries elapsed_secs threshold_entries threshold_secs : Z) : bool :=
  (threshold_entries <=? entries)%Z || (threshold_secs <=? elapsed_secs)%Z.

(** The idempotency map's reaper, on the dispatcher. *)
Definition reap_idempotency {S E C : Type} (now : string -> Z) (d : Dispatcher (S:=S) (E:=E) (C:=C)) :=
  set_idempotency (idem_prune now (idempotency d)) d.

Section Tasks.
Context `{StoreTypes} {E Tomb : Type} `{!PeriodicEngine E} `{!TombstoneEngine E Tomb}.

(** [spawn_all]: the tasks with their intervals in milliseconds. *)
Definition spawn_all (e : E) : list (SchedTask * Z) :=
  ([(SnapshotCompactor, 60000)]
   ++ match fsync_interval_ms e with Some ms => [(FsyncBatcher, ms)] | None => [] end
   ++ [(MetricsReporter, 30000); (IdempotencyReaper, 60000); (TombstoneReaper, 300000);
       (TtlSweeper, ttl_sweep_interval_ms e)])%list.

(** What the tasks share: the engine and the idempotency map; and what they
    reported. *)
Record Shared := {
  sh_engine : E;
  sh_idempotency : IdempotencyMap;
  sh_metrics : list Metric;
}.

Definition set_sh_engine (e : E) (s : Shared) : Shared :=
  {| sh_engine := e; sh_idempotency := sh_idempotency s; sh_metrics := sh_metrics s |}.
Definition set_sh_idempotency (m : IdempotencyMap) (s : Shared) : Shared :=
  {| sh_engine := sh_engine s; sh_idempotency := m; sh_metrics := sh_metrics s |}.
Definition emit_metrics (l : list Metric) (s : Shared) : Shared :=
  {| sh_engine := sh_engine s; sh_idempotency := sh_idempotency s; sh_metrics := sh_metrics s ++ l |}.

(** The reporter's gauges; the sum of the [u64] counts wraps. *)
Definition gauges (uptime : Z) (e : E) : list Metric :=
  ([Gauge "shroudb_uptime_seconds" (as_secs_f64 uptime);
    Gauge "shroudb_wal_entries_since_snapshot" (f64_of_Z (total_entries_since_snapshot e));
    Gauge "shroudb_namespace_count" (f64_of_Z (Z.of_nat (length (te_namespaces e))));
    Gauge "shroudb_active_keys_total" (f64_of_Z (foldl Z.add 0 (active_key_counts e) mod two64))]
   ++ match cache_tracker e with
      | Some tracker =>
          [Gauge "shroudb_cache_memory_bytes" (f64_of_Z (total_bytes tracker));
           Gauge "shroudb_cache_resident_keys" (f64_of_Z (resident_len tracker));
           Gauge "shroudb_cache_budget_bytes" (f64_of_Z (budget_bytes tracker))]
      | None => []
      end)%list.

(** A task at a tick of its interval; errors are logged and the loop goes on. *)
Definition on_tick (task : SchedTask) (now : Tick) (s : Shared) : Shared :=
  let e := sh_engine s in
  match task with
  | SnapshotCompactor =>
      if snapshot_due (total_entries_since_snapshot e) (time_since_last_snapshot_secs e)
           (snapshot_entry_threshold e) (snapshot_time_threshold_secs e)
      then set_sh_engine (pe_snapshot e).2 s else s
  | FsyncBatcher => set_sh_engine (flush_wal e).2 s
  | MetricsReporter => emit_metrics (gauges (tk_uptime now) e) s
  | IdempotencyReaper => set_sh_idempotency (idem_prune (tk_instant now) (sh_idempotency s)) s
  | TombstoneReaper => set_sh_engine (compact_tombstones (tk_secs now) e) s
  | TtlSweeper =>
      match tk_millis now with
      | None => s
      | Some now_ms =>
          let '(r, e) := sweep_tick (now_ms mod two64) e in
          let s := set_sh_engine e s in
          match r with
          | Ok swept => if (0 <? swept)%Z then emit_metrics [Counter "shroudb_ttl_swept_total" swept] s
                        else s
          | Err _ => s
          end
      end
  end.

(** What a [select!] of a task's loop completes with. *)
Inductive SchedInput :=
| SchedShutdown (now : bool)
| SchedTick (now : Tick).

(** One iteration; [None] ends the task. *)
Definition sched_step (task : SchedTask) (input : SchedInput) (s : Shared) : option Shared :=
  match input with
  | SchedShutdown now => if now : bool then None else Some s
  | SchedTick now => Some (on_tick task now s)
  end.
End Tasks.
