(* ===== verification/Server.v ===== *)
(** * The server: connections over one dispatcher

    The composition [run_server] of [shroudb-server/src/main.rs] and [run] of
    [server.rs] put together: the accept loop with its task set, the
    connection tasks, the dispatcher, the validator and the rate limit they
    share, the reloader, the reaper of the idempotency map and the shutdown
    signal.  A connection's command runs through the dispatcher in the steps of
    [Concurrent], so that the steps of other connections come between them.

    What happens next is the input of a step: a connection is accepted, a
    [select!] of a connection completes, the configuration file has changed,
    the storage engine has done work of its own, the signal arrives, a task
    has ended, the time for draining is over. *)
From S2P Require Import Prelude RustStr Externals Resp3 Resp3Reader Command ParseCommand Response Idempotency Handlers Dispatch Concurrent RateLimiter Connection ServerConfig Background Scheduler.
Open Scope Z_scope.

Section Server.
Context `{StoreErrorText} `{!Acl} {V : Type} `{!StaticTokens V} {Tls : Type}.
Context {S : Type} `{!Store S} {Sub : Type} `{!Subscribes S Sub}.
Context {E : Type} `{!Engine E} {C : Type} `{!Clock C}.
Context {R : Type} `{!AsyncBufRead R} {W : Type} `{!AsyncWrite W}.

(** ** A connection task *)

(** [ss_flight] is the call to [execute] the task is in, if it is in one.  The
    dispatcher inside [ss_conn] is the one the task last saw. *)
Record Session := {
  ss_conn : Conn (S:=S) (E:=E) (C:=C) (R:=R) (W:=W);
  ss_next : Next (Sub:=Sub);
  ss_flight : option Flight;
}.

Abbreviation params := (ConnParams (V:=ReloadableValidator (V:=V))).

(** The iteration of the command loop up to [dispatcher.execute(command, ..)]:
    the command and the connection, when it gets there. *)
Definition admitted (p : params) (wk : Wakeup (R:=R)) (next : Next (Sub:=Sub))
    (c : Conn (S:=S) (E:=E) (C:=C) (R:=R) (W:=W)) : option (Command * Conn) :=
  match next, wk with
  | Loop, FrameReady =>
      match read_frame (reader c) with
      | Ok (Some f, r) =>
          match parse_command f with
          | Ok cmd =>
              let '(ok, c) := check_rate (set_reader r c) in
              let is_ping := match cmd with Ping => true | _ => false end in
              let is_none := match auth c with None => true | Some _ => false end in
              match cmd with
              | Auth _ | Subscribe _ _ _ => None
              | _ =>
                  if negb ok || auth_required p && is_none && negb is_ping then None
                  else match check_expiry (Sub:=Sub) c with
                       | (None, c) => Some (cmd, c)
                       | (Some _, _) => None
                       end
              end
          | Err _ => None
          end
      | _ => None
      end
  | _, _ => None
  end.

(** The next step of the task.  Once the shutdown is signalled, its branch
    comes first in every [select!]. *)
Definition session_step (p : params) (shutdown : bool) (wk : Wakeup (R:=R))
    (d : Dispatcher (S:=S) (E:=E) (C:=C)) (ss : Session) : Session * Dispatcher :=
  let c := set_dispatcher d (ss_conn ss) in
  match ss_flight ss with
  | Some (Returning r []) =>
      let '(ok, c) := reply_flushed (response_to_frame r) c in
      ({| ss_conn := c; ss_next := if ok then Loop else Closed; ss_flight := None |}, d)
  | Some Crashed => ({| ss_conn := c; ss_next := Panicked; ss_flight := None |}, d)
  | Some t =>
      let '(t, d) := flight_step (auth c) t d in
      ({| ss_conn := c; ss_next := ss_next ss; ss_flight := Some t |}, d)
  | None =>
      let wk := if shutdown then ShutdownChanged true (reader c) else wk in
      match admitted p wk (ss_next ss) c with
      | Some (cmd, c) =>
          ({| ss_conn := c; ss_next := ss_next ss; ss_flight := Some (Calling cmd []) |}, dispatcher c)
      | None =>
          let '(next, c) := conn_step p wk (ss_next ss, c) in
          ({| ss_conn := c; ss_next := next; ss_flight := None |}, dispatcher c)
      end
  end.

(** The task is over. *)
Definition ended (ss : Session) : bool :=
  match ss_flight ss, ss_next ss with
  | None, Closed | None, Panicked => true
  | _, _ => false
  end.

(** ** The server *)
Record Server := {
  srv_dispatcher : Dispatcher (S:=S) (E:=E) (C:=C);
  srv_reloader : Reloader (V:=V);     (* the validator and the rate limit in force *)
  srv_auth_required : bool;           (* settled at the start *)
  srv_shutdown : bool;                (* the value of the watch channel *)
  srv_loop : ServerState;
  srv_sessions : gmap Z Session;
}.

Definition params_of (s : Server) : params :=
  {| token_validator := rl_validator (srv_reloader s); auth_required := srv_auth_required s;
     rate_limit := rl_rate_limit (srv_reloader s) |}.

(** As [run_server] starts it. *)
Definition server_start (config : ShrouDBConfig Tls) (mtime : option Z)
    (d : Dispatcher (S:=S) (E:=E) (C:=C)) : Server :=
  {| srv_dispatcher := d; srv_reloader := reloader_start config mtime;
     srv_auth_required := cfg_auth_required config; srv_shutdown := false;
     srv_loop := Accepting []; srv_sessions := ∅ |}.

Inductive Happening :=
| EvAccept (id : Z) (r : R) (w : W)
| EvWake (id : Z) (wk : Wakeup (R:=R))
| EvReload (mtime : option Z) (loaded : result string (ShrouDBConfig Tls))
| EvReap (now : string -> Z)
| EvStorage (f : S -> S)
| EvShutdown
| EvJoin (id : Z)
| EvDeadline.

Definition set_srv_dispatcher (d : Dispatcher (S:=S) (E:=E) (C:=C)) (s : Server) : Server :=
  {| srv_dispatcher := d; srv_reloader := srv_reloader s; srv_auth_required := srv_auth_required s;
     srv_shutdown := srv_shutdown s; srv_loop := srv_loop s; srv_sessions := srv_sessions s |}.

Definition set_srv_reloader (r : Reloader (V:=V)) (s : Server) : Server :=
  {| srv_dispatcher := srv_dispatcher s; srv_reloader := r; srv_auth_required := srv_auth_required s;
     srv_shutdown := srv_shutdown s; srv_loop := srv_loop s; srv_sessions := srv_sessions s |}.

Definition set_srv_sessions (m : gmap Z Session) (s : Server) : Server :=
  {| srv_dispatcher := srv_dispatcher s; srv_reloader := srv_reloader s;
     srv_auth_required := srv_auth_required s; srv_shutdown := srv_shutdown s;
     srv_loop := srv_loop s; srv_sessions := m |}.

Definition set_srv_loop (l : ServerState) (s : Server) : Server :=
  {| srv_dispatcher := srv_dispatcher s; srv_reloader := srv_reloader s;
     srv_auth_required := srv_auth_required s; srv_shutdown := srv_shutdown s;
     srv_loop := l; srv_sessions := srv_sessions s |}.

Definition signal_shutdown (s : Server) : Server :=
  {| srv_dispatcher := srv_dispatcher s; srv_reloader := srv_reloader s;
     srv_auth_required := srv_auth_required s; srv_shutdown := true;
     srv_loop := server_step (SrvShutdown true) (srv_loop s); srv_sessions := srv_sessions s |}.

(** A connection is accepted (and its TLS handshake, if there is one, has
    succeeded): its task starts with the rate limit in force. *)
Definition on_accept (id : Z) (r : R) (w : W) (s : Server) : Server :=
  match srv_loop s, srv_sessions s !! id with
  | Accepting _, None =>
      let c := accept (params_of s) r w (srv_dispatcher s) in
      set_srv_dispatcher (dispatcher c)
        (set_srv_loop (server_step (SrvAccepted id (rl_rate_limit (srv_reloader s))) (srv_loop s))
          (set_srv_sessions
            (<[id := {| ss_conn := c; ss_next := Loop; ss_flight := None |}]> (srv_sessions s)) s))
  | _, _ => s
  end.

Definition on_wake (id : Z) (wk : Wakeup (R:=R)) (s : Server) : Server :=
  match srv_sessions s !! id with
  | None => s
  | Some ss =>
      let '(ss, d) := session_step (params_of s) (srv_shutdown s) wk (srv_dispatcher s) ss in
      set_srv_dispatcher d (set_srv_sessions (<[id := ss]> (srv_sessions s)) s)
  end.

(** [join_next] yields a task that is over. *)
Definition on_join (id : Z) (s : Server) : Server :=
  match srv_sessions s !! id with
  | Some ss => if ended ss then set_srv_loop (server_step (SrvEnded id) (srv_loop s)) s else s
  | None => s
  end.

(** [abort_all]: the tasks that are left go no further. *)
Definition on_deadline (s : Server) : Server :=
  match srv_loop s with
  | Draining _ => set_srv_sessions ∅ (set_srv_loop (server_step SrvDeadline (srv_loop s)) s)
  | _ => s
  end.

Definition happen (ev : Happening) (s : Server) : Server :=
  match ev with
  | EvAccept id r w => on_accept id r w s
  | EvWake id wk => on_wake id wk s
  | EvReload mtime loaded =>
      match reloader_step (if srv_shutdown s then RlShutdown true else RlTick mtime loaded) (srv_reloader s) with
      | Some r => set_srv_reloader r s
      | None => s
      end
  | EvReap now =>
      if srv_shutdown s then s else set_srv_dispatcher (reap_idempotency now (srv_dispatcher s)) s
  | EvStorage f => set_srv_dispatcher (set_store (f (store (srv_dispatcher s))) (srv_dispatcher s)) s
  | EvShutdown => signal_shutdown s
  | EvJoin id => on_join id s
  | EvDeadline => on_deadline s
  end.

Definition happen_all (evs : list Happening) (s : Server) : Server :=
  fold_left (fun s ev => happen ev s) evs s.

End Server.
