(* ===== verification/Cli.v ===== *)
(** * The command line client

    Models [shroudb-cli/src/main.rs]: how a line is split into words and
    completed, the help texts, what a line of the REPL does, how a response is
    printed, and the program from its arguments to its end.  The line editor
    (rustyline) and the connection are parameters. *)
From S2P Require Import Prelude RustStr Externals Resp3 ClientResponse ClientConnection ClientApi ServerConfig.
Open Scope string_scope.

(** The characters the splitter looks for. *)
Definition dquote : ascii := "034".
Definition squote : ascii := "039".
Definition backslash : ascii := "092".
Definition tab : ascii := "009".

Definition is_space (c : ascii) : bool := Ascii.eqb c " " || Ascii.eqb c tab.

Inductive State := Normal | DoubleQuote | SingleQuote.

(** A word is emitted only when it has characters. *)
Definition emit (current : string) : list string :=
  match current with EmptyString => [] | _ => [current] end.

Definition push (current : string) (c : ascii) : string := current +:+ String c EmptyString.

Fixpoint split_words (state : State) (current : string) (input : string) : list string :=
  match input with
  | EmptyString => emit current
  | String ch rest =>
      match state with
      | Normal =>
          if Ascii.eqb ch dquote then split_words DoubleQuote current rest
          else if Ascii.eqb ch squote then split_words SingleQuote current rest
          else if is_space ch then (emit current ++ split_words Normal EmptyString rest)%list
          else split_words Normal (push current ch) rest
      | DoubleQuote =>
          if Ascii.eqb ch dquote then split_words Normal current rest
          else if Ascii.eqb ch backslash then
            match rest with
            | String next rest' =>
                if Ascii.eqb next dquote || Ascii.eqb next backslash
                then split_words DoubleQuote (push current next) rest'
                else split_words DoubleQuote (push current ch) rest
            | EmptyString => split_words DoubleQuote (push current ch) rest
            end
          else split_words DoubleQuote (push current ch) rest
      | SingleQuote =>
          if Ascii.eqb ch squote then split_words Normal current rest
          else split_words SingleQuote (push current ch) rest
      end
  end.

Definition shell_words (input : string) : list string := split_words Normal EmptyString input.

(** What a line of the REPL asks for. *)
Inductive ReplAction :=
| Skip
| CommandHelp (cmd : string)
| Help
| Quit
| Send (args : list string).

Definition repl_line (line : string) : ReplAction :=
  let line := trim line in
  if String.eqb line "" then Skip
  else
    match (match strip_prefix "help " line with Some c => Some c | None => strip_prefix "HELP " line end) with
    | Some cmd => CommandHelp (trim cmd)
    | None =>
        if eq_ignore_ascii_case line "help" then Help
        else if eq_ignore_ascii_case line "quit" || eq_ignore_ascii_case line "exit" then Quit
        else Send (shell_words line)
    end.

(** ** Completion *)

(** Known command names for tab completion. *)
Definition COMMANDS : list string :=
  ["AUTH"; "PING"; "PUT"; "PUTIF"; "GET"; "DELETE"; "DELIF"; "DELPREFIX"; "LIST"; "VERSIONS";
   "NAMESPACE"; "PIPELINE"; "SUBSCRIBE"; "UNSUBSCRIBE"; "HEALTH"; "CONFIG"; "COMMAND";
   "help"; "quit"; "exit"].

(** The characters beyond ASCII whose uppercase is ASCII: sharp s, dotless i,
    long s and the Latin ligatures. *)
Definition ascii_uppercase_of : list (bytes * string) :=
  [([Byte.xc3; Byte.x9f], "SS"); ([Byte.xc4; Byte.xb1], "I"); ([Byte.xc5; Byte.xbf], "S");
   ([Byte.xef; Byte.xac; Byte.x80], "FF"); ([Byte.xef; Byte.xac; Byte.x81], "FI");
   ([Byte.xef; Byte.xac; Byte.x82], "FL"); ([Byte.xef; Byte.xac; Byte.x83], "FFI");
   ([Byte.xef; Byte.xac; Byte.x84], "FFL"); ([Byte.xef; Byte.xac; Byte.x85], "ST");
   ([Byte.xef; Byte.xac; Byte.x86], "ST")].

Definition uppercase_of (s : string) : option (string * string) :=
  (fix go (l : list (bytes * string)) : option (string * string) :=
     match l with
     | [] => None
     | (b, u) :: l' => match strip_prefix (of_bytes b) s with Some rest => Some (u, rest) | None => go l' end
     end) ascii_uppercase_of.

(** [str::to_uppercase], up to the characters whose uppercase is not ASCII,
    which are left as they are: the program compares the result with ASCII
    texts only, which neither equals. *)
Fixpoint to_uppercase_go (fuel : nat) (s : string) : string :=
  match fuel with
  | O => s
  | S fuel' =>
      match uppercase_of s, s with
      | Some (u, rest), _ => u +:+ to_uppercase_go fuel' rest
      | None, String c rest => String (ascii_upper c) (to_uppercase_go fuel' rest)
      | None, EmptyString => EmptyString
      end
  end.
Definition to_uppercase (s : string) : string := to_uppercase_go (String.length s) s.

Fixpoint drop_chars (n : nat) (s : string) : string :=
  match n, s with
  | S n', String _ s' => drop_chars n' s'
  | _, _ => s
  end.

(** [ShrouDBHelper::complete]: where the word at the cursor starts and what may
    stand there; [None] is the panic of a cursor that is not in the line. *)
Definition complete (line : string) (pos : nat) : option (nat * list string) :=
  if (Nat.leb pos (String.length line) && is_boundary (drop_chars pos line))%bool
  then
    let before := String.substring 0 pos line in
    let '(word_start, prefix) :=
      match rsplit_once " " before with
      | Some (l, r) => (String.length l + 1, r)%nat
      | None => (O, before)
      end in
    Some (word_start, List.filter (fun c => starts_with (to_uppercase prefix) (to_uppercase c)) COMMANDS)
  else None.

(** ** Help *)

Definition dq : string := String dquote EmptyString.

(** [print_help]. *)
Definition print_help : string := "
Commands:

  Data Operations
    PUT <ns> <key> <value>
    PUT <ns> <key> VALUE <value> META <json>
    GET <ns> <key> [VERSION <n>] [META]
    DELETE <ns> <key>
    LIST <ns> [PREFIX <prefix>] [CURSOR <cursor>] [LIMIT <n>]
    VERSIONS <ns> <key> [LIMIT <n>] [FROM <version>]

  Namespace Operations
    NAMESPACE CREATE <name> [SCHEMA <json>] [MAX_VERSIONS <n>] [TOMBSTONE_RETENTION <secs>]
    NAMESPACE DROP <name> [FORCE]
    NAMESPACE LIST [CURSOR <cursor>] [LIMIT <n>]
    NAMESPACE INFO <name>
    NAMESPACE ALTER <name> [SCHEMA <json>] [MAX_VERSIONS <n>] [TOMBSTONE_RETENTION <secs>]
    NAMESPACE VALIDATE <name>

  Operational
    AUTH <token>
    PING
    HEALTH
    CONFIG GET <key>
    CONFIG SET <key> <value>
    COMMAND LIST

  Other
    help [<command>]   Show help for a specific command
    quit / exit        Disconnect
" +:+ newline.

(** The texts of [print_command_help], by command. *)
Definition command_help : list (string * string) := [
("PUT", "PUT <namespace> <key> <value>
PUT <namespace> <key> VALUE <value> META <json> TTL <ms>

  Store a value at the given key. Auto-increments the version.

  TTL  Optional expiry in milliseconds. The entry is auto-deleted
       at or after (server wall clock + TTL). Entry-level; a later
       PUT/PUTIF without TTL writes a TTL-less entry — TTL is NOT
       inherited across writes.

  Example:
    PUT myapp.users user:1 alice
    PUT myapp.users user:1 VALUE alice META '{" +:+ dq +:+ "role" +:+ dq +:+ ":" +:+ dq +:+ "admin" +:+ dq +:+ "}'
    PUT myapp.sessions sess:abc token TTL 3600000
");
("GET", "GET <namespace> <key> [VERSION <n>] [META]

  Retrieve the value at a key. Returns the latest version by default.

  VERSION  Fetch a specific version.
  META     Include metadata in the response.

  Example:
    GET myapp.users user:1
    GET myapp.users user:1 VERSION 1 META
");
("DELETE", "DELETE <namespace> <key>

  Delete a key by writing a tombstone. The key's version history
  is preserved and accessible via VERSIONS.

  Example:
    DELETE myapp.sessions sess:abc
");
("PUTIF", "PUTIF <namespace> <key> <value> EXPECT <version> [META <json>]

  Compare-and-swap PUT. Writes the entry only if the key's current
  active version matches EXPECT. On mismatch returns:

    -VERSIONCONFLICT current=<actual>

  so the caller can retry without re-reading the key first.

  EXPECT 0 means " +:+ dq +:+ "key must not exist or must be tombstoned" +:+ dq +:+ "
  (insert-or-resurrect). EXPECT N > 0 means " +:+ dq +:+ "current version
  must equal N" +:+ dq +:+ " (strict update; resurrection from a matching
  tombstone version also works).

  Example:
    PUTIF myapp.users user:1 alice EXPECT 0
    PUTIF myapp.users user:1 alice-updated EXPECT 3
");
("DELIF", "DELIF <namespace> <key> EXPECT <version>

  Compare-and-swap DELETE. Writes a tombstone only if the key's
  current active version matches EXPECT. On mismatch returns:

    -VERSIONCONFLICT current=<actual>

  A missing or already-tombstoned key returns -NOTFOUND regardless
  of EXPECT.

  Example:
    DELIF myapp.sessions sess:abc EXPECT 2
");
("DELPREFIX", "DELPREFIX <namespace> <prefix>

  Tombstone all active keys in the namespace whose byte
  representation starts with <prefix>. Returns {deleted: <count>}.

  Empty prefix is rejected — use NAMESPACE DROP for full teardown.
  If the prefix matches more than the configured per-call cap
  (default 100,000), returns:

    -PREFIXTOOLARGE matched=<n> limit=<m>

  and no keys are deleted. The caller refines the prefix and
  retries.

  Example:
    DELPREFIX myapp.sessions user:alice:
");
("LIST", "LIST <namespace> [PREFIX <prefix>] [CURSOR <cursor>] [LIMIT <n>]

  List active keys in a namespace. Tombstoned keys are excluded.

  Example:
    LIST myapp.users PREFIX user: LIMIT 50
");
("VERSIONS", "VERSIONS <namespace> <key> [LIMIT <n>] [FROM <version>]

  Show version history for a key, including tombstones.
  Most recent versions first. Does not include values.

  Example:
    VERSIONS myapp.users user:1 LIMIT 5
");
("NAMESPACE", "NAMESPACE CREATE <name> [SCHEMA <json>] [MAX_VERSIONS <n>] [TOMBSTONE_RETENTION <secs>]
NAMESPACE DROP <name> [FORCE]
NAMESPACE LIST [CURSOR <cursor>] [LIMIT <n>]
NAMESPACE INFO <name>
NAMESPACE ALTER <name> [SCHEMA <json>] [MAX_VERSIONS <n>]
NAMESPACE VALIDATE <name>

  Manage namespaces. CREATE and DROP require admin access.
  VALIDATE checks existing entries against the current schema.

  Example:
    NAMESPACE CREATE myapp.users
    NAMESPACE INFO myapp.users
    NAMESPACE DROP temp FORCE
");
("AUTH", "AUTH <token>

  Authenticate the connection. Required before any data command
  when the server has auth enabled.

  Example:
    AUTH my-secret-token
");
("CONFIG", "CONFIG GET <key>
CONFIG SET <key> <value>

  Get or set runtime configuration. CONFIG SET requires admin access.

  Example:
    CONFIG GET max_connections
");
("HEALTH", "HEALTH

  Check server health status.
");
("PING", "PING

  Test connectivity. Returns PONG.
")
].

(** [print_command_help]. *)
Definition print_command_help (cmd : string) : string :=
  match List.find (fun '(name, _) => String.eqb (to_uppercase cmd) name) command_help with
  | Some (_, text) => text +:+ newline
  | None => "Unknown command: " +:+ cmd +:+ ". Type 'help' for all commands." +:+ newline
  end.

(** ** Output *)
Inductive OutputMode := Human | Json | Raw.

(** What the program does beside talking to the server. *)
Inductive Out :=
| Stdout (text : string)
| Stderr (text : string)
| SaveHistory (path : string).

(** [to_string_pretty] is serde_json's. *)
Definition print_output `{SerdeBuild} (to_string_pretty : Value -> result string string)
    (resp : Response) (mode : OutputMode) : list Out :=
  match mode with
  | Human => [Stdout (print resp 0)]
  | Json =>
      match to_string_pretty (to_json resp) with
      | Ok s => [Stdout (s +:+ newline)]
      | Err e => [Stderr ("(JSON serialization error: " +:+ e +:+ ")" +:+ newline)]
      end
  | Raw => [Stdout (to_raw resp)]
  end.

(** ** The program *)

(** The arguments, after clap's defaults. *)
Record CliArgs := {
  cli_uri : option string;
  cli_host : string;
  cli_port : Z;
  cli_json : bool;
  cli_raw : bool;
  cli_tls : bool;
  cli_command : list string;
}.

Definition output_mode (cli : CliArgs) : OutputMode :=
  if cli_raw cli then Raw else if cli_json cli then Json else Human.

(** [dirs_home().join(".shroudb_history")]; [home] is the HOME variable. *)
Definition dirs_home (home : option string) : string := default "." home.
Definition history_path (home : option string) : string :=
  let dir := dirs_home home in
  (if String.eqb dir "" then "" else match strip_suffix "/" dir with Some _ => dir | None => dir +:+ "/" end)
  +:+ ".shroudb_history".

(** What the line editor returns. *)
Inductive Readline := Line (line : string) | Interrupted | Eof | ReadError (e : string).

(** How the program ends: with success, waiting for a line, with the error of
    an exchange (or its panic), or without a line editor. *)
Inductive Ended := Exited | Waiting | Failed (f : Failure) | NoEditor (e : string).

Section Main.
Context `{SerdeBuild} {K : Type}.
Variable to_string_pretty : Value -> result string string.
(** [Connection::connect] and [Connection::connect_tls]. *)
Variable dial dial_tls : string -> result ClientError K.
(** [conn.send_command], and the connection it leaves, also when it fails. *)
Variable send : list string -> K -> result Failure Response * K.

(** The address and the connection; what the server answers to AUTH is not
    looked at. *)
Definition connect_cli (cli : CliArgs) : result Failure (string * K) :=
  match cli_uri cli with
  | Some uri =>
      config ← map_err Fails (parse_uri uri);
      let addr := address config in
      conn ← map_err Fails (if tls config then dial_tls addr else dial addr);
      match auth_token config with
      | Some token =>
          let '(r, conn) := send ["AUTH"; token] conn in
          _ ← r;
          Ok (addr, conn)
      | None => Ok (addr, conn)
      end
  | None =>
      let addr := cli_host cli +:+ ":" +:+ int_to_string (cli_port cli) in
      conn ← map_err Fails (if cli_tls cli then dial_tls addr else dial addr);
      Ok (addr, conn)
  end.

(** The loop, on the lines the editor returns. *)
Fixpoint repl (mode : OutputMode) (inputs : list Readline) (conn : K) : list Out * Ended * K :=
  match inputs with
  | [] => ([], Waiting, conn)
  | Line line :: inputs =>
      match repl_line line with
      | Skip => repl mode inputs conn
      | CommandHelp cmd =>
          let '(outs, ended, conn) := repl mode inputs conn in
          (Stdout (print_command_help cmd) :: outs, ended, conn)
      | Help =>
          let '(outs, ended, conn) := repl mode inputs conn in
          (Stdout print_help :: outs, ended, conn)
      | Quit => ([], Exited, conn)
      | Send args =>
          let '(r, conn) := send args conn in
          match r with
          | Ok response =>
              let '(outs, ended, conn) := repl mode inputs conn in
              ((print_output to_string_pretty response mode ++ outs)%list, ended, conn)
          | Err (Fails e) =>
              let '(outs, ended, conn) := repl mode inputs conn in
              (Stderr ("error: " +:+ client_error_display e +:+ newline) :: outs, ended, conn)
          | Err f => ([], Failed f, conn)
          end
      end
  | Interrupted :: _ | Eof :: _ => ([], Exited, conn)
  | ReadError e :: _ => ([Stderr ("readline error: " +:+ e +:+ newline)], Exited, conn)
  end.

(** [main]: [version] is the package's, [editor] the line editor when it can be
    made, with the warning of a history that could not be read. *)
Definition cli_main (version : string) (home : option string) (editor : result string (option string))
    (inputs : list Readline) (cli : CliArgs) : list Out * Ended :=
  let mode := output_mode cli in
  match connect_cli cli with
  | Err f => ([], Failed f)
  | Ok (addr, conn) =>
      match cli_command cli with
      | _ :: _ =>
          match fst (send (cli_command cli) conn) with
          | Ok response => (print_output to_string_pretty response mode, Exited)
          | Err f => ([], Failed f)
          end
      | [] =>
          let banner :=
            [Stdout ("shroudb-cli v" +:+ version +:+ " — connected to " +:+ addr +:+ newline);
             Stdout ("Type 'help' for commands, Ctrl-C to exit." +:+ newline);
             Stdout newline] in
          match editor with
          | Err e => (banner, NoEditor e)
          | Ok warning =>
              let warned :=
                match warning with
                | Some e => [Stderr ("warning: could not load history: " +:+ e +:+ newline)]
                | None => []
                end in
              let '(outs, ended, _) := repl mode inputs conn in
              let saved := match ended with Exited => [SaveHistory (history_path home)] | _ => [] end in
              ((banner ++ warned ++ outs ++ saved)%list, ended)
          end
      end
  end.
End Main.
