(* ===== verification/Maintenance.v ===== *)
(** * Offline maintenance: export, import and rekey

    Models [run_export], [run_import] and [run_rekey] of
    [shroudb-server/src/main.rs]: the bundle format with its two sections, the
    scan for the boundary between them, and the replay of a namespace's
    history into an engine.

    The storage engine, the serializers and the cipher are outside the
    repository: they are the classes [StorageEngine] and [ExportCodec].  A data
    directory is a value of [D], an open engine one of [E]; a command that
    gives up drops its engine, which leaves [se_disk] of it behind. *)
From S2P Require Import Prelude RustStr Externals.
Open Scope Z_scope.
Open Scope string_scope.

#[export] Instance byte_countable : Countable byte.
Proof.
  refine (inj_countable Byte.to_N Byte.of_N _). intros b. apply Byte.of_to_N.
Defined.

(** How a command gives up: with an error and its context, outermost first, or
    with a panic. *)
Inductive Abort :=
| Bail (chain : list string)
| Panic.

Definition context {A : Type} (msg : string) (r : result string A) : result Abort A :=
  map_err (fun m => Bail [msg; m]) r.

(** [map_err(|e| anyhow!("<msg>: {e}"))]. *)
Definition anyhow {A : Type} (msg : string) (r : result string A) : result Abort A :=
  map_err (fun m => Bail [msg +:+ ": " +:+ m]) r.

(** [?], and [map_err(|e| anyhow!(e))?]. *)
Definition propagate {A : Type} (r : result string A) : result Abort A :=
  map_err (fun m => Bail [m]) r.

(** ** The storage engine *)
Section Index.
Context `{StoreTypes}.

(** A version of a key.  [vr_value] is [None] when the value is not in memory.
    (The positions in the log and the value log are not read.) *)
Record VersionRecord := {
  vr_state : EntryState;
  vr_value : option bytes;
  vr_metadata : Metadata;
  vr_updated_at : Z;
  vr_actor : string;
  vr_expires_at_ms : option Z;
}.

(** The versions in ascending order, as the ordered map holds them. *)
Record KeyState := {
  ks_versions : list (Z * VersionRecord);
  ks_current_version : Z;
}.

Record NamespaceState := {
  nss_config : NamespaceConfig;
  nss_created_at : Z;
  nss_keys : gmap bytes KeyState;
}.

Inductive OpType := OpNamespaceCreated | OpEntryPut | OpEntryDeleted.

Inductive WalPayload :=
| WalNamespaceCreated (name : string) (config : NamespaceConfig) (created_at : Z)
| WalEntryPut (key value : bytes) (metadata : Metadata) (version : Z) (actor : string)
| WalEntryDeleted (key : bytes) (version : Z) (actor : string).

(** [StorageEngine]; the maps are iterated in an order of their own. *)
Class StorageEngine (D E : Type) := {
  se_empty : D;
  (** [StorageEngine::open(config, key_source)], and the directory it leaves. *)
  se_open : bytes -> D -> result string E * D;
  se_index : E -> gmap string NamespaceState;
  iter_namespaces : E -> list (string * NamespaceState);
  iter_keys : NamespaceState -> list (bytes * KeyState);
  (** [apply(actor or namespace, op, payload)]. *)
  se_apply : string -> OpType -> WalPayload -> E -> result string unit * E;
  se_snapshot : E -> result string unit * E;
  se_shutdown : E -> result string unit * D;
  (** What the directory holds when the engine is dropped. *)
  se_disk : E -> D;
  (** [key_manager().keyspace_key(context)]. *)
  se_keyspace_key : E -> string -> result string bytes;
}.

(** [NamespaceConfig::default()]. *)
Definition default_config : NamespaceConfig :=
  {| meta_schema := None; max_versions := None; tombstone_retention_secs := None |}.

(** ** The bundle *)
Record ExportHeader := {
  eh_namespace : string;
  eh_version : Z;
  eh_created_at : Z;
  eh_key_count : Z;
}.

Record ExportVersion := {
  xv_state : Z;      (* 0 = Active, 1 = Deleted *)
  xv_value : bytes;
  xv_metadata : Metadata;
  xv_updated_at : Z;
  xv_actor : string;
}.

Record ExportEntry := {
  xe_key : bytes;
  xe_versions : list ExportVersion;
}.

(** serde_json, postcard and AES-GCM; [nonce] is what the cipher draws. *)
Class ExportCodec := {
  header_to_vec : ExportHeader -> result string bytes;
  header_from_slice : bytes -> result string ExportHeader;
  config_to_vec : NamespaceConfig -> result string bytes;
  config_from_slice : bytes -> result string NamespaceConfig;
  entries_to_allocvec : list ExportEntry -> result string bytes;
  entries_from_bytes : bytes -> result string (list ExportEntry);
  aes_gcm_encrypt : Z -> bytes -> bytes -> bytes -> result string bytes;
  aes_gcm_decrypt : bytes -> bytes -> bytes -> result string bytes;
}.
End Index.

(** [b"SDB\x01"]. *)
Definition EXPORT_MAGIC : bytes := [Byte.x53; Byte.x44; Byte.x42; Byte.x01].

(** [u32::to_le_bytes] and [u32::from_le_bytes]; [len as u32] wraps. *)
Definition byte_of (n : Z) : byte := default Byte.x00 (Byte.of_N (Z.to_N (n mod 256))).
Definition to_le_bytes (n : Z) : bytes :=
  map (fun i => byte_of (Z.shiftr n (8 * i))) [0; 1; 2; 3].
Definition from_le_bytes (b : bytes) : Z :=
  fold_right (fun x acc => byte_val x + 256 * acc) 0 b.
Definition len_u32 (b : bytes) : Z := Z.of_nat (length b) mod 2 ^ 32.

(** [&b[from..to]]. *)
Definition slice (b : bytes) (from to : nat) : bytes := take (to - from) (drop from b).

Section Maintenance.
Context `{StoreTypes} {D E : Type} `{!StorageEngine D E} `{!ExportCodec}.

(** ** Export *)

(** [record.value.as_bytes().expect(..)] panics on a value that is not in
    memory. *)
Definition export_version (r : VersionRecord) : result Abort ExportVersion :=
  match vr_value r with
  | None => Err Panic
  | Some v =>
      Ok {| xv_state := match vr_state r with Active => 0 | Deleted => 1 end;
            xv_value := v; xv_metadata := vr_metadata r; xv_updated_at := vr_updated_at r;
            xv_actor := vr_actor r |}
  end.

Definition export_entry (entry : bytes * KeyState) : result Abort ExportEntry :=
  versions ← collect export_version (map snd (ks_versions entry.2));
  Ok {| xe_key := entry.1; xe_versions := versions |}.

Definition bundle_of (header_json encrypted config_json : bytes) : bytes :=
  (EXPORT_MAGIC ++ to_le_bytes (len_u32 header_json) ++ header_json ++ encrypted
     ++ to_le_bytes (len_u32 config_json) ++ config_json)%list.

Definition export_bundle (e : E) (namespace : string) (nonce : Z) : result Abort bytes :=
  ns ← ok_or (se_index e !! namespace) (Bail ["namespace not found: " +:+ namespace]);
  entries ← collect export_entry (iter_keys ns);
  payload ← context "failed to serialize export payload" (entries_to_allocvec entries);
  key ← anyhow "failed to derive export key" (se_keyspace_key e "__export__");
  header_json ← propagate (header_to_vec
    {| eh_namespace := namespace; eh_version := 1; eh_created_at := nss_created_at ns;
       eh_key_count := Z.of_nat (length entries) |});
  encrypted ← context "failed to encrypt export payload"
    (aes_gcm_encrypt nonce key payload header_json);
  config_json ← propagate (config_to_vec (nss_config ns));
  Ok (bundle_of header_json encrypted config_json).

(** The outcome, the file written (when it can be), and the data directory. *)
Definition run_export (master_key : bytes) (namespace : string) (nonce : Z) (d : D)
    : result Abort unit * option bytes * D :=
  let '(opened, d) := se_open master_key d in
  match context "failed to open storage engine" opened with
  | Err a => (Err a, None, d)
  | Ok e =>
      match export_bundle e namespace nonce with
      | Err a => (Err a, None, se_disk e)
      | Ok bundle =>
          let '(r, d) := se_shutdown e in (propagate r, Some bundle, d)
      end
  end.

(** ** Running steps against an engine *)

Definition step (A : Type) : Type := E -> result Abort A * E.

(** [m?; k]. *)
Definition and_then {A B : Type} (m : step A) (k : A -> step B) : step B := fun e =>
  match m e with (Ok a, e) => k a e | (Err x, e) => (Err x, e) end.

Definition apply (ns : string) (op : OpType) (payload : WalPayload) (what : string) : step unit :=
  fun e => let '(r, e) := se_apply ns op payload e in (anyhow what r, e).

(** [for x in l { f(x)?; }]. *)
Fixpoint for_each {A : Type} (f : A -> step unit) (l : list A) : step unit :=
  match l with
  | [] => fun e => (Ok tt, e)
  | x :: l => and_then (f x) (fun _ => for_each f l)
  end.

(** One past the key's current version, in the engine being written. *)
Definition next_version (e : E) (ns : string) (key : bytes) : Z :=
  match se_index e !! ns with
  | Some n => match nss_keys n !! key with Some ks => ks_current_version ks + 1 | None => 1 end
  | None => 1
  end.

Definition create_namespace (name : string) (config : NamespaceConfig) (created_at : Z)
    (what : string) : step unit :=
  apply "__system__" OpNamespaceCreated (WalNamespaceCreated name config created_at) what.

Definition put_entry (ns : string) (key value : bytes) (md : Metadata) (actor : string) : step unit :=
  fun e => apply ns OpEntryPut (WalEntryPut key value md (next_version e ns key) actor)
             "failed to write key" e.

Definition delete_entry (ns : string) (key : bytes) (actor : string) : step unit :=
  fun e => apply ns OpEntryDeleted (WalEntryDeleted key (next_version e ns key) actor)
             "failed to write tombstone" e.

(** ** Import *)

(** The scan for the configuration section, over the offsets below
    [start + n], the last one first. *)
Fixpoint scan_config (bundle : bytes) (start n : nat) : option (NamespaceConfig * nat) :=
  match n with
  | O => None
  | S n =>
      let try_offset := (start + n)%nat in
      let candidate := from_le_bytes (slice bundle try_offset (try_offset + 4)) in
      if (Z.of_nat try_offset + 4 + candidate =? Z.of_nat (length bundle))%Z
         && (candidate <? 1000000)%Z
      then match config_from_slice (drop (try_offset + 4) bundle) with
           | Ok config => Some (config, try_offset)
           | Err _ => scan_config bundle start n
           end
      else scan_config bundle start n
  end.

Definition find_config (bundle : bytes) (encrypted_start : nat) : NamespaceConfig * nat :=
  default (default_config, length bundle)
    (scan_config bundle encrypted_start (length bundle - 4 - encrypted_start)).

Definition import_version (ns : string) (key : bytes) (v : ExportVersion) : step unit :=
  if (xv_state v =? 0)%Z then put_entry ns key (xv_value v) (xv_metadata v) (xv_actor v)
  else if (xv_state v =? 1)%Z then delete_entry ns key (xv_actor v)
  else fun e => (Ok tt, e).     (* logged and skipped *)

Definition import_entry (ns : string) (entry : ExportEntry) : step unit :=
  for_each (import_version ns (xe_key entry)) (xe_versions entry).

(** The entries and the configuration in the bundle. *)
Definition open_bundle (e : E) (bundle header_json : bytes) (encrypted_start : nat)
    : result Abort (NamespaceConfig * list ExportEntry) :=
  key ← anyhow "failed to derive export key" (se_keyspace_key e "__export__");
  if (length bundle <? encrypted_start + 4)%nat then Err (Bail ["invalid export file: truncated"])
  else
    let '(config, config_end) := find_config bundle encrypted_start in
    let encrypted := slice bundle encrypted_start config_end in
    payload ← context "failed to decrypt export — wrong master key or corrupted file"
      (aes_gcm_decrypt key encrypted header_json);
    entries ← context "failed to deserialize export payload" (entries_from_bytes payload);
    Ok (config, entries).

Definition import_into (bundle header_json : bytes) (encrypted_start : nat) (ns_name : string)
    (created_at : Z) : step Z := fun e =>
  match open_bundle e bundle header_json encrypted_start with
  | Err a => (Err a, e)
  | Ok (config, entries) =>
      and_then (create_namespace ns_name config created_at "failed to create namespace") (fun _ =>
      and_then (for_each (import_entry ns_name) entries) (fun _ =>
      and_then (fun e => let '(r, e) := se_snapshot e in (propagate r, e)) (fun _ =>
      fun e => (Ok (Z.of_nat (length entries)), e)))) e
  end.

(** The header of a bundle, with its bytes. *)
Definition parse_header (bundle : bytes) : result Abort (ExportHeader * bytes) :=
  if (length bundle <? 8)%nat || negb (bool_decide (take 4 bundle = EXPORT_MAGIC))
  then Err (Bail ["invalid export file: bad magic bytes"])
  else
    let header_len := from_le_bytes (slice bundle 4 8) in
    if (Z.of_nat (length bundle) <? 8 + header_len)%Z
    then Err (Bail ["invalid export file: truncated header"])
    else
      let header_json := slice bundle 8 (8 + Z.to_nat header_len) in
      header ← context "invalid export file: bad header JSON" (header_from_slice header_json);
      Ok (header, header_json).

(** The number of keys imported, or why not, and the data directory. *)
Definition run_import (master_key : bytes) (bundle : bytes) (rename : option string) (d : D)
    : result Abort Z * D :=
  match parse_header bundle with
  | Err a => (Err a, d)
  | Ok (header, header_json) =>
      let ns_name := default (eh_namespace header) rename in
      let '(opened, d) := se_open master_key d in
      match context "failed to open storage engine" opened with
      | Err a => (Err a, d)
      | Ok e =>
          match se_index e !! ns_name with
          | Some _ =>
              let '(r, d) := se_shutdown e in
              match r with
              | Err m => (Err (Bail [m]), d)
              | Ok _ => (Err (Bail ["namespace already exists: " +:+ ns_name]), d)
              end
          | None =>
              match import_into bundle header_json (8 + length header_json) ns_name
                      (eh_created_at header) e with
              | (Err a, e) => (Err a, se_disk e)
              | (Ok n, e) =>
                  let '(r, d) := se_shutdown e in
                  match r with Err m => (Err (Bail [m]), d) | Ok _ => (Ok n, d) end
              end
          end
      end
  end.

(** ** Rekey *)

Definition NamespaceSnapshot : Type :=
  string * NamespaceConfig * Z * list (bytes * list VersionRecord).

(** Everything in the index. *)
Definition snapshot_data (e : E) : list NamespaceSnapshot :=
  map (fun '(name, n) =>
         (name, nss_config n, nss_created_at n,
          map (fun '(key, ks) => (key, map snd (ks_versions ks))) (iter_keys n)))
    (iter_namespaces e).

Definition replay_record (ns : string) (key : bytes) (r : VersionRecord) : step unit :=
  match vr_state r with
  | Active =>
      match vr_value r with
      | None => fun e => (Err Panic, e)
      | Some v => put_entry ns key v (vr_metadata r) (vr_actor r)
      end
  | Deleted => delete_entry ns key (vr_actor r)
  end.

Definition replay_key (ns : string) (kv : bytes * list VersionRecord) : step unit :=
  for_each (replay_record ns kv.1) kv.2.

Definition replay_namespace (snap : NamespaceSnapshot) : step unit :=
  let '(name, config, created_at, keys) := snap in
  and_then (create_namespace name config created_at ("failed to create namespace " +:+ name))
    (fun _ => for_each (replay_key name) keys).

Definition replay_all (snaps : list NamespaceSnapshot) : step unit :=
  and_then (for_each replay_namespace snaps)
    (fun _ e => let '(r, e) := se_snapshot e in (anyhow "failed to snapshot new state" r, e)).

(** [hex::decode] is a parameter; so is whether the server's port is free. *)
Context (hex_decode : string -> result string bytes).

Definition key_bytes (which hex : string) : result Abort bytes :=
  context ("invalid " +:+ which +:+ " key hex") (hex_decode hex).

Definition key_length (which : string) (b : bytes) : result Abort unit :=
  if decide (length b = 32%nat) then Ok tt
  else Err (Bail [which +:+ " key must be 32 bytes (64 hex chars), got "
                  +:+ int_to_string (Z.of_nat (length b))]).

Definition rekey_keys (old_hex new_hex : string) : result Abort (bytes * bytes) :=
  old ← key_bytes "old" old_hex;
  new ← key_bytes "new" new_hex;
  _ ← key_length "old" old;
  _ ← key_length "new" new;
  Ok (old, new).

(** Opens a fresh engine over the wiped directory (the removal succeeds) and
    replays into it. *)
Definition rebuild (new : bytes) (snaps : list NamespaceSnapshot) : result Abort unit * D :=
  let '(opened, d) := se_open new se_empty in
  match context "failed to open fresh storage with new key" opened with
  | Err a => (Err a, d)
  | Ok e =>
      match replay_all snaps e with
      | (Err a, e) => (Err a, se_disk e)
      | (Ok _, e) => let '(r, d) := se_shutdown e in (propagate r, d)
      end
  end.

Definition run_rekey (port_free : bool) (bind : string) (old_hex new_hex : string) (d : D)
    : result Abort unit * D :=
  if negb port_free
  then (Err (Bail ["port " +:+ bind +:+ " is in use — stop the running server before rekey"]), d)
  else
    match rekey_keys old_hex new_hex with
    | Err a => (Err a, d)
    | Ok (old, new) =>
        let '(opened, d) := se_open old d in
        match context "failed to open storage with old key — is the old key correct?" opened with
        | Err a => (Err a, d)
        | Ok e =>
            let snaps := snapshot_data e in
            let '(r, d) := se_shutdown e in
            match r with
            | Err m => (Err (Bail [m]), d)
            | Ok _ => rebuild new snaps
            end
        end
    end.

End Maintenance.
