(* ===== verification/Startup.v ===== *)
(** * Starting and stopping the server

    Models [main], [run_server] and [run_doctor] of
    [shroudb-server/src/main.rs], and the sockets [run] of [server.rs] opens
    before it accepts connections.  What happens outside the program is the
    input ([Host]: the environment, the file system, what the libraries
    answer); what the program does to the outside, in order, is its trace. *)
From S2P Require Import Prelude RustStr Externals RateLimiter ServerConfig Maintenance Scheduler.
Open Scope Z_scope.
Open Scope string_scope.

(** ** The command line *)
Inductive SubCommand :=
| Doctor
| SubRekey (old_key new_key : string)
| Export (namespace output : string)
| Import (input : string) (namespace : option string).

(** The arguments once [clap] has taken each from its flag, else its
    environment variable, else its default. *)
Record ServerCli := {
  cli_config : string;
  cli_bind : option string;
  cli_data_dir : option string;
  cli_log_level : option string;
  cli_command : option SubCommand;
}.

Definition default_config_path : string := "config.toml".

(** The key sources of [shroudb-storage] the server names. *)
Inductive KeySource := EnvMasterKey | FileMasterKey | EphemeralKey.

Record TelemetryConfig := {
  tel_service_name : string;
  tel_console : bool;
  tel_audit_file : bool;
  tel_data_dir : option string;
  tel_otel_endpoint : option string;
}.

(** What [main] does before it knows which job it has. *)
Inductive Effect :=
| CreateDirAll (path : string)
| SetVar (name value : string)
| InitTelemetry (config : TelemetryConfig)
| DisableCoreDumps.

Section Startup.
Context {Tls : Type}.

(** The outside. *)
Record Host := {
  env_var : string -> option string;             (* [std::env::var(..).ok()] *)
  config_exists : bool;                          (* [cli.config.exists()] *)
  loaded_config : result string (ShrouDBConfig Tls);  (* [config::load_config], if it returns *)
  parse_addr : string -> result string string;   (* [SocketAddr::from_str], printed *)
  create_dir_all : string -> result string unit;
  init_telemetry : TelemetryConfig -> result string unit;
}.

(** The configuration before the overrides. *)
Definition base_config (h : Host) (cli : ServerCli) : result Abort (ShrouDBConfig Tls) :=
  if config_exists h
  then context ("loading config from " +:+ cli_config cli) (loaded_config h)
  else if String.eqb (cli_config cli) default_config_path then Ok default_shroudb
  else Err (Bail ["config file not found: " +:+ cli_config cli]).

Definition set_bind (bind : string) (cfg : ShrouDBConfig Tls) : ShrouDBConfig Tls :=
  let s := cfg_server cfg in
  {| cfg_server := {| sc_bind := bind; sc_tls := sc_tls s; sc_unix_socket := sc_unix_socket s;
                      sc_rate_limit_per_second := sc_rate_limit_per_second s;
                      sc_metrics_bind := sc_metrics_bind s; sc_otel_endpoint := sc_otel_endpoint s |};
     cfg_storage := cfg_storage cfg; cfg_auth := cfg_auth cfg; cfg_webhooks := cfg_webhooks cfg |}.

Definition set_data_dir (dir : string) (cfg : ShrouDBConfig Tls) : ShrouDBConfig Tls :=
  let s := cfg_storage cfg in
  {| cfg_server := cfg_server cfg;
     cfg_storage := {| st_mode := st_mode s; st_uri := st_uri s; st_data_dir := dir;
                       st_namespace := st_namespace s; st_fsync_mode := st_fsync_mode s;
                       st_fsync_interval_ms := st_fsync_interval_ms s;
                       st_max_segment_bytes := st_max_segment_bytes s;
                       st_max_segment_entries := st_max_segment_entries s;
                       st_snapshot_interval_entries := st_snapshot_interval_entries s;
                       st_snapshot_interval_minutes := st_snapshot_interval_minutes s;
                       st_cache := st_cache s |};
     cfg_auth := cfg_auth cfg; cfg_webhooks := cfg_webhooks cfg |}.

(** The configuration with the command line's overrides. *)
Definition effective_config (h : Host) (cli : ServerCli) : result Abort (ShrouDBConfig Tls) :=
  cfg ← base_config h cli;
  cfg ← match cli_bind cli with
        | None => Ok cfg
        | Some bind =>
            addr ← context ("invalid bind address: " +:+ bind) (parse_addr h bind);
            Ok (set_bind addr cfg)
        end;
  Ok (match cli_data_dir cli with None => cfg | Some dir => set_data_dir dir cfg end).

(** Whether a key that is lost with the process will do. *)
Definition require_persistent (h : Host) : bool :=
  match env_var h "SHROUDB_REQUIRE_PERSISTENT_KEY" with
  | Some v => String.eqb v "true" || String.eqb v "1"
  | None => false
  end.

Definition key_sources (h : Host) : list KeySource :=
  ([EnvMasterKey; FileMasterKey] ++ (if require_persistent h then [] else [EphemeralKey]))%list.

Definition telemetry_for (cfg : ShrouDBConfig Tls) : TelemetryConfig :=
  {| tel_service_name := "shroudb"; tel_console := true; tel_audit_file := true;
     tel_data_dir := Some (st_data_dir (cfg_storage cfg));
     tel_otel_endpoint := sc_otel_endpoint (cfg_server cfg) |}.

(** What is to be done, with the configuration and the key sources. *)
Inductive Job :=
| RunDoctor
| RunRekey (old_key new_key : string)
| RunExport (namespace output : string)
| RunImport (input : string) (namespace : option string)
| ServeEmbedded
| ServeRemote (uri : string).

Definition job_for (cfg : ShrouDBConfig Tls) (cli : ServerCli) : result Abort Job :=
  match cli_command cli with
  | Some Doctor => Ok RunDoctor
  | Some (SubRekey old new) => Ok (RunRekey old new)
  | Some (Export ns out) => Ok (RunExport ns out)
  | Some (Import input ns) => Ok (RunImport input ns)
  | None =>
      let mode := st_mode (cfg_storage cfg) in
      if String.eqb mode "embedded" then Ok ServeEmbedded
      else if String.eqb mode "remote" then
        match st_uri (cfg_storage cfg) with
        | Some uri => Ok (ServeRemote uri)
        | None => Err (Bail ["remote mode requires storage.uri"])
        end
      else Err (Bail ["unknown store mode: " +:+ mode])
  end.

Record Prepared := {
  pr_config : ShrouDBConfig Tls;
  pr_keys : list KeySource;
  pr_job : Job;
}.

(** [main] up to the call of the job, with what it has done so far. *)
Definition prepare (h : Host) (cli : ServerCli) : result Abort Prepared * list Effect :=
  match effective_config h cli with
  | Err a => (Err a, [])
  | Ok cfg =>
      let dir := st_data_dir (cfg_storage cfg) in
      match context ("creating data directory: " +:+ dir) (create_dir_all h dir) with
      | Err a => (Err a, [CreateDirAll dir])
      | Ok _ =>
          let level := default "info" (cli_log_level cli) in
          let done := [CreateDirAll dir; SetVar "SHROUDB_LOG_LEVEL" level;
                       InitTelemetry (telemetry_for cfg)] in
          match context "failed to initialize telemetry" (init_telemetry h (telemetry_for cfg)) with
          | Err a => (Err a, done)
          | Ok _ =>
              let done := (done ++ [DisableCoreDumps])%list in
              match job_for cfg cli with
              | Err a => (Err a, done)
              | Ok job => (Ok {| pr_config := cfg; pr_keys := key_sources h; pr_job := job |}, done)
              end
          end
      end
  end.
End Startup.
Arguments Host : clear implicits.
Arguments Prepared : clear implicits.

(** ** The sockets

    [run] of [server.rs] before its accept loop. *)
Inductive ListenStep :=
| BindTcp (addr : string)
| BuildTlsAcceptor
| RemoveFile (path : string)
| BindUnix (path : string).

(** What the operating system and the TLS crate answer. *)
Record Net (Tls : Type) := {
  bind_tcp : string -> result string unit;
  build_tls_acceptor : Tls -> result string unit;
  bind_unix : string -> result string unit;
}.
Arguments bind_tcp {Tls} _ _.
Arguments build_tls_acceptor {Tls} _ _.
Arguments bind_unix {Tls} _ _.

Definition listen {Tls} (net : Net Tls) (config : ServerConfig Tls)
    : result Abort unit * list ListenStep :=
  let tcp := [BindTcp (sc_bind config)] in
  match context ("binding TCP on " +:+ sc_bind config) (bind_tcp net (sc_bind config)) with
  | Err a => (Err a, tcp)
  | Ok _ =>
      let '(tls, done) :=
        match sc_tls config with
        | None => (Ok tt, tcp)
        | Some t => (context "failed to build TLS acceptor" (build_tls_acceptor net t),
                     (tcp ++ [BuildTlsAcceptor])%list)
        end in
      match tls with
      | Err a => (Err a, done)
      | Ok _ =>
          match sc_unix_socket config with
          | None => (Ok tt, done)
          | Some path =>
              (context ("binding UDS on " +:+ path) (bind_unix net path),
               (done ++ [RemoveFile path; BindUnix path])%list)
          end
      end
  end.

(** ** A run of the server *)

(** The tasks whose handles [run_server] keeps. *)
Inductive Handle :=
| HScheduler (task : SchedTask)
| HWebhook (url : string)
| HReloader.

Inductive Phase :=
| InstallMetrics (addr : string)
| Banner (lines : list string)
| Spawn (h : Handle)
| SpawnSignalHandler          (* its handle is dropped: it is never aborted *)
| Listen (step : ListenStep)
| AcceptUntilShutdown
| AbortTask (h : Handle)
| EngineShutdown.

Section Run.
Context `{!Acl} {V : Type} `{!StaticTokens V} {Tls : Type}.
Context `{StoreTypes} {D E : Type} `{!StorageEngine D E} `{!PeriodicEngine E}.
(** [tls.client_ca.is_some()], and the version of the crate. *)
Context (tls_client_ca : Tls -> bool) (version : string).

Definition auth_status (cfg : ShrouDBConfig Tls) : string :=
  if cfg_auth_required cfg
  then "token (" +:+ int_to_string (sv_len (V:=V) (build_token_validator cfg)) +:+ " tokens)"
  else "disabled".

Definition tls_status (cfg : ShrouDBConfig Tls) : string :=
  match sc_tls (cfg_server cfg) with
  | Some tls => if tls_client_ca tls then "on (mTLS)" else "on"
  | None => "off"
  end.

Definition key_status (env : string -> option string) (embedded : bool) : string :=
  match env "SHROUDB_MASTER_KEY", env "SHROUDB_MASTER_KEY_FILE" with
  | None, None => if embedded then "ephemeral (dev mode)" else "n/a (remote)"
  | _, _ => "configured"
  end.

Definition banner (cfg : ShrouDBConfig Tls) (env : string -> option string) (embedded : bool)
    : list string :=
  (["";
    "ShrouDB v" +:+ version;
    "├─ mode:     " +:+ st_mode (cfg_storage cfg);
    "├─ bind:     " +:+ sc_bind (cfg_server cfg)]
   ++ (if embedded then ["├─ data:     " +:+ st_data_dir (cfg_storage cfg)]
       else match st_uri (cfg_storage cfg) with
            | Some uri => ["├─ remote:   " +:+ uri]
            | None => []
            end)
   ++ ["├─ auth:     " +:+ auth_status cfg;
       "├─ tls:      " +:+ tls_status cfg;
       "└─ key:      " +:+ key_status env embedded]
   ++ match sc_metrics_bind (cfg_server cfg) with
      | Some addr => ["   metrics:  " +:+ addr]
      | None => []
      end
   ++ [""; "Ready."])%list.

(** The tasks that are started: the scheduler's and one per webhook when there
    is a local engine, and the reloader when there is a file to watch. *)
Definition handles_of (cfg : ShrouDBConfig Tls) (engine : option E) (config_exists : bool)
    : list Handle :=
  (match engine with
   | Some e => map (fun t => HScheduler t.1) (spawn_all e)
               ++ map (fun w => HWebhook (wh_url w)) (cfg_webhooks cfg)
   | None => []
   end ++ (if config_exists then [HReloader] else []))%list.

(** [run_server], with what the metrics exporter, the sockets and the engine's
    shutdown answer; the accept loop ends with the shutdown signal. *)
Definition run_server (cfg : ShrouDBConfig Tls) (env : string -> option string) (config_exists : bool)
    (install_metrics : string -> result string unit) (net : Net Tls) (engine : option E)
    : result Abort unit * list Phase * option D :=
  let '(metrics, installed) :=
    match sc_metrics_bind (cfg_server cfg) with
    | None => (Ok tt, [])
    | Some addr => (context "failed to install Prometheus metrics exporter" (install_metrics addr),
                    [InstallMetrics addr])
    end in
  let embedded := match engine with Some _ => true | None => false end in
  match metrics with
  | Err a => (Err a, installed, option_map se_disk engine)
  | Ok _ =>
      let handles := handles_of cfg engine config_exists in
      let '(listening, steps) := listen net (cfg_server cfg) in
      let started :=
        (installed ++ [Banner (banner cfg env embedded)] ++ map Spawn handles
           ++ [SpawnSignalHandler] ++ map Listen steps)%list in
      match listening with
      | Err a => (Err a, started, option_map se_disk engine)
      | Ok _ =>
          let served := (started ++ [AcceptUntilShutdown] ++ map AbortTask handles)%list in
          match engine with
          | None => (Ok tt, served, None)
          | Some e =>
              let '(r, d) := se_shutdown e in
              (propagate r, (served ++ [EngineShutdown])%list, Some d)
          end
      end
  end.

(** ** The doctor *)

(** [RecoveryMode] of the storage engine. *)
Inductive RecoveryMode := Strict | Recover.

Context (fsync_default : FsyncMode).
(** [exists()] on the data directory; [key_source.load()], the name of the
    source, and [StorageEngine::open]; [active_key_count()]. *)
Context (dir_exists : string -> bool).
Context (load_key : list KeySource -> result string bytes) (source_name : list KeySource -> string).
Context (engine_open : EngineConfig -> RecoveryMode -> list KeySource -> D -> result string E * D).
Context (active_key_count : NamespaceState -> Z).

Definition total_active_keys (e : E) : Z :=
  foldl Z.add 0 (map (fun ns => active_key_count ns.2) (iter_namespaces e)) mod two64.

Definition data_dir_line (cfg : ShrouDBConfig Tls) : string :=
  let dir := st_data_dir (cfg_storage cfg) in
  if dir_exists dir then "  data dir:   " +:+ dir +:+ " (exists)"
  else "  data dir:   " +:+ dir +:+ " (will be created on first run)".

(** The outcome, what is printed, and the data directory. *)
Definition run_doctor (cfg : ShrouDBConfig Tls) (keys : list KeySource) (d : D)
    : result Abort unit * list string * D :=
  let lines := ["ShrouDB doctor"; ""; "  config:     ok"; data_dir_line cfg] in
  match load_key keys with
  | Err e =>
      (Err (Bail ["master key check failed"]), (lines ++ ["  master key: FAILED — " +:+ e])%list, d)
  | Ok _ =>
      let lines := (lines ++ ["  master key: ok (" +:+ source_name keys +:+ ")"])%list in
      let '(opened, d) := engine_open (to_engine_config fsync_default cfg) Strict keys d in
      match opened with
      | Err e =>
          (Err (Bail ["storage check failed"]), (lines ++ ["  storage:    FAILED — " +:+ e])%list, d)
      | Ok e =>
          let lines := (lines ++ ["  storage:    ok ("
            +:+ int_to_string (Z.of_nat (length (iter_namespaces e))) +:+ " namespaces, "
            +:+ int_to_string (total_active_keys e) +:+ " active keys)"])%list in
          let '(r, d) := se_shutdown e in
          match r with
          | Err m => (Err (Bail [m]), lines, d)
          | Ok _ =>
              let auth :=
                if cfg_auth_required cfg
                then "  auth:       enabled ("
                     +:+ int_to_string (sv_len (V:=V) (build_token_validator cfg)) +:+ " tokens)"
                else "  auth:       disabled" in
              (Ok tt, (lines ++ [auth; ""; "All checks passed."])%list, d)
          end
      end
  end.
End Run.
