(* ===== verification/Toy.v ===== *)
(** * Concrete instances of the external interfaces

    Small executable stand-ins for the crates behind [Externals], used to
    evaluate the model on concrete inputs: JSON values are their text, an
    authorization context is an actor with its grants and an expiry time, and
    the store keeps every namespace and every version of a key in memory. *)
From S2P Require Import Prelude RustStr Externals Dispatch ClientResponse ClientConnection ClientApi RemoteStore.
Open Scope Z_scope.
Open Scope string_scope.

(** Objects and numbers are the only JSON there is here. *)
#[export] Instance toy_serde : Serde := {
  Value := string;
  json_from_str s :=
    match s with
    | String c _ => if existsb (Ascii.eqb c) (list_ascii_of_string "{0123456789") then Ok s
                    else Err "expected value at line 1 column 1"
    | EmptyString => Err "EOF while parsing a value at line 1 column 0"
    end;
  json_to_string v := v;
}.

#[export] Instance toy_serde_build : SerdeBuild := {
  json_string s := s;
  json_int n := int_to_string n;
  json_null := "null";
  json_array l := "[" +:+ String.concat "," l +:+ "]";
  json_object l := "{" +:+ String.concat "," (map (fun '(k, v) => k +:+ ":" +:+ v) l) +:+ "}";
  json_serialize v := Ok v;
}.

#[export] Instance toy_store_types : StoreTypes := {
  Metadata := string;
  metadata_from_json v := if starts_with "{" v then Ok v else Err "invalid type: integer";
  metadata_to_json m := m;
  MetaSchema := string;
  meta_schema_from_json v := if starts_with "{" v then Ok v else Err "invalid type: integer";
  ValidationError := string;
  validation_error_display e := e;
  validation_errors_debug es := String.concat ", " es;
}.

#[export] Instance toy_metadata_codec : MetadataCodec := {
  metadata_from_value v := if starts_with "{" v then Ok v else Err "invalid type: string";
  metadata_default := "{}";
  meta_schema_to_string m := m;
}.

#[export] Instance toy_store_error_text : StoreErrorText := fun e =>
  match e with
  | SeNotFound => "not found"
  | SeNamespaceNotFound ns => "namespace not found: " +:+ ns
  | SeNamespaceExists ns => "namespace already exists: " +:+ ns
  | SeNamespaceNotEmpty ns => "namespace not empty: " +:+ ns
  | SeVersionConflict c => "version conflict: " +:+ int_to_string c
  | SePrefixTooLarge m l => "prefix too large: " +:+ int_to_string m +:+ "/" +:+ int_to_string l
  | SeValidationFailed es => "validation failed"
  | SeInvalidCursor m => "invalid cursor: " +:+ m
  | SeStorage m => "storage error: " +:+ m
  | SeConnection m => "connection error: " +:+ m
  | SeOther t => t
  end.

(** An actor, the namespaces it may read, the ones it may write, whether it is
    an administrator, and when its token expires. *)
Record ToyAuth := {
  toy_actor : string;
  toy_reads : list string;
  toy_writes : list string;
  toy_admin : bool;
  toy_expires : option Z;
}.

#[export] Instance toy_acl : Acl := {
  AuthContext := ToyAuth;
  auth_platform _ actor :=
    {| toy_actor := actor; toy_reads := []; toy_writes := []; toy_admin := true;
       toy_expires := None |};
  auth_actor := toy_actor;
  auth_check a r :=
    let allowed := match r with
      | AclNone => true
      | AclAdmin => toy_admin a
      | AclNamespace ns ScopeRead _ => toy_admin a || existsb (String.eqb ns) (toy_reads a)
      | AclNamespace ns ScopeWrite _ => toy_admin a || existsb (String.eqb ns) (toy_writes a)
      end in
    if allowed then Ok tt else Err "access denied";
  auth_is_expired a now :=
    match toy_expires a with Some t => (t <=? now)%Z | None => false end;
}.

(** The versions of a key, the newest first; [None] is a tombstone. *)
Abbreviation toy_key := (list (option (bytes * string))).
Abbreviation toy_store := (gmap string (gmap string toy_key)).

Definition toy_in {A : Type} (ns : string) (s : toy_store)
    (f : gmap string toy_key -> result StoreError A * gmap string toy_key)
    : result StoreError A * toy_store :=
  match s !! ns with
  | None => (Err (SeNamespaceNotFound ns), s)
  | Some m => let '(r, m') := f m in (r, <[ns := m']> s)
  end.

Definition toy_versions (m : gmap string toy_key) (k : string) : toy_key :=
  default [] (m !! k).

Definition toy_current (m : gmap string toy_key) (k : string) : Z :=
  Z.of_nat (length (toy_versions m k)).

Definition toy_write (k : string) (v : option (bytes * string)) (m : gmap string toy_key)
    : result StoreError Z * gmap string toy_key :=
  (Ok (toy_current m k + 1), <[k := v :: toy_versions m k]> m).

Definition toy_delete (k : string) (m : gmap string toy_key)
    : result StoreError Z * gmap string toy_key :=
  match toy_versions m k with
  | Some _ :: _ => toy_write k None m
  | _ => (Err SeNotFound, m)
  end.

Definition toy_if (k : string) (expected : Z) (m : gmap string toy_key)
    (act : gmap string toy_key -> result StoreError Z * gmap string toy_key) :=
  if (toy_current m k =? expected)%Z then act m else (Err (SeVersionConflict (toy_current m k)), m).

Definition toy_live (m : gmap string toy_key) (k : string) : bool :=
  match toy_versions m k with Some _ :: _ => true | _ => false end.

Definition toy_matching (p : bytes) (m : gmap string toy_key) : list string :=
  List.filter (fun k => starts_with (of_bytes p) k && toy_live m k)
    (map fst (map_to_list m)).

Definition toy_config : NamespaceConfig :=
  {| meta_schema := None; max_versions := None; tombstone_retention_secs := None |}.

#[export] Instance toy_store_ops : Store toy_store := {
  st_put_with_options ns k v o s :=
    toy_in ns s (toy_write (of_bytes k) (Some (v, default "{}" (put_metadata o))));
  st_get ns k ver s :=
    toy_in ns s (fun m =>
      (match toy_versions m (of_bytes k) with
       | Some (v, md) :: _ =>
           Ok {| entry_key := k; entry_value := v; entry_version := toy_current m (of_bytes k);
                 entry_metadata := md; entry_created_at := 0; entry_updated_at := 0 |}
       | _ => Err SeNotFound
       end, m));
  st_delete ns k s := toy_in ns s (toy_delete (of_bytes k));
  st_put_if_version ns k v md e s :=
    toy_in ns s (fun m => toy_if (of_bytes k) e m (toy_write (of_bytes k) (Some (v, default "{}" md))));
  st_delete_if_version ns k e s := toy_in ns s (fun m => toy_if (of_bytes k) e m (toy_delete (of_bytes k)));
  st_delete_prefix ns p s :=
    toy_in ns s (fun m =>
      let ks := toy_matching p m in
      (Ok (Z.of_nat (length ks)), fold_right (fun k m => (toy_delete k m).2) m ks));
  st_list ns p _ _ s :=
    toy_in ns s (fun m =>
      (Ok {| page_keys := map as_bytes (toy_matching (default [] p) m); page_cursor := None |}, m));
  st_versions ns k _ _ s :=
    toy_in ns s (fun m =>
      (Ok (imap (fun i v => {| vi_version := toy_current m (of_bytes k) - Z.of_nat i;
                               vi_state := match v with Some _ => Active | None => Deleted end;
                               vi_updated_at := 0; vi_actor := "toy" |}) (toy_versions m (of_bytes k))), m));
  st_namespace_create ns _ s :=
    match s !! ns with
    | Some _ => (Err (SeNamespaceExists ns), s)
    | None => (Ok tt, <[ns := empty]> s)
    end;
  st_namespace_drop ns force s :=
    match s !! ns with
    | None => (Err (SeNamespaceNotFound ns), s)
    | Some m => if negb force && negb (Nat.eqb (length (toy_matching [] m)) 0)
                then (Err (SeNamespaceNotEmpty ns), s) else (Ok tt, delete ns s)
    end;
  st_namespace_list _ _ s :=
    (Ok {| page_keys := map (as_bytes ∘ fst) (map_to_list s); page_cursor := None |}, s);
  st_namespace_info ns s :=
    toy_in ns s (fun m =>
      (Ok {| info_name := ns; info_key_count := Z.of_nat (length (toy_matching [] m));
             info_created_at := 0; info_config := toy_config |}, m));
  st_namespace_alter ns _ s := toy_in ns s (fun m => (Ok tt, m));
  st_namespace_validate ns s := toy_in ns s (fun m => (Ok [], m));
}.

(** The engine: its runtime configuration, the changes written to its log, and
    the key it is being rekeyed to. *)
Record ToyEngine := {
  toy_settings : gmap string string;
  toy_log : list (string * string);
  toy_new_key : option bytes;
}.

#[export] Instance toy_engine : Engine ToyEngine := {
  config_get e k :=
    match toy_settings e !! k with
    | Some v => Some {| config_value := v; config_source := "runtime" |}
    | None => None
    end;
  config_validate _ k _ := if starts_with "shroud." k then Ok tt else Err "unknown config key";
  config_set k v _ e :=
    (Ok tt, {| toy_settings := <[k := v]> (toy_settings e); toy_log := toy_log e;
               toy_new_key := toy_new_key e |});
  apply_config_changed k v e :=
    (Ok tt, {| toy_settings := toy_settings e; toy_log := (toy_log e ++ [(k, v)])%list;
               toy_new_key := toy_new_key e |});
  begin_rekey_from_bytes key e :=
    match toy_new_key e with
    | Some _ => (Err "rekey already in progress", e)
    | None => (Ok tt, {| toy_settings := toy_settings e; toy_log := toy_log e;
                         toy_new_key := Some key |})
    end;
  rekey_status _ := None;
}.

(** A clock that advances by a millisecond whenever it is read. *)
#[export] Instance toy_clock : Clock Z := {
  instant_now c := (c, (c + 1000000)%Z);
  system_secs c := (Some (c / 1000000000)%Z, c);
}.

#[export] Instance toy_clock_laws : ClockLaws Z.
Proof.
  refine {| not_before c := c |}.
  - simpl. intros c t c' [= <- <-]. lia.
  - simpl. intros c t c' [= <- <-]. lia.
Defined.

Definition toy_dispatcher : Dispatcher :=
  new (<["ns" := ∅]> ∅ : toy_store)
    {| toy_settings := ∅; toy_log := []; toy_new_key := None |} 0%Z.

(** A caller who may only read [ns], one who may write it too, and one who may
    do everything. *)
Definition toy_reader : option AuthContext :=
  Some {| toy_actor := "reader"; toy_reads := ["ns"]; toy_writes := []; toy_admin := false;
          toy_expires := None |}.

Definition toy_writer : option AuthContext :=
  Some {| toy_actor := "writer"; toy_reads := ["ns"]; toy_writes := ["ns"]; toy_admin := false;
          toy_expires := None |}.

Definition toy_root : option AuthContext := Some (auth_platform "t" "root").

(** Tokens and who they stand for. *)
#[export] Instance toy_validator : TokenValidator (list (string * ToyAuth)) := fun known token =>
  match find (fun '(t, _) => String.eqb t token) known with
  | Some (_, a) => Ok a
  | None => Err "invalid token"
  end.

(** A subscription to an existing namespace. *)
#[export] Instance toy_subscribes : Subscribes toy_store string := fun ns _ s =>
  match s !! ns with
  | Some _ => (Ok ns, s)
  | None => (Err (SeNamespaceNotFound ns), s)
  end.
