(* ===== verification/ParseSpec.v ===== *)
(** * What the command parser guarantees

    Properties of [parse_command] ([resp3/parse_command.rs]): the shape of
    every command it accepts, what a pipeline parses to, the errors it can
    report, and where the accepted syntax departs from the documented one. *)
From S2P Require Import Prelude RustStr Externals Resp3 Resp3Reader Command ParseCommand Toy Resp3Spec.
Open Scope Z_scope.
Open Scope string_scope.

(** UTF-8 text. *)
Definition text (s : string) : Prop := utf8 (as_bytes s).

(** ASCII literals are text. *)
Lemma text_ascii s : forallb is_ascii (as_bytes s) = true -> text s.
Proof.
  intros Hs. apply utf8_ascii, Forall_forall. intros b Hb.
  rewrite forallb_forall in Hs. by apply Hs, list_elem_of_In.
Qed.

Definition opt {A} (P : A -> Prop) (o : option A) : Prop :=
  match o with Some a => P a | None => True end.

Section Spec.
Context `{StoreErrorText}.

(** What holds of every command the parser returns: names, keys and values are
    UTF-8, numbers fit a [u64], a prefix to delete is not empty, a new master
    key is 64 hexadecimal digits, a pipeline has at least one command and only
    such commands. *)
Fixpoint command_wf (c : Command) : Prop :=
  match c with
  | Auth t => text t
  | Ping | Unsubscribe | Health | CommandList | RekeyStatus => True
  | Put ns k v _ ttl => text ns /\ utf8 k /\ utf8 v /\ opt in_u64 ttl
  | Get ns k ver _ => text ns /\ utf8 k /\ opt in_u64 ver
  | Delete ns k => text ns /\ utf8 k
  | PutIf ns k v _ e => text ns /\ utf8 k /\ utf8 v /\ in_u64 e
  | DelIf ns k e => text ns /\ utf8 k /\ in_u64 e
  | DelPrefix ns p => text ns /\ utf8 p /\ p <> []
  | List ns p c l => text ns /\ opt utf8 p /\ opt text c /\ opt in_u64 l
  | Versions ns k l f => text ns /\ utf8 k /\ opt in_u64 l /\ opt in_u64 f
  | NamespaceCreate n _ m t | NamespaceAlter n _ m t =>
      text n /\ opt in_u64 m /\ opt in_u64 t
  | NamespaceDrop n _ | NamespaceInfo n | NamespaceValidate n => text n
  | NamespaceList c l => opt text c /\ opt in_u64 l
  | Pipeline cs rid =>
      cs <> [] /\ opt text rid
      /\ (fix all (l : list Command) : Prop :=
            match l with [] => True | c :: l' => command_wf c /\ all l' end) cs
  | Subscribe ns k _ => text ns /\ opt utf8 k
  | ConfigGet k => text k
  | ConfigSet k v => text k /\ text v
  | Rekey hex => String.length hex = 64%nat /\ all_chars is_ascii_hexdigit hex = true
  end.

Lemma command_wf_pipeline cs rid :
  command_wf (Pipeline cs rid) <-> cs <> [] /\ opt text rid /\ Forall command_wf cs.
Proof.
  simpl. do 2 (apply and_iff_compat_l). induction cs as [|c cs IH]; [done|].
  by rewrite Forall_cons, IH.
Qed.

(** ** Arguments *)

Lemma text_arg args i : Forall text args -> text (arg args i).
Proof. intros Ha. apply (Forall_lookup_default text); [done|]. apply utf8_nil. Qed.

Lemma text_drop n args : Forall text args -> Forall text (drop n args).
Proof. apply Forall_drop. Qed.

Lemma number_range s m n : number s m = Ok n -> in_u64 n.
Proof.
  unfold number. destruct (parse_u64 s) eqn:Hp; [|done]. intros [= <-].
  by eapply parse_u64_range.
Qed.

Lemma opt_number_range s m n : number s m = Ok n -> opt in_u64 (Some n).
Proof. apply number_range. Qed.

Lemma ok_parse_range s : opt in_u64 (ok (parse_u64 s)).
Proof. destruct (parse_u64 s) eqn:Hp; simpl; [|done]. by eapply parse_u64_range. Qed.

Lemma frame_text f s : frame_sane f = true -> frame_to_string f = Ok s -> text s.
Proof.
  destruct f; simpl; try done.
  - intros [Hu _]%line_safe_spec [= <-]. done.
  - intros _ [= <-]. apply int_to_string_utf8.
  - intros _. destruct (from_utf8 b) eqn:Hb; [|done]. intros [= <-].
    apply from_utf8_Some in Hb as [Hu ->]. unfold text. by rewrite as_of_bytes.
Qed.

Lemma collect_text fs ss :
  forallb frame_sane fs = true -> collect frame_to_string fs = Ok ss -> Forall text ss.
Proof.
  intros Hs Hc. apply collect_Ok_Forall2 in Hc. rewrite forallb_forall in Hs.
  induction Hc as [|f s fs ss Hf _ IH]; [done|]. constructor.
  - eapply frame_text; [|done]. apply Hs. by left.
  - apply IH. intros g Hg. apply Hs. by right.
Qed.

#[local] Hint Resolve text_arg text_drop number_range opt_number_range ok_parse_range : core.

(** Goes through one round of an option loop: the branch on the keyword, the
    value that follows it, the number or JSON parsed from it. *)
Ltac option_loop :=
  repeat match goal with
  | |- (if ?b then _ else _) = _ -> _ => destruct b
  | |- (match ?l with [] => _ | _ :: _ => _ end) = _ -> _ => destruct l
  | |- mbind _ (number ?s ?m) = _ -> _ => destruct (number s m) eqn:?
  | |- mbind _ (json ?s ?m) = _ -> _ => destruct (json s m) eqn:?
  | |- Err _ = Ok _ -> _ => discriminate
  | |- Ok _ = Ok _ -> _ => intros [= <-]
  | _ => progress cbn [mbind result_bind]
  end.

Lemma put_options_wf args : forall ns k v m t c,
  Forall text args -> text ns -> utf8 k -> utf8 v -> opt in_u64 t ->
  put_options ns k v m t args = Ok c -> command_wf c.
Proof.
  induction args as [|kw rest IH1 IH2] using list_ind_1_2;
    intros ns k v m t c Ha Hns Hk Hv Ht; cbn [put_options].
  - intros [= <-]. done.
  - apply Forall_cons in Ha as [_ Ha].
    option_loop; apply Forall_cons in Ha as [Hx Ha]; eapply IH2; eauto.
Qed.

Lemma get_options_wf args : forall ns k v m c,
  Forall text args -> text ns -> utf8 k -> opt in_u64 v ->
  get_options ns k v m args = Ok c -> command_wf c.
Proof.
  induction args as [|kw rest IH1 IH2] using list_ind_1_2;
    intros ns k v m c Ha Hns Hk Hv; cbn [get_options].
  - intros [= <-]. done.
  - apply Forall_cons in Ha as [_ Ha].
    option_loop; [apply Forall_cons in Ha as [Hx Ha]; eapply IH2|eapply IH1..]; eauto.
Qed.
Lemma put_if_options_wf args : forall e m e' m',
  Forall text args -> opt in_u64 e -> put_if_options e m args = Ok (e', m') -> opt in_u64 e'.
Proof.
  induction args as [|kw rest IH1 IH2] using list_ind_1_2;
    intros e m e' m' Ha He; cbn [put_if_options].
  - intros [= <- <-]. done.
  - apply Forall_cons in Ha as [_ Ha].
    option_loop; apply Forall_cons in Ha as [Hx Ha]; eapply IH2; eauto.
Qed.

Lemma list_options_wf args : forall ns p cu l c,
  Forall text args -> text ns -> opt utf8 p -> opt text cu -> opt in_u64 l ->
  list_options ns p cu l args = Ok c -> command_wf c.
Proof.
  induction args as [|kw rest IH1 IH2] using list_ind_1_2;
    intros ns p cu l c Ha Hns Hp Hcu Hl; cbn [list_options].
  - intros [= <-]. done.
  - apply Forall_cons in Ha as [_ Ha].
    option_loop; apply Forall_cons in Ha as [Hx Ha]; eapply IH2; eauto.
Qed.

Lemma versions_options_wf args : forall ns k l f c,
  Forall text args -> text ns -> utf8 k -> opt in_u64 l -> opt in_u64 f ->
  versions_options ns k l f args = Ok c -> command_wf c.
Proof.
  induction args as [|kw rest IH1 IH2] using list_ind_1_2;
    intros ns k l f c Ha Hns Hk Hl Hf; cbn [versions_options].
  - intros [= <-]. done.
  - apply Forall_cons in Ha as [_ Ha].
    option_loop; apply Forall_cons in Ha as [Hx Ha]; eapply IH2; eauto.
Qed.

Lemma create_options_wf args : forall n s m t c,
  text n -> opt in_u64 m -> opt in_u64 t ->
  create_options n s m t args = Ok c -> command_wf c.
Proof.
  induction args as [|kw rest IH1 IH2] using list_ind_1_2;
    intros n s m t c Hn Hm Ht; cbn [create_options].
  - intros [= <-]. done.
  - option_loop; eapply IH2; eauto.
Qed.

Lemma alter_options_wf args : forall n s m t,
  text n -> opt in_u64 m -> opt in_u64 t -> command_wf (alter_options n s m t args).
Proof.
  induction args as [|kw rest IH1 IH2] using list_ind_1_2;
    intros n s m t Hn Hm Ht; cbn [alter_options]; [done|].
  repeat (case_match; try done); first [eapply IH2; by eauto|by eauto].
Qed.

Lemma namespace_list_options_wf args : forall c l,
  Forall text args -> opt text c -> opt in_u64 l -> command_wf (namespace_list_options c l args).
Proof.
  induction args as [|kw rest IH1 IH2] using list_ind_1_2;
    intros c l Ha Hc Hl; cbn [namespace_list_options]; [done|].
  apply Forall_cons in Ha as [_ Ha]. destruct rest as [|x rest].
  - repeat (case_match; try done).
  - apply Forall_cons in Ha as [Hx Ha']. repeat (case_match; try done);
      first [solve [apply (IH2 x rest eq_refl); auto using ok_parse_range]
        |solve [apply IH1; auto]].
Qed.

Lemma subscribe_options_wf args : forall ns k evs b,
  Forall text args -> text ns -> opt utf8 k -> command_wf (subscribe_options ns k evs b args).
Proof.
  induction args as [|kw rest IH1 IH2] using list_ind_1_2;
    intros ns k evs b Ha Hns Hk; cbn [subscribe_options]; [done|].
  apply Forall_cons in Ha as [_ Ha]. destruct rest as [|x rest].
  - repeat (case_match; try done); try (by apply IH1).
  - apply Forall_cons in Ha as [Hx Ha']. repeat (case_match; try done);
      first [solve [apply (IH2 x rest eq_refl); auto]|solve [apply IH1; auto]].
Qed.

(** The argument count check at the head of a parser. *)
Ltac after_require :=
  match goal with |- mbind _ (require_args ?a ?n ?c) = _ -> _ =>
    destruct (require_args a n c); cbn [mbind result_bind]; [|discriminate] end.

Lemma parse_put_wf args c : Forall text args -> parse_put args = Ok c -> command_wf c.
Proof.
  intros Ha. unfold parse_put. after_require. case_match.
  - intros [= <-]. simpl. split_and!; try done; by apply text_arg.
  - apply put_options_wf; try done; [auto|by apply text_arg..|apply utf8_nil].
Qed.

Lemma parse_put_if_wf args c : Forall text args -> parse_put_if args = Ok c -> command_wf c.
Proof.
  intros Ha. unfold parse_put_if. after_require.
  destruct (put_if_options None None (drop 3 args)) as [[e m]|] eqn:Ho; [|done].
  apply put_if_options_wf in Ho; [|auto|done].
  destruct e as [e|]; [|done]. intros [= <-]. simpl. split_and!; try done; by apply text_arg.
Qed.

Lemma parse_del_prefix_wf args c : Forall text args -> parse_del_prefix args = Ok c -> command_wf c.
Proof.
  intros Ha. unfold parse_del_prefix. after_require.
  pose proof (text_arg args 1 Ha) as Hp. unfold text in Hp.
  destruct (as_bytes (arg args 1)) as [|b p]; [done|]. case_match; [done|].
  intros [= <-]. simpl. split_and!; try done. by apply text_arg.
Qed.

Lemma parse_del_if_wf args c : Forall text args -> parse_del_if args = Ok c -> command_wf c.
Proof.
  intros Ha. unfold parse_del_if. after_require. case_match; [done|].
  destruct (number (arg args 3) _) as [e|] eqn:He; cbn [mbind result_bind]; [|done].
  case_match; [done|]. intros [= <-]. simpl.
  split_and!; [by apply text_arg..|eauto].
Qed.

Lemma parse_namespace_wf args c : Forall text args -> parse_namespace args = Ok c -> command_wf c.
Proof.
  intros Ha. unfold parse_namespace. after_require.
  assert (Forall text (drop 1 args)) as Hs by auto.
  generalize dependent (drop 1 args). intros sub Hs.
  assert (forall i, text (arg sub i)) as Hsub by (intros; by apply text_arg).
  repeat match goal with |- (if ?b then _ else _) = _ -> _ =>
    destruct b; [try after_require|] end; [..|done].
  - by apply create_options_wf.
  - intros [= <-]. simpl. done.
  - intros [= <-]. by apply namespace_list_options_wf.
  - intros [= <-]. simpl. done.
  - intros [= <-]. by apply alter_options_wf.
  - intros [= <-]. simpl. done.
Qed.

Lemma parse_rekey_wf args c : parse_rekey args = Ok c -> command_wf c.
Proof.
  unfold parse_rekey. destruct args as [|hex args]; [done|].
  case_match; [by intros [= <-]|].
  destruct (Nat.eqb_spec (String.length hex) 64) as [Hl|]; [|done]. simpl.
  destruct (all_chars is_ascii_hexdigit hex) eqn:Hh; [|done]. by intros [= <-].
Qed.

Lemma parse_flat_wf ss c : Forall text ss -> parse_flat ss = Ok c -> command_wf c.
Proof.
  intros Hs. assert (Forall text (drop 1 ss)) as Ha by auto.
  unfold parse_flat. generalize dependent (drop 1 ss). intros args Ha.
  repeat (case_match; [|]); try (by intros [= <-]); try done.
  - unfold parse_auth. after_require. intros [= <-]. by apply text_arg.
  - by apply parse_put_wf.
  - unfold parse_get. after_require. apply get_options_wf; try done; [auto|by apply text_arg..].
  - unfold parse_delete. after_require. intros [= <-]. simpl. split; by apply text_arg.
  - by apply parse_put_if_wf.
  - by apply parse_del_if_wf.
  - by apply parse_del_prefix_wf.
  - unfold parse_list. after_require. apply list_options_wf; try done; [auto|by apply text_arg].
  - unfold parse_versions. after_require.
    apply versions_options_wf; try done; [auto|by apply text_arg..].
  - by apply parse_namespace_wf.
  - unfold parse_subscribe. after_require. intros [= <-].
    apply subscribe_options_wf; try done; [auto|by apply text_arg].
  - unfold parse_config. after_require.
    repeat (case_match; [after_require; intros [= <-]|]); [| |done];
      simpl; try split; by apply text_arg.
  - unfold parse_command_sub. repeat case_match; by intros [= <-].
  - apply parse_rekey_wf.
Qed.

(** ** Pipelines *)

Lemma pipeline_keywords_wf els : forall rid n rid' n',
  forallb frame_sane els = true -> opt text rid ->
  pipeline_keywords rid n els = Ok (rid', n') -> opt text rid'.
Proof.
  induction els as [|f rest IH1 IH2] using list_ind_1_2; intros rid n rid' n' Hs Hrid;
    cbn [pipeline_keywords].
  - by intros [= <- <-].
  - cbn [forallb] in Hs. apply andb_true_iff in Hs as [Hf Hs].
    destruct f; try (by intros [= <- <-]);
      (destruct (frame_to_string _) as [s'|]; cbn [mbind result_bind]; [|done]);
      (case_match; [|done]); (destruct rest as [|g rest]; [done|]);
      cbn [forallb] in Hs; apply andb_true_iff in Hs as [Hg Hs];
      (destruct (frame_to_string g) as [id|] eqn:Hid; cbn [mbind result_bind]; [|done]);
      eapply IH2; try done; simpl; by eapply frame_text.
Qed.

Lemma parse_subcommands_wf parse els : forall skip i cs,
  Forall (fun f => forall c, parse f = Ok c -> command_wf c) els ->
  parse_subcommands parse skip i els = Ok cs -> Forall command_wf cs.
Proof.
  induction els as [|f els IH]; intros skip i cs Hp; simpl.
  - by intros [= <-].
  - apply Forall_cons in Hp as [Hf Hp]. destruct skip as [|skip]; [|by apply IH].
    destruct (parse f) as [c|]; cbn [map_err mbind result_bind]; [|done].
    destruct (parse_subcommands parse 0 (i + 1)%Z els) as [cs'|] eqn:Hcs;
      cbn [mbind result_bind]; [|done].
    intros [= <-]. constructor; eauto.
Qed.

Lemma parse_command_wf_aux f : frame_sane f = true ->
  forall c, parse_command f = Ok c -> command_wf c.
Proof.
  induction f as [s|s|n|b|fs IH|ps IH|fs IH|] using frame_ind'; try done.
  intros Hs c. cbn [frame_sane] in Hs. apply andb_true_iff in Hs as [_ Hs].
  cbn [parse_command]. destruct fs as [|p els]; [done|].
  destruct (frame_to_string p) as [v|]; cbn [mbind result_bind]; [|done].
  case_match.
  - unfold parse_pipeline_frame. cbn [forallb] in Hs. apply andb_true_iff in Hs as [_ Hs].
    apply Forall_cons in IH as [_ IH]. destruct els as [|e els]; [done|].
    destruct (pipeline_keywords None 0 (e :: els)) as [[rid n]|] eqn:Hk;
      cbn [mbind result_bind]; [|done].
    destruct (parse_subcommands parse_command n 0%Z (e :: els)) as [cs|] eqn:Hcs;
      cbn [mbind result_bind]; [|done].
    destruct cs as [|c0 cs]; [done|]. intros [= <-]. apply command_wf_pipeline.
    split_and!; [done|eapply (pipeline_keywords_wf _ None); [exact Hs|exact I|exact Hk]|].
    eapply parse_subcommands_wf; [|done]. rewrite forallb_forall in Hs.
    rewrite Forall_forall in IH |- *. intros g Hg. apply IH; [done|].
    by apply Hs, list_elem_of_In.
  - destruct (collect frame_to_string (p :: els)) as [ss|] eqn:Hc; cbn [mbind result_bind]; [|done].
    apply parse_flat_wf. by eapply collect_text.
Qed.

(** ** Errors *)

Definition is_bad_arg (e : CommandError) : Prop := exists m, e = BadArg m.

Definition bad_args {A} (r : result CommandError A) : Prop :=
  match r with Ok _ => True | Err e => is_bad_arg e end.

Lemma bad_args_bind {A B} (m : result CommandError A) (k : A -> result CommandError B) :
  bad_args m -> (forall a, bad_args (k a)) -> bad_args (m ≫= k).
Proof. destruct m; simpl; auto. Qed.

Lemma bad_args_Err {A} m : bad_args (A:=A) (Err (BadArg m)).
Proof. by exists m. Qed.

Lemma number_bad_args t m : bad_args (number t m).
Proof. unfold number. destruct (parse_u64 t); simpl; [done|by eexists]. Qed.

Lemma json_bad_args t w : bad_args (json t w).
Proof. unfold json. destruct (json_from_str t); simpl; [done|by eexists]. Qed.

Lemma frame_to_string_bad_args f : bad_args (frame_to_string f).
Proof.
  destruct f; simpl; try apply (bad_args_Err (A:=string)); try done.
  destruct (from_utf8 b); simpl; [done|by eexists].
Qed.

Lemma require_args_bad_args args n c : bad_args (require_args args n c).
Proof. unfold require_args. case_match; [by eexists|done]. Qed.

#[local] Hint Resolve frame_to_string_bad_args require_args_bad_args number_bad_args json_bad_args
  bad_args_Err : core.

(** One step through a parser: a check, an option, a value. *)
Ltac bad_args_step :=
  match goal with
  | |- bad_args (mbind _ _) => apply bad_args_bind; [|intros]
  | |- bad_args (ok_or ?o _) => destruct o; simpl; [done|by eexists]
  | |- bad_args (let '(_, _) := ?x in _) => destruct x
  | |- bad_args (if ?b then _ else _) => destruct b
  | |- bad_args (match ?l with [] => _ | _ :: _ => _ end) => destruct l
  | |- bad_args (Ok _) => exact I
  | |- bad_args (Err (unexpected _)) => by eexists
  | |- bad_args _ => solve [eauto]
  end.

Lemma option_loops_bad_args args :
  (forall ns k v m t, bad_args (put_options ns k v m t args))
  /\ (forall ns k v m, bad_args (get_options ns k v m args))
  /\ (forall e m, bad_args (put_if_options e m args))
  /\ (forall ns p c l, bad_args (list_options ns p c l args))
  /\ (forall ns k l f, bad_args (versions_options ns k l f args))
  /\ (forall n s m t, bad_args (create_options n s m t args)).
Proof.
  induction args as [|kw rest IH1 IH2] using list_ind_1_2; [done|].
  destruct IH1 as (?&?&?&?&?&?).
  split_and!; intros;
    cbn [put_options get_options put_if_options list_options versions_options create_options];
    (destruct rest as [|x rest]; [|destruct (IH2 x rest eq_refl) as (?&?&?&?&?&?)]);
    repeat bad_args_step.
Qed.

Lemma parse_flat_bad_args ss : bad_args (parse_flat ss).
Proof.
  pose proof (fun args => option_loops_bad_args args) as Hl.
  unfold parse_flat, parse_auth, parse_put, parse_get, parse_delete, parse_put_if, parse_del_prefix,
    parse_del_if, parse_list, parse_versions, parse_namespace, parse_subscribe, parse_config,
    parse_rekey, parse_command_sub.
  repeat first [apply Hl|bad_args_step].
Qed.


(** What a pipeline's sub-commands are aborted with. *)
Definition is_aborted (e : CommandError) : Prop := exists i r, e = PipelineAborted i r.

Lemma pipeline_keywords_bad_args els : forall rid n, bad_args (pipeline_keywords rid n els).
Proof.
  induction els as [|f rest IH1 IH2] using list_ind_1_2; intros rid n; cbn [pipeline_keywords];
    [done|].
  destruct f; try done; (apply bad_args_bind; [auto|intros kw]); (case_match; [|by eexists]);
    (destruct rest; [by eexists|]); (apply bad_args_bind; [auto|intros id]); by eapply IH2.
Qed.

Lemma parse_subcommands_aborted parse els : forall skip i,
  match parse_subcommands parse skip i els with Ok _ => True | Err e => is_aborted e end.
Proof.
  induction els as [|f els IH]; intros skip i; simpl; [done|].
  destruct skip; [|by apply IH]. destruct (parse f); simpl; [|by do 2 eexists].
  pose proof (IH O (i + 1)%Z). by destruct (parse_subcommands parse 0 _ els).
Qed.

(** ** What a pipeline parses to *)

(** The frame of [PIPELINE [REQUEST_ID rid] fs...]. *)
Definition pipeline_frame (rid : option string) (fs : list Resp3Frame) : Resp3Frame :=
  Array (BulkString (as_bytes "PIPELINE")
    :: match rid with
       | Some id => [BulkString (as_bytes "REQUEST_ID"); BulkString (as_bytes id)]
       | None => []
       end ++ fs).

Definition is_array (f : Resp3Frame) : Prop := match f with Array _ => True | _ => False end.

Definition parses (f : Resp3Frame) (c : Command) : Prop := parse_command f = Ok c.

Lemma frame_to_string_bulk s : text s -> frame_to_string (BulkString (as_bytes s)) = Ok s.
Proof. intros Hs. simpl. by rewrite from_utf8_as_bytes. Qed.

Lemma parse_subcommands_Ok fs cs : Forall2 parses fs cs -> forall i,
  parse_subcommands parse_command 0 i fs = Ok cs.
Proof.
  induction 1 as [|f c fs cs Hf _ IH]; intros i; [done|].
  cbn [parse_subcommands]. rewrite Hf. cbn [map_err mbind result_bind]. by rewrite IH.
Qed.

Lemma parse_subcommands_Err good cs f rest e : Forall2 parses good cs ->
  parse_command f = Err e -> forall i,
  parse_subcommands parse_command 0 i (good ++ f :: rest)
  = Err (PipelineAborted (i + Z.of_nat (length good)) (command_error_display e)).
Proof.
  intros Hg Hf. induction Hg as [|g c good cs Hc _ IH]; intros i.
  - cbn [parse_subcommands app]. rewrite Hf. simpl. do 2 f_equal. lia.
  - cbn [parse_subcommands app]. rewrite Hc. cbn [map_err mbind result_bind].
    rewrite IH. cbn [mbind result_bind length]. do 2 f_equal. lia.
Qed.

Lemma parse_pipeline_frame_eq rid fs :
  opt text rid -> fs <> [] -> Forall is_array fs ->
  parse_command (pipeline_frame rid fs) =
    match parse_subcommands parse_command 0 0%Z fs with
    | Ok [] => Err no_commands
    | Ok cs => Ok (Pipeline cs rid)
    | Err e => Err e
    end.
Proof.
  intros Hrid Hne Ha. destruct fs as [|f fs]; [done|].
  apply Forall_cons in Ha as [Hf _]. destruct f; try done.
  unfold pipeline_frame. cbn [parse_command].
  rewrite frame_to_string_bulk by (apply text_ascii; reflexivity).
  cbn [mbind result_bind eq_ignore_ascii_case].
  replace (eq_ignore_ascii_case "PIPELINE" "PIPELINE") with true by reflexivity.
  unfold parse_pipeline_frame. destruct rid as [id|]; cbn [app pipeline_keywords].
  - rewrite (frame_to_string_bulk "REQUEST_ID") by (apply text_ascii; reflexivity). cbn [mbind result_bind].
    replace (eq_ignore_ascii_case "REQUEST_ID" "REQUEST_ID") with true by reflexivity.
    rewrite frame_to_string_bulk by done. cbn [mbind result_bind].
    change (parse_subcommands parse_command (0 + 2) 0%Z (BulkString (as_bytes "REQUEST_ID")
      :: BulkString (as_bytes id) :: Array fs0 :: fs))
      with (parse_subcommands parse_command 0 0%Z (Array fs0 :: fs)).
    destruct (parse_subcommands parse_command 0 0%Z (Array fs0 :: fs)) as [[]|]; done.
  - cbn [mbind result_bind].
    destruct (parse_subcommands parse_command 0 0%Z (Array fs0 :: fs)) as [[]|]; done.
Qed.


Lemma read_parse_wf {R} `{AsyncBufReadLaws R} (r r' : R) f c :
  read_frame r = Ok (Some f, r') -> parse_command f = Ok c -> command_wf c.
Proof.
  intros Hr Hc. apply read_frame_carriable in Hr. unfold carriable in Hr.
  apply andb_true_iff in Hr as [Hs _]. by apply (parse_command_wf_aux f).
Qed.

(** C11. Every command that comes off the wire is well formed: whatever bytes a
    client sends, a frame that is read and then parsed gives a command whose
    names, keys and values are UTF-8, whose numbers fit their 64-bit type,
    whose prefix to delete is not empty, whose new master key is 64 hexadecimal
    digits, and, when it is a pipeline, which has at least one sub-command and
    only such sub-commands. *)
Theorem wire_command_wf {R} `{AsyncBufReadLaws R} (r r' : R) f c :
  read_frame r = Ok (Some f, r') -> parse_command f = Ok c -> command_wf c.
Proof. apply read_parse_wf. Qed.

(** C39. A pipeline parses to its sub-commands in order when all of them parse,
    with the request id it was given; otherwise it is refused as a whole with
    the index and the error text of the first sub-command that does not
    parse. *)
Theorem parse_pipeline (rid : option string) (fs : list Resp3Frame) :
  opt text rid -> fs <> [] -> Forall is_array fs ->
  (forall cs, Forall2 parses fs cs ->
     parse_command (pipeline_frame rid fs) = Ok (Pipeline cs rid))
  /\ (forall good cs f rest e, fs = (good ++ f :: rest)%list -> Forall2 parses good cs ->
     parse_command f = Err e ->
     parse_command (pipeline_frame rid fs)
     = Err (PipelineAborted (Z.of_nat (length good)) (command_error_display e))).
Proof.
  intros Hrid Hne Ha. rewrite (parse_pipeline_frame_eq rid fs) by done. split.
  - intros cs Hcs. rewrite (parse_subcommands_Ok fs cs) by done.
    destruct cs; [|done]. by apply Forall2_nil_inv_r in Hcs.
  - intros good cs f rest e -> Hg Hf. by rewrite (parse_subcommands_Err good cs f rest e).
Qed.

(** The parser refuses a frame only as a bad argument, or, for a pipeline,
    as aborted at one of its sub-commands; no other error class comes out of
    it. *)
Theorem parse_command_errors f e :
  parse_command f = Err e -> is_bad_arg e \/ is_aborted e.
Proof.
  destruct f; try (intros [= <-]; left; by eexists).
  cbn [parse_command]. destruct fs as [|p els]; [intros [= <-]; left; by eexists|].
  pose proof (frame_to_string_bad_args p) as Hp.
  destruct (frame_to_string p) as [v|]; cbn [mbind result_bind]; [|intros [= <-]; by left].
  case_match.
  - unfold parse_pipeline_frame. destruct els as [|g els]; [intros [= <-]; left; by eexists|].
    pose proof (pipeline_keywords_bad_args (g :: els) None 0) as Hk.
    destruct (pipeline_keywords None 0 (g :: els)) as [[rid n]|]; cbn [mbind result_bind];
      [|intros [= <-]; by left].
    pose proof (parse_subcommands_aborted parse_command (g :: els) n 0%Z) as Hs.
    destruct (parse_subcommands parse_command n 0%Z (g :: els)) as [[|]|];
      cbn [mbind result_bind]; [intros [= <-]; left; by eexists|done|intros [= <-]; by right].
  - intros He. left.
    assert (bad_args (ss ← collect frame_to_string (p :: els); parse_flat ss)) as Hb.
    { apply bad_args_bind; [|intros; apply parse_flat_bad_args].
      clear. generalize (p :: els). intros l. induction l as [|f l IH]; [done|].
      cbn [collect]. apply bad_args_bind; [auto|intros s]. by apply bad_args_bind. }
    by rewrite He in Hb.
Qed.

(** The frame of a command given as its words. *)
Definition words_frame (ws : list string) : Resp3Frame :=
  Array (map (fun w => BulkString (as_bytes w)) ws).

Lemma parse_words v ws :
  Forall text (v :: ws) -> eq_ignore_ascii_case v "PIPELINE" = false ->
  parse_command (words_frame (v :: ws)) = parse_flat (v :: ws).
Proof.
  intros Ht Hv. unfold words_frame. cbn [map parse_command].
  assert (forall l, Forall text l ->
    collect frame_to_string (map (fun w => BulkString (as_bytes w)) l) = Ok l) as Hc.
  { induction 1 as [|w l Hw _ IH]; [done|]. cbn [map collect].
    rewrite frame_to_string_bulk by done. cbn [mbind result_bind]. by rewrite IH. }
  pose proof (Forall_inv Ht) as Htv.
  rewrite frame_to_string_bulk by done. cbn [mbind result_bind]. rewrite Hv.
  pose proof (Hc (v :: ws) Ht) as Hcv. cbn [map] in Hcv. by rewrite Hcv.
Qed.

(** CREATE and ALTER disagree on malformed options: a SCHEMA that is not
    JSON, or a MAX_VERSIONS that is not a number, makes NAMESPACE CREATE fail,
    while NAMESPACE ALTER is accepted with the option silently dropped, so the
    namespace keeps what it had. *)
Theorem alter_ignores_malformed (name opt_value : string) (e : string) (k : IntErrorKind) :
  text name -> text opt_value ->
  (json_from_str opt_value = Err e ->
     parse_command (words_frame ["NAMESPACE"; "CREATE"; name; "SCHEMA"; opt_value])
       = Err (BadArg ("invalid SCHEMA JSON: " +:+ e))
     /\ parse_command (words_frame ["NAMESPACE"; "ALTER"; name; "SCHEMA"; opt_value])
       = Ok (NamespaceAlter name None None None))
  /\ (parse_u64 opt_value = Err k ->
     parse_command (words_frame ["NAMESPACE"; "CREATE"; name; "MAX_VERSIONS"; opt_value])
       = Err (BadArg "MAX_VERSIONS must be a positive integer")
     /\ parse_command (words_frame ["NAMESPACE"; "ALTER"; name; "MAX_VERSIONS"; opt_value])
       = Ok (NamespaceAlter name None None None)).
Proof.
  intros Hn Ho.
  assert (forall a b, text a -> text b -> Forall text ["NAMESPACE"; a; name; b; opt_value]) as Ht.
  { intros a b Ha Hb. repeat constructor; try done. apply text_ascii. reflexivity. }
  split; intros He; rewrite !parse_words
    by first [reflexivity|apply Ht; apply text_ascii; reflexivity];
    unfold parse_flat, parse_namespace; simpl.
  - unfold json. rewrite He. done.
  - unfold number. rewrite He. done.
Qed.

End Spec.

Definition get_frame : Resp3Frame := words_frame ["get"; "ns"; "k"; "version"; "3"].

Lemma wire_command_wf_witness : command_wf (Get "ns" (as_bytes "k") (Some 3%Z) false).
Proof.
  exact (wire_command_wf (encode get_frame) [] get_frame _ eq_refl eq_refl).
Defined.

Lemma parse_pipeline_witness :
  parse_command (pipeline_frame (Some "r1") [get_frame; words_frame ["GET"; "ns"]])
  = Err (PipelineAborted 1 "bad argument: GET requires at least 2 argument(s)").
Proof.
  refine (proj2 (parse_pipeline (Some "r1") [get_frame; words_frame ["GET"; "ns"]] _ _ _)
    [get_frame] [Get "ns" (as_bytes "k") (Some 3%Z) false] (words_frame ["GET"; "ns"]) [] _
    eq_refl _ eq_refl).
  - apply text_ascii. reflexivity.
  - discriminate.
  - repeat constructor.
  - repeat constructor.
Defined.

Lemma parse_command_errors_witness :
  is_bad_arg (BadArg "unknown command: FLUSH") \/ is_aborted (BadArg "unknown command: FLUSH").
Proof. exact (parse_command_errors (words_frame ["flush"]) _ eq_refl). Defined.

Lemma alter_ignores_malformed_witness :
  parse_command (words_frame ["NAMESPACE"; "ALTER"; "ns"; "SCHEMA"; "nope"])
  = Ok (NamespaceAlter "ns" None None None).
Proof.
  refine (proj2 (proj1 (alter_ignores_malformed "ns" "nope" _ InvalidDigit _ _) eq_refl));
    apply text_ascii; reflexivity.
Defined.
