(* ===== verification/ClientSpec.v ===== *)
(** * What the client's connection guarantees

    Properties of [shroudb-client/src/connection.rs] together with the server's
    codec: what the client writes is what the server reads, what the server
    writes is what the client reads, reading ends, and where it crashes. *)
From S2P Require Import Prelude RustStr Resp3 Resp3Reader Resp3Spec ClientResponse ClientConnection ClientApi Externals Command ParseCommand ParseSpec.
Open Scope Z_scope.
Open Scope string_scope.

(** ** Requests *)
Section Requests.
Context {W : Type} `{AsyncWriteLaws W}.

Lemma write_count_header tag n (w : W) :
  writes (header tag (Z.of_nat n)) w (write_count tag n w).
Proof.
  unfold write_count, header, crlf_str. rewrite !as_bytes_app, as_of_bytes. apply writes_all.
Qed.

Lemma write_arg_writes a (w : W) : writes (encode (BulkString (as_bytes a))) w (write_arg a w).
Proof.
  unfold write_arg. cbn [encode]. apply writes_then; [apply write_count_header|intros].
  apply writes_then; [apply writes_all|intros]. apply writes_all.
Qed.

Lemma write_command_writes args (w : W) :
  writes (encode (words_frame args)) w (write_command args w).
Proof.
  unfold write_command, words_frame. cbn [encode]. rewrite length_map.
  apply writes_then; [apply write_count_header|]. intros w1.
  replace (flat_map encode (map (fun a => BulkString (as_bytes a)) args))
    with (flat_map (fun a => encode (BulkString (as_bytes a))) args)
    by (induction args as [|a args IH]; [done|]; cbn [flat_map map]; by rewrite IH).
  apply writes_each, Forall_forall. intros a _ w2. apply write_arg_writes.
Qed.

Lemma write_pipeline_writes cmds rid (w : W) :
  writes (encode (pipeline_frame rid (map words_frame cmds))) w (write_pipeline cmds rid w).
Proof.
  unfold write_pipeline, pipeline_frame. cbn [encode flat_map].
  set (ids := match rid with Some _ => _ | None => _ end).
  replace (Z.of_nat (length (BulkString (as_bytes "PIPELINE") :: ids ++ map words_frame cmds)))
    with (Z.of_nat (1 + match rid with Some _ => 2%nat | None => O end + length cmds))
    by (subst ids; destruct rid; cbn [length app]; rewrite length_map; lia).
  apply writes_then; [apply write_count_header|intros w1].
  apply writes_then; [apply writes_all|intros w2].
  rewrite flat_map_app. apply writes_then.
  - subst ids. destruct rid as [id|]; cbn [flat_map];
      [|unfold writes; by rewrite app_nil_r].
    rewrite app_nil_r. apply writes_then; [apply writes_all|intros w3]. apply write_arg_writes.
  - intros w3. replace (flat_map encode (map words_frame cmds))
      with (flat_map (fun c => encode (words_frame c)) cmds)
      by (clear; induction cmds as [|c cmds IH]; [done|]; cbn [flat_map map]; by rewrite IH).
    apply writes_each, Forall_forall. intros c _ w4. apply write_command_writes.
Qed.

(** What the client sends is what the server reads: the bytes of a command
    are exactly the encoding of the array of its words, and those of a pipeline
    the encoding of the pipeline request with its id and its sub-commands; when
    the stream fails, a prefix of them. *)
Theorem client_requests_encoded (args : list string) (cmds : list (list string))
    (rid : option string) (w : W) :
  writes (encode (words_frame args)) w (write_command args w)
  /\ writes (encode (pipeline_frame rid (map words_frame cmds))) w (write_pipeline cmds rid w).
Proof. split; [apply write_command_writes|apply write_pipeline_writes]. Qed.
End Requests.

(** ** Lines *)

Lemma strip_suffix_Some p s t : strip_suffix p s = Some t -> s = t +:+ p.
Proof.
  revert t. induction s as [|c s IH]; intros t; cbn [strip_suffix].
  - destruct (String.eqb_spec "" p) as [<-|]; [|done]. by intros [= <-].
  - destruct (String.eqb_spec (String c s) p) as [<-|]; [by intros [= <-]|].
    destruct (strip_suffix p s) as [u|]; [|done]. simpl. intros [= <-]. simpl. by rewrite (IH u).
Qed.

Lemma strip_suffix_app p s : strip_suffix p (s +:+ p) = Some s.
Proof.
  induction s as [|c s IH].
  - change ("" +:+ p) with p. destruct p; cbn [strip_suffix]; by rewrite String.eqb_refl.
  - change (String c s +:+ p) with (String c (s +:+ p)). cbn [strip_suffix].
    destruct (String.eqb_spec (String c (s +:+ p)) p) as [He|]; [|by rewrite IH].
    exfalso. apply (f_equal String.length) in He. cbn [String.length] in He.
    rewrite <- !length_as_bytes, as_bytes_app, length_app in He. lia.
Qed.

Lemma strip_suffix_no_LF p s :
  LF ∈ as_bytes p -> LF ∉ as_bytes s -> strip_suffix p s = None.
Proof.
  intros Hp Hs. destruct (strip_suffix p s) as [t|] eqn:He; [|done]. exfalso.
  apply strip_suffix_Some in He as ->. apply Hs. rewrite as_bytes_app, elem_of_app. by right.
Qed.

Lemma trim_end_no_LF p s :
  LF ∈ as_bytes p -> LF ∉ as_bytes s -> trim_end_matches p s = s.
Proof.
  intros Hp Hs. unfold trim_end_matches. destruct (String.length s); cbn [trim_end_go]; [done|].
  by rewrite strip_suffix_no_LF.
Qed.

Lemma trim_line_crlf s : LF ∉ as_bytes s -> trim_line (s +:+ crlf_str) = s.
Proof.
  intros Hs. unfold trim_line, trim_end_matches at 2.
  assert (exists n, String.length (s +:+ crlf_str) = Datatypes.S n) as [n ->].
  { rewrite <- length_as_bytes, as_bytes_app, length_app. exists (length (as_bytes s) + 1)%nat.
    simpl. lia. }
  cbn [trim_end_go]. rewrite strip_suffix_app.
  assert (forall m, trim_end_go m crlf_str s = s) as ->.
  { intros [|m]; [done|]. cbn [trim_end_go]. rewrite strip_suffix_no_LF; [done| |done].
    unfold crlf_str. rewrite as_of_bytes. right. left. }
  apply trim_end_no_LF; [|done]. unfold newline. rewrite as_of_bytes. left.
Qed.

Lemma utf8_boundary s : text s -> is_boundary s = true.
Proof.
  destruct s as [|c s]; [done|]. unfold text. rewrite as_bytes_cons. intros Hu.
  inversion Hu as [|b l n Hv Hr]; subst. unfold utf8_next in Hv. rewrite byte_val_of_ascii in Hv.
  cbn [is_boundary]. destruct ((128 <=? N_of_ascii c) && (N_of_ascii c <? 192))%N eqn:Hc; [|done].
  exfalso. repeat match type of Hv with
    | (if ?b then _ else _) = _ => destruct b eqn:?; [lia|] end. done.
Qed.

(** ** Responses *)

(** What the client makes of a frame. *)
Fixpoint frame_response (f : Resp3Frame) : Response :=
  match f with
  | SimpleString s => RString s
  | SimpleError s => RError s
  | Integer n => RInteger n
  | BulkString b => RString (from_utf8_lossy b)
  | Array fs | Push fs => RArray (map frame_response fs)
  | Map ps => RMap (map (fun '(k, v) => (frame_response k, frame_response v)) ps)
  | Null => RNull
  end.

Section Responses.
Context {R : Type} `{AsyncBufReadLaws R}.
Variable fits : Z -> bool.

(** There is memory for any value within the server's limits. *)
Hypothesis enough_memory : forall n, 0 <= n <= MAX_BULK_SIZE + 2 -> fits n = true.

Lemma with_capacity_ok n : 0 <= n <= MAX_BULK_SIZE + 2 -> with_capacity fits n = Ok tt.
Proof.
  intros Hn. unfold with_capacity. rewrite enough_memory; [done|].
  unfold i64_as_u64, MAX_BULK_SIZE in *. case_match; lia.
Qed.

Lemma read_value_line (t : ascii) payload fuel r rest :
  is_ascii (byte_of_ascii t) = true -> byte_of_ascii t <> LF -> line_safe payload = true ->
  pending r = (as_bytes (String t payload) ++ crlf ++ rest)%list ->
  exists r1, read_value fits (Datatypes.S fuel) r = read_payload fits (read_value fits fuel) t payload r1
             /\ pending r1 = rest.
Proof.
  intros Ht Hlf [Hu Hno]%line_safe_spec Hp.
  assert (utf8 (as_bytes (String t payload))) as Hul.
  { rewrite as_bytes_cons. apply (utf8_app [_]); [|done]. apply utf8_ascii. by repeat constructor. }
  assert (LF ∉ as_bytes (String t payload)) as Hnl.
  { rewrite as_bytes_cons, not_elem_of_cons. split; [congruence|done]. }
  assert (split_line (pending r) = ((as_bytes (String t payload) ++ crlf)%list, rest)) as Hs
    by (rewrite Hp; by apply split_line_crlf).
  destruct (reader_line_ok r) as (r1 & Hl & Hr1); [rewrite Hs; by apply utf8_crlf|].
  rewrite Hs in Hl, Hr1. exists r1. split; [|done].
  cbn [read_value]. rewrite Hl. cbn [map_err mbind result_bind fst].
  rewrite of_bytes_app, of_as_bytes. fold crlf_str.
  rewrite (proj2 (String.eqb_neq _ _)) by done. rewrite trim_line_crlf by done.
  rewrite utf8_boundary by done. done.
Qed.

Lemma read_times_encode {A B} (enc : A -> bytes) (g : A -> B) (f : R -> result Failure (B * R)) l :
  Forall (fun a => forall r rest, pending r = (enc a ++ rest)%list ->
    exists r', f r = Ok (g a, r') /\ pending r' = rest) l ->
  forall r rest, pending r = (flat_map enc l ++ rest)%list ->
  exists r', read_times f (length l) r = Ok (map g l, r') /\ pending r' = rest.
Proof.
  induction 1 as [|a l Ha _ IH]; intros r rest Hp; cbn [read_times length map]; [eauto|].
  cbn [flat_map] in Hp. rewrite <- app_assoc in Hp.
  destruct (Ha r _ Hp) as (r1 & -> & Hr1). cbn [mbind result_bind].
  destruct (IH r1 rest Hr1) as (r2 & -> & Hr2). cbn [mbind result_bind]. eauto.
Qed.

(** The first line of a counted value. *)
Lemma read_value_header (t : ascii) n fuel r rest :
  is_ascii (byte_of_ascii t) = true -> byte_of_ascii t <> LF ->
  pending r = (header (String t "") n ++ rest)%list ->
  exists r1, read_value fits (Datatypes.S fuel) r
             = read_payload fits (read_value fits fuel) t (int_to_string n) r1
             /\ pending r1 = rest.
Proof.
  intros Ht Hlf Hp. apply read_value_line; [done|done| |].
  - apply line_safe_spec. split; [apply int_to_string_utf8|apply int_to_string_no_LF].
  - rewrite Hp. unfold header. rewrite <- !app_assoc. done.
Qed.

Lemma parse_count_ok what n : in_i64 n -> parse_count what (int_to_string n) = Ok n.
Proof. intros Hn. unfold parse_count. by rewrite parse_i64_to_string. Qed.

Lemma small_in_i64 n : 0 <= n <= MAX_BULK_SIZE -> in_i64 n.
Proof. unfold in_i64, MAX_BULK_SIZE, two63. lia. Qed.

Lemma collection_small (n : nat) :
  (Z.of_nat n <=? MAX_COLLECTION_SIZE)%Z = true ->
  in_i64 (Z.of_nat n) /\ with_capacity fits (Z.of_nat n) = Ok tt
  /\ (Z.of_nat n <? 0)%Z = false /\ Z.to_nat (Z.of_nat n) = n.
Proof.
  intros Hn%Z.leb_le. unfold MAX_COLLECTION_SIZE in Hn. split_and!.
  - apply small_in_i64. unfold MAX_BULK_SIZE. lia.
  - apply with_capacity_ok. unfold MAX_BULK_SIZE. lia.
  - apply Z.ltb_ge. lia.
  - lia.
Qed.

(** Reading back what [encode] wrote, with enough fuel for its nesting. *)
Definition reads_back (fuel : nat) (f : Resp3Frame) : Prop :=
  forall r rest, pending r = (encode f ++ rest)%list ->
  exists r', read_value fits fuel r = Ok (frame_response f, r') /\ pending r' = rest.

Lemma read_back_elements fuel fs :
  Forall (fun f => frame_sane f = true -> (frame_depth f < fuel)%nat -> reads_back fuel f) fs ->
  forallb frame_sane fs = true ->
  (max_list (map (fun g => Datatypes.S (frame_depth g)) fs) < Datatypes.S fuel)%nat ->
  Forall (reads_back fuel) fs.
Proof.
  intros IH Hs Hd. pose proof (frame_depth_array fs _ (le_n _)) as Hmax.
  rewrite forallb_forall in Hs. rewrite Forall_forall in IH, Hmax |- *.
  intros f Hin. specialize (Hmax f Hin). apply IH; [done| |lia]. by apply Hs, list_elem_of_In.
Qed.

Lemma read_back_bulk fuel b :
  (Z.of_nat (length b) <=? MAX_BULK_SIZE)%Z = true -> reads_back (Datatypes.S fuel) (BulkString b).
Proof.
  intros Hb%Z.leb_le r rest Hp. cbn [encode] in Hp. rewrite <- !app_assoc in Hp.
  destruct (read_value_header "$" _ fuel r _ eq_refl ltac:(discriminate) Hp) as (r1 & -> & Hr1).
  change (read_payload fits (read_value fits fuel) "$" (int_to_string (Z.of_nat (length b))) r1)
    with (read_bulk fits (int_to_string (Z.of_nat (length b))) r1).
  unfold read_bulk. rewrite parse_count_ok by (apply small_in_i64; lia). cbn [mbind result_bind].
  rewrite (proj2 (Z.ltb_ge _ _)) by lia. rewrite with_capacity_ok by lia. cbn [mbind result_bind].
  rewrite Nat2Z.id.
  assert (length b + 2 = length (b ++ crlf))%nat as Hlen by (rewrite length_app; done).
  destruct (read_exact_ok (length b + 2) r1) as (r2 & -> & Hr2).
  { rewrite Hr1, app_assoc, length_app, <- Hlen. lia. }
  cbn [map_err mbind result_bind]. exists r2. split.
  - rewrite Hr1, take_take, Nat.min_l, take_app_length by lia. done.
  - by rewrite Hr2, Hr1, app_assoc, Hlen, drop_app_length.
Qed.

(** The pairs of a map, read as a key and a value each. *)
Lemma read_back_pairs fuel ps :
  Forall (fun p => (forall fuel, frame_sane p.1 = true -> (frame_depth p.1 < fuel)%nat ->
                      reads_back fuel p.1)
                   /\ (forall fuel, frame_sane p.2 = true -> (frame_depth p.2 < fuel)%nat ->
                      reads_back fuel p.2)) ps ->
  forallb (fun '(k, v) => frame_sane k && frame_sane v) ps = true ->
  (max_list (map (fun '(k, v) => Datatypes.S (Nat.max (frame_depth k) (frame_depth v))) ps)
   < Datatypes.S fuel)%nat ->
  Forall (fun p => forall r rest,
    pending r = ((let '(k, v) := p in encode k ++ encode v) ++ rest)%list ->
    exists r', read_entry (read_value fits fuel) r
               = Ok ((let '(k, v) := p in (frame_response k, frame_response v)), r')
               /\ pending r' = rest) ps.
Proof.
  intros IH Hs Hd. apply Nat.lt_succ_r, max_list_le in Hd. rewrite Forall_map in Hd.
  rewrite forallb_forall in Hs. rewrite Forall_forall in IH, Hd |- *.
  intros [k v] Hin r rest Hp. specialize (Hd _ Hin). specialize (Hs _ (proj1 (list_elem_of_In _ _) Hin)).
  apply andb_true_iff in Hs as [Hk Hv]. simpl in Hd.
  destruct (IH _ Hin) as [IHk IHv]. rewrite <- app_assoc in Hp. unfold read_entry.
  destruct (IHk fuel Hk ltac:(simpl; lia) r _ Hp) as (r1 & -> & Hr1). cbn [mbind result_bind].
  destruct (IHv fuel Hv ltac:(simpl; lia) r1 _ Hr1) as (r2 & -> & Hr2). cbn [mbind result_bind].
  by exists r2.
Qed.

Lemma read_value_encode f : forall fuel,
  frame_sane f = true -> (frame_depth f < fuel)%nat -> reads_back fuel f.
Proof.
  induction f as [s|s|n|b|fs IH|ps IH|fs IH|] using frame_ind'; intros [|fuel] Hs Hd r rest Hp;
    try lia; cbn [encode frame_sane] in Hs, Hp; rewrite <- ?app_assoc in Hp.
  - by destruct (read_value_line "+" s fuel r rest eq_refl ltac:(discriminate) Hs Hp)
      as (r1 & -> & Hr1); exists r1.
  - by destruct (read_value_line "-" s fuel r rest eq_refl ltac:(discriminate) Hs Hp)
      as (r1 & -> & Hr1); exists r1.
  - destruct (read_value_header ":" n fuel r rest eq_refl ltac:(discriminate) Hp) as (r1 & -> & Hr1).
    exists r1. unfold read_payload. cbn [String.eqb Ascii.eqb Bool.eqb].
    rewrite parse_count_ok; [done|]. unfold in_i64. lia.
  - eapply (read_back_bulk fuel b); [done|]. cbn [encode]. by rewrite <- !app_assoc.
  - apply andb_true_iff in Hs as [(Hi & Hc & Hn & Hz)%collection_small Hs].
    destruct (read_value_header "*" _ fuel r _ eq_refl ltac:(discriminate) Hp) as (r1 & -> & Hr1).
    unfold read_payload. cbn [String.eqb Ascii.eqb Bool.eqb].
    rewrite parse_count_ok by done. cbn [mbind result_bind]. rewrite Hn, Hc, Hz.
    cbn [mbind result_bind]. cbn [frame_depth] in Hd.
    assert (Forall (reads_back fuel) fs) as Hfs.
    { apply read_back_elements; [|done|done]. eapply Forall_impl; [exact IH|]. auto. }
    destruct (read_times_encode encode frame_response _ fs Hfs r1 rest Hr1) as (r2 & -> & Hr2).
    by exists r2.
  - apply andb_true_iff in Hs as [(Hi & Hc & Hn & Hz)%collection_small Hs].
    destruct (read_value_header "%" _ fuel r _ eq_refl ltac:(discriminate) Hp) as (r1 & -> & Hr1).
    unfold read_payload. cbn [String.eqb Ascii.eqb Bool.eqb].
    rewrite parse_count_ok by done. cbn [mbind result_bind]. rewrite Hc, Hz.
    cbn [mbind result_bind].
    destruct (read_times_encode (fun '(k, v) => encode k ++ encode v)%list
      (fun '(k, v) => (frame_response k, frame_response v)) _ ps
      (read_back_pairs fuel ps IH Hs Hd) r1 rest Hr1) as (r2 & -> & Hr2).
    by exists r2.
  - apply andb_true_iff in Hs as [(Hi & Hc & Hn & Hz)%collection_small Hs].
    destruct (read_value_header ">" _ fuel r _ eq_refl ltac:(discriminate) Hp) as (r1 & -> & Hr1).
    unfold read_payload, read_collection. cbn [String.eqb Ascii.eqb Bool.eqb].
    rewrite parse_count_ok by done. cbn [mbind result_bind]. rewrite Hc, Hz.
    cbn [mbind result_bind]. cbn [frame_depth] in Hd.
    assert (Forall (reads_back fuel) fs) as Hfs.
    { apply read_back_elements; [|done|done]. eapply Forall_impl; [exact IH|]. auto. }
    destruct (read_times_encode encode frame_response _ fs Hfs r1 rest Hr1) as (r2 & -> & Hr2).
    by exists r2.
  - destruct (read_value_line "_" "" fuel r rest eq_refl ltac:(discriminate) eq_refl Hp)
      as (r1 & -> & Hr1). by exists r1.
Qed.

(** C36. What the server sends is what the client reads: every frame within the
    server's own limits is read back by the client as the same value, with
    bulk strings decoded as text (and invalid UTF-8 replaced), pushes as
    arrays; what follows on the stream is left for the next read. *)
Theorem client_reads_frames (f : Resp3Frame) (fuel : nat) (r : R) (rest : bytes) :
  carriable f = true -> (Z.to_nat MAX_DEPTH < fuel)%nat ->
  pending r = (encode f ++ rest)%list ->
  exists r', read_value fits fuel r = Ok (frame_response f, r') /\ pending r' = rest.
Proof.
  intros [Hs Hd]%andb_true_iff Hf Hp. apply Z.leb_le in Hd.
  apply (read_value_encode f); [done| |done]. lia.
Qed.
End Responses.

(** ** Reading ends *)
Section Termination.
Context {R : Type} `{AsyncBufReadLaws R}.
Variable fits : Z -> bool.

(** With fewer than [n] bytes pending, [f] does not run out of fuel, and does
    not put anything back. *)
Definition ends {A} (n : nat) (f : R -> result Failure (A * R)) : Prop :=
  forall r, (length (pending r) < n)%nat ->
  match f r with
  | Ok (_, r') => (length (pending r') <= length (pending r))%nat
  | Err e => e <> OutOfFuel
  end.

Lemma ends_bind {A B} n (f : R -> result Failure (A * R)) (k : A -> R -> result Failure (B * R)) :
  ends n f -> (forall a, ends n (k a)) -> ends n (fun r => '(a, r) ← f r; k a r).
Proof.
  intros Hf Hk r Hr. specialize (Hf r Hr). destruct (f r) as [[a r1]|e]; cbn [mbind result_bind];
    [|done].
  specialize (Hk a r1 ltac:(lia)). destruct (k a r1) as [[b r2]|e]; [lia|done].
Qed.

Lemma ends_ret {A} n (a : A) : ends n (fun r => Ok (a, r)).
Proof. by intros r Hr. Qed.

Lemma ends_pure {A B} n (m : result Failure B) (k : B -> R -> result Failure (A * R)) :
  m <> Err OutOfFuel -> (forall b, ends n (k b)) -> ends n (fun r => b ← m; k b r).
Proof. intros Hm Hk. destruct m as [b|e]; [apply Hk|]. intros r Hr. simpl. congruence. Qed.

Lemma ends_err {A} n e : e <> OutOfFuel -> ends (A:=A) n (fun _ => Err e).
Proof. by intros He r Hr. Qed.

Lemma ends_times {A} n m (f : R -> result Failure (A * R)) :
  ends n f -> ends n (read_times f m).
Proof.
  intros Hf. induction m as [|m IH]; [apply ends_ret|].
  apply (ends_bind n f (fun a r => '(l, r) ← read_times f m r; Ok (a :: l, r))); [done|].
  intros a. apply (ends_bind n _ (fun l r => Ok (a :: l, r))); [done|]. intros l. apply ends_ret.
Qed.

Lemma ends_read_exact n m :
  ends n (fun r => map_err (fun e => Fails (ConnectionErr e)) (read_exact m r)).
Proof.
  intros r Hr. destruct (decide (m <= length (pending r))%nat) as [Hm|Hm].
  - destruct (read_exact_ok m r Hm) as (r1 & -> & Hr1). simpl. rewrite Hr1, length_drop. lia.
  - destruct (read_exact_eof m r ltac:(lia)) as [e ->]. done.
Qed.

Lemma parse_count_fuel what p : parse_count what p <> Err OutOfFuel.
Proof. unfold parse_count. by destruct (parse_i64 p). Qed.

Lemma with_capacity_fuel n : with_capacity fits n <> Err OutOfFuel.
Proof. unfold with_capacity. by case_match. Qed.

Lemma ends_bulk n p : ends n (read_bulk fits p).
Proof.
  apply (ends_pure n _ (fun len r => if (len <? 0)%Z then _ else _)); [apply parse_count_fuel|].
  intros len. destruct (len <? 0)%Z; [apply ends_ret|].
  apply (ends_pure n _ (fun _ r => _)); [apply with_capacity_fuel|intros _].
  apply (ends_bind n _ (fun buf r => Ok (_, r))); [apply ends_read_exact|]. intros buf. apply ends_ret.
Qed.

Lemma ends_entry n f : ends n f -> ends n (read_entry f).
Proof.
  intros Hf. apply (ends_bind n f (fun key r => '(val, r) ← f r; Ok (key, val, r))); [done|].
  intros k. apply (ends_bind n f (fun val r => Ok (k, val, r))); [done|]. intros v. apply ends_ret.
Qed.

(** A count, room for it, and then so many values. *)
Lemma ends_counted {A} n what p (f : R -> result Failure (A * R)) (g : list A -> Response) :
  ends n f ->
  ends n (fun r => count ← parse_count what p; _ ← with_capacity fits count;
                   '(items, r) ← read_times f (Z.to_nat count) r; Ok (g items, r)).
Proof.
  intros Hf. apply (ends_pure n _ (fun count r => _)); [apply parse_count_fuel|intros count].
  apply (ends_pure n _ (fun _ r => _)); [apply with_capacity_fuel|intros _].
  apply (ends_bind n _ (fun items r => Ok (g items, r))); [by apply ends_times|].
  intros items. apply ends_ret.
Qed.

Lemma ends_payload n read t p : ends n read -> ends n (read_payload fits read t p).
Proof.
  intros Hr. unfold read_payload.
  repeat match goal with |- ends _ (fun r => if ?b then _ else _) => destruct b end;
    try apply ends_ret; try (by apply ends_err); try apply ends_bulk;
    try (by apply ends_counted).
  - apply (ends_pure n _ (fun v r => Ok (RInteger v, r))); [apply parse_count_fuel|].
    intros v. apply ends_ret.
  - apply (ends_pure n _ (fun count r => if (count <? 0)%Z then _ else _)); [apply parse_count_fuel|].
    intros count. destruct (count <? 0)%Z; [apply ends_ret|].
    apply (ends_pure n _ (fun _ r => _)); [apply with_capacity_fuel|intros _].
    apply (ends_bind n _ (fun items r => Ok (RArray items, r))); [by apply ends_times|].
    intros items. apply ends_ret.
  - by apply (ends_counted n _ _ (read_entry read) RMap), ends_entry.
Qed.

Lemma read_value_ends fuel : ends fuel (read_value fits fuel).
Proof.
  induction fuel as [|fuel IH]; intros r Hr; [lia|]. cbn [read_value].
  destruct (split_line (pending r)) as [line rest] eqn:Hs.
  destruct (utf8_valid line) eqn:Hu.
  - apply utf8_valid_spec in Hu.
    destruct (reader_line_ok r) as (r1 & -> & Hr1); [by rewrite Hs|]. rewrite Hs in *.
    cbn [map_err mbind result_bind fst snd] in *.
    unfold protocol. destruct (String.eqb_spec (of_bytes line) "") as [|Hne]; [discriminate|].
    apply split_line_app in Hs. assert (line <> []) as Hl by (by intros ->).
    assert (length (pending r1) < length (pending r))%nat as Hlt.
    { rewrite Hr1, Hs, length_app. destruct line; [done|]. simpl. lia. }
    destruct (trim_line (of_bytes line)) as [|t p]; [discriminate|].
    destruct (negb (is_boundary p)); [discriminate|].
    pose proof (ends_payload fuel (read_value fits fuel) t p IH r1 ltac:(lia)) as Hp.
    destruct (read_payload fits (read_value fits fuel) t p r1) as [[resp r2]|e]; [lia|done].
  - destruct (reader_line_invalid r) as [e ->]; [|done].
    rewrite Hs. simpl. intros Hv. apply utf8_valid_spec in Hv. congruence.
Qed.

(** C38. Reading a response always ends: however the bytes on the stream are
    nested and whatever counts they announce, the reader needs no more than
    one level of recursion per byte, and returns a value, an error or (below)
    a crash. *)
Theorem read_value_terminates (r : R) (fuel : nat) :
  (length (pending r) < fuel)%nat -> read_value fits fuel r <> Err OutOfFuel.
Proof.
  intros Hr. pose proof (read_value_ends fuel r Hr) as He.
  destruct (read_value fits fuel r) as [|e]; [done|]. congruence.
Qed.
End Termination.

(** Malformed responses crash the client: where the server refuses a
    negative count, the client's map, push and set readers turn it into a
    capacity of at least 2^63 elements, which no allocator grants. *)
Theorem client_crashes_on_negative_count (fits : Z -> bool) (tag : ascii) (n : Z) (fuel : nat)
    (rest : bytes) :
  (forall m, two63 <= m -> fits m = false) ->
  tag ∈ ["%"; ">"; "~"]%char -> in_i64 n -> n < 0 ->
  read_value fits (Datatypes.S fuel) (header (String tag "") n ++ rest)%list = Err Crashes.
Proof.
  intros Hbig Htag Hi Hn.
  assert (with_capacity fits n = Err Crashes) as Hc.
  { unfold with_capacity. rewrite Hbig; [done|]. unfold i64_as_u64, in_i64, two63, two64 in *.
    case_match; lia. }
  rewrite !elem_of_cons in Htag.
  assert (forall t, byte_of_ascii t <> LF -> is_ascii (byte_of_ascii t) = true ->
    exists r1, read_value fits (Datatypes.S fuel) (header (String t "") n ++ rest)%list
      = read_payload fits (read_value fits fuel) t (int_to_string n) r1) as Hline.
  { intros t Hlf Ha.
    destruct (read_value_header (R:=bytes) fits t n fuel (header (String t "") n ++ rest)%list rest)
      as (r1 & -> & _); [done|done|done|]. by exists r1. }
  destruct Htag as [->|[->|[->|Ht]]]; [..|by apply not_elem_of_nil in Ht].
  all: edestruct Hline as [r1 ->]; [discriminate|reflexivity|];
       unfold read_payload, read_collection; cbn [String.eqb Ascii.eqb Bool.eqb];
       rewrite parse_count_ok by done; cbn [mbind result_bind]; by rewrite Hc.
Qed.

(** ** Concrete exchanges *)

(** A machine with 4 GiB for every value. *)
Definition four_gib (n : Z) : bool := (n <? 4294967296)%Z.

Definition pong_frame : Resp3Frame :=
  Map [(BulkString (as_bytes "status"), BulkString (as_bytes "OK"))].

Lemma client_reads_frames_witness :
  exists r' : bytes,
    read_value four_gib 9 (encode pong_frame ++ [])%list = Ok (RMap [(RString "status", RString "OK")], r')
    /\ pending r' = [].
Proof.
  apply (client_reads_frames four_gib) with (f := pong_frame).
  - intros n Hn. unfold four_gib, MAX_BULK_SIZE in *. lia.
  - reflexivity.
  - vm_compute. lia.
  - reflexivity.
Defined.

Lemma read_value_terminates_witness :
  read_value four_gib 12 (as_bytes "*1000000000" : bytes) <> Err OutOfFuel.
Proof. apply (read_value_terminates four_gib (as_bytes "*1000000000") 12). simpl. lia. Defined.

Lemma client_crashes_on_negative_count_witness :
  read_value four_gib 1 (header "%" (-1) ++ [])%list = Err Crashes.
Proof.
  apply (client_crashes_on_negative_count four_gib "%" (-1) 0 []).
  - intros m Hm. unfold four_gib, two63 in *. lia.
  - rewrite !elem_of_cons. auto.
  - unfold in_i64, two63. lia.
  - lia.
Defined.

(** ** Connection URIs

    A URI of [shroudb://\[token@\]host\[:port\]\[/path\]] is read as the
    configuration it was written from. *)
Definition uri_hostport (config : ConnectionConfig) (short : bool) : string :=
  if short then host config else address config.
Definition uri_path (path : option string) : string :=
  match path with Some p => String "/" p | None => "" end.
Definition uri_rest (config : ConnectionConfig) (short : bool) (path : option string) : string :=
  match auth_token config with Some token => token +:+ "@" | None => "" end +:+
  (uri_hostport config short +:+ uri_path path).
Definition uri_of (config : ConnectionConfig) (short : bool) (path : option string) : string :=
  (if tls config then "shroudb+tls://" else "shroudb://") +:+ uri_rest config short path.

(** What a configuration needs to be written as a URI: the port may be left out
    when it is the default one and the host has no colon, and no part holds the
    character that ends it. *)
Definition uri_writable (config : ConnectionConfig) (short : bool) (path : option string) : bool :=
  (0 <=? port config)%Z && (port config <=? 65535)%Z && has_no "/" (host config) &&
  (if short then (port config =? default_port)%Z && has_no ":" (host config) else true) &&
  match auth_token config with
  | Some token => has_no "@" token
  | None => has_no "@" (host config) && has_no "@" (default "" path)
  end.

Lemma parse_hostport_address config short path :
  uri_writable config short path = true ->
  parse_hostport (uri_hostport config short) = (host config, port config)
  /\ has_no "/" (uri_hostport config short) = true
  /\ (auth_token config = None -> has_no "@" (uri_hostport config short) = true).
Proof.
  unfold uri_writable. intros [[[[Hlo Hhi]%andb_true_iff Hslash]%andb_true_iff Hshort]%andb_true_iff Hat]%andb_true_iff.
  assert (auth_token config = None -> has_no "@" (host config) = true) as Hat'
    by (intros He; rewrite He in Hat; by apply andb_true_iff in Hat as [? _]).
  unfold uri_hostport, parse_hostport. destruct short.
  - apply andb_true_iff in Hshort as [Hport%Z.eqb_eq Hcolon].
    rewrite rsplit_once_none by done. by rewrite Hport.
  - unfold address. change (":" +:+ ?s) with (String ":" s).
    rewrite rsplit_once_last by by apply int_to_string_has_no.
    unfold parse_u16. rewrite parse_int_to_string by lia. split; [done|].
    assert (forall c, is_int_char c = false -> Ascii.eqb ":" c = false -> has_no c (host config) = true ->
      has_no c (host config +:+ String ":" (int_to_string (port config))) = true) as Hhn.
    { intros c Hi Hc Hh. unfold has_no. rewrite all_chars_app. cbn [all_chars]. rewrite Hc.
      apply andb_true_iff. split; [exact Hh|]. by apply (int_to_string_has_no c). }
    split; [by apply Hhn|]. intros He. apply Hhn; auto.
Qed.

Lemma split_token config short path :
  uri_writable config short path = true ->
  match split_once "@" (uri_rest config short path) with
  | Some (token, hp) => (Some token, hp)
  | None => (None, uri_rest config short path)
  end = (auth_token config, uri_hostport config short +:+ uri_path path).
Proof.
  intros Hw. destruct (parse_hostport_address _ _ _ Hw) as (_ & _ & Hat).
  apply andb_true_iff in Hw as [_ Htok]. unfold uri_rest. destruct (auth_token config) as [t|].
  - rewrite string_app_assoc. change ("@" +:+ ?s) with (String "@" s). by rewrite split_once_first.
  - apply andb_true_iff in Htok as [_ Hp]. rewrite split_once_none; [done|].
    rewrite string_app_empty. unfold has_no in *. rewrite all_chars_app, Hat by done.
    by destruct path.
Qed.

Lemma split_path config short path :
  uri_writable config short path = true ->
  match split_once "/" (uri_hostport config short +:+ uri_path path) with
  | Some (hp, _) => hp
  | None => uri_hostport config short +:+ uri_path path
  end = uri_hostport config short.
Proof.
  intros Hw. destruct (parse_hostport_address _ _ _ Hw) as (_ & Hslash & _).
  destruct path as [p|]; cbn [uri_path]; [by rewrite split_once_first|].
  rewrite string_app_nil. by rewrite split_once_none.
Qed.

Lemma tls_server_name_host config :
  starts_with "[" (host config) = false -> tls_server_name (address config) = host config.
Proof.
  intros Hb. unfold tls_server_name, address. change (":" +:+ ?s) with (String ":" s).
  rewrite rsplit_once_last by by apply int_to_string_has_no.
  replace (starts_with "[" _) with false; [done|].
  destruct (host config) as [|a s]; [done|]. rewrite string_app_cons. revert Hb.
  unfold starts_with. cbn [strip_prefix]. by destruct (Ascii.eqb "[" a).
Qed.

Lemma tls_server_name_bracketed config h :
  host config = "[" +:+ h +:+ "]" -> has_no "]" h = true -> starts_with "[" h = false ->
  tls_server_name (address config) = h.
Proof.
  intros Hhost Hh Hb. unfold tls_server_name, address. rewrite Hhost.
  change ("[" +:+ ?s) with (String "[" s). rewrite string_app_cons, string_app_assoc.
  change (starts_with "[" (String "[" ?s)) with (starts_with "" s). cbn [starts_with strip_prefix].
  change ("]" +:+ ?s) with (String "]" s).
  rewrite <- string_app_cons, split_once_first by exact Hh.
  cbn [trim_start_matches]. rewrite Ascii.eqb_refl. destruct h as [|a h]; [done|].
  unfold starts_with in Hb. cbn [strip_prefix trim_start_matches] in *. rewrite Ascii.eqb_sym.
  by destruct (Ascii.eqb "[" a).
Qed.

(** C37. A URI is read as what it was written from: the TLS scheme, the token, the
    host and the port, with the default port when the URI has none and
    whatever path follows; over TLS the certificate is then checked against
    the host, without the brackets of an IPv6 address. *)
Theorem uri_roundtrip (config : ConnectionConfig) (short : bool) (path : option string) :
  uri_writable config short path = true ->
  parse_uri (uri_of config short path) = Ok config
  /\ (starts_with "[" (host config) = false -> tls_server_name (address config) = host config)
  /\ (forall h, host config = "[" +:+ h +:+ "]" -> has_no "]" h = true -> starts_with "[" h = false ->
        tls_server_name (address config) = h).
Proof.
  intros Hw. split_and!; [|apply tls_server_name_host|apply tls_server_name_bracketed].
  pose proof (split_token _ _ _ Hw) as Htoken. pose proof (split_path _ _ _ Hw) as Hpath.
  destruct (parse_hostport_address _ _ _ Hw) as [Hparse _].
  unfold parse_uri, uri_of.
  replace (match strip_prefix "shroudb+tls://" _ with Some rest => Ok (true, rest) | None => _ end)
    with (Ok (E:=ClientError) (tls config, uri_rest config short path)) by by destruct (tls config).
  cbn -[split_once parse_hostport]. rewrite Htoken. cbn -[split_once parse_hostport].
  rewrite Hpath, Hparse. by destruct config.
Qed.

Lemma uri_roundtrip_witness :
  let config := {| host := "[::1]"; port := 6399; tls := true; auth_token := Some "s3cret/x" |} in
  parse_uri "shroudb+tls://s3cret/x@[::1]:6399/db@1" = Ok config
  /\ tls_server_name (address config) = "::1".
Proof.
  intros config.
  destruct (uri_roundtrip config false (Some "db@1") ltac:(vm_compute; reflexivity)) as (Hp & _ & Hb).
  split; [exact Hp|]. exact (Hb "::1" eq_refl eq_refl eq_refl).
Defined.
