(* ===== verification/DispatchSpec.v ===== *)
(** * What the dispatcher guarantees

    Properties of [execute] ([dispatch.rs]): a refused command has no effect, a
    pipeline is the sequence of its commands, a repeated request id replays the
    response, every permitted write leaves an audit record, no command that
    comes off the wire makes the server panic. *)
From S2P Require Import Prelude RustStr Externals Resp3 Resp3Reader Command ParseCommand Response Idempotency Handlers Dispatch Toy ParseSpec.
Open Scope Z_scope.

Section Spec.
Context `{StoreErrorText} `{!Acl}.
Context {S : Type} `{!Store S} {E : Type} `{!Engine E} {C : Type} `{!Clock C}.

Implicit Types (d : Dispatcher (S:=S) (E:=E) (C:=C)) (c : Command) (auth : option AuthContext).

(** The caller lacks what the command requires: the error it is owed. *)
Definition refused auth c (e : CommandError) : Prop :=
  acl_requirement c <> AclNone
  /\ match auth with
     | None => e = NotAuthenticated
     | Some ctx => exists why, auth_check ctx (acl_requirement c) = Err why /\ e = Denied why
     end.

Lemma refused_refusal auth c e : refused auth c e -> acl_refusal c auth = Some e.
Proof.
  unfold acl_refusal. intros [Hn Ha]. destruct auth as [ctx|]; [destruct Ha as (why & Hw & ->)|subst];
    destruct (acl_requirement c); try done; by rewrite Hw.
Qed.

(** The parts of the dispatcher that outlast a command and that others see. *)
Definition same_effects d d' : Prop :=
  store d = store d' /\ engine d = engine d' /\ reports d = reports d'.

#[export] Instance same_effects_equiv : Equivalence same_effects.
Proof.
  split; unfold same_effects; [done|intros ?? (?&?&?); done|].
  intros ??? (->&->&->) (->&->&->). done.
Qed.

Lemma read_instant_effects d : same_effects d (read_instant d).2.
Proof. unfold read_instant. by destruct (instant_now _). Qed.

Lemma lookup_request_effects rid d : same_effects d (lookup_request rid d).2.
Proof.
  destruct rid as [id|]; simpl; [|done]. pose proof (read_instant_effects d) as Hr.
  destruct (read_instant d) as [t d']. by destruct (idem_get _ _ _).
Qed.

Lemma remember_request_effects rid r d : same_effects d (remember_request rid r d).
Proof.
  destruct rid as [id|]; simpl; [|done]. pose proof (read_instant_effects d) as Hr.
  by destruct (read_instant d) as [t d'].
Qed.

(** What holds of a pipeline's effects when it holds of its commands'. *)
Lemma execute_pipeline_effects (R : Dispatcher -> Dispatcher -> Prop) `{!Reflexive R, !Transitive R}
    run rid d :
  (forall d1 d2, same_effects d1 d2 -> R d1 d2) ->
  (forall d1, R d1 (run d1).2) ->
  R d (execute_pipeline run rid d).2.
Proof.
  intros Hsame Hrun. unfold execute_pipeline.
  pose proof (lookup_request_effects rid d) as Hl.
  destruct (lookup_request rid d) as [[f|] d1]; simpl in *; [by apply Hsame|].
  transitivity d1; [by apply Hsame|].
  specialize (Hrun d1). destruct (run d1) as [[rs|] d2]; simpl in *; [|done].
  transitivity d2; [done|]. apply Hsame, remember_request_effects.
Qed.

Lemma execute_each_effects (R : Dispatcher -> Dispatcher -> Prop) `{!Reflexive R, !Transitive R}
    exec cs :
  Forall (fun c => forall d, R d (exec c d).2) cs ->
  forall d, R d (execute_each exec cs d).2.
Proof.
  induction 1 as [|c cs Hc _ IH]; intros d; [done|]. cbn [execute_each].
  specialize (Hc d). destruct (exec c d) as [[r|] d1]; simpl in *; [|done].
  transitivity d1; [done|]. specialize (IH d1). by destruct (execute_each exec cs d1).
Qed.

Lemma execute_not_pipeline auth c d :
  (forall cs rid, c <> Pipeline cs rid) -> execute auth c d = execute_single c auth d.
Proof. intros Hc. destruct c; try done. by destruct (Hc commands request_id). Qed.

Lemma leaves_not_pipeline c : (forall cs rid, c <> Pipeline cs rid) -> leaves c = [c].
Proof. intros Hc. destruct c; try done. by destruct (Hc commands request_id). Qed.

Lemma Forall_leaves_pipeline P cs rid :
  Forall P (leaves (Pipeline cs rid)) <-> Forall (fun c => Forall P (leaves c)) cs.
Proof.
  change (leaves (Pipeline cs rid)) with (flat_map leaves cs).
  induction cs as [|c cs IH]; [split; constructor|]. cbn [flat_map].
  by rewrite Forall_app, Forall_cons, IH.
Qed.

(** C1. ACL enforcement: when the caller may run none of the commands a
    request consists of (it is not authenticated, or the check of what the
    command requires fails), executing it changes neither the store, nor the
    engine's configuration or keys, nor the metrics and the audit log; and a
    refused command is answered "not authenticated" or with the reason of the
    denial, and leaves the dispatcher as it was. *)
Theorem acl_enforced auth c d :
  Forall (fun leaf => exists e, refused auth leaf e) (leaves c) ->
  same_effects d (execute auth c d).2
  /\ (forall e, (forall cs rid, c <> Pipeline cs rid) -> refused auth c e ->
        execute auth c d = (Some (Error e), d)).
Proof.
  intros Hl.
  split; [|intros e Hc He; rewrite execute_not_pipeline by done; unfold execute_single;
           by rewrite (refused_refusal _ _ _ He)].
  revert d Hl. induction c as [cs rid IH|c Hc] using command_ind'; intros d Hl.
  - apply (execute_pipeline_effects same_effects); [done|]. intros d1.
    apply (execute_each_effects same_effects).
    apply Forall_leaves_pipeline in Hl. rewrite Forall_forall in IH, Hl |- *. auto.
  - rewrite execute_not_pipeline by done. rewrite leaves_not_pipeline in Hl by done.
    apply Forall_inv in Hl as [e He%refused_refusal]. unfold execute_single. by rewrite He.
Qed.

(** ** Pipelines are sequences *)

Definition single auth : Command -> Dispatcher (S:=S) (E:=E) (C:=C) ->
    option CommandResponse * Dispatcher :=
  fun c d => execute_single c auth d.

(** Executing commands one after the other; a panic ends the sequence. *)
Fixpoint one_by_one auth (cs : list Command) d : option (list CommandResponse) * Dispatcher :=
  match cs with
  | [] => (Some [], d)
  | c :: rest =>
      match execute_single c auth d with
      | (None, d1) => (None, d1)
      | (Some r, d1) => let rs := one_by_one auth rest d1 in (option_map (cons r) rs.1, rs.2)
      end
  end.

Lemma execute_each_one_by_one auth cs d : execute_each (single auth) cs d = one_by_one auth cs d.
Proof.
  revert d. induction cs as [|c cs IH]; intros d; [done|]. cbn [execute_each one_by_one].
  unfold single at 1. destruct (execute_single c auth d) as [[r|] d1]; [|done].
  rewrite IH. by destruct (one_by_one auth cs d1).
Qed.

(** No request id anywhere in the command. *)
Fixpoint no_request_id c : bool :=
  match c with
  | Pipeline cs rid => bool_decide (rid = None) && forallb no_request_id cs
  | _ => true
  end.

(** The responses to the commands a response answers. *)
Fixpoint leaf_responses (r : CommandResponse) : list CommandResponse :=
  match r with RespArray items => flat_map leaf_responses items | _ => [r] end.

Lemma execute_each_app exec cs1 cs2 d :
  execute_each exec (cs1 ++ cs2) d =
    let '(rs1, d1) := execute_each exec cs1 d in
    match rs1 with
    | None => (None, d1)
    | Some rs1 =>
        let '(rs2, d2) := execute_each exec cs2 d1 in
        (match rs2 with Some rs2 => Some (rs1 ++ rs2)%list | None => None end, d2)
    end.
Proof.
  revert d. induction cs1 as [|c cs1 IH]; intros d; cbn [app execute_each].
  - by destruct (execute_each exec cs2 d) as [[]].
  - destruct (exec c d) as [[r|] d1]; [|done]. rewrite IH.
    destruct (execute_each exec cs1 d1) as [[rs1|] d2]; [|done].
    by destruct (execute_each exec cs2 d2) as [[]].
Qed.

(** Running [c] leaves what running its leaves leaves, with their responses. *)
Definition as_sequence auth c d : Prop :=
  execute_each (single auth) (leaves c) d =
    (option_map leaf_responses (execute auth c d).1, (execute auth c d).2).

Lemma execute_each_as_sequence auth cs :
  Forall (fun c => forall d, as_sequence auth c d) cs -> forall d,
  execute_each (single auth) (flat_map leaves cs) d =
    (option_map (flat_map leaf_responses) (execute_each (execute auth) cs d).1,
     (execute_each (execute auth) cs d).2).
Proof.
  induction 1 as [|c cs Hc _ IH]; intros d; [done|]. cbn [flat_map execute_each].
  rewrite execute_each_app, Hc. destruct (execute auth c d) as [[r|] d1]; cbn [option_map fst snd];
    [|done].
  rewrite IH. by destruct (execute_each (execute auth) cs d1) as [[rs|] d2].
Qed.

Lemma execute_single_shape auth c d r :
  (execute_single c auth d).1 = Some r -> leaf_responses r = [r].
Proof.
  unfold execute_single. destruct (acl_refusal c auth); [by intros [= <-]|].
  destruct (read_instant d) as [t d1]. destruct (dispatch c d1) as [[res|] d2]; [|done].
  destruct (read_instant d2) as [t' d3]. simpl. intros [= <-]. by destruct res.
Qed.

Lemma execute_as_sequence auth c : no_request_id c = true -> forall d, as_sequence auth c d.
Proof.
  induction c as [cs rid IH|c Hc] using command_ind'; intros Hn d; unfold as_sequence.
  - cbn [no_request_id] in Hn. apply andb_true_iff in Hn as [Hr Hcs].
    apply bool_decide_eq_true in Hr as ->.
    cbn [execute leaves]. rewrite execute_each_as_sequence.
    + unfold execute_pipeline. cbn [lookup_request].
      by destruct (execute_each (execute auth) cs d) as [[rs|] d1].
    + rewrite forallb_forall in Hcs. rewrite Forall_forall in IH |- *.
      intros c Hc. apply IH; [done|]. by apply Hcs, list_elem_of_In.
  - rewrite leaves_not_pipeline, execute_not_pipeline by done. cbn [execute_each]. unfold single.
    pose proof (execute_single_shape auth c d) as Hshape.
    destruct (execute_single c auth d) as [[r|] d1]; [|done].
    cbn [option_map fst snd]. by rewrite (Hshape r eq_refl).
Qed.


(** ** The audit log *)

(** The audit records, without their durations. *)
Definition audit_trail d : list (string * string * string) :=
  omap (fun r => match r with Audit op res _ actor => Some (op, res, actor) | _ => None end)
    (reports d).

Definition permitted auth c : bool :=
  match acl_refusal c auth with None => true | Some _ => false end.

Definition response_label (r : CommandResponse) : string :=
  match r with Success _ => "ok" | _ => "error" end.

(** The record a command and its response should have left. *)
Definition audit_record auth (cr : Command * CommandResponse) : option (string * string * string) :=
  let '(c, r) := cr in
  if permitted auth c && negb (is_read c) then Some (verb c, response_label r, actor_name auth)
  else None.

Lemma dispatch_reports c d : reports (dispatch c d).2 = reports d.
Proof.
  destruct c; simpl; try done; unfold with_store;
    try (match goal with |- context[let '(_, _) := ?x in _] => by destruct x end);
    destruct (engine d) as [e|]; try done.
  - destruct (system_secs (clock d)). by destruct (config_handle_set _ _ _ _).
  - by destruct (rekey_handle _ _).
Qed.

Lemma execute_single_audit auth c d r d' :
  execute_single c auth d = (Some r, d') ->
  audit_trail d' = (audit_trail d ++ omap (audit_record auth) [(c, r)])%list.
Proof.
  replace (omap (audit_record auth) [(c, r)]) with
    (if permitted auth c && negb (is_read c) then [(verb c, response_label r, actor_name auth)]
     else []) by (simpl; by case_match).
  unfold execute_single, audit_trail, permitted.
  destruct (acl_refusal c auth); [intros [= <- <-]; simpl; by rewrite app_nil_r|].
  unfold read_instant. destruct (instant_now (clock d)) as [t c1].
  pose proof (dispatch_reports c (set_clock c1 d)) as Hr.
  destruct (dispatch c (set_clock c1 d)) as [[res|] d1]; [|done].
  destruct (instant_now (clock d1)) as [t' c2]. intros [= <- <-]. simpl in Hr.
  destruct (is_read c); simpl; rewrite !omap_app, Hr; simpl; rewrite ?app_nil_r; [done|].
  by destruct res.
Qed.

Lemma execute_each_audit auth cs : forall d rs d',
  execute_each (single auth) cs d = (Some rs, d') ->
  audit_trail d' = (audit_trail d ++ omap (audit_record auth) (zip cs rs))%list.
Proof.
  induction cs as [|c cs IH]; intros d rs d'; cbn [execute_each].
  - intros [= <- <-]. simpl. by rewrite app_nil_r.
  - unfold single at 1. destruct (execute_single c auth d) as [[r|] d1] eqn:Hc; [|done].
    destruct (execute_each (single auth) cs d1) as [[rs'|] d2] eqn:Hcs; [|done].
    intros [= <- <-]. apply IH in Hcs. apply execute_single_audit in Hc.
    rewrite Hcs, Hc, <- app_assoc. f_equal.
    change (zip (c :: cs) (r :: rs')) with ([(c, r)] ++ zip cs rs')%list. by rewrite omap_app.
Qed.


(** ** Every success says so *)

Definition status_ok (r : CommandResponse) : Prop :=
  match r with Success m => head m = Some ("status", RVString "OK") | _ => True end.

Lemma head_map_with (m : ResponseMap) k v x : head m = Some x -> head (map_with m k v) = Some x.
Proof. unfold map_with. by destruct m. Qed.

Lemma on_store_status {A} (op : S -> result StoreError A * S) err ok s :
  (forall a, head (ok a) = Some ("status", RVString "OK")) ->
  match (on_store op err ok s).1 with
  | Ok m => head m = Some ("status", RVString "OK")
  | Err _ => True
  end.
Proof. intros Hok. unfold on_store. destruct (op s) as [[a|e] s']; [apply Hok|done]. Qed.

Lemma dispatch_status c d m d' :
  dispatch c d = (Some (Ok m), d') -> head m = Some ("status", RVString "OK").
Proof.
  assert (forall h, match (h (store d)).1 with
                    | Ok m => head m = Some ("status", RVString "OK") | Err _ => True end ->
    with_store h d = (Some (Ok m), d') -> head m = Some ("status", RVString "OK")) as Hws.
  { intros h Hh. unfold with_store. destruct (h (store d)) as [r s']. intros [= -> <-]. done. }
  destruct c; simpl; try done; try (by intros [= <- <-]);
    try (apply Hws;
         unfold put_handle, get_handle, delete_handle, put_if_handle, del_if_handle,
           del_prefix_handle, list_handle, versions_handle, namespace_handle_create,
           namespace_handle_drop, namespace_handle_list, namespace_handle_info,
           namespace_handle_alter, namespace_handle_validate;
         try (destruct (parse_metadata _); [|done]);
         try (destruct (namespace_parse_config _ _ _); [|done]); apply on_store_status; intros; unfold page_response,
           get_response; repeat case_match; by repeat apply head_map_with);
    (destruct (engine d) as [e|]; [|done]).
  - unfold config_handle_get. case_match; by intros [= <- <-].
  - unfold config_handle_set. destruct (system_secs (clock d)) as [[now|] c1]; [|done].
    repeat case_match; intros; by simplify_eq.
  - unfold rekey_handle. repeat case_match; intros; by simplify_eq.
  - unfold rekey_handle_status. case_match; by intros [= <- <-].
Qed.

Lemma execute_single_status auth c d r d' :
  execute_single c auth d = (Some r, d') -> status_ok r.
Proof.
  unfold execute_single. destruct (acl_refusal c auth); [by intros [= <- <-]|].
  destruct (read_instant d) as [t d1].
  destruct (dispatch c d1) as [[res|] d2] eqn:Hd; [|done].
  destruct (read_instant d2) as [t' d3]. intros [= <- <-].
  destruct res as [m|e]; [|done]. by apply dispatch_status in Hd.
Qed.

Lemma execute_each_status exec cs :
  Forall (fun c => forall d r d', exec c d = (Some r, d') -> Forall status_ok (leaf_responses r)) cs ->
  forall d rs d', execute_each exec cs d = (Some rs, d') ->
  Forall status_ok (flat_map leaf_responses rs).
Proof.
  induction 1 as [|c cs Hc _ IH]; intros d rs d'; cbn [execute_each]; [by intros [= <- <-]|].
  destruct (exec c d) as [[r|] d1] eqn:He; [|done].
  destruct (execute_each exec cs d1) as [[rs'|] d2] eqn:Hcs; [|done].
  intros [= <- <-]. cbn [flat_map]. apply Forall_app. eauto.
Qed.

(** Every success response carries [status: OK] as its first field,
    whatever the command, the store and the caller, also inside pipelines. *)
Theorem success_has_status auth c d r d' :
  execute auth c d = (Some r, d') -> Forall status_ok (leaf_responses r).
Proof.
  revert d r d'. induction c as [cs rid IH|c Hc] using command_ind'; intros d r d'.
  - cbn [execute]. unfold execute_pipeline.
    destruct (lookup_request rid d) as [[f|] d1]; [intros [= <- <-]; by repeat constructor|].
    destruct (execute_each (execute auth) cs d1) as [[rs|] d2] eqn:He; [|done].
    intros [= <- <-]. by eapply execute_each_status.
  - rewrite execute_not_pipeline by done. intros He.
    rewrite (execute_single_shape auth c d) by (by rewrite He).
    repeat constructor. by eapply execute_single_status.
Qed.


(** ** Panics *)

Lemma is_ascii_hexdigit_digit a : is_ascii_hexdigit a = true ->
  (exists n, hex_digit a = Some n) /\ is_boundary (String a "") = true /\ Ascii.eqb a "+" = false.
Proof.
  destruct a as [[] [] [] [] [] [] [] []]; intros Ha; try discriminate Ha;
    (split; [eexists; reflexivity|split; reflexivity]).
Qed.

Lemma hex_boundary s : all_chars is_ascii_hexdigit s = true -> is_boundary s = true.
Proof.
  destruct s as [|a s]; [done|]. simpl. intros [Ha _]%andb_true_iff.
  apply is_ascii_hexdigit_digit in Ha as (_ & Hb & _). done.
Qed.

Lemma decode_pairs_hex n : forall s,
  String.length s = (2 * n)%nat -> all_chars is_ascii_hexdigit s = true ->
  exists bs, decode_pairs s = Some (Ok bs) /\ length bs = n.
Proof.
  induction n as [|n IH]; intros s Hl Hs.
  - destruct s; [|done]. by exists [].
  - destruct s as [|a [|b s]]; simpl in Hl; [lia..|].
    cbn [all_chars] in Hs. apply andb_true_iff in Hs as [Ha [Hb Hs]%andb_true_iff].
    destruct (IH s) as (bs & Hd & Hlen); [lia|done|].
    apply is_ascii_hexdigit_digit in Ha as ((h & Ha) & _ & Hplus).
    apply is_ascii_hexdigit_digit in Hb as ((l & Hb) & _).
    cbn [decode_pairs]. rewrite (hex_boundary s Hs). cbn [negb]. unfold hex_byte.
    rewrite Hb, Hplus, Ha, Hd. eexists. split; [reflexivity|]. simpl. by rewrite Hlen.
Qed.

Lemma decode_hex_64 s : String.length s = 64%nat -> all_chars is_ascii_hexdigit s = true ->
  exists bs, decode_hex s = Some (Ok bs) /\ length bs = 32%nat.
Proof.
  intros Hl Hs. unfold decode_hex. rewrite Hl. by apply decode_pairs_hex.
Qed.

Lemma dispatch_no_panic c d :
  command_wf c -> (forall cs rid, c <> Pipeline cs rid) -> (dispatch c d).1 <> None.
Proof.
  intros Hwf Hc.
  destruct c; simpl; try done; unfold with_store;
    try (match goal with |- context[let '(_, _) := ?x in _] => by destruct x end);
    try (by destruct (Hc commands request_id)); (destruct (engine d) as [e|]; [|done]); try done.
  - destruct (system_secs (clock d)). by destruct (config_handle_set _ _ _ _).
  - unfold rekey_handle. destruct Hwf as [Hl Hh].
    destruct (decode_hex_64 _ Hl Hh) as (bs & -> & Hlen). rewrite Hlen. simpl.
    by destruct (begin_rekey_from_bytes bs e).
Qed.

Lemma execute_each_no_panic exec cs :
  Forall (fun c => forall d, (exec c d).1 <> None) cs ->
  forall d, (execute_each exec cs d).1 <> None.
Proof.
  induction 1 as [|c cs Hc _ IH]; intros d; [done|]. cbn [execute_each].
  specialize (Hc d). destruct (exec c d) as [[r|] d1]; [|done].
  specialize (IH d1). by destruct (execute_each exec cs d1) as [[]].
Qed.

Lemma execute_single_no_panic auth c d :
  command_wf c -> (forall cs rid, c <> Pipeline cs rid) -> (execute_single c auth d).1 <> None.
Proof.
  intros Hwf Hc. unfold execute_single. destruct (acl_refusal c auth); [done|].
  destruct (read_instant d) as [t d1]. pose proof (dispatch_no_panic c d1 Hwf Hc) as Hp.
  destruct (dispatch c d1) as [[res|] d2]; [|done]. by destruct (read_instant d2).
Qed.

Lemma execute_answers auth c d : command_wf c -> (execute auth c d).1 <> None.
Proof.
  revert d. induction c as [cs rid IH|c Hc] using command_ind'; intros d Hwf.
  - apply command_wf_pipeline in Hwf as (_ & _ & Hcs). cbn [execute]. unfold execute_pipeline.
    destruct (lookup_request rid d) as [[f|] d1]; [done|].
    assert ((execute_each (execute auth) cs d1).1 <> None) as Hp.
    { apply execute_each_no_panic. rewrite Forall_forall in IH, Hcs |- *. auto. }
    by destruct (execute_each (execute auth) cs d1) as [[rs|] d2].
  - rewrite execute_not_pipeline by done. by apply execute_single_no_panic.
Qed.

(** C19. No command that parses can make the server panic: the dispatcher
    answers every well-formed command, in every state, for every caller; the
    slices taken of a new master key's digits are in bounds and the branch
    marked unreachable is not reached. *)
Theorem execute_no_panic auth c d : command_wf c -> (execute auth c d).1 <> None.
Proof. apply execute_answers. Qed.


(** ** A new master key arrives as it was written *)

(** Two lower-case hexadecimal digits per byte. *)
Fixpoint hex_encode (bs : bytes) : string :=
  match bs with
  | [] => ""
  | b :: bs' =>
      let n := Byte.to_N b in
      String (hex_char (n / 16)) (String (hex_char (n mod 16)) (hex_encode bs'))
  end.

Lemma hex_encode_byte b :
  let n := Byte.to_N b in
  let hi := hex_char (n / 16) in
  let lo := hex_char (n mod 16) in
  is_ascii_hexdigit hi = true /\ is_ascii_hexdigit lo = true
  /\ hex_byte hi lo = Ok (Z.of_N n) /\ byte_of_ascii (ascii_of_N n) = b.
Proof. destruct b; vm_compute; auto. Qed.

Lemma hex_encode_hex bs :
  String.length (hex_encode bs) = (2 * length bs)%nat
  /\ all_chars is_ascii_hexdigit (hex_encode bs) = true
  /\ decode_pairs (hex_encode bs) = Some (Ok bs).
Proof.
  induction bs as [|b bs (IHl & IHc & IHd)]; [done|].
  destruct (hex_encode_byte b) as (Hhi & Hlo & Hb & Hback).
  cbn [hex_encode String.length all_chars decode_pairs length]. rewrite IHl, IHc, Hhi, Hlo.
  rewrite (hex_boundary _ IHc), Hb, IHd. cbn [negb mbind option_bind].
  rewrite N2Z.id, Hback. split_and!; [lia|done|done].
Qed.

Lemma hex_text s : all_chars is_ascii_hexdigit s = true -> text s.
Proof.
  intros Hs. apply utf8_ascii. apply all_chars_bytes in Hs.
  eapply Forall_impl; [done|]. intros b Hb. cbn beta in Hb. revert Hb. by destruct b.
Qed.

(** REKEY round trip: a 32-byte key sent as hexadecimal text reaches the
    engine as those 32 bytes. The request parses, and executing it as an
    administrator starts the rekey with exactly this key and reports the
    engine's verdict. *)
Theorem rekey_roundtrip (key : bytes) (e : E) :
  length key = 32%nat ->
  parse_command (words_frame ["REKEY"; hex_encode key]) = Ok (Rekey (hex_encode key))
  /\ rekey_handle (hex_encode key) e =
       let '(r, e') := begin_rekey_from_bytes key e in
       (Some (match r with
              | Ok _ => Ok (map_with map_ok "message" (RVString "rekey started"))
              | Err m => Err (Internal m)
              end), e').
Proof.
  intros Hk. destruct (hex_encode_hex key) as (Hl & Hc & Hd). rewrite Hk in Hl. split.
  - rewrite parse_words; [|repeat constructor; [by apply text_ascii|by apply hex_text]|done].
    unfold parse_flat, parse_rekey. simpl.
    destruct (eq_ignore_ascii_case (hex_encode key) "STATUS") eqn:Hst.
    + apply eq_ignore_length in Hst. by rewrite Hl in Hst.
    + by rewrite Hl, Hc.
  - unfold rekey_handle, decode_hex. rewrite Hl, Hd. simpl. by rewrite Hk.
Qed.


(** ** Replays *)

Context `{!ClockLaws C}.

(** The request ids in a command. *)
Fixpoint request_ids c : list string :=
  match c with
  | Pipeline cs rid => (option_list rid ++ flat_map request_ids cs)%list
  | _ => []
  end.

(** From [d] to [d'] time has not gone back and, as seen from then on, the
    responses cached for the ids in [P] are the same. *)
Definition keeps (P : string -> Prop) d d' : Prop :=
  not_before (clock d) <= not_before (clock d')
  /\ ttl_secs (idempotency d') = ttl_secs (idempotency d)
  /\ forall id now, P id -> not_before (clock d') <= now ->
       cached (idempotency d') now id = cached (idempotency d) now id.

#[local] Instance keeps_preorder P : PreOrder (keeps P).
Proof.
  split; [by intros d|]. intros d1 d2 d3 (Hn1 & Ht1 & Hc1) (Hn2 & Ht2 & Hc2).
  split_and!; [lia|congruence|]. intros id now Hid Hnow. rewrite Hc2, Hc1; [done|done|lia|done|done].
Qed.

Lemma read_instant_keeps P d t d1 :
  read_instant d = (t, d1) ->
  keeps P d d1 /\ idempotency d1 = idempotency d
  /\ not_before (clock d) <= t <= not_before (clock d1).
Proof.
  unfold read_instant. destruct (instant_now (clock d)) as [t' c'] eqn:Hi. intros [= <- <-].
  apply instant_now_between in Hi. unfold keeps. simpl. split_and!; try done; lia.
Qed.

Lemma dispatch_keeps P c d : keeps P d (dispatch c d).2.
Proof.
  assert (forall h, keeps P d (with_store h d).2) as Hs.
  { intros h. unfold with_store, keeps. by destruct (h (store d)). }
  destruct c; simpl; try apply Hs; try reflexivity; (destruct (engine d) as [e|]; [|reflexivity]);
    try reflexivity.
  - destruct (system_secs (clock d)) as [now c'] eqn:Hn.
    destruct (config_handle_set _ _ _ _) as [r e']. apply system_secs_keeps in Hn. done.
  - by destruct (rekey_handle _ _).
Qed.

Lemma report_keeps P r d : keeps P d (report r d).
Proof. done. Qed.

Lemma execute_single_keeps P auth c d : keeps P d (execute_single c auth d).2.
Proof.
  unfold execute_single. destruct (acl_refusal c auth); [reflexivity|].
  destruct (read_instant d) as [t d1] eqn:Hi1. apply (read_instant_keeps P) in Hi1 as [Hi1 _].
  pose proof (dispatch_keeps P c d1) as Hi2.
  destruct (dispatch c d1) as [[res|] d2]; simpl in *; [|by transitivity d1].
  destruct (read_instant d2) as [t' d3] eqn:Hi4. apply (read_instant_keeps P) in Hi4 as [Hi4 _].
  simpl. transitivity d1; [done|]. transitivity d2; [done|]. transitivity d3; [done|].
  by destruct (is_read c).
Qed.

Lemma lookup_request_keeps P rid d : keeps P d (lookup_request rid d).2.
Proof.
  destruct rid as [id|]; [|reflexivity]. cbn [lookup_request].
  destruct (read_instant d) as [t d1] eqn:Hi1. apply (read_instant_keeps P) in Hi1 as (Hi1 & Hi & Ht).
  pose proof (idem_get_keeps t id (idempotency d1)) as Hk.
  assert (ttl_secs (idem_get t id (idempotency d1)).2 = ttl_secs (idempotency d1)) as Htt
    by (unfold idem_get; by repeat case_match).
  destruct (idem_get t id (idempotency d1)) as [f m]. simpl in *.
  transitivity d1; [done|]. split_and!; [done|done|].
  intros id' now _ Hnow. apply Hk. simpl in Hnow. lia.
Qed.

Lemma remember_request_keeps P rid r d :
  (forall id, P id -> id ∉ option_list rid) -> keeps P d (remember_request rid r d).
Proof.
  destruct rid as [id|]; [|reflexivity]. intros Hid. cbn [remember_request].
  destruct (read_instant d) as [t d1] eqn:Hi1. apply (read_instant_keeps P) in Hi1 as (Hi1 & _ & _).
  transitivity d1; [done|]. split_and!; [done|done|].
  intros id' now Hp _. cbn [idempotency set_idempotency]. rewrite idem_insert_lookup, decide_False; [done|].
  intros ->. apply (Hid _ Hp). simpl. by left.
Qed.

Lemma execute_pipeline_keeps P run rid d :
  (forall id, P id -> id ∉ option_list rid) -> (forall d1, keeps P d1 (run d1).2) ->
  keeps P d (execute_pipeline run rid d).2.
Proof.
  intros Hid Hrun. unfold execute_pipeline. pose proof (lookup_request_keeps P rid d) as Hl.
  destruct (lookup_request rid d) as [[f|] d1]; [done|].
  specialize (Hrun d1). destruct (run d1) as [[rs|] d2]; simpl in *; [|by transitivity d1].
  transitivity d1; [done|]. transitivity d2; [done|]. by apply remember_request_keeps.
Qed.

Lemma execute_keeps P auth c : (forall id, P id -> id ∉ request_ids c) ->
  forall d, keeps P d (execute auth c d).2.
Proof.
  induction c as [cs rid IH|c Hc] using command_ind'; intros Hid d.
  - cbn [execute]. apply execute_pipeline_keeps.
    + intros id Hp Hin. apply (Hid id Hp). cbn [request_ids]. apply elem_of_app. by left.
    + apply (execute_each_effects (keeps P)). rewrite Forall_forall in IH |- *.
      intros c Hc. apply IH; [done|]. intros id Hp Hin. apply (Hid id Hp). cbn [request_ids].
      apply elem_of_app. right. apply list_elem_of_In, in_flat_map. exists c.
      by rewrite <- !list_elem_of_In.
  - rewrite execute_not_pipeline by done. apply execute_single_keeps.
Qed.

(** What other callers do in between. *)
Definition interlude (others : list (option AuthContext * Command)) d : Dispatcher :=
  fold_left (fun d '(a, c) => (execute a c d).2) others d.

Lemma interlude_keeps P others : forall d,
  Forall (fun ac => forall id, P id -> id ∉ request_ids ac.2) others ->
  keeps P d (interlude others d).
Proof.
  induction others as [|[a c] others IH]; intros d Ho; [reflexivity|].
  apply Forall_cons in Ho as [Hc Ho]. cbn. transitivity (execute a c d).2.
  - by apply execute_keeps.
  - by apply IH.
Qed.

(** C16. Idempotent replay: once a pipeline with a request id has been executed,
    any pipeline with that id, whatever its commands and whoever sends it, is
    answered within 300 seconds with the frame of the first response, and
    changes neither the store nor the engine nor the logs; whatever requests
    without that id were executed in between. *)
Theorem pipeline_replay auth cs id d rs d1 others auth' cs' t (ck : C) :
  ttl_secs (idempotency d) = DEFAULT_TTL_SECS ->
  execute auth (Pipeline cs (Some id)) d = (Some (RespArray rs), d1) ->
  Forall (fun ac => id ∉ request_ids ac.2) others ->
  instant_now (clock (interlude others d1)) = (t, ck) ->
  t < not_before (clock d) + DEFAULT_TTL_SECS * nanos_per_sec ->
  (execute auth' (Pipeline cs' (Some id)) (interlude others d1)).1
    = Some (CachedFrame (Array (map response_to_frame rs)))
  /\ same_effects (interlude others d1) (execute auth' (Pipeline cs' (Some id)) (interlude others d1)).2.
Proof.
  intros Httl He Ho Ht Hlt.
  assert (cached (idempotency (interlude others d1)) t id = Some (Array (map response_to_frame rs)))
    as Hcached.
  { assert (keeps (eq id) d1 (interlude others d1)) as (Hn & _ & Hk).
    { apply interlude_keeps. eapply Forall_impl; [exact Ho|]. by intros [a c] Hc ? <-. }
    apply instant_now_between in Ht. rewrite Hk; [|done|lia].
    cbn [execute] in He. unfold execute_pipeline in He.
    pose proof (lookup_request_keeps (fun _ => False) (Some id) d) as (Hn1 & Ht1 & _).
    destruct (lookup_request (Some id) d) as [[f|] d2]; [done|]. simpl in Hn1, Ht1.
    assert (keeps (fun _ => False) d2 (execute_each (execute auth) cs d2).2) as (Hn2 & Ht2 & _).
    { apply (execute_each_effects (keeps _)), Forall_forall. intros c _. by apply execute_keeps. }
    destruct (execute_each (execute auth) cs d2) as [[rs'|] d3]; [|done]. simpl in Hn2, Ht2.
    injection He as -> <-. cbn [remember_request].
    destruct (read_instant d3) as [t4 d4] eqn:Hi4.
    apply (read_instant_keeps (fun _ => False)) in Hi4 as ((_ & Ht4 & _) & _ & Hb4). cbn [idempotency set_idempotency].
    rewrite idem_insert_lookup, decide_True by done.
    rewrite (proj2 (Z.ltb_lt _ _)); [done|]. rewrite Ht4, Ht2, Ht1, Httl.
    apply elapsed_under; [lia|done]. }
  cbn [execute]. unfold execute_pipeline. cbn [lookup_request]. unfold read_instant. rewrite Ht.
  cbn [idempotency set_clock]. rewrite <- idem_get_cached in Hcached.
  destruct (idem_get t id (idempotency (interlude others d1))) as [f m]. simpl in Hcached.
  rewrite Hcached. by split.
Qed.

End Spec.

(** ** Concrete runs *)

Definition put_k : Command := Put "ns" (as_bytes "k") (as_bytes "v") None None.
Definition get_k : Command := Get "ns" (as_bytes "k") None false.

Lemma acl_enforced_witness :
  same_effects toy_dispatcher
    (execute toy_reader (Pipeline [put_k; NamespaceDrop "ns" true] None) toy_dispatcher).2.
Proof.
  apply (acl_enforced toy_reader (Pipeline [put_k; NamespaceDrop "ns" true] None) toy_dispatcher).
  repeat constructor; eexists; (split; [discriminate|]); eexists; split; reflexivity.
Defined.

(** A write, a failing read and another write: both writes happen. *)
Definition mixed : Command :=
  Pipeline [put_k; Get "ns" (as_bytes "missing") None false; put_k] None.


Definition mixed_response : CommandResponse :=
  RespArray [Success (version_response 1); Error NotFound; Success (version_response 2)].


Lemma success_has_status_witness : Forall status_ok (leaf_responses mixed_response).
Proof.
  apply (success_has_status toy_writer mixed toy_dispatcher mixed_response
    (execute toy_writer mixed toy_dispatcher).2).
  vm_compute. reflexivity.
Defined.

Definition new_key : bytes := repeat Byte.xab 32.

Lemma execute_no_panic_witness :
  (execute toy_root (Rekey (hex_encode new_key)) toy_dispatcher).1 <> None.
Proof.
  apply (execute_no_panic toy_root (Rekey (hex_encode new_key)) toy_dispatcher).
  split; reflexivity.
Defined.

Lemma rekey_roundtrip_witness :
  (rekey_handle (hex_encode new_key)
    {| toy_settings := ∅; toy_log := []; toy_new_key := None |}).2
  = {| toy_settings := ∅; toy_log := []; toy_new_key := Some new_key |}.
Proof.
  rewrite (proj2 (rekey_roundtrip new_key
    {| toy_settings := ∅; toy_log := []; toy_new_key := None |} eq_refl)).
  reflexivity.
Defined.

(** The writer's pipeline is replayed to a caller who has not authenticated. *)
Lemma pipeline_replay_witness :
  let d1 := (execute toy_writer (Pipeline [put_k] (Some "r")) toy_dispatcher).2 in
  (execute None (Pipeline [get_k] (Some "r")) (interlude [(toy_writer, put_k)] d1)).1
  = Some (CachedFrame (Array [response_to_frame (Success (version_response 1))])).
Proof.
  intros d1.
  apply (pipeline_replay toy_writer [put_k] "r" toy_dispatcher [Success (version_response 1)] d1
    [(toy_writer, put_k)] None [get_k]
    (instant_now (clock (interlude [(toy_writer, put_k)] d1))).1
    (instant_now (clock (interlude [(toy_writer, put_k)] d1))).2).
  - reflexivity.
  - vm_compute. reflexivity.
  - repeat constructor. apply not_elem_of_nil.
  - reflexivity.
  - vm_compute. reflexivity.
Defined.
