(* ===== verification/ConcurrentSpec.v ===== *)
(** * What holds however requests interleave

    Properties of the shared dispatcher ([dispatch.rs]) when the calls of
    several connections interleave: a call alone is [execute]; every call
    returns after a bounded number of its own steps, whatever the others do;
    the outcome is that of running the commands one at a time, each request's
    in its order; and two calls with the same request id can both run. *)
From S2P Require Import Prelude RustStr Externals Resp3 Command ParseCommand Response Idempotency Handlers Dispatch Concurrent Toy ParseSpec DispatchSpec.
Open Scope Z_scope.

Section Spec.
Context `{StoreErrorText} `{!Acl}.
Context {S : Type} `{!Store S} {E : Type} `{!Engine E} {C : Type} `{!Clock C}.

Implicit Types (d : Dispatcher (S:=S) (E:=E) (C:=C)) (c : Command) (auth : option AuthContext)
  (t : Flight) (s : Pool (S:=S) (E:=E) (C:=C)) (stack : list Pending) (p : Pending).

(** ** Progress *)

(** The steps a call takes at most, and those a task has left. *)
Fixpoint cost c : nat :=
  match c with
  | Pipeline cs _ => (2 + list_sum (map (fun c => cost c + 2) cs))%nat
  | _ => 1%nat
  end.

Definition loop_work (cs : list Command) : nat := list_sum (map (fun c => cost c + 2)%nat cs).

Definition stack_work stack : nat := list_sum (map (fun p => 2 + loop_work (pd_rest p))%nat stack).

Lemma loop_work_cons c cs : loop_work (c :: cs) = (cost c + 2 + loop_work cs)%nat.
Proof. done. Qed.

Lemma stack_work_cons p stack :
  stack_work (p :: stack) = (2 + loop_work (pd_rest p) + stack_work stack)%nat.
Proof. done. Qed.

Definition work t : nat :=
  match t with
  | Calling c stack => (cost c + stack_work stack)%nat
  | Looping p stack => (1 + loop_work (pd_rest p) + stack_work stack)%nat
  | Returning _ stack => stack_work stack
  | Crashed => 0%nat
  end.

Definition finished t : bool :=
  match t with Returning _ [] | Crashed => true | _ => false end.

Lemma flight_step_single auth c stack d : (forall cs rid, c <> Pipeline cs rid) ->
  flight_step auth (Calling c stack) d =
    let '(r, d) := execute_single c auth d in
    (match r with Some r => Returning r stack | None => Crashed end, d).
Proof. intros Hc. destruct c; try done. by destruct (Hc commands request_id). Qed.

Lemma cost_single c : (forall cs rid, c <> Pipeline cs rid) -> cost c = 1%nat.
Proof. intros Hc. destruct c; try done. by destruct (Hc commands request_id). Qed.

Lemma pipeline_or_single c :
  (exists cs rid, c = Pipeline cs rid) \/ (forall cs rid, c <> Pipeline cs rid).
Proof. destruct c; eauto; by right. Qed.

Lemma flight_step_work auth t d :
  finished t = false -> (work (flight_step auth t d).1 < work t)%nat.
Proof.
  destruct t as [c stack|p stack|r [|p stack]|]; intros Hf; try discriminate.
  - destruct (pipeline_or_single c) as [(cs & rid & ->)|Hc].
    + cbn [flight_step]. destruct (lookup_request rid d) as [[f|] d1];
        cbn [work cost fst pd_rest]; unfold loop_work; lia.
    + rewrite flight_step_single by done. destruct (execute_single c auth d) as [[r|] d1];
        cbn [work fst]; rewrite cost_single by done; lia.
  - cbn [flight_step]. destruct (pd_rest p) as [|c rest] eqn:Hr; cbn [work fst]; rewrite Hr; [lia|].
    rewrite stack_work_cons, loop_work_cons. cbn [pd_rest]. lia.
  - cbn [flight_step work fst pd_rest]. rewrite stack_work_cons. lia.
Qed.

Lemma work_finished t : work t = 0%nat -> finished t = true.
Proof.
  destruct t as [c stack|p stack|r [|p stack]|]; cbn; try done; try lia.
  destruct (pipeline_or_single c) as [(cs & rid & ->)|Hc]; [cbn; lia|].
  rewrite cost_single by done. lia.
Qed.

(** What the commands of a task are. *)
Definition all_commands (P : Command -> Prop) t : Prop :=
  let loops := Forall (fun p => Forall P (pd_rest p)) in
  match t with
  | Calling c stack => P c /\ loops stack
  | Looping p stack => loops (p :: stack)
  | Returning _ stack => loops stack
  | Crashed => False
  end.

Lemma flight_step_wf auth t d :
  all_commands command_wf t -> all_commands command_wf (flight_step auth t d).1.
Proof.
  destruct t as [c stack|p stack|r [|p stack]|]; cbn [all_commands]; intros Hwf; try done.
  - destruct Hwf as [Hc Hs]. destruct (pipeline_or_single c) as [(cs & rid & ->)|Hn].
    + apply command_wf_pipeline in Hc as (_ & _ & Hcs). cbn [flight_step].
      destruct (lookup_request rid d) as [[f|] d1]; [done|]. by constructor.
    + rewrite flight_step_single by done.
      pose proof (execute_single_no_panic auth c d Hc Hn) as Hp.
      by destruct (execute_single c auth d) as [[r|] d1].
  - apply Forall_cons in Hwf as [Hp Hs]. cbn [flight_step].
    destruct (pd_rest p) as [|c rest]; [done|]. apply Forall_cons in Hp as [Hc Hr].
    split; [done|]. by constructor.
  - apply Forall_cons in Hwf as [Hp Hs]. by constructor.
Qed.

(** ** Steps of the pool *)

Lemma pool_step_self i s auth t :
  flights s !! i = Some (auth, t) ->
  flights (pool_step i s) !! i = Some (auth, (flight_step auth t (shared s)).1)
  /\ shared (pool_step i s) = (flight_step auth t (shared s)).2.
Proof.
  intros Hi. unfold pool_step. rewrite Hi. destruct (flight_step auth t (shared s)). cbn.
  by rewrite list_lookup_insert_eq by (by eapply lookup_lt_Some).
Qed.

Lemma pool_step_other i j s : i <> j -> flights (pool_step j s) !! i = flights s !! i.
Proof.
  intros Hn. unfold pool_step. destruct (flights s !! j) as [[a t]|]; [|done].
  destruct (flight_step a t (shared s)). cbn. by rewrite list_lookup_insert_ne.
Qed.

Lemma pool_step_none i s : flights s !! i = None -> pool_step i s = s.
Proof. intros Hi. unfold pool_step. by rewrite Hi. Qed.

Lemma finished_stays i s auth t schedule :
  finished t = true -> flights s !! i = Some (auth, t) ->
  flights (pool_run schedule s) !! i = Some (auth, t).
Proof.
  intros Hf. revert s. induction schedule as [|j schedule IH]; intros s Hi; [done|]. cbn.
  apply IH. destruct (decide (i = j)) as [<-|Hn]; [|by rewrite pool_step_other].
  destruct (pool_step_self i s auth t Hi) as [-> _].
  by destruct t as [| |r [|p stack]|].
Qed.

Lemma finished_answer i s auth t schedule :
  finished t = true -> all_commands command_wf t -> flights s !! i = Some (auth, t) ->
  exists r, flights (pool_run schedule s) !! i = Some (auth, Returning r []).
Proof.
  intros Hf Hwf Hi. rewrite (finished_stays i s auth t) by done.
  destruct t as [| |r [|p stack]|]; eauto; done.
Qed.

Lemma pool_run_returns schedule i auth : forall s t,
  flights s !! i = Some (auth, t) -> all_commands command_wf t ->
  (work t <= count_occ Nat.eq_dec schedule i)%nat ->
  exists r, flights (pool_run schedule s) !! i = Some (auth, Returning r []).
Proof.
  induction schedule as [|j schedule IH]; intros s t Hi Hwf Hw;
    (destruct (finished t) eqn:Hf; [by apply (finished_answer i s auth t)|]).
  - rewrite work_finished in Hf; [done|]. cbn in Hw. lia.
  - cbn [count_occ] in Hw.
    change (pool_run (j :: schedule) s) with (pool_run schedule (pool_step j s)).
    destruct (Nat.eq_dec j i) as [->|Hn].
    + destruct (pool_step_self i s auth t Hi) as [Hs _].
      apply (IH _ _ Hs); [by apply flight_step_wf|].
      pose proof (flight_step_work auth t (shared s) Hf). lia.
    + apply (IH _ t); [by rewrite pool_step_other|done|done].
Qed.


(** ** A call alone *)

Fixpoint flight_iter auth (n : nat) (td : Flight * Dispatcher) : Flight * Dispatcher :=
  match n with
  | O => td
  | Datatypes.S n => flight_iter auth n (flight_step auth td.1 td.2)
  end.

Lemma flight_iter_add auth n m td :
  flight_iter auth (n + m) td = flight_iter auth m (flight_iter auth n td).
Proof. revert td. induction n as [|n IH]; intros td; [done|]. apply IH. Qed.

(** Where a call that started with [stack] under it ends. *)
Definition returned (o : option CommandResponse * Dispatcher (S:=S) (E:=E) (C:=C)) stack
    : Flight * Dispatcher :=
  (match o.1 with Some r => Returning r stack | None => Crashed end, o.2).

Lemma flight_iter_crashed auth n d : flight_iter auth n (Crashed, d) = (Crashed, d).
Proof. by induction n. Qed.

(** The loop over the commands of a pipeline, given that each of them ends. *)
Lemma flight_iter_loop auth cs :
  Forall (fun c => forall stack d, exists n, (n <= cost c)%nat /\
    flight_iter auth n (Calling c stack, d) = returned (execute auth c d) stack) cs ->
  forall results rid stack d, exists n, (n <= 1 + loop_work cs)%nat /\
    flight_iter auth n
      (Looping {| pd_rest := cs; pd_results := results; pd_request_id := rid |} stack, d)
    = match execute_each (execute auth) cs d with
      | (Some rs, d1) =>
          let response := RespArray (results ++ rs) in
          (Returning response stack, remember_request rid response d1)
      | (None, d1) => (Crashed, d1)
      end.
Proof.
  induction 1 as [|c cs Hc _ IH]; intros results rid stack d.
  - exists 1%nat. split; [cbn; lia|]. cbn. by rewrite app_nil_r.
  - set (below := {| pd_rest := cs; pd_results := results; pd_request_id := rid |} :: stack).
    destruct (Hc below d) as (n & Hn & Hit). cbn [execute_each]. rewrite loop_work_cons.
    destruct (execute auth c d) as [[r|] d1]; unfold returned in Hit; cbn [fst snd] in Hit.
    + destruct (IH (results ++ [r])%list rid stack d1) as (m & Hm & Him).
      exists (Datatypes.S (n + Datatypes.S m))%nat. split; [lia|].
      cbn [flight_iter flight_step fst snd pd_rest pd_results pd_request_id].
      fold below. rewrite flight_iter_add, Hit. unfold below.
      cbn [flight_iter flight_step fst snd pd_rest pd_results pd_request_id]. rewrite Him.
      destruct (execute_each (execute auth) cs d1) as [[rs|] d2]; [|done].
      by rewrite <- app_assoc.
    + exists (Datatypes.S n). split; [lia|].
      cbn [flight_iter flight_step fst snd pd_rest pd_results pd_request_id]. by fold below.
Qed.

Lemma flight_iter_execute auth c : forall stack d, exists n, (n <= cost c)%nat /\
  flight_iter auth n (Calling c stack, d) = returned (execute auth c d) stack.
Proof.
  induction c as [cs rid IH|c Hc] using command_ind'; intros stack d.
  - cbn [execute]. unfold execute_pipeline. change (cost (Pipeline cs rid)) with (2 + loop_work cs)%nat.
    destruct (lookup_request rid d) as [[f|] d1] eqn:Hl.
    + exists 1%nat. split; [lia|]. cbn [flight_iter flight_step fst snd]. by rewrite Hl.
    + destruct (flight_iter_loop auth cs IH [] rid stack d1) as (n & Hn & Hit).
      exists (Datatypes.S n). split; [lia|].
      cbn [flight_iter flight_step fst snd]. rewrite Hl, Hit.
      by destruct (execute_each (execute auth) cs d1) as [[rs|] d2].
  - exists 1%nat. rewrite cost_single, execute_not_pipeline by done. split; [done|].
    cbn [flight_iter fst snd]. rewrite flight_step_single by done.
    by destruct (execute_single c auth d) as [[r|] d1].
Qed.

(** A task that is scheduled alone. *)
Lemma pool_run_alone i auth n : forall s t,
  flights s !! i = Some (auth, t) ->
  pool_run (repeat i n) s =
    {| shared := (flight_iter auth n (t, shared s)).2;
       flights := <[i := (auth, (flight_iter auth n (t, shared s)).1)]> (flights s) |}.
Proof.
  induction n as [|n IH]; intros s t Hi.
  - cbn. rewrite list_insert_id by done. by destruct s.
  - cbn [repeat pool_run fold_left]. change (fold_left _ (repeat i n) ?x) with (pool_run (repeat i n) x).
    destruct (pool_step_self i s auth t Hi) as [Hs Hd]. rewrite (IH _ _ Hs), Hd.
    cbn [flight_iter fst snd].
    destruct (flight_step auth t (shared s)) as [t1 d1] eqn:Ht. cbn [fst snd] in *. f_equal.
    unfold pool_step. rewrite Hi, Ht. cbn [flights]. by rewrite list_insert_insert_eq.
Qed.


(** ** Every interleaving is a sequence of single commands *)

(** What was executed: the task, the command, the answer. *)
Abbreviation log_entry := (nat * Command * CommandResponse)%type.

(** [d'] is what running the entries one after the other on [d] leaves, each
    with its task's credentials and with the answer it records. *)
Fixpoint replays (auths : list (option AuthContext)) (log : list log_entry) d d' : Prop :=
  match log with
  | [] => d' = d
  | (i, c, r) :: log =>
      exists auth d1, auths !! i = Some auth /\ execute_single c auth d = (Some r, d1)
        /\ replays auths log d1 d'
  end.

Definition entries_of (i : nat) (log : list log_entry) : list log_entry :=
  List.filter (fun e => Nat.eqb e.1.1 i) log.
Definition commands_of (i : nat) (log : list log_entry) : list Command :=
  map (fun e => e.1.2) (entries_of i log).
Definition answers_of (i : nat) (log : list log_entry) : list CommandResponse :=
  map snd (entries_of i log).

(** The commands a task has still to run, and the answers it has collected. *)
Definition stack_todo stack : list Command := flat_map (fun p => flat_map leaves (pd_rest p)) stack.

Definition todo t : list Command :=
  match t with
  | Calling c stack => leaves c ++ stack_todo stack
  | Looping p stack => stack_todo (p :: stack)
  | Returning _ stack => stack_todo stack
  | Crashed => []
  end.

Fixpoint stack_answers stack : list CommandResponse :=
  match stack with
  | [] => []
  | p :: stack => stack_answers stack ++ flat_map leaf_responses (pd_results p)
  end.

Definition answered t : list CommandResponse :=
  match t with
  | Calling _ stack => stack_answers stack
  | Looping p stack => stack_answers (p :: stack)
  | Returning r stack => stack_answers stack ++ leaf_responses r
  | Crashed => []
  end.

(** Well-formed commands without request ids. *)
Definition plain c : Prop := command_wf c /\ no_request_id c = true.

Definition anonymous t : Prop :=
  let none := Forall (fun p => pd_request_id p = None) in
  match t with
  | Calling _ stack | Returning _ stack => none stack
  | Looping p stack => none (p :: stack)
  | Crashed => True
  end.

Definition tame t : Prop := all_commands plain t /\ anonymous t.

Lemma plain_pipeline cs rid : plain (Pipeline cs rid) -> rid = None /\ Forall plain cs.
Proof.
  intros [(_ & _ & Hwf)%command_wf_pipeline Hn]. cbn [no_request_id] in Hn.
  apply andb_true_iff in Hn as [Hr%bool_decide_eq_true Hcs]. split; [done|].
  rewrite forallb_forall in Hcs. rewrite Forall_forall in Hwf |- *. intros c Hc.
  split; [by apply Hwf|]. by apply Hcs, list_elem_of_In.
Qed.

(** A step either leaves the dispatcher alone, or runs the next command. *)
Lemma flight_step_tame auth t d t' d' :
  tame t -> flight_step auth t d = (t', d') ->
  tame t'
  /\ ((d' = d /\ todo t' = todo t /\ answered t' = answered t)
      \/ (exists c r, execute_single c auth d = (Some r, d')
            /\ todo t = c :: todo t' /\ answered t' = (answered t ++ [r])%list)).
Proof.
  unfold tame. intros [Hc Ha] Hs. destruct t as [c stack|p stack|r [|p stack]|].
  - destruct Hc as [Hp Hst]. destruct (pipeline_or_single c) as [(cs & rid & ->)|Hn].
    + apply plain_pipeline in Hp as [-> Hcs]. cbn in Hs. injection Hs as <- <-.
      split; [split; [by constructor|by constructor]|]. left. split_and!; [done|done|].
      cbn. by rewrite app_nil_r.
    + rewrite flight_step_single in Hs by done.
      pose proof (execute_single_no_panic auth c d (proj1 Hp) Hn) as Hnp.
      destruct (execute_single c auth d) as [[r|] d1] eqn:He; [|done]. injection Hs as <- <-.
      split; [done|]. right. exists c, r. split; [done|]. cbn [todo answered].
      rewrite leaves_not_pipeline by done. rewrite (execute_single_shape auth c d r) by (by rewrite He).
      done.
  - apply Forall_cons in Hc as [Hp Hst]. apply Forall_cons in Ha as [Hr Hrs]. cbn [flight_step] in Hs.
    destruct (pd_rest p) as [|c rest] eqn:Hrest.
    + rewrite Hr in Hs. cbn in Hs. injection Hs as <- <-. split; [done|]. left.
      split_and!; [done|cbn; by rewrite Hrest|done].
    + injection Hs as <- <-. apply Forall_cons in Hp as [Hc Hcs].
      split; [split; [split; [done|by constructor]|by constructor]|]. left.
      split_and!; [done| |done]. cbn. by rewrite Hrest, app_assoc.
  - cbn in Hs. injection Hs as <- <-. split; [done|]. left. by split_and!.
  - apply Forall_cons in Hc as [Hp Hst]. apply Forall_cons in Ha as [Hr Hrs]. cbn in Hs.
    injection Hs as <- <-. split; [split; by constructor|]. left. split_and!; [done|done|].
    cbn. rewrite flat_map_app, <- app_assoc. cbn. by rewrite app_nil_r.
  - done.
Qed.

Definition auths_of s : list (option AuthContext) := map fst (flights s).

Lemma pool_step_auths i s : auths_of (pool_step i s) = auths_of s.
Proof.
  unfold auths_of, pool_step. destruct (flights s !! i) as [[a t]|] eqn:Hi; [|done].
  destruct (flight_step a t (shared s)). cbn. rewrite list_fmap_insert. cbn.
  apply list_insert_id. by rewrite list_lookup_fmap, Hi.
Qed.

Definition pool_tame s : Prop := Forall (fun at' => tame at'.2) (flights s).

Lemma pool_step_tame i s : pool_tame s -> pool_tame (pool_step i s).
Proof.
  intros Ht. unfold pool_step. destruct (flights s !! i) as [[a t]|] eqn:Hi; [|done].
  destruct (flight_step a t (shared s)) as [t' d'] eqn:Hs.
  apply Forall_insert; [done|]. cbn. apply (flight_step_tame a t (shared s) t' d'); [|done].
  by apply (Forall_lookup_1 _ _ _ _ Ht Hi).
Qed.

(** The log accounts for what every task did. *)
Definition accounts (log : list log_entry) s s' : Prop :=
  forall i auth t, flights s !! i = Some (auth, t) -> exists t', flights s' !! i = Some (auth, t')
    /\ todo t = (commands_of i log ++ todo t')%list
    /\ answered t' = (answered t ++ answers_of i log)%list.

Lemma accounts_nil s s' :
  (forall i auth t, flights s !! i = Some (auth, t) -> exists t', flights s' !! i = Some (auth, t')
    /\ todo t' = todo t /\ answered t' = answered t) -> accounts [] s s'.
Proof.
  intros Hs i auth t Hi. destruct (Hs i auth t Hi) as (t' & Ht' & Htd & Han). exists t'.
  cbn. by rewrite app_nil_r, Htd, Han.
Qed.

Lemma accounts_app log1 log2 s s1 s2 :
  accounts log1 s s1 -> accounts log2 s1 s2 -> accounts (log1 ++ log2) s s2.
Proof.
  intros Hl1 Hl2 i auth t Hi. destruct (Hl1 i auth t Hi) as (t1 & Ht1 & Htd1 & Han1).
  destruct (Hl2 i auth t1 Ht1) as (t2 & Ht2 & Htd2 & Han2). exists t2. split; [done|].
  unfold commands_of, answers_of, entries_of in *. rewrite List.filter_app, !map_app.
  rewrite Htd1, Htd2, Han2, Han1. by rewrite !app_assoc.
Qed.

Lemma pool_step_accounts i s : pool_tame s -> exists log,
  replays (auths_of s) log (shared s) (shared (pool_step i s)) /\ accounts log s (pool_step i s).
Proof.
  intros Ht. destruct (flights s !! i) as [[a t]|] eqn:Hi.
  - destruct (pool_step_self i s a t Hi) as [Hs Hd].
    destruct (flight_step a t (shared s)) as [t' d'] eqn:Hst. cbn [fst snd] in *.
    destruct (flight_step_tame a t (shared s) t' d') as [_ Hstep];
      [by apply (Forall_lookup_1 _ _ _ _ Ht Hi)|done|].
    destruct Hstep as [(Hsame & Htd & Han)|(c & r & He & Htd & Han)].
    + exists []. split; [cbn; congruence|]. apply accounts_nil. intros j b u Hj.
      destruct (decide (j = i)) as [->|Hn]; [|rewrite pool_step_other by done; eauto].
      simplify_eq. eauto.
    + exists [(i, c, r)]. split.
      * exists a, d'. unfold auths_of. rewrite list_lookup_fmap, Hi. by rewrite Hd.
      * intros j b u Hj. unfold commands_of, answers_of, entries_of. cbn [List.filter fst snd].
        destruct (decide (j = i)) as [->|Hn].
        -- rewrite Nat.eqb_refl. simplify_eq. exists t'. by split_and!.
        -- rewrite (proj2 (Nat.eqb_neq i j)) by done. rewrite pool_step_other by done.
           exists u. cbn. by rewrite app_nil_r.
  - exists []. rewrite pool_step_none by done. split; [done|]. apply accounts_nil. eauto.
Qed.

Lemma replays_app auths log1 log2 d d1 d2 :
  replays auths log1 d d1 -> replays auths log2 d1 d2 -> replays auths (log1 ++ log2) d d2.
Proof.
  revert d. induction log1 as [|[[i c] r] log1 IH]; intros d; cbn.
  - by intros ->.
  - intros (a & dm & Ha & He & Hl1) Hl2. exists a, dm. split_and!; [done|done|]. by apply IH.
Qed.

Lemma pool_run_accounts schedule : forall s, pool_tame s -> exists log,
  replays (auths_of s) log (shared s) (shared (pool_run schedule s))
  /\ accounts log s (pool_run schedule s).
Proof.
  induction schedule as [|i schedule IH]; intros s Ht.
  - exists []. split; [done|]. apply accounts_nil. eauto.
  - destruct (pool_step_accounts i s Ht) as (log1 & Hr1 & Ha1).
    destruct (IH _ (pool_step_tame i s Ht)) as (log2 & Hr2 & Ha2). rewrite pool_step_auths in Hr2.
    exists (log1 ++ log2)%list. split; [by eapply replays_app|]. by eapply accounts_app.
Qed.


(** ** Two attempts at the same request *)

(** The commands were executed between [d] and [d'], up to the clock and the
    cached responses. *)
Definition ran auth (cs : list Command) d (rs : list CommandResponse) d' : Prop :=
  exists d1 d2, same_effects d d1 /\ execute_each (execute auth) cs d1 = (Some rs, d2)
    /\ same_effects d2 d'.

Lemma lookup_unseen id d : entries (idempotency d) !! id = None ->
  exists d', lookup_request (Some id) d = (None, d') /\ same_effects d d'
    /\ entries (idempotency d') !! id = None.
Proof.
  intros Hid. cbn. unfold read_instant. destruct (instant_now (clock d)) as [now ck].
  unfold idem_get. cbn [idempotency set_clock]. rewrite Hid. eexists. done.
Qed.

(** A task in front of a loop over well-formed commands, run alone. *)
Lemma pool_run_loop i auth cs rid s :
  Forall command_wf cs ->
  flights s !! i
    = Some (auth, Looping {| pd_rest := cs; pd_results := []; pd_request_id := rid |} []) ->
  exists n rs, ran auth cs (shared s) rs (shared (pool_run (repeat i n) s))
    /\ flights (pool_run (repeat i n) s) = <[i := (auth, Returning (RespArray rs) [])]> (flights s).
Proof.
  intros Hwf Hi.
  destruct (flight_iter_loop auth cs) with (results := @nil CommandResponse) (rid := rid)
    (stack := @nil Pending) (d := shared s) as (n & _ & Hit).
  { apply Forall_forall. intros c _. apply flight_iter_execute. }
  assert ((execute_each (execute auth) cs (shared s)).1 <> None) as Hnp.
  { apply execute_each_no_panic. eapply Forall_impl; [exact Hwf|]. intros c Hc d.
    by apply execute_answers. }
  destruct (execute_each (execute auth) cs (shared s)) as [[rs|] d2] eqn:He; [|done].
  exists n, rs. rewrite (pool_run_alone i auth n _ _ Hi), Hit. cbn [shared flights fst snd].
  split; [|done]. exists (shared s), d2. split_and!; [reflexivity|done|apply remember_request_effects].
Qed.

End Spec.

(** ** Concrete runs *)

Lemma put_k_plain : plain put_k.
Proof.
  split; [|done]. split_and!; [by apply (text_ascii "ns")|by apply (text_ascii "k")|
                               by apply (text_ascii "v")|done].
Qed.

Lemma get_k_plain : plain get_k.
Proof. split; [|done]. split_and!; [by apply (text_ascii "ns")|by apply (text_ascii "k")|done]. Qed.

(** Two writers of the same key. *)
Definition rivals : list (option AuthContext * Command) :=
  [(toy_writer, Pipeline [put_k; get_k] None); (toy_writer, put_k)].

Definition turns : list nat := [0; 0; 1; 0; 0; 0; 0; 0; 0]%nat.

Lemma rivals_plain : Forall (fun ac => plain ac.2) rivals.
Proof.
  repeat constructor; try done; apply put_k_plain || apply get_k_plain.
Qed.



