(* ===== verification/ConnectionSpec.v ===== *)
(** * What a connection guarantees

    Properties of the connection loops ([connection.rs]): a client without a
    valid token has no effect, an expired token stops working, every request
    is answered by exactly one frame, a subscription only delivers events and
    ends when it should. *)
From S2P Require Import Prelude RustStr Externals Resp3 Resp3Reader Resp3Spec Command ParseCommand Response Idempotency Handlers Dispatch RateLimiter Connection Toy ParseSpec DispatchSpec.
Open Scope Z_scope.

Section Spec.
Context `{StoreErrorText} `{!Acl} {V : Type} `{!TokenValidator V}.
Context {S : Type} `{!Store S} {Sub : Type} `{!Subscribes S Sub}.
Context {E : Type} `{!Engine E} {C : Type} `{!Clock C}.
Context {R : Type} `{!AsyncBufRead R} {W : Type} `{!AsyncWrite W}.

Implicit Types (c : Conn (S:=S) (E:=E) (C:=C) (R:=R) (W:=W)) (p : ConnParams (V:=V))
  (d : Dispatcher (S:=S) (E:=E) (C:=C)).

(** ** What replies leave alone *)

Lemma reply_dispatcher f c : dispatcher (reply (Sub:=Sub) f c).2 = dispatcher c.
Proof. unfold reply. by destruct (write_frame f (writer c)) as [[]]. Qed.

Lemma reply_auth f c : auth (reply (Sub:=Sub) f c).2 = auth c.
Proof. unfold reply. by destruct (write_frame f (writer c)) as [[]]. Qed.

Lemma reply_next f c : (reply (Sub:=Sub) f c).1 = Loop \/ (reply (Sub:=Sub) f c).1 = Closed.
Proof. unfold reply. destruct (write_frame f (writer c)) as [[]]; auto. Qed.

(** What is written only depends on the writer. *)
Lemma reply_writer f c c' : writer c = writer c' ->
  writer (reply (Sub:=Sub) f c).2 = writer (reply (Sub:=Sub) f c').2.
Proof.
  intros Hw. unfold reply. rewrite Hw. by destruct (write_frame f (writer c')) as [[]].
Qed.

Lemma reply_ignoring_same f c :
  dispatcher (reply_ignoring f c) = dispatcher c /\ auth (reply_ignoring f c) = auth c
  /\ rate_limiter (reply_ignoring f c) = rate_limiter c.
Proof. unfold reply_ignoring. by destruct (write_frame f (writer c)). Qed.

Lemma reply_flushed_same f c :
  dispatcher (reply_flushed f c).2 = dispatcher c /\ auth (reply_flushed f c).2 = auth c
  /\ rate_limiter (reply_flushed f c).2 = rate_limiter c.
Proof.
  unfold reply_flushed. destruct (write_frame f (writer c)) as [[[]|e] w]; [|done].
  by destruct (flush w).
Qed.

Lemma check_rate_same c :
  auth (check_rate c).2 = auth c /\ same_effects (dispatcher c) (dispatcher (check_rate c).2)
  /\ idempotency (dispatcher (check_rate c).2) = idempotency (dispatcher c)
  /\ writer (check_rate c).2 = writer c.
Proof.
  unfold check_rate. destruct (rate_limiter c) as [l|]; [|done].
  unfold read_instant. destruct (instant_now _) as [t ck]. by destruct (try_acquire t l).
Qed.

(** ** Clients without a valid token *)

(** What a client could have changed: the data, the configuration and keys, the
    cached responses, the audit log. *)
Definition untouched d d' : Prop :=
  store d' = store d /\ engine d' = engine d /\ idempotency d' = idempotency d
  /\ audit_trail d' = audit_trail d.

#[local] Instance untouched_preorder : PreOrder untouched.
Proof.
  split; unfold untouched; [done|].
  intros d1 d2 d3 (?&?&?&?) (?&?&?&?). split_and!; congruence.
Qed.

Lemma untouched_effects d d' :
  same_effects d d' -> idempotency d' = idempotency d -> untouched d d'.
Proof. intros (?&?&Hr) ?. unfold untouched, audit_trail. by rewrite Hr. Qed.

Lemma ping_untouched d : untouched d (execute None Ping d).2.
Proof.
  cbn [execute]. unfold execute_single, read_instant. simpl.
  destruct (instant_now (clock d)) as [t ck]. simpl.
  destruct (instant_now ck) as [t' ck']. unfold untouched, audit_trail. simpl.
  by rewrite !omap_app, !app_nil_r.
Qed.

(** No token is accepted. *)
Definition rejects_all p : Prop :=
  forall token, exists e, validate (token_validator p) token = Err e.

(** The client is not authenticated and in no subscription. *)
Definition outsider (st : Next (Sub:=Sub) * Conn (S:=S) (E:=E) (C:=C) (R:=R) (W:=W)) : Prop :=
  auth st.2 = None /\ (st.1 = Loop \/ st.1 = Closed).

Lemma reply_outsider f c : auth c = None -> outsider (reply f c).
Proof. intros Ha. split; [by rewrite reply_auth|apply reply_next]. Qed.

Lemma reply_untouched f c : untouched (dispatcher c) (dispatcher (reply (Sub:=Sub) f c).2).
Proof. by rewrite reply_dispatcher. Qed.

Lemma ping_answered d : exists r, (execute None Ping d).1 = Some r.
Proof.
  cbn [execute]. unfold execute_single, read_instant. simpl.
  destruct (instant_now (clock d)) as [t ck]. simpl. destruct (instant_now ck). simpl. eauto.
Qed.

Lemma handle_checked_outsider p cmd c :
  auth_required p = true -> auth c = None ->
  outsider (handle_checked p cmd c) /\ untouched (dispatcher c) (dispatcher (handle_checked p cmd c).2).
Proof.
  intros Hreq Ha. unfold handle_checked. rewrite Hreq, Ha.
  destruct cmd; simpl; try (split; [by apply reply_outsider|apply reply_untouched]).
  unfold check_expiry. rewrite Ha. unfold handle_execute. rewrite Ha.
  pose proof (ping_untouched (dispatcher c)) as Hu. destruct (ping_answered (dispatcher c)) as [r Hr].
  destruct (execute None Ping (dispatcher c)) as [r' d']. simpl in Hr, Hu. subst r'.
  pose proof (reply_flushed_same (response_to_frame r) (set_dispatcher d' c)) as (Hd & Hau & _).
  destruct (reply_flushed (response_to_frame r) (set_dispatcher d' c)) as [ok c']. simpl in *.
  rewrite Hd. split; [|done]. split; simpl; [congruence|]. destruct ok; auto.
Qed.

Lemma handle_frame_outsider p f c :
  auth_required p = true -> rejects_all p -> auth c = None ->
  outsider (handle_frame p f c) /\ untouched (dispatcher c) (dispatcher (handle_frame p f c).2).
Proof.
  intros Hreq Hrej Ha. unfold handle_frame.
  destruct (parse_command f) as [cmd|e]; [|split; [by apply reply_outsider|apply reply_untouched]].
  unfold handle_command. pose proof (check_rate_same c) as (Hca & Hce & Hci & _).
  destruct (check_rate c) as [ok c1]. simpl in *. rewrite Ha in Hca.
  assert (untouched (dispatcher c) (dispatcher c1)) as Hu by (by apply untouched_effects).
  destruct ok; cbn [negb].
  - assert (forall cmd', outsider (handle_checked p cmd' c1)
              /\ untouched (dispatcher c) (dispatcher (handle_checked p cmd' c1).2)) as Hchecked.
    { intros cmd'. destruct (handle_checked_outsider p cmd' c1 Hreq Hca) as [Ho Hx].
      split; [exact Ho|by transitivity (dispatcher c1)]. }
    destruct cmd; try apply Hchecked.
    unfold handle_auth. destruct (Hrej token) as [e ->].
    split; [by apply reply_outsider|]. unfold reply_error. by rewrite reply_dispatcher.
  - split; [by apply reply_outsider|]. unfold reply_error. by rewrite reply_dispatcher.
Qed.

Lemma conn_step_outsider p w st :
  auth_required p = true -> rejects_all p -> outsider st ->
  outsider (conn_step p w st) /\ untouched (dispatcher st.2) (dispatcher (conn_step p w st).2).
Proof.
  intros Hreq Hrej [Ha Hn]. destruct st as [next c]. simpl in *. unfold conn_step. simpl.
  destruct Hn as [-> | ->]; [|repeat split; auto].
  destruct w as [[] r| |ev r]; simpl; try (repeat split; auto; done).
  destruct (read_frame (reader c)) as [[[f|] r]|e].
  - apply (handle_frame_outsider p f (set_reader r c)); auto.
  - repeat split; auto.
  - set (err := SimpleError _). pose proof (reply_ignoring_same err c) as (Hd & Hau & _).
    simpl. rewrite Hd. split; [split; simpl; [congruence|auto]|done].
Qed.

(** The states of a connection: it takes steps, and between them other tasks
    do as they like with the dispatcher. *)
Inductive reachable p : Next (Sub:=Sub) * Conn -> Prop :=
| reach_accept r w d : reachable p (Loop, accept p r w d)
| reach_step st wk : reachable p st -> reachable p (conn_step p wk st)
| reach_others next c d : reachable p (next, c) -> reachable p (next, set_dispatcher d c).


(** ** Expired tokens *)

(** C33. An expired token stops working: the first command (other than AUTH)
    that gets past the rate limit after the expiry is answered with "not
    authenticated", has no effect, and drops the authentication; the answer is
    the only thing written. *)
Theorem expired_token_refused p cmd c ctx now ck :
  (forall token, cmd <> Auth token) -> (check_rate c).1 = true ->
  auth c = Some ctx ->
  system_secs (clock (dispatcher (check_rate c).2)) = (Some now, ck) ->
  auth_is_expired ctx now = true ->
  auth (handle_command (Sub:=Sub) p cmd c).2 = None
  /\ same_effects (dispatcher c) (dispatcher (handle_command (Sub:=Sub) p cmd c).2)
  /\ idempotency (dispatcher (handle_command (Sub:=Sub) p cmd c).2) = idempotency (dispatcher c)
  /\ writer (handle_command (Sub:=Sub) p cmd c).2
     = writer (reply (Sub:=Sub) (SimpleError "not authenticated") c).2.
Proof.
  intros Hcmd Hrate Ha Hnow Hexp. unfold handle_command.
  pose proof (check_rate_same c) as (Hca & Hce & Hci & Hw).
  destruct (check_rate c) as [ok c1]. simpl in *. subst ok. cbn [negb].
  assert (forall cmd', handle_checked (Sub:=Sub) p cmd' c1 =
    reply_error NotAuthenticated
      (set_auth None (set_dispatcher (set_clock ck (dispatcher c1)) c1))) as Hchk.
  { intros cmd'. unfold handle_checked. rewrite Hca, Ha, andb_false_r, andb_false_l.
    unfold check_expiry. rewrite Hca, Ha, Hnow, Hexp. by destruct (reply_error _ _). }
  replace (match cmd with Auth token => handle_auth p token c1 | _ => handle_checked p cmd c1 end)
    with (handle_checked (Sub:=Sub) p cmd c1)
    by (destruct cmd; try done; by destruct (Hcmd token)).
  rewrite Hchk. unfold reply_error. rewrite reply_dispatcher, reply_auth.
  split_and!; [done|done|done|]. by apply reply_writer.
Qed.

(** ** Subscriptions *)

(** The parts of a connection a subscription leaves alone. *)
Definition same_session c c' : Prop :=
  dispatcher c' = dispatcher c /\ auth c' = auth c /\ rate_limiter c' = rate_limiter c.

Lemma subscription_step_session sub wk c :
  same_session c (subscription_step (Sub:=Sub) sub wk c).2.
Proof.
  destruct wk as [[] r| |[ev|] r]; simpl; try done; try apply (reply_ignoring_same _ (set_reader r c)).
  - destruct (read_frame (reader c)) as [[[f|] r]|e]; try done.
    destruct (parse_command f) as [cmd|e]; [|done].
    destruct cmd; apply (reply_ignoring_same _ (set_reader r c)).
  - pose proof (reply_flushed_same (subscription_event_to_push_frame ev) (set_reader r c)) as Hs.
    by destruct (reply_flushed _ _) as [[] c1].
Qed.

(** What ends a subscription without ending the connection. *)
Definition ends_subscription c (wk : Wakeup (R:=R)) : Prop :=
  match wk with
  | EventReady None _ => True
  | FrameReady =>
      exists f r, read_frame (reader c) = Ok (Some f, r) /\ parse_command f = Ok Unsubscribe
  | _ => False
  end.

Lemma subscription_step_next sub wk c next c' :
  subscription_step (Sub:=Sub) sub wk c = (next, c') ->
  next = Loop /\ ends_subscription c wk \/ next = Streaming sub \/ next = Closed.
Proof.
  destruct wk as [[] r| |[ev|] r]; simpl; try (intros [= <- <-]; auto; done).
  - destruct (read_frame (reader c)) as [[[f|] r]|e] eqn:Hr; try (intros [= <- <-]; auto; done).
    destruct (parse_command f) as [cmd|e] eqn:Hp; [|intros [= <- <-]; auto].
    destruct cmd; intros [= <- <-]; eauto 10.
  - destruct (reply_flushed _ _) as [ok c1]. intros [= <- <-]. destruct ok; auto.
Qed.

(** A subscription only streams: while it lasts nothing the client sends
    reaches the dispatcher, and its authentication and its rate limit stay as
    they are; it goes back to the command loop only when the store closes it
    or the client sends UNSUBSCRIBE, otherwise it goes on or the connection is
    closed. *)
Theorem subscription_only_streams sub wk c next c' :
  subscription_step (Sub:=Sub) sub wk c = (next, c') ->
  same_session c c'
  /\ (next = Loop /\ ends_subscription c wk \/ next = Streaming sub \/ next = Closed).
Proof.
  intros Hs. split; [|by eapply subscription_step_next].
  pose proof (subscription_step_session sub wk c) as Hsame. by rewrite Hs in Hsame.
Qed.

(** ** One answer per request *)
Context `{!AsyncWriteLaws W}.

(** Exactly one frame more has been written. *)
Definition one_more (w w' : W) : Prop := exists f, written w' = (written w ++ encode f)%list.

Lemma reply_writes f c next c' :
  reply (Sub:=Sub) f c = (next, c') -> next <> Closed -> one_more (writer c) (writer c').
Proof.
  unfold reply. pose proof (write_frame_writes f (writer c)) as Hw.
  destruct (write_frame f (writer c)) as [[[]|e] w]; intros [= <- <-] Hn; [|done].
  exists f. simpl. by rewrite flush_written.
Qed.

Lemma reply_flushed_writes f c c' :
  reply_flushed f c = (true, c') -> one_more (writer c) (writer c').
Proof.
  unfold reply_flushed. pose proof (write_frame_writes f (writer c)) as Hw.
  destruct (write_frame f (writer c)) as [[[]|e] w]; [|done].
  pose proof (flush_written w) as Hf. destruct (flush w) as [r w2]. intros [= _ <-].
  exists f. simpl in *. congruence.
Qed.

Lemma handle_execute_writes cmd c next c' :
  handle_execute (Sub:=Sub) cmd c = (next, c') -> next <> Closed -> next <> Panicked ->
  one_more (writer c) (writer c').
Proof.
  unfold handle_execute. destruct (execute (auth c) cmd (dispatcher c)) as [[r|] d]; [|naive_solver].
  destruct (reply_flushed (response_to_frame r) (set_dispatcher d c)) as [[] c1] eqn:Hr;
    intros [= <- <-]; [|done]. intros _ _. by apply reply_flushed_writes in Hr.
Qed.

Lemma handle_subscribe_writes p cmd ns key events c next c' :
  handle_subscribe (Sub:=Sub) p cmd ns key events c = (next, c') -> next <> Closed ->
  one_more (writer c) (writer c').
Proof.
  unfold handle_subscribe. destruct (subscribe_refusal p cmd c); [apply reply_writes|].
  destruct (st_subscribe _ _ _) as [[sub|e] s].
  - destruct (reply _ _) as [n c1] eqn:Hr. intros [= <- <-] Hn.
    apply (reply_writes _ _ _ _) in Hr; [done|]. by destruct n.
  - intros Hr Hn. by apply reply_writes in Hr.
Qed.

Lemma handle_checked_writes p cmd c next c' :
  handle_checked (Sub:=Sub) p cmd c = (next, c') -> next <> Closed -> next <> Panicked ->
  one_more (writer c) (writer c').
Proof.
  intros Hh Hn Hp. revert Hh. unfold handle_checked.
  case_match; [intros Hr; by apply reply_writes in Hr|]. unfold check_expiry.
  assert (forall c1, writer c1 = writer c ->
    match cmd with
    | Subscribe ns key events => handle_subscribe p cmd ns key events c1
    | _ => handle_execute cmd c1
    end = (next, c') -> one_more (writer c) (writer c')) as Hgo.
  { intros c1 <-. destruct cmd; try (intros Hr; by apply handle_execute_writes in Hr).
    intros Hr. by apply handle_subscribe_writes in Hr. }
  destruct (auth c) as [ctx|]; [|by apply Hgo].
  destruct (system_secs _) as [[now|] ck]; [|intros [= <- <-]; done].
  destruct (auth_is_expired ctx now); [|by apply Hgo].
  destruct (reply_error _ _) as [n c1] eqn:Hr. intros [= <- <-].
  by apply reply_writes in Hr.
Qed.


End Spec.

(** ** Reads that are cancelled *)

Section Cancelled.
Context `{StoreErrorText} `{!Acl} {V : Type} `{!TokenValidator V}.
Context {S : Type} `{!Store S} {Sub : Type} `{!Subscribes S Sub}.
Context {E : Type} `{!Engine E} {C : Type} `{!Clock C} {W : Type} `{!AsyncWrite W}.

Definition unsubscribe_frame : Resp3Frame := words_frame ["UNSUBSCRIBE"].

End Cancelled.

(** ** Error texts *)

(** Error texts are not escaped: an error whose text contains a line break
    followed by what looks like a frame (a client can put one into its command
    name) is sent as two frames, so the client takes the second for the answer
    to its next request. *)
Theorem error_reply_splits `{StoreErrorText} (e : CommandError) (a b : string) :
  line_safe a = true -> line_safe b = true ->
  command_error_display e = a +:+ of_bytes crlf +:+ "+" +:+ b ->
  read_elements read_frame "stream" 2 (encode (response_to_frame (Error e)))
  = Ok ([SimpleError a; SimpleString b], []).
Proof.
  intros Ha Hb He.
  replace (encode (response_to_frame (Error e)))
    with (flat_map encode [SimpleError a; SimpleString b] ++ [])%list.
  - apply (read_elements_carriable "stream" [SimpleError a; SimpleString b] []).
    unfold carriable. simpl. by rewrite Ha, Hb.
  - cbn [response_to_frame encode flat_map]. rewrite He, !as_bytes_app, as_of_bytes, app_nil_r.
    by rewrite <- !app_assoc.
Qed.

(** ** Concrete sessions *)

Definition secure : ConnParams (V:=list (string * ToyAuth)) :=
  {| token_validator := []; auth_required := true; rate_limit := Some 1 |}.

Definition toy_conn (r : bytes) : Conn (R:=bytes) (W:=bytes) :=
  {| reader := r; writer := []; auth := toy_reader; rate_limiter := None;
     dispatcher := toy_dispatcher |}.


Definition expired_auth : option AuthContext :=
  Some {| toy_actor := "late"; toy_reads := []; toy_writes := ["ns"]; toy_admin := false;
          toy_expires := Some 0 |}.

Lemma expired_token_refused_witness :
  auth (handle_command (Sub:=string) secure put_k (set_auth expired_auth (toy_conn []))).2 = None.
Proof.
  apply (expired_token_refused secure put_k (set_auth expired_auth (toy_conn []))
    {| toy_actor := "late"; toy_reads := []; toy_writes := ["ns"]; toy_admin := false;
       toy_expires := Some 0 |} 0 0).
  - discriminate.
  - reflexivity.
  - reflexivity.
  - reflexivity.
  - reflexivity.
Defined.

Lemma subscription_only_streams_witness :
  same_session (toy_conn (encode unsubscribe_frame))
    (subscription_step "ns" FrameReady (toy_conn (encode unsubscribe_frame))).2.
Proof.
  apply (subscription_only_streams "ns" FrameReady (toy_conn (encode unsubscribe_frame)) Loop).
  vm_compute. reflexivity.
Defined.


Definition put_event : SubscriptionEvent :=
  {| ev_event := EventPut; ev_namespace := "ns"; ev_key := as_bytes "k"; ev_version := 1;
     ev_actor := "writer"; ev_timestamp := 0 |}.


(** The answer to a request whose command name spans two lines. *)
Lemma error_reply_splits_witness :
  exists e, parse_command (words_frame ["X" +:+ of_bytes crlf +:+ "+OK"]) = Err e
  /\ read_elements read_frame "stream" 2 (encode (response_to_frame (Error e)))
     = Ok ([SimpleError "bad argument: unknown command: X"; SimpleString "OK"], []).
Proof.
  exists (BadArg ("unknown command: X" +:+ of_bytes crlf +:+ "+OK")). split.
  - vm_compute. reflexivity.
  - apply (error_reply_splits (BadArg ("unknown command: X" +:+ of_bytes crlf +:+ "+OK"))
      "bad argument: unknown command: X" "OK"); reflexivity.
Defined.
