(* ===== verification/RemoteSpec.v ===== *)
(** * The remote store against the server

    The client library and the server together: a store operation carried out
    by [RemoteStore] over a connection to a dispatcher does what the
    dispatcher's own store does, and reports what it reports; and where it does
    not. *)
From S2P Require Import Prelude RustStr Externals Resp3 Resp3Reader Command ParseCommand Response Idempotency Handlers Dispatch ClientResponse ClientConnection ClientApi RemoteStore RateLimiter Connection ParseSpec ClientSpec DispatchSpec Toy.
Open Scope Z_scope.
Open Scope string_scope.

(** ** Error texts *)

(** Printable ASCII, without the space. *)
Definition word_char (c : ascii) : bool :=
  let n := N_of_ascii c in ((32 <? n) && (n <? 128))%N.

Lemma word_char_not_space c s : word_char c = true -> strip_whitespace (String c s) = None.
Proof. destruct c as [[] [] [] [] [] [] [] []]; intros Hc; try discriminate Hc; reflexivity. Qed.

Lemma trim_start_word c s : word_char c = true -> trim_start (String c s) = String c s.
Proof.
  intros Hc. unfold trim_start. cbn [String.length trim_start_go]. by rewrite word_char_not_space.
Qed.

(** Reading a word up to the next space or the end. *)
Lemma split_whitespace_word w : forall fuel word rest,
  all_chars word_char w = true -> (String.length w < fuel)%nat ->
  split_whitespace_go fuel word (w +:+ rest)
  = split_whitespace_go (fuel - String.length w) (word +:+ w) rest.
Proof.
  induction w as [|c w IH]; intros fuel word rest Hw Hf.
  - change ("" +:+ rest) with rest. rewrite Nat.sub_0_r. f_equal.
    symmetry. apply string_app_nil.
  - cbn [all_chars] in Hw. apply andb_true_iff in Hw as [Hc Hw].
    cbn [String.length] in Hf. destruct fuel as [|fuel]; [lia|].
    change (String c w +:+ rest) with (String c (w +:+ rest)).
    cbn [split_whitespace_go]. rewrite word_char_not_space by done.
    rewrite IH by (done || lia). cbn [String.length].
    replace (Datatypes.S fuel - Datatypes.S (String.length w))%nat
      with (fuel - String.length w)%nat by lia.
    by rewrite string_app_assoc.
Qed.

Lemma int_word n : all_chars word_char (int_to_string n) = true.
Proof.
  assert (forall s, all_chars is_int_char s = true -> all_chars word_char s = true) as Himp.
  { induction s as [|c s IH]; [done|]. cbn [all_chars]. intros [Hc Hs]%andb_true_iff.
    rewrite IH by done. rewrite andb_true_r. revert Hc.
    destruct c as [[] [] [] [] [] [] [] []]; intros Hc; try discriminate Hc; reflexivity. }
  apply Himp, int_to_string_chars.
Qed.


Lemma split_two_words a b :
  all_chars word_char a = true -> all_chars word_char b = true -> a <> "" -> b <> "" ->
  split_whitespace (a +:+ " " +:+ b) = [a; b].
Proof.
  intros Ha Hb Hna Hnb. unfold split_whitespace.
  rewrite split_whitespace_word by (done || (rewrite !string_length_app; lia)).
  rewrite !string_length_app. cbn [String.length].
  replace (Datatypes.S (String.length a + (1 + String.length b)) - String.length a)%nat
    with (Datatypes.S (Datatypes.S (String.length b))) by lia.
  change ("" +:+ a) with a. destruct a as [|ca a]; [done|].
  replace (split_whitespace_go (Datatypes.S (Datatypes.S (String.length b))) (String ca a) (" " +:+ b))
    with (String ca a :: split_whitespace_go (Datatypes.S (String.length b)) "" b) by reflexivity.
  f_equal.
  pose proof (split_whitespace_word b (Datatypes.S (String.length b)) "" "" Hb ltac:(lia)) as Hw.
  rewrite string_app_nil in Hw. rewrite Hw.
  replace (Datatypes.S (String.length b) - String.length b)%nat with 1%nat by lia.
  change ("" +:+ b) with b. cbn [split_whitespace_go].
  replace (strip_whitespace "") with (@None string) by reflexivity.
  by destruct b.
Qed.

Section ErrorTexts.
Context `{StoreErrorText}.

Lemma conflict_text c : in_u64 c ->
  parse_version_conflict (command_error_display (VersionConflict c)) = Some c.
Proof.
  intros Hc. cbn [command_error_display]. unfold parse_version_conflict.
  replace (strip_prefix "VERSIONCONFLICT " ("VERSIONCONFLICT current=" +:+ int_to_string c))
    with (Some ("current=" +:+ int_to_string c)) by reflexivity.
  cbn [mbind option_bind].
  change ("current=" +:+ int_to_string c) with (String "c" ("urrent=" +:+ int_to_string c)).
  rewrite trim_start_word by done.
  replace (strip_prefix "current=" (String "c" ("urrent=" +:+ int_to_string c)))
    with (Some (int_to_string c)) by reflexivity.
  cbn [mbind option_bind]. by rewrite parse_u64_to_string.
Qed.

Lemma too_large_text m l : in_u64 m -> in_u64 l ->
  parse_prefix_too_large (command_error_display (PrefixTooLarge m l)) = Some (m, l).
Proof.
  intros Hm Hl. cbn [command_error_display]. unfold parse_prefix_too_large.
  replace (strip_prefix "PREFIXTOOLARGE "
             ("PREFIXTOOLARGE matched=" +:+ int_to_string m +:+ " limit=" +:+ int_to_string l))
    with (Some ("matched=" +:+ int_to_string m +:+ " limit=" +:+ int_to_string l)) by reflexivity.
  cbn [mbind option_bind].
  change ("matched=" +:+ int_to_string m +:+ " limit=" +:+ int_to_string l)
    with (String "m" ("atched=" +:+ int_to_string m +:+ " limit=" +:+ int_to_string l)).
  rewrite trim_start_word by done.
  replace (String "m" ("atched=" +:+ int_to_string m +:+ " limit=" +:+ int_to_string l))
    with (("matched=" +:+ int_to_string m) +:+ " " +:+ ("limit=" +:+ int_to_string l))
    by (rewrite string_app_assoc; reflexivity).
  rewrite split_two_words; [| | |done|done].
  - cbn [fold_left]. unfold prefix_field.
    replace (strip_prefix "matched=" ("matched=" +:+ int_to_string m)) with (Some (int_to_string m))
      by reflexivity.
    replace (strip_prefix "matched=" ("limit=" +:+ int_to_string l)) with (@None string)
      by reflexivity.
    replace (strip_prefix "limit=" ("limit=" +:+ int_to_string l)) with (Some (int_to_string l))
      by reflexivity.
    by rewrite !parse_u64_to_string.
  - rewrite all_chars_app, int_word. reflexivity.
  - rewrite all_chars_app, int_word. reflexivity.
Qed.

(** The structured errors survive the wire: the text of a version conflict
    is read back by the client as the same conflict with the same current
    version, and that of a prefix that is too large with both its numbers. *)
Theorem structured_errors_roundtrip (c m l : Z) :
  in_u64 c -> in_u64 m -> in_u64 l ->
  client_err (ServerErr (command_error_display (VersionConflict c))) = SeVersionConflict c
  /\ client_err (ServerErr (command_error_display (PrefixTooLarge m l))) = SePrefixTooLarge m l.
Proof.
  intros Hc Hm Hl. unfold client_err, server_err. rewrite conflict_text by done.
  rewrite too_large_text by done.
  split; [done|]. by replace (parse_version_conflict (command_error_display (PrefixTooLarge m l)))
    with (@None Z) by reflexivity.
Qed.
End ErrorTexts.

Lemma contains_app_r p a s : contains p s = true -> contains p (a +:+ s) = true.
Proof.
  intros Hs. induction a as [|c a IH]; [done|]. change (String c a +:+ s) with (String c (a +:+ s)).
  cbn [contains]. by rewrite IH, orb_true_r.
Qed.

Lemma strip_prefix_Some p s t : strip_prefix p s = Some t -> s = p +:+ t.
Proof.
  revert s. induction p as [|a p IH]; intros s; [by intros [= <-]|].
  destruct s as [|b s]; cbn [strip_prefix]; [done|].
  destruct (Ascii.eqb_spec a b) as [<-|]; [|done]. intros Hs. apply IH in Hs as ->. done.
Qed.

Lemma contains_split p s : contains p s = true -> exists a t, s = a +:+ p +:+ t.
Proof.
  induction s as [|c s IH]; cbn [contains]; unfold starts_with.
  - destruct (strip_prefix p "") as [t|] eqn:Hp; [|done]. apply strip_prefix_Some in Hp.
    intros _. by exists "", t.
  - destruct (strip_prefix p (String c s)) as [t|] eqn:Hp.
    + apply strip_prefix_Some in Hp. intros _. by exists "", t.
    + simpl. intros Hs. destruct (IH Hs) as (a & t & ->). by exists (String c a), t.
Qed.

(** A missing namespace is reported as a missing key: whatever text the
    server sends, the client never maps it to [NamespaceNotFound]; the texts
    that say so are taken for [NotFound], since the test for "not found" comes
    first. *)
Theorem namespace_not_found_lost `{StoreTypes} (msg : string) :
  (forall ns, client_err (ServerErr msg) <> SeNamespaceNotFound ns)
  /\ (contains "namespace not found" msg = true -> parse_version_conflict msg = None ->
      parse_prefix_too_large msg = None -> client_err (ServerErr msg) = SeNotFound).
Proof.
  assert (contains "namespace not found" msg = true -> contains "not found" msg = true) as Himp.
  { intros (a & t & ->)%contains_split. apply contains_app_r. reflexivity. }
  unfold client_err, server_err. split.
  - intros ns. destruct (parse_version_conflict msg); [done|].
    destruct (parse_prefix_too_large msg) as [[]|]; [done|].
    destruct (contains "not found" msg) eqn:Hn; [done|].
    destruct (contains "namespace not found" msg); [discriminate (Himp eq_refl)|].
    by repeat case_match.
  - intros Hc -> ->. by rewrite Himp.
Qed.

(** ** Events *)

Lemma lossy_as_bytes s : text s -> from_utf8_lossy (as_bytes s) = s.
Proof. intros Hs. by rewrite from_utf8_lossy_id, of_as_bytes. Qed.

Lemma as_bytes_lossy b : utf8 b -> as_bytes (from_utf8_lossy b) = b.
Proof. intros Hb. by rewrite from_utf8_lossy_id, as_of_bytes. Qed.

Lemma text_lossy b : utf8 b -> text (from_utf8_lossy b).
Proof. intros Hb. unfold text. by rewrite as_bytes_lossy. Qed.

(** Events survive the wire: an event whose key is UTF-8, pushed by the
    server and read by the client, is the event the subscriber receives. *)
Theorem event_roundtrip (ev : SubscriptionEvent) :
  text (ev_namespace ev) -> utf8 (ev_key ev) -> text (ev_actor ev) ->
  in_u64 (ev_version ev) -> in_u64 (ev_timestamp ev) ->
  relay (frame_response (subscription_event_to_push_frame ev)) = Relay ev.
Proof.
  intros Hn Hk Ha Hv Ht. unfold subscription_event_to_push_frame.
  cbn [frame_response map]. rewrite !lossy_as_bytes by done.
  destruct ev as [e ns k v a t]. simpl in *.
  unfold relay, parse_push_frame, item_str, item_int.
  destruct e; simpl; by rewrite as_bytes_lossy, !i64_as_u64_u64_as_i64.
Qed.

(** ** A connection to a dispatcher *)
Section Link.
Context `{StoreErrorText} `{!Acl} `{!SerdeBuild} `{!MetadataCodec}.
Context {S : Type} `{!Store S} {E : Type} `{!Engine E} {C : Type} `{!Clock C}.
Variable auth : option AuthContext.

Abbreviation server := (Dispatcher (S:=S) (E:=E) (C:=C)).

(** What an authenticated client gets for a request, without rate limit. *)
Definition serve (f : Resp3Frame) (d : server) : result Failure (Response * server) :=
  match parse_command f with
  | Err e => Ok (RError ("ERR " +:+ command_error_display e), d)
  | Ok cmd =>
      let '(r, d') := execute auth cmd d in
      match r with
      | Some r => Ok (frame_response (response_to_frame r), d')
      | None => Err (Fails (ProtocolErr "connection closed"))
      end
  end.

#[local] Instance link : Transport server := {
  send args := serve (words_frame args);
  send_meta args := serve (words_frame args);
  send_pipeline cmds rid := serve (pipeline_frame rid (map words_frame cmds));
}.

Definition response_of (r : result CommandError ResponseMap) : CommandResponse :=
  match r with Ok m => Success m | Err e => Error e end.

Lemma execute_with_store cmd h (d : server) :
  (forall cs rid, cmd <> Pipeline cs rid) -> permitted auth cmd = true ->
  (forall d, dispatch cmd d = with_store h d) ->
  exists d', execute auth cmd d = (Some (response_of (h (store d)).1), d')
             /\ store d' = (h (store d)).2.
Proof.
  intros Hc Hp Hd. rewrite execute_not_pipeline by done. unfold execute_single.
  unfold permitted in Hp. destruct (acl_refusal cmd auth); [done|].
  unfold read_instant. destruct (instant_now (clock d)) as [t c1]. rewrite Hd.
  unfold with_store. cbn [store set_clock]. destruct (h (store d)) as [r s].
  destruct (instant_now _) as [t' c2].
  destruct r; (eexists; split; [reflexivity|]); by destruct (is_read cmd).
Qed.

(** A request that runs a handler on the store. *)
Lemma serve_store v ws cmd h (d : server) :
  Forall text (v :: ws) -> eq_ignore_ascii_case v "PIPELINE" = false ->
  parse_flat (v :: ws) = Ok cmd ->
  (forall cs rid, cmd <> Pipeline cs rid) -> permitted auth cmd = true ->
  (forall d, dispatch cmd d = with_store h d) ->
  exists d', serve (words_frame (v :: ws)) d
             = Ok (frame_response (response_to_frame (response_of (h (store d)).1)), d')
             /\ store d' = (h (store d)).2.
Proof.
  intros Ht Hv Hparse Hc Hp Hd. destruct (execute_with_store cmd h d Hc Hp Hd) as (d' & He & Hs).
  exists d'. split; [|done]. unfold serve. rewrite parse_words, Hparse by done. by rewrite He.
Qed.

(** The version in a response that has one. *)
Lemma version_get v : in_u64 v ->
  let r := frame_response (response_to_frame (Success (version_response v))) in
  get_field r "version" = Some (RInteger (u64_as_i64 v))
  /\ version_field r = Ok v /\ check_ok r = Ok tt.
Proof.
  intros Hv r.
  assert (get_field r "version" = Some (RInteger (u64_as_i64 v))) as Hf by reflexivity.
  split_and!; [done| |done]. unfold version_field, get_int_field. rewrite Hf.
  cbn [mbind option_bind option_map]. by rewrite i64_as_u64_u64_as_i64.
Qed.

(** What is left of a result of the store once it has been over the wire. *)
Definition over_wire {A : Type} (err : StoreError -> CommandError) (r : result StoreError A)
    : result StoreError A :=
  match r with
  | Ok a => Ok a
  | Err (SeVersionConflict c) =>
      match err (SeVersionConflict c) with
      | VersionConflict _ => Err (SeVersionConflict c)
      | e => Err (client_err (ServerErr (command_error_display e)))
      end
  | Err e => Err (client_err (ServerErr (command_error_display (err e))))
  end.

Ltac request_text := repeat constructor; try done; try (by apply text_lossy);
  try (apply text_ascii; reflexivity); try apply int_to_string_utf8.

Lemma parse_putif_words ns k v e :
  parse_flat ["PUTIF"; ns; k; v; "EXPECT"; e] =
    (n ← number e "EXPECT must be a non-negative integer";
     Ok (PutIf ns (as_bytes k) (as_bytes v) None n)).
Proof.
  unfold parse_flat, parse_put_if. cbn. by destruct (number e _).
Qed.


(** What is left of an entry: its metadata and times are not asked for. *)
Definition bare_entry (e : Entry) : Entry :=
  {| entry_key := entry_key e; entry_value := entry_value e; entry_version := entry_version e;
     entry_metadata := metadata_default; entry_created_at := 0; entry_updated_at := 0 |}.

Lemma remote_put_refines ns key value (d : server) :
  text ns -> utf8 key -> utf8 value -> permitted auth (Put ns key value None None) = true ->
  let r := st_put_with_options ns key value
             {| put_metadata := None; put_ttl_ms := None; put_expected_version := None |} (store d) in
  (forall v, r.1 = Ok v -> in_u64 v) ->
  exists d', rs_put ns key value None d = Ok (over_wire StoreErr r.1, d') /\ store d' = r.2.
Proof.
  intros Hns Hkey Hval Hperm r Hv. unfold rs_put, mapped, client_put, parsed. cbn [send link].
  destruct (serve_store "PUT" [ns; from_utf8_lossy key; from_utf8_lossy value]
      (Put ns key value None None) (put_handle ns key value None None) d) as (d' & -> & Hs); try done.
  - request_text.
  - change (parse_flat ["PUT"; ns; from_utf8_lossy key; from_utf8_lossy value])
      with (Ok (E:=CommandError) (Put ns (as_bytes (from_utf8_lossy key))
              (as_bytes (from_utf8_lossy value)) None None)).
    by rewrite !as_bytes_lossy.
  - cbn [mbind result_bind]. exists d'. unfold put_handle, on_store in *. cbn [parse_metadata] in *.
    subst r. destruct (st_put_with_options ns key value _ (store d)) as [[v|e] s];
      cbn [fst snd] in *; (split; [|exact Hs]).
    + unfold checked. cbn [response_of].
      pose proof (version_get v (Hv v eq_refl)) as (_ & Hf & Hok). cbn zeta in Hf, Hok.
      rewrite Hok. cbn [mbind result_bind]. by rewrite Hf.
    + by destruct e.
Qed.

Lemma remote_delete_refines ns key (d : server) :
  text ns -> utf8 key -> permitted auth (Delete ns key) = true ->
  let r := st_delete ns key (store d) in
  (forall v, r.1 = Ok v -> in_u64 v) ->
  exists d', rs_delete ns key d = Ok (over_wire (keyed_error ns key) r.1, d') /\ store d' = r.2.
Proof.
  intros Hns Hkey Hperm r Hv. unfold rs_delete, mapped, client_delete, parsed. cbn [send link].
  destruct (serve_store "DELETE" [ns; from_utf8_lossy key]
      (Delete ns key) (delete_handle ns key) d) as (d' & -> & Hs); try done.
  - request_text.
  - change (parse_flat ["DELETE"; ns; from_utf8_lossy key])
      with (Ok (E:=CommandError) (Delete ns (as_bytes (from_utf8_lossy key)))).
    by rewrite !as_bytes_lossy.
  - cbn [mbind result_bind]. exists d'. unfold delete_handle, on_store in *.
    subst r. destruct (st_delete ns key (store d)) as [[v|e] s];
      cbn [fst snd] in *; (split; [|exact Hs]).
    + unfold checked. cbn [response_of].
      pose proof (version_get v (Hv v eq_refl)) as (_ & Hf & Hok). cbn zeta in Hf, Hok.
      rewrite Hok. cbn [mbind result_bind]. by rewrite Hf.
    + by destruct e.
Qed.

Lemma remote_get_refines ns key (d : server) :
  text ns -> utf8 key -> permitted auth (Get ns key None false) = true ->
  let r := st_get ns key None (store d) in
  (forall e, r.1 = Ok e -> utf8 (entry_key e) /\ utf8 (entry_value e) /\ in_u64 (entry_version e)) ->
  exists d', rs_get ns key None d
             = Ok (over_wire (keyed_error ns key)
                     (match r.1 with Ok e => Ok (bare_entry e) | Err e => Err e end), d')
             /\ store d' = r.2.
Proof.
  intros Hns Hkey Hperm r Hv. unfold rs_get, mapped, client_get, parsed. cbn [send link].
  destruct (serve_store "GET" [ns; from_utf8_lossy key]
      (Get ns key None false) (get_handle ns key None false) d) as (d' & -> & Hs); try done.
  - request_text.
  - change (parse_flat ["GET"; ns; from_utf8_lossy key])
      with (Ok (E:=CommandError) (Get ns (as_bytes (from_utf8_lossy key)) None false)).
    by rewrite !as_bytes_lossy.
  - cbn [mbind result_bind]. exists d'. unfold get_handle, on_store in *.
    subst r. destruct (st_get ns key None (store d)) as [[e|e] s];
      cbn [fst snd] in *; (split; [|exact Hs]).
    + destruct (Hv e eq_refl) as (Hek & Hev & Hver).
      cbn [response_of over_wire]. unfold checked.
      set (resp := frame_response _).
      assert (parse_get_result resp = Ok {| gr_key := as_bytes (from_utf8_lossy (entry_key e));
        gr_value := as_bytes (from_utf8_lossy (entry_value e));
        gr_version := i64_as_u64 (u64_as_i64 (entry_version e)); gr_metadata := None |}) as Hp
        by reflexivity.
      change (check_ok resp) with (Ok (E:=ClientError) tt). cbn [mbind result_bind]. rewrite Hp.
      by rewrite !as_bytes_lossy, i64_as_u64_u64_as_i64.
    + by destruct e.
Qed.


(** Errors inside a pipeline are reported as successes: a conditional write
    that fails (say, with a version conflict) in a pipeline of the remote store
    comes back as a write that made version 0, where the same operation on its
    own reports the conflict. *)
Theorem pipeline_hides_errors ns key value expected e (d : server) :
  text ns -> utf8 key -> utf8 value -> in_u64 expected ->
  permitted auth (PutIf ns key value None expected) = true ->
  (st_put_if_version ns key value None expected (store d)).1 = Err e ->
  exists d', rs_pipeline [PcPutIfVersion ns key value None expected] d = Ok (Ok [PrPut 0], d').
Proof.
  intros Hns Hkey Hval Hexp Hperm He.
  unfold rs_pipeline, mapped, client_pipeline, parsed. cbn [send_pipeline link map pipeline_args].
  set (args := ["PUTIF"; ns; _; _; "EXPECT"; _]).
  assert (parses (words_frame args) (PutIf ns key value None expected)) as Hparse.
  { unfold parses. subst args. rewrite parse_words; [|request_text|done].
    rewrite parse_putif_words. unfold number. rewrite parse_u64_to_string by done.
    cbn [map_err mbind result_bind]. by rewrite !as_bytes_lossy. }
  assert (parse_command (pipeline_frame None [words_frame args])
          = Ok (Pipeline [PutIf ns key value None expected] None)) as Hp.
  { rewrite parse_pipeline_frame_eq; [|done|done|by repeat constructor].
    rewrite (parse_subcommands_Ok [words_frame args] [PutIf ns key value None expected]);
      [done|by repeat constructor]. }
  unfold serve. rewrite Hp. cbn [execute]. unfold execute_pipeline. cbn [lookup_request execute_each].
  destruct (execute_with_store (PutIf ns key value None expected)
    (put_if_handle ns key value None expected) d) as (d' & Hex & _); try done.
  rewrite Hex. unfold put_if_handle, on_store in *. cbn [parse_metadata] in *.
  destruct (st_put_if_version ns key value None expected (store d)) as [r s]. simpl in He. subst r.
  cbn [mbind result_bind fst response_of]. by exists d'.
Qed.
End Link.

(** ** Concrete exchanges *)

Lemma structured_errors_roundtrip_witness :
  client_err (ServerErr "VERSIONCONFLICT current=5") = SeVersionConflict 5
  /\ client_err (ServerErr "PREFIXTOOLARGE matched=150000 limit=100000")
     = SePrefixTooLarge 150000 100000.
Proof.
  apply (structured_errors_roundtrip 5 150000 100000); unfold in_u64, two64; lia.
Defined.

Lemma namespace_not_found_lost_witness :
  client_err (ServerErr "namespace not found: ns") = SeNotFound.
Proof.
  apply (proj2 (namespace_not_found_lost "namespace not found: ns")); reflexivity.
Defined.

Definition delete_event : SubscriptionEvent :=
  {| ev_event := EventDelete; ev_namespace := "ns"; ev_key := as_bytes "k"; ev_version := two64 - 1;
     ev_actor := "root"; ev_timestamp := 1700000001 |}.

Lemma event_roundtrip_witness :
  relay (frame_response (subscription_event_to_push_frame delete_event)) = Relay delete_event.
Proof.
  apply (event_roundtrip delete_event); try (apply text_ascii; reflexivity).
  - unfold in_u64. simpl. unfold two64. lia.
  - unfold in_u64. simpl. unfold two64. lia.
Defined.


(** The dispatcher after the writer has put a value. *)
Definition one_key : Dispatcher := (execute toy_writer put_k toy_dispatcher).2.


Lemma pipeline_hides_errors_witness :
  exists d', rs_pipeline (Transport0 := link toy_writer)
               [PcPutIfVersion "ns" (as_bytes "k") (as_bytes "v") None 3] toy_dispatcher
             = Ok (Ok [PrPut 0], d').
Proof.
  apply (pipeline_hides_errors toy_writer "ns" (as_bytes "k") (as_bytes "v") 3 (SeVersionConflict 0)
    toy_dispatcher).
  - apply text_ascii. reflexivity.
  - exact (text_ascii "k" eq_refl).
  - exact (text_ascii "v" eq_refl).
  - unfold in_u64, two64. lia.
  - reflexivity.
  - vm_compute. reflexivity.
Defined.
