(* ===== verification/RemoteStoreSpec.v ===== *)
(** * The rest of the remote store against the server

    Listing, history and namespace operations, and the conditional and prefix
    deletions of [remote_store.rs], carried out over a connection to a
    dispatcher: each is one operation of the dispatcher's own store. *)
From S2P Require Import Prelude RustStr Externals Resp3 Resp3Reader Command ParseCommand Response Idempotency Handlers Dispatch ClientResponse ClientConnection ClientApi RemoteStore ParseSpec ClientSpec DispatchSpec RemoteSpec Toy.
Open Scope Z_scope.
Open Scope string_scope.

Section Whole.
Context `{StoreErrorText} `{!Acl} `{!SerdeBuild} `{!MetadataCodec}.
Context {S : Type} `{!Store S} {E : Type} `{!Engine E} {C : Type} `{!Clock C}.
Variable auth : option AuthContext.

Abbreviation server := (Dispatcher (S:=S) (E:=E) (C:=C)).
#[local] Instance here : Transport server := link auth.

(** The response to a request that runs [h] on the store. *)
Definition answer (h : S -> result CommandError ResponseMap * S) (s : S) : Response :=
  frame_response (response_to_frame (response_of (h s).1)).

(** A request for a command, served by a handler of the store. *)
Definition runs (args : list string) (cmd : Command) (h : S -> result CommandError ResponseMap * S) : Prop :=
  match args with
  | [] => False
  | v :: ws =>
      Forall text (v :: ws) /\ eq_ignore_ascii_case v "PIPELINE" = false /\
      parse_flat (v :: ws) = Ok cmd /\ (forall cs rid, cmd <> Pipeline cs rid) /\
      permitted auth cmd = true /\ forall d : server, dispatch cmd d = with_store h d
  end.

Lemma send_runs args cmd h (d : server) :
  runs args cmd h -> exists d', send args d = Ok (answer h (store d), d') /\ store d' = (h (store d)).2.
Proof.
  destruct args as [|v ws]; [done|]. intros (Ht & Hv & Hp & Hc & Ha & Hd). by apply (serve_store auth v ws cmd).
Qed.

Lemma raw_runs {A} args cmd h (f : Response -> result StoreError A) (d : server) :
  runs args cmd h ->
  exists d', raw args f d = Ok (f (answer h (store d)), d') /\ store d' = (h (store d)).2.
Proof.
  intros Hr. destruct (send_runs args cmd h d Hr) as (d' & Hs & Hd). exists d'. split; [|done].
  unfold raw. by rewrite Hs.
Qed.

Lemma mapped_runs {A B} args cmd h (g : A -> B) (f : Response -> result ClientError A) (d : server) :
  runs args cmd h ->
  exists d', mapped g (parsed (send args) f) d
             = Ok (match f (answer h (store d)) with Ok a => Ok (g a) | Err e => Err (client_err e) end, d')
             /\ store d' = (h (store d)).2.
Proof.
  intros Hr. destruct (send_runs args cmd h d Hr) as (d' & Hs & Hd). exists d'. split; [|done].
  unfold mapped, parsed. rewrite Hs. reflexivity.
Qed.

(** ** Arguments *)

Ltac request_text := repeat constructor; try done; try (by apply text_lossy);
  try (apply text_ascii; reflexivity); try apply int_to_string_utf8.

Lemma number_printed n what : in_u64 n -> number (int_to_string n) what = Ok n.
Proof. intros Hn. unfold number. by rewrite parse_u64_to_string. Qed.

(** Runs the parser on words that are known up to the arguments. *)
Ltac parsing := cbv -[int_to_string number as_bytes from_utf8_lossy]; rewrite ?number_printed by done;
  cbv -[int_to_string number as_bytes from_utf8_lossy]; rewrite ?number_printed by done.

Lemma text_opt_arg kw o : text kw -> opt text o -> Forall text (opt_arg kw o).
Proof. intros Hk Ho. destruct o; cbn; by repeat constructor. Qed.

Lemma opt_text_lossy o : opt utf8 o -> opt text (option_map from_utf8_lossy o).
Proof. destruct o; [|done]. apply text_lossy. Qed.

Lemma opt_text_int o : opt text (option_map int_to_string o).
Proof. destruct o; [apply int_to_string_utf8|done]. Qed.

(** ** LIST *)
Lemma list_runs ns prefix cursor limit :
  text ns -> opt utf8 prefix -> opt text cursor -> in_u64 limit ->
  permitted auth (List ns prefix cursor (Some limit)) = true ->
  runs (["LIST"; ns] ++ opt_arg "PREFIX" (option_map from_utf8_lossy prefix)
       ++ opt_arg "CURSOR" cursor ++ ["LIMIT"; int_to_string limit])%list
    (List ns prefix cursor (Some limit)) (list_handle ns prefix cursor limit).
Proof.
  intros Hns Hp Hc Hl Ha. cbn [app runs]. split_and!; try done.
  - apply Forall_cons; split; [apply text_ascii; reflexivity|]. apply Forall_cons; split; [done|].
    apply Forall_app; split; [apply text_opt_arg; [apply text_ascii; reflexivity|by apply opt_text_lossy]|].
    apply Forall_app; split; [apply text_opt_arg; [apply text_ascii; reflexivity|done]|]. request_text.
  - destruct prefix as [p|], cursor as [c|]; parsing; by rewrite ?as_bytes_lossy.
Qed.

(** ** VERSIONS *)
Lemma versions_runs ns key limit from :
  text ns -> utf8 key -> in_u64 limit -> opt in_u64 from ->
  permitted auth (Versions ns key (Some limit) from) = true ->
  runs (["VERSIONS"; ns; from_utf8_lossy key; "LIMIT"; int_to_string limit]
       ++ opt_arg "FROM" (option_map int_to_string from))%list
    (Versions ns key (Some limit) from) (versions_handle ns key limit from).
Proof.
  intros Hns Hk Hl Hf Ha. cbn [app runs]. split_and!; try done.
  - request_text. apply text_opt_arg; [apply text_ascii; reflexivity|apply opt_text_int].
  - destruct from as [f|]; parsing; by rewrite as_bytes_lossy.
Qed.

(** ** DELIF and DELPREFIX *)
Lemma delif_runs ns key expected :
  text ns -> utf8 key -> in_u64 expected -> permitted auth (DelIf ns key expected) = true ->
  runs ["DELIF"; ns; from_utf8_lossy key; "EXPECT"; int_to_string expected]
    (DelIf ns key expected) (del_if_handle ns key expected).
Proof.
  intros Hns Hk He Ha. cbn [runs]. split_and!; try done; [request_text|].
  parsing; by rewrite as_bytes_lossy.
Qed.

Lemma delprefix_runs ns prefix :
  text ns -> utf8 prefix -> prefix <> [] -> permitted auth (DelPrefix ns prefix) = true ->
  runs ["DELPREFIX"; ns; from_utf8_lossy prefix] (DelPrefix ns prefix) (del_prefix_handle ns prefix).
Proof.
  intros Hns Hp Hne Ha. cbn [runs]. split_and!; try done; [request_text|].
  parsing. rewrite as_bytes_lossy by done. by destruct prefix.
Qed.

(** ** NAMESPACE *)
Lemma namespace_list_runs cursor limit :
  opt text cursor -> in_u64 limit -> permitted auth (NamespaceList cursor (Some limit)) = true ->
  runs (["NAMESPACE"; "LIST"] ++ opt_arg "CURSOR" cursor ++ ["LIMIT"; int_to_string limit])%list
    (NamespaceList cursor (Some limit)) (namespace_handle_list cursor limit).
Proof.
  intros Hc Hl Ha. cbn [app runs]. split_and!; try done.
  - apply Forall_cons; split; [apply text_ascii; reflexivity|].
    apply Forall_cons; split; [apply text_ascii; reflexivity|].
    apply Forall_app; split; [apply text_opt_arg; [apply text_ascii; reflexivity|done]|]. request_text.
  - assert (parse_usize (int_to_string limit) = Ok limit) as Hpl by by apply parse_u64_to_string.
    destruct cursor as [c|]; cbv -[int_to_string parse_usize]; by rewrite Hpl.
Qed.

Lemma namespace_word_runs sub ns cmd h :
  text sub -> text ns -> parse_flat ["NAMESPACE"; sub; ns] = Ok cmd -> (forall cs rid, cmd <> Pipeline cs rid) ->
  permitted auth cmd = true -> (forall d : server, dispatch cmd d = with_store h d) ->
  runs ["NAMESPACE"; sub; ns] cmd h.
Proof. intros. cbn [runs]. split_and!; try done. request_text. Qed.

Lemma namespace_drop_runs ns force :
  text ns -> permitted auth (NamespaceDrop ns force) = true ->
  runs (if force then ["NAMESPACE"; "DROP"; ns; "FORCE"] else ["NAMESPACE"; "DROP"; ns])
    (NamespaceDrop ns force) (namespace_handle_drop ns force).
Proof. intros Hns Ha. destruct force; cbn [runs]; split_and!; try done; request_text. Qed.

(** A configuration that survives being printed. *)
Definition printable (config : NamespaceConfig) : Prop :=
  opt in_u64 (max_versions config) /\ opt in_u64 (tombstone_retention_secs config) /\
  opt (fun schema => text (meta_schema_to_string schema) /\
         exists j, json_from_str (meta_schema_to_string schema) = Ok j /\ meta_schema_from_json j = Ok schema)
    (meta_schema config).

(** The schema as the parser reads it. *)
Definition schema_json (config : NamespaceConfig) : option Value :=
  schema ← meta_schema config; ok (json_from_str (meta_schema_to_string schema)).

Lemma parse_config_printed config : printable config ->
  namespace_parse_config (schema_json config) (max_versions config) (tombstone_retention_secs config) = Ok config.
Proof.
  intros (_ & _ & Hs). destruct config as [[schema|] mv ret]; [|done].
  destruct Hs as (_ & j & Hj & Hsch). unfold schema_json. cbn -[namespace_parse_config] in *. rewrite Hj.
  cbn. by rewrite Hsch.
Qed.

Lemma text_config_args config : printable config -> Forall text (config_args config).
Proof.
  intros (_ & _ & Hs). unfold config_args.
  apply Forall_app; split; [apply text_opt_arg; [apply text_ascii; reflexivity|apply opt_text_int]|].
  apply Forall_app; split; [apply text_opt_arg; [apply text_ascii; reflexivity|apply opt_text_int]|].
  apply text_opt_arg; [apply text_ascii; reflexivity|]. destruct (meta_schema config); [apply Hs|done].
Qed.

Lemma namespace_create_runs ns config :
  text ns -> printable config ->
  permitted auth (NamespaceCreate ns (schema_json config) (max_versions config) (tombstone_retention_secs config)) = true ->
  runs (["NAMESPACE"; "CREATE"; ns] ++ config_args config)%list
    (NamespaceCreate ns (schema_json config) (max_versions config) (tombstone_retention_secs config))
    (namespace_handle_create ns (schema_json config) (max_versions config) (tombstone_retention_secs config)).
Proof.
  intros Hns Hc Ha. cbn [app runs]. split_and!; try done.
  - do 2 (apply Forall_cons; split; [apply text_ascii; reflexivity|]).
    apply Forall_cons; split; [done|by apply text_config_args].
  - destruct Hc as (Hmv & Hret & Hs).
    destruct config as [[schema|] [mv|] [ret|]]; cbn [max_versions tombstone_retention_secs meta_schema opt] in *;
      try destruct Hs as (_ & j & Hj & _); unfold schema_json; cbn [meta_schema mbind option_bind];
      rewrite ?Hj; cbv -[int_to_string number json_from_str meta_schema_to_string];
      rewrite ?number_printed by done; cbv -[int_to_string number json_from_str meta_schema_to_string];
      rewrite ?number_printed by done; cbv -[int_to_string number json_from_str meta_schema_to_string];
      try unfold json; rewrite ?Hj; reflexivity.
Qed.

Lemma namespace_alter_runs ns config :
  text ns -> printable config ->
  permitted auth (NamespaceAlter ns (schema_json config) (max_versions config) (tombstone_retention_secs config)) = true ->
  runs (["NAMESPACE"; "ALTER"; ns] ++ config_args config)%list
    (NamespaceAlter ns (schema_json config) (max_versions config) (tombstone_retention_secs config))
    (namespace_handle_alter ns (schema_json config) (max_versions config) (tombstone_retention_secs config)).
Proof.
  intros Hns Hc Ha. cbn [app runs]. split_and!; try done.
  - do 2 (apply Forall_cons; split; [apply text_ascii; reflexivity|]).
    apply Forall_cons; split; [done|by apply text_config_args].
  - destruct Hc as (Hmv & Hret & Hs).
    destruct config as [[schema|] [mv|] [ret|]]; cbn [max_versions tombstone_retention_secs meta_schema opt] in *;
      try destruct Hs as (_ & j & Hj & _); unfold schema_json; cbn [meta_schema mbind option_bind];
      rewrite ?Hj; cbv -[int_to_string parse_u64 json_from_str meta_schema_to_string];
      rewrite ?parse_u64_to_string, ?Hj by done; reflexivity.
Qed.

(** ** Responses *)

(** What is left of an error: the text of the one the handler makes of it. *)
Definition reported {A : Type} (err : StoreError -> CommandError) (r : result StoreError A)
    : result StoreError A :=
  match r with
  | Ok a => Ok a
  | Err e => Err (client_err (ServerErr (command_error_display (err e))))
  end.

(** The fields of a success, as the client reads them. *)
Definition fields_response (m : list (string * ResponseValue)) : Response :=
  frame_response (response_map_to_frame m).

Lemma answer_on_store {A} (op : S -> result StoreError A * S) err ok s :
  answer (on_store op err ok) s
  = match (op s).1 with
    | Ok a => fields_response (ok a)
    | Err e => RError (command_error_display (err e))
    end.
Proof. unfold answer, on_store. by destruct (op s) as [[a|e] s']. Qed.

Lemma on_store_state {A} (op : S -> result StoreError A * S) err ok s :
  (on_store op err ok s).2 = (op s).2.
Proof. unfold on_store. by destruct (op s) as [[a|e] s']. Qed.

Lemma int_field_last m name n :
  in_u64 n -> get_field (fields_response m) name = Some (RInteger (u64_as_i64 n)) ->
  int_field name (fields_response m) = Ok n.
Proof.
  intros Hn Hf. unfold int_field. rewrite Hf. cbn. by rewrite i64_as_u64_u64_as_i64.
Qed.

(** A page arrives whole when its keys and its cursor are text. *)
Definition page_text (p : Page) : Prop := Forall utf8 (page_keys p) /\ opt text (page_cursor p).

(** A key as a value of a response, and as a string of the client. *)
Definition reads_key (f : bytes -> ResponseValue) : Prop :=
  forall k, utf8 k -> frame_response (response_value_to_frame (f k)) = RString (from_utf8_lossy k).

Lemma strings_read (ks : list bytes) (f : bytes -> ResponseValue) :
  reads_key f -> Forall utf8 ks ->
  map as_bytes (strings (map frame_response (map response_value_to_frame (map f ks)))) = ks.
Proof.
  intros Hf. unfold strings. induction 1 as [|k ks Hk _ IH]; [done|]. cbn [map omap list_omap].
  rewrite Hf by done. cbn [as_str map]. by rewrite IH, as_bytes_lossy.
Qed.

Lemma remote_page_read name (f : bytes -> ResponseValue) p :
  name = "keys" \/ name = "namespaces" ->
  reads_key f -> page_text p ->
  remote_page name (fields_response (page_response name (map f (page_keys p)) (page_cursor p))) = Ok p.
Proof.
  intros Hname Hf [Hk Hc]. destruct p as [ks c]. cbn [page_keys page_cursor] in *.
  set (resp := fields_response _).
  assert (get_field resp name = Some (RArray (map frame_response (map response_value_to_frame (map f ks)))))
    as Hfield by (destruct Hname as [->| ->], c; reflexivity).
  assert (get_string_field resp "cursor" = option_map (fun c => from_utf8_lossy (as_bytes c)) c) as Hcur
    by (destruct Hname as [->| ->], c; reflexivity).
  unfold remote_page. rewrite Hfield. cbn [ok_or mbind result_bind].
  rewrite Hcur, strings_read by done.
  destruct c as [c|]; [|done]. cbn [option_map]. by rewrite lossy_as_bytes.
Qed.

(** A version of a history arrives whole. *)
Definition version_text (v : VersionInfo) : Prop :=
  in_u64 (vi_version v) /\ in_u64 (vi_updated_at v) /\ text (vi_actor v).

Lemma remote_version_read v : version_text v ->
  remote_version (frame_response (response_value_to_frame (version_entry v))) = v.
Proof.
  intros (Hv & Hu & Ha). destruct v as [v state u a]. cbn [vi_version vi_updated_at vi_actor] in *.
  set (item := frame_response _).
  assert (get_int_field item "version" = Some (u64_as_i64 v)) as Hvf by reflexivity.
  assert (get_int_field item "updated_at" = Some (u64_as_i64 u)) as Huf by reflexivity.
  assert (get_string_field item "actor" = Some (from_utf8_lossy (as_bytes a))) as Haf by reflexivity.
  assert (get_string_field item "state" = Some (match state with Active => "active" | Deleted => "deleted" end))
    as Hsf by (destruct state; reflexivity).
  unfold remote_version. rewrite Hvf, Huf, Haf, Hsf. cbn [from_option id].
  rewrite lossy_as_bytes, !i64_as_u64_u64_as_i64 by done. by destruct state.
Qed.

(** What NAMESPACE INFO leaves of a namespace: its configuration is not sent. *)
Definition bare_info (i : NamespaceInformation) : NamespaceInformation :=
  {| info_name := info_name i; info_key_count := info_key_count i; info_created_at := info_created_at i;
     info_config := {| meta_schema := None; max_versions := None; tombstone_retention_secs := None |} |}.

Definition info_text (i : NamespaceInformation) : Prop :=
  text (info_name i) /\ in_u64 (info_key_count i) /\ in_u64 (info_created_at i).

(** ** Queries *)

Lemma remote_list_refines ns prefix cursor limit (d : server) :
  text ns -> opt utf8 prefix -> opt text cursor -> in_u64 limit ->
  permitted auth (List ns prefix cursor (Some limit)) = true ->
  let r := st_list ns prefix cursor limit (store d) in
  (forall p, r.1 = Ok p -> page_text p) ->
  exists d', rs_list ns prefix cursor limit d
             = Ok (match r.1 with Ok p => Ok p | Err _ => Err (SeStorage "missing keys field") end, d')
             /\ store d' = r.2.
Proof.
  intros Hns Hp Hc Hl Ha r Hr.
  destruct (raw_runs _ _ _ (remote_page "keys") d (list_runs ns prefix cursor limit Hns Hp Hc Hl Ha))
    as (d' & Hd & Hs).
  exists d'. unfold rs_list. rewrite Hd, Hs. unfold list_handle. rewrite answer_on_store, on_store_state.
  split; [|done]. subst r. destruct (st_list ns prefix cursor limit (store d)).1 as [p|e]; [|done].
  rewrite (remote_page_read "keys" RVBytes); [done|by left|by intros k _|by apply Hr].
Qed.

Lemma remote_versions_refines ns key limit from (d : server) :
  text ns -> utf8 key -> in_u64 limit -> opt in_u64 from ->
  permitted auth (Versions ns key (Some limit) from) = true ->
  let r := st_versions ns key limit from (store d) in
  (forall vs, r.1 = Ok vs -> Forall version_text vs) ->
  exists d', rs_versions ns key limit from d
             = Ok (match r.1 with Ok vs => Ok vs | Err _ => Err (SeStorage "missing versions field") end, d')
             /\ store d' = r.2.
Proof.
  intros Hns Hk Hl Hf Ha r Hr.
  edestruct (raw_runs (A:=list VersionInfo)) as (d' & Hd & Hs);
    [exact (versions_runs ns key limit from Hns Hk Hl Hf Ha)|].
  exists d'. unfold rs_versions. rewrite Hd, Hs. unfold versions_handle. rewrite answer_on_store, on_store_state.
  split; [|done]. subst r. destruct (st_versions ns key limit from (store d)).1 as [vs|e]; [|done].
  set (resp := fields_response _).
  assert (get_field resp "versions"
    = Some (RArray (map frame_response (map response_value_to_frame (map version_entry vs))))) as -> by reflexivity.
  cbn [ok_or mbind result_bind]. do 3 f_equal. rewrite !map_map. specialize (Hr vs eq_refl).
  induction Hr as [|v vs Hv _ IH]; [done|]. cbn [map]. by rewrite IH, remote_version_read.
Qed.

Lemma remote_namespace_list_refines cursor limit (d : server) :
  opt text cursor -> in_u64 limit -> permitted auth (NamespaceList cursor (Some limit)) = true ->
  let r := st_namespace_list cursor limit (store d) in
  (forall p, r.1 = Ok p -> page_text p) ->
  exists d', rs_namespace_list cursor limit d
             = Ok (match r.1 with Ok p => Ok p | Err _ => Err (SeStorage "missing namespaces field") end, d')
             /\ store d' = r.2.
Proof.
  intros Hc Hl Ha r Hr.
  destruct (raw_runs _ _ _ (remote_page "namespaces") d (namespace_list_runs cursor limit Hc Hl Ha))
    as (d' & Hd & Hs).
  exists d'. unfold rs_namespace_list. rewrite Hd, Hs. unfold namespace_handle_list.
  rewrite answer_on_store, on_store_state.
  split; [|done]. subst r. destruct (st_namespace_list cursor limit (store d)).1 as [p|e]; [|done].
  rewrite (remote_page_read "namespaces" (fun k => RVString (from_utf8_lossy k))); [done|by right| |by apply Hr].
  intros k Hk. cbn [response_value_to_frame frame_response]. by rewrite lossy_as_bytes by by apply text_lossy.
Qed.

Lemma remote_namespace_info_refines ns (d : server) :
  text ns -> permitted auth (NamespaceInfo ns) = true ->
  let r := st_namespace_info ns (store d) in
  (forall i, r.1 = Ok i -> info_text i) ->
  exists d', rs_namespace_info ns d
             = Ok (reported StoreErr (match r.1 with Ok i => Ok (bare_info i) | Err e => Err e end), d')
             /\ store d' = r.2.
Proof.
  intros Hns Ha r Hr. unfold rs_namespace_info, client_namespace_info.
  edestruct (mapped_runs (A:=ClientNamespaceInfo) (B:=NamespaceInformation)) as (d' & Hd & Hs).
  { apply (namespace_word_runs "INFO" ns (NamespaceInfo ns) (namespace_handle_info ns)); try done.
    apply text_ascii. reflexivity. }
  exists d'. rewrite Hd, Hs. unfold namespace_handle_info. rewrite answer_on_store, on_store_state.
  split; [|done]. subst r. destruct (st_namespace_info ns (store d)).1 as [i|e]; [|done].
  destruct (Hr i eq_refl) as (Hn & Hk & Hc). unfold checked. set (resp := fields_response _).
  assert (parse_namespace_info resp = Ok {| ni_name := from_utf8_lossy (as_bytes (info_name i));
    ni_key_count := i64_as_u64 (u64_as_i64 (info_key_count i));
    ni_created_at := i64_as_u64 (u64_as_i64 (info_created_at i)) |}) as Hp by reflexivity.
  change (check_ok resp) with (Ok (E:=ClientError) tt). cbn [mbind result_bind]. rewrite Hp.
  cbn [reported ni_name ni_key_count ni_created_at]. by rewrite lossy_as_bytes, !i64_as_u64_u64_as_i64.
Qed.

(** ** Changes *)

Lemma remote_ok_runs args cmd (op : S -> result StoreError unit * S) (d : server) :
  runs args cmd (on_store op StoreErr (fun _ => map_ok)) ->
  exists d', raw args remote_ok d = Ok (reported StoreErr (op (store d)).1, d')
             /\ store d' = (op (store d)).2.
Proof.
  intros Hr. destruct (raw_runs _ _ _ remote_ok d Hr) as (d' & Hd & Hs). exists d'. rewrite Hd, Hs.
  rewrite answer_on_store, on_store_state. split; [|done]. by destruct (op (store d)).1 as [[]|e].
Qed.

Lemma remote_create_refines ns config (d : server) :
  text ns -> printable config ->
  permitted auth (NamespaceCreate ns (schema_json config) (max_versions config) (tombstone_retention_secs config)) = true ->
  let r := st_namespace_create ns config (store d) in
  exists d', rs_namespace_create ns config d = Ok (reported StoreErr r.1, d') /\ store d' = r.2.
Proof.
  intros Hns Hc Ha r. unfold rs_namespace_create. eapply remote_ok_runs.
  pose proof (namespace_create_runs ns config Hns Hc Ha) as Hr.
  unfold namespace_handle_create in Hr. rewrite parse_config_printed in Hr by done. exact Hr.
Qed.

Lemma remote_alter_refines ns config (d : server) :
  text ns -> printable config ->
  permitted auth (NamespaceAlter ns (schema_json config) (max_versions config) (tombstone_retention_secs config)) = true ->
  let r := st_namespace_alter ns config (store d) in
  exists d', rs_namespace_alter ns config d = Ok (reported StoreErr r.1, d') /\ store d' = r.2.
Proof.
  intros Hns Hc Ha r. unfold rs_namespace_alter. eapply remote_ok_runs.
  pose proof (namespace_alter_runs ns config Hns Hc Ha) as Hr.
  unfold namespace_handle_alter in Hr. rewrite parse_config_printed in Hr by done. exact Hr.
Qed.

Lemma remote_drop_refines ns force (d : server) :
  text ns -> permitted auth (NamespaceDrop ns force) = true ->
  let r := st_namespace_drop ns force (store d) in
  exists d', rs_namespace_drop ns force d = Ok (reported StoreErr r.1, d') /\ store d' = r.2.
Proof.
  intros Hns Ha r. unfold rs_namespace_drop, client_namespace_drop.
  edestruct (mapped_runs (A:=unit) (B:=unit)) as (d' & Hd & Hs); [exact (namespace_drop_runs ns force Hns Ha)|].
  exists d'. rewrite Hd, Hs. unfold namespace_handle_drop. rewrite answer_on_store, on_store_state.
  split; [|done]. subst r. by destruct (st_namespace_drop ns force (store d)).1 as [[]|e].
Qed.

Lemma remote_delif_refines ns key expected (d : server) :
  text ns -> utf8 key -> in_u64 expected -> permitted auth (DelIf ns key expected) = true ->
  let r := st_delete_if_version ns key expected (store d) in
  (forall v, r.1 = Ok v -> in_u64 v) ->
  exists d', rs_delete_if_version ns key expected d = Ok (reported (del_if_error ns key) r.1, d')
             /\ store d' = r.2.
Proof.
  intros Hns Hk He Ha r Hr.
  destruct (raw_runs _ _ _ (unless_error (int_field "version")) d (delif_runs ns key expected Hns Hk He Ha))
    as (d' & Hd & Hs).
  exists d'. unfold rs_delete_if_version. rewrite Hd, Hs. unfold del_if_handle.
  rewrite answer_on_store, on_store_state. split; [|done]. subst r.
  destruct (st_delete_if_version ns key expected (store d)).1 as [v|e]; [|done].
  change (unless_error ?f (fields_response ?m)) with (f (fields_response m)).
  rewrite (int_field_last _ "version" v); [done|by apply Hr|reflexivity].
Qed.

Lemma remote_delprefix_refines ns prefix (d : server) :
  text ns -> utf8 prefix -> prefix <> [] -> permitted auth (DelPrefix ns prefix) = true ->
  let r := st_delete_prefix ns prefix (store d) in
  (forall n, r.1 = Ok n -> in_u64 n) ->
  exists d', rs_delete_prefix ns prefix d = Ok (reported (del_prefix_error ns) r.1, d')
             /\ store d' = r.2.
Proof.
  intros Hns Hp Hne Ha r Hr.
  destruct (raw_runs _ _ _ (unless_error (int_field "deleted")) d (delprefix_runs ns prefix Hns Hp Hne Ha))
    as (d' & Hd & Hs).
  exists d'. unfold rs_delete_prefix. rewrite Hd, Hs. unfold del_prefix_handle.
  rewrite answer_on_store, on_store_state. split; [|done]. subst r.
  destruct (st_delete_prefix ns prefix (store d)).1 as [n|e]; [|done].
  change (unless_error ?f (fields_response ?m)) with (f (fields_response m)).
  rewrite (int_field_last _ "deleted" n); [done|by apply Hr|reflexivity].
Qed.

(** Violations of a schema are not reported: whatever the server's store finds,
    the remote store answers that it found none. *)
Lemma remote_validate_silent ns reports (d : server) :
  text ns -> permitted auth (NamespaceValidate ns) = true ->
  (st_namespace_validate ns (store d)).1 = Ok reports ->
  exists d', rs_namespace_validate ns d = Ok (Ok [], d').
Proof.
  intros Hns Ha Hr. unfold rs_namespace_validate.
  edestruct (raw_runs (A:=list ValidationReport)) as (d' & Hd & _).
  { apply (namespace_word_runs "VALIDATE" ns (NamespaceValidate ns) (namespace_handle_validate ns)); try done.
    apply text_ascii. reflexivity. }
  exists d'. rewrite Hd. unfold namespace_handle_validate. rewrite answer_on_store, Hr. reflexivity.
Qed.

(** ** The theorems *)


End Whole.

(** ** Concrete exchanges *)


