(* ===== verification/AclSpec.v ===== *)
(** * Namespaces are isolated

    What the dispatcher's ACL check ([dispatch.rs], with the requirements of
    [command.rs]) buys a namespace, over any store whose operations are local
    to the namespace they name: callers without a write grant cannot change it,
    and callers without a read grant cannot observe it, whatever they send. *)
From S2P Require Import Prelude RustStr Externals Resp3 Command Response Idempotency Handlers Dispatch Toy ParseSpec DispatchSpec.
Open Scope Z_scope.

(** ** What a namespaced store promises

    [view s ns] is what the store holds in [ns].  An operation on a namespace
    leaves the others alone, and what it answers and leaves behind depends on
    that namespace only; an operation that reads changes nothing. *)
Section Local.
Context {S View : Type} (view : S -> string -> View).

Record local_op (ns : string) {A : Type} (op : S -> A * S) : Prop := {
  local_frame s ns' : ns' <> ns -> view (op s).2 ns' = view s ns';
  local_answer s1 s2 : view s1 ns = view s2 ns ->
    (op s1).1 = (op s2).1 /\ view (op s1).2 ns = view (op s2).2 ns;
}.

Definition pure_op {A : Type} (op : S -> A * S) : Prop :=
  forall s ns, view (op s).2 ns = view s ns.
End Local.

Class NamespacedStore `{StoreTypes} (S : Type) `{!Store S} {View : Type}
    (view : S -> string -> View) : Prop := {
  local_put ns k v o : local_op view ns (st_put_with_options ns k v o);
  local_delete ns k : local_op view ns (st_delete ns k);
  local_put_if ns k v md e : local_op view ns (st_put_if_version ns k v md e);
  local_delete_if ns k e : local_op view ns (st_delete_if_version ns k e);
  local_delete_prefix ns p : local_op view ns (st_delete_prefix ns p);
  local_get ns k v : local_op view ns (st_get ns k v);
  local_list ns p c l : local_op view ns (st_list ns p c l);
  local_versions ns k l f : local_op view ns (st_versions ns k l f);
  local_info ns : local_op view ns (st_namespace_info ns);
  local_validate ns : local_op view ns (st_namespace_validate ns);
  pure_get ns k v : pure_op view (st_get ns k v);
  pure_list ns p c l : pure_op view (st_list ns p c l);
  pure_versions ns k l f : pure_op view (st_versions ns k l f);
  pure_info ns : pure_op view (st_namespace_info ns);
  pure_validate ns : pure_op view (st_namespace_validate ns);
  pure_namespace_list c l : pure_op view (st_namespace_list c l);
}.

#[export] Hint Resolve local_put local_delete local_put_if local_delete_if local_delete_prefix
  local_get local_list local_versions local_info local_validate pure_get pure_list pure_versions
  pure_info pure_validate pure_namespace_list : shroud.

Section Acl.
Context `{StoreErrorText} `{!Acl}.
Context {S : Type} `{!Store S} {E : Type} `{!Engine E} {C : Type} `{!Clock C}.
Context {View : Type} (view : S -> string -> View) `{!NamespacedStore S view}.

Implicit Types (d : Dispatcher (S:=S) (E:=E) (C:=C)) (c : Command) (auth : option AuthContext).

(** The caller has a grant for the requirement. *)
Definition granted auth (r : AclRequirement) : Prop :=
  exists ctx, auth = Some ctx /\ auth_check ctx r = Ok tt.

Lemma not_refused_granted auth c :
  acl_refusal c auth = None -> acl_requirement c = AclNone \/ granted auth (acl_requirement c).
Proof.
  unfold acl_refusal, granted. destruct (acl_requirement c); [by left| |];
    (destruct auth as [ctx|]; [|done]);
    (destruct (auth_check ctx _) as [[]|] eqn:Hc; [|done]); right; eauto.
Qed.

(** ** Integrity *)

Lemma on_store_frame {A} ns ns' (op : S -> result StoreError A * S) err ok s :
  local_op view ns' op -> ns' <> ns -> view (on_store op err ok s).2 ns = view s ns.
Proof.
  intros Hl Hne. unfold on_store. pose proof (local_frame _ _ _ Hl s ns (not_eq_sym Hne)) as Hf.
  by destruct (op s).
Qed.

Lemma on_store_pure {A} ns (op : S -> result StoreError A * S) err ok s :
  pure_op view op -> view (on_store op err ok s).2 ns = view s ns.
Proof. intros Hp. unfold on_store. specialize (Hp s ns). by destruct (op s). Qed.

Hint Resolve on_store_frame on_store_pure : shroud.

(** The namespace is untouched, and so is the engine. *)
Definition intact ns d d' : Prop := view (store d') ns = view (store d) ns /\ engine d' = engine d.

#[export] Instance intact_preorder ns : PreOrder (intact ns).
Proof. split; unfold intact; [done|]. intros ??? [-> ->] [-> ->]. done. Qed.

Lemma with_store_intact ns (h : S -> result CommandError ResponseMap * S) d :
  (forall s, view (h s).2 ns = view s ns) -> intact ns d (with_store h d).2.
Proof. intros Hh. unfold with_store. specialize (Hh (store d)). by destruct (h (store d)). Qed.

Lemma dispatch_intact auth c d ns :
  acl_refusal c auth = None ->
  ~ granted auth AclAdmin -> ~ granted auth (AclNamespace ns ScopeWrite None) ->
  intact ns d (dispatch c d).2.
Proof.
  intros Ha%not_refused_granted Hadmin Hwrite.
  assert (Hns : forall ns', acl_requirement c = AclNamespace ns' ScopeWrite None -> ns' <> ns).
  { intros ns' Hr ->. rewrite Hr in Ha. by destruct Ha. }
  destruct c; try (by destruct Ha); cbn [dispatch]; try reflexivity;
    try (apply with_store_intact; intros s;
         unfold put_handle, put_if_handle, get_handle, delete_handle, del_if_handle,
           del_prefix_handle, list_handle, versions_handle, namespace_handle_list,
           namespace_handle_info, namespace_handle_validate;
         try (destruct (parse_metadata _); [|done]);
         specialize (Hns _ eq_refl) || clear Hns; eauto with shroud);
    by destruct (engine d).
Qed.

Lemma same_effects_intact ns d d' : same_effects d d' -> intact ns d d'.
Proof. intros (Hs & He & _). split; congruence. Qed.

Lemma report_intact ns r d : intact ns d (report r d).
Proof. done. Qed.

Lemma execute_single_intact auth c d ns :
  ~ granted auth AclAdmin -> ~ granted auth (AclNamespace ns ScopeWrite None) ->
  intact ns d (execute_single c auth d).2.
Proof.
  intros Hadmin Hwrite. unfold execute_single. destruct (acl_refusal c auth) eqn:Ha; [reflexivity|].
  pose proof (read_instant_effects d) as He1. destruct (read_instant d) as [t d1].
  pose proof (dispatch_intact auth c d1 ns Ha Hadmin Hwrite) as He2.
  apply (same_effects_intact ns) in He1.
  destruct (dispatch c d1) as [[res|] d2]; cbn [fst snd] in *; [|by transitivity d1].
  pose proof (read_instant_effects d2) as He3. destruct (read_instant d2) as [t' d3].
  apply (same_effects_intact ns) in He3. cbn [fst snd] in *.
  transitivity d1; [done|]. transitivity d2; [done|]. transitivity d3; [done|].
  by destruct (negb (is_read c)).
Qed.

Lemma execute_intact auth c d ns :
  ~ granted auth AclAdmin -> ~ granted auth (AclNamespace ns ScopeWrite None) ->
  intact ns d (execute auth c d).2.
Proof.
  intros Hadmin Hwrite. revert d.
  induction c as [cs rid IH|c Hc] using command_ind'; intros d.
  - apply (execute_pipeline_effects (intact ns)); [apply same_effects_intact|]. intros d1.
    by apply (execute_each_effects (intact ns)).
  - rewrite execute_not_pipeline by done. by apply execute_single_intact.
Qed.

(** C2. Integrity of namespaces: a caller who is no administrator and has no
    write grant on a namespace cannot change what it holds, nor the engine's
    configuration or keys, whatever commands and pipelines it sends. *)
Theorem acl_isolation auth c d ns :
  ~ granted auth AclAdmin -> ~ granted auth (AclNamespace ns ScopeWrite None) ->
  view (store (execute auth c d).2) ns = view (store d) ns
  /\ engine (execute auth c d).2 = engine d.
Proof. apply execute_intact. Qed.

(** ** Confidentiality *)

(** Two dispatchers that differ at most in what the store holds in [ns]. *)
Record low (ns : string) d1 d2 : Prop := {
  low_view ns' : ns' <> ns -> view (store d1) ns' = view (store d2) ns';
  low_engine : engine d1 = engine d2;
  low_idempotency : idempotency d1 = idempotency d2;
  low_clock : clock d1 = clock d2;
  low_reports : reports d1 = reports d2;
}.

(** Two runs answer the same and end in states that differ in [ns] at most. *)
Definition alike {A : Type} ns (o1 o2 : A * Dispatcher) : Prop := o1.1 = o2.1 /\ low ns o1.2 o2.2.

Lemma read_instant_alike ns d1 d2 : low ns d1 d2 -> alike ns (read_instant d1) (read_instant d2).
Proof.
  intros [Hv He Hi Hc Hr]. unfold read_instant. rewrite Hc. by destruct (instant_now (clock d2)).
Qed.

Lemma report_low ns r d1 d2 : low ns d1 d2 -> low ns (report r d1) (report r d2).
Proof. intros []. split; try done. simpl. congruence. Qed.

(** A handler whose answer does not depend on [ns]. *)
Definition blind (ns : string) {A : Type} (h : S -> A * S) : Prop :=
  forall s1 s2, (forall ns', ns' <> ns -> view s1 ns' = view s2 ns') ->
    (h s1).1 = (h s2).1 /\ forall ns', ns' <> ns -> view (h s1).2 ns' = view (h s2).2 ns'.

Lemma on_store_blind {A} ns ns' (op : S -> result StoreError A * S) err ok :
  local_op view ns' op -> ns' <> ns -> blind ns (on_store op err ok).
Proof.
  intros [Hframe Hanswer] Hne s1 s2 Hs. unfold on_store.
  pose proof (Hframe s1) as F1. pose proof (Hframe s2) as F2.
  destruct (Hanswer s1 s2 (Hs _ Hne)) as [He1 He2].
  destruct (op s1) as [r1 s1'], (op s2) as [r2 s2']. simpl in *. subst r2. split; [done|].
  intros ns'' Hn. destruct (decide (ns'' = ns')) as [->|Hn']; [done|].
  rewrite F1, F2 by done. by apply Hs.
Qed.

Lemma with_store_blind ns (h : S -> result CommandError ResponseMap * S) d1 d2 :
  blind ns h -> low ns d1 d2 -> alike ns (with_store h d1) (with_store h d2).
Proof.
  intros Hh [Hv He Hi Hc Hr]. unfold with_store. destruct (Hh _ _ Hv) as [He1 He2].
  destruct (h (store d1)), (h (store d2)). simpl in *. subst. done.
Qed.

Hint Resolve on_store_blind : shroud.

Lemma dispatch_alike auth c d1 d2 ns :
  acl_refusal c auth = None -> (forall cur lim, c <> NamespaceList cur lim) ->
  ~ granted auth AclAdmin ->
  (forall scope, ~ granted auth (AclNamespace ns scope None)) ->
  low ns d1 d2 -> alike ns (dispatch c d1) (dispatch c d2).
Proof.
  intros Ha%not_refused_granted Hlist Hadmin Hscope Hl.
  assert (Hns : forall ns' scope, acl_requirement c = AclNamespace ns' scope None -> ns' <> ns).
  { intros ns' scope Hr ->. rewrite Hr in Ha. destruct Ha as [|Ha]; [done|]. by apply Hscope in Ha. }
  pose proof (low_engine _ _ _ Hl) as He.
  destruct c; try (by destruct Ha); try (by destruct (Hlist cursor limit)); cbn [dispatch];
    try (by split); try (apply with_store_blind; [|done];
         specialize (Hns _ _ eq_refl);
         unfold put_handle, put_if_handle, get_handle, delete_handle, del_if_handle,
           del_prefix_handle, list_handle, versions_handle, namespace_handle_info,
           namespace_handle_validate;
         try (destruct (parse_metadata _); [|by intros s1 s2]); eauto with shroud);
    rewrite He; by destruct (engine d2).
Qed.

Lemma execute_single_alike auth c d1 d2 ns :
  (forall cur lim, c <> NamespaceList cur lim) -> ~ granted auth AclAdmin ->
  (forall scope, ~ granted auth (AclNamespace ns scope None)) ->
  low ns d1 d2 -> alike ns (execute_single c auth d1) (execute_single c auth d2).
Proof.
  intros Hlist Hadmin Hscope Hl. unfold execute_single.
  destruct (acl_refusal c auth) eqn:Ha; [by split|].
  destruct (read_instant_alike ns d1 d2 Hl) as [Ht1 Hl1].
  destruct (read_instant d1) as [t e1], (read_instant d2) as [t' e2]. cbn [fst snd] in *. subst t'.
  destruct (dispatch_alike auth c e1 e2 ns Ha Hlist Hadmin Hscope Hl1) as [Hr Hl2].
  destruct (dispatch c e1) as [r f1], (dispatch c e2) as [r' f2]. cbn [fst snd] in *. subst r'.
  destruct r as [res|]; [|by split].
  destruct (read_instant_alike ns f1 f2 Hl2) as [Ht2 Hl3].
  destruct (read_instant f1) as [u g1], (read_instant f2) as [u' g2]. cbn [fst snd] in *. subst u'.
  split; [done|]. cbn [snd]. destruct (negb (is_read c)); by repeat apply report_low.
Qed.

(** A command that lists no namespaces and has no request id. *)
Definition discreet c : Prop :=
  no_request_id c = true /\ Forall (fun l => forall cur lim, l <> NamespaceList cur lim) (leaves c).

Lemma one_by_one_alike auth cs d1 d2 ns :
  Forall (fun l => forall cur lim, l <> NamespaceList cur lim) cs -> ~ granted auth AclAdmin ->
  (forall scope, ~ granted auth (AclNamespace ns scope None)) ->
  low ns d1 d2 -> alike ns (one_by_one auth cs d1) (one_by_one auth cs d2).
Proof.
  intros Hcs Hadmin Hscope. revert d1 d2. induction Hcs as [|c cs Hc _ IH]; intros d1 d2 Hl; [done|].
  cbn [one_by_one]. destruct (execute_single_alike auth c d1 d2 ns Hc Hadmin Hscope Hl) as [Hr Hl1].
  destruct (execute_single c auth d1) as [r e1], (execute_single c auth d2) as [r' e2].
  cbn [fst snd] in *. subst r'. destruct r as [r|]; [|by split].
  destruct (IH e1 e2 Hl1) as [Hrs Hl2]. split; cbn [fst snd]; [by rewrite Hrs|done].
Qed.

(** C3. Confidentiality of namespaces: what a caller who is no administrator
    and has no grant on a namespace is answered does not depend on what the
    namespace holds, nor do the metrics, the audit log or the other
    namespaces; for all commands but NAMESPACE LIST (which is not filtered) and
    pipelines with a request id (which may replay another caller's response). *)
Theorem acl_confidential auth c d1 d2 ns :
  discreet c -> ~ granted auth AclAdmin ->
  (forall scope, ~ granted auth (AclNamespace ns scope None)) -> low ns d1 d2 ->
  option_map leaf_responses (execute auth c d1).1 = option_map leaf_responses (execute auth c d2).1
  /\ low ns (execute auth c d1).2 (execute auth c d2).2.
Proof.
  intros [Hid Hleaves] Hadmin Hscope Hl.
  pose proof (one_by_one_alike auth _ _ _ ns Hleaves Hadmin Hscope Hl) as Ha. unfold alike in Ha.
  rewrite <- !execute_each_one_by_one in Ha. rewrite !(execute_as_sequence auth c Hid) in Ha. done.
Qed.
End Acl.

(** ** The store in memory is namespaced *)

Definition toy_view (s : toy_store) (ns : string) : option (gmap string toy_key) := s !! ns.

Lemma toy_in_local {A} ns (f : gmap string toy_key -> result StoreError A * gmap string toy_key) :
  local_op toy_view ns (fun s => toy_in ns s f).
Proof.
  unfold toy_in, toy_view. split.
  - intros s ns' Hne. destruct (s !! ns) as [m|]; [|done]. destruct (f m) as [r m']. simpl.
    by rewrite lookup_insert_ne.
  - intros s1 s2 Hs. rewrite Hs. destruct (s2 !! ns) as [m|] eqn:Em; [|split; [done|simpl; congruence]].
    destruct (f m) as [r m']. simpl. by rewrite !lookup_insert_eq.
Qed.

Lemma toy_in_pure {A} ns (f : gmap string toy_key -> result StoreError A * gmap string toy_key) :
  (forall m, (f m).2 = m) -> pure_op toy_view (fun s => toy_in ns s f).
Proof.
  unfold toy_in, toy_view. intros Hf s ns'. destruct (s !! ns) as [m|] eqn:Em; [|done].
  specialize (Hf m). destruct (f m) as [r m']. simpl in *. subst m'.
  destruct (decide (ns' = ns)) as [->|Hne]; [by rewrite lookup_insert_eq|by rewrite lookup_insert_ne].
Qed.

#[export] Instance toy_namespaced : NamespacedStore toy_store toy_view.
Proof.
  split; intros; try apply toy_in_local; try apply (toy_in_pure _ _); done.
Qed.

(** The reader of [ns] and a store in which [other] holds a secret, or not. *)
Definition with_secret (v : string) : Dispatcher (S:=toy_store) (E:=ToyEngine) (C:=Z) :=
  new (<["ns" := ∅]> (<["other" := {["k" := [Some (as_bytes v, "{}")]]}]> ∅) : toy_store)
    {| toy_settings := ∅; toy_log := []; toy_new_key := None |} 0%Z.

Definition snoop : Command :=
  Pipeline [Get "other" (as_bytes "k") None false; Put "other" (as_bytes "k") [] None None;
            Get "ns" (as_bytes "k") None false] None.

Lemma reader_has_no_grant scope :
  ~ granted toy_reader AclAdmin /\ ~ granted toy_reader (AclNamespace "other" scope None).
Proof. split; intros (ctx & [= <-] & Hc); [|destruct scope]; discriminate. Qed.

Lemma acl_isolation_witness :
  toy_view (store (execute toy_reader snoop (with_secret "x")).2) "other"
    = toy_view (store (with_secret "x")) "other"
  /\ engine (execute toy_reader snoop (with_secret "x")).2 = engine (with_secret "x").
Proof.
  apply (acl_isolation toy_view toy_reader snoop (with_secret "x") "other");
    [apply (reader_has_no_grant ScopeRead)|apply reader_has_no_grant].
Defined.

Lemma acl_confidential_witness :
  option_map leaf_responses (execute toy_reader snoop (with_secret "x")).1
    = option_map leaf_responses (execute toy_reader snoop (with_secret "y")).1.
Proof.
  apply (acl_confidential toy_view toy_reader snoop (with_secret "x") (with_secret "y") "other").
  - split; [reflexivity|]. repeat constructor; discriminate.
  - apply (reader_has_no_grant ScopeRead).
  - apply reader_has_no_grant.
  - split; try reflexivity. intros ns' Hne. unfold toy_view, with_secret. simpl.
    destruct (decide (ns' = "ns")) as [->|Hn]; [reflexivity|].
    by rewrite !lookup_insert_ne.
Defined.
