(* ===== verification/MaintenanceSpec.v ===== *)
(** * Export, import and rekey keep the data

    Over any engine and codec that satisfy the laws below: an exported
    namespace can be imported with its whole history, in spite of the bundle
    format's missing section length; a rekey keeps every namespace; what both
    lose (version numbers, expiry times), and when a rekey loses everything. *)
From S2P Require Import Prelude RustStr Externals Maintenance Toy.
Open Scope Z_scope.

(** ** The boundary between the sections of a bundle *)

Lemma byte_val_of n : 0 <= n < 256 -> byte_val (byte_of n) = n.
Proof.
  intros Hn. unfold byte_of, byte_val. rewrite Z.mod_small by lia.
  destruct (Byte.of_N (Z.to_N n)) as [b|] eqn:Hb; simpl.
  - apply Byte.to_of_N in Hb. rewrite Hb. lia.
  - apply Byte.of_N_None_iff in Hb. lia.
Qed.

Lemma byte_of_mod n : byte_of n = byte_of (n mod 256).
Proof. unfold byte_of. by rewrite Z.mod_mod. Qed.

Lemma from_to_le_bytes n : 0 <= n < 2 ^ 32 -> from_le_bytes (to_le_bytes n) = n.
Proof.
  intros Hn. unfold to_le_bytes, from_le_bytes. cbn [map fold_right].
  rewrite (byte_of_mod (Z.shiftr n (8 * 0))), (byte_of_mod (Z.shiftr n (8 * 1))),
    (byte_of_mod (Z.shiftr n (8 * 2))), (byte_of_mod (Z.shiftr n (8 * 3))).
  rewrite !byte_val_of by (apply Z.mod_pos_bound; lia).
  rewrite !Z.shiftr_div_pow2 by lia. change (8 * 0) with 0. change (8 * 1) with 8.
  change (8 * 2) with 16. change (8 * 3) with 24. change (2 ^ 0) with 1. change (2 ^ 8) with 256.
  change (2 ^ 16) with (256 * 256). change (2 ^ 24) with (256 * 256 * 256).
  rewrite <- !Z.div_div, Z.div_1_r by lia.
  pose proof (Z.div_mod n 256 ltac:(lia)). pose proof (Z.div_mod (n / 256) 256 ltac:(lia)).
  pose proof (Z.div_mod (n / 256 / 256) 256 ltac:(lia)).
  rewrite (Z.mod_small (n / 256 / 256 / 256)); [lia|].
  rewrite !Z.div_div by lia. split; [apply Z.div_pos; lia|].
  apply Z.div_lt_upper_bound; lia.
Qed.

Lemma length_to_le_bytes n : length (to_le_bytes n) = 4%nat.
Proof. done. Qed.

Lemma byte_val_nonneg b : 0 <= byte_val b.
Proof. apply byte_val_range. Qed.

Lemma byte_val_pos b : b <> Byte.x00 -> 1 <= byte_val b.
Proof.
  intros Hb. pose proof (byte_val_nonneg b).
  assert (byte_val b <> 0); [|lia]. intros H0. apply Hb. by apply byte_val_inj.
Qed.

(** Four bytes of which the last is not NUL make a large number. *)
Lemma from_le_bytes_high l b :
  length l = 4%nat -> l !! 3%nat = Some b -> b <> Byte.x00 -> 2 ^ 24 <= from_le_bytes l.
Proof.
  intros Hlen Hb Hnul. destruct l as [|b0 [|b1 [|b2 [|b3 [|]]]]]; try discriminate Hlen.
  cbn in Hb. injection Hb as ->. unfold from_le_bytes. cbn [fold_right].
  pose proof (byte_val_pos b Hnul). pose proof (byte_val_nonneg b0).
  pose proof (byte_val_nonneg b1). pose proof (byte_val_nonneg b2). lia.
Qed.

Lemma slice_lookup b from to i : (from + i < to)%nat -> slice b from to !! i = b !! (from + i)%nat.
Proof. intros Hi. unfold slice. rewrite lookup_take_lt by lia. apply lookup_drop. Qed.

Lemma length_slice b from to : (to <= length b)%nat -> length (slice b from to) = (to - from)%nat.
Proof. intros Hl. unfold slice. rewrite length_take, length_drop. lia. Qed.

Lemma slice_app_mid (a b c : bytes) :
  slice (a ++ b ++ c) (length a) (length a + length b) = b.
Proof.
  unfold slice. rewrite drop_app_length. replace (_ + _ - _)%nat with (length b) by lia.
  apply take_app_length.
Qed.

Section Boundary.
Context `{StoreTypes} `{!ExportCodec}.

(** Offsets whose fourth byte is not NUL are passed over. *)
Lemma scan_config_skip (bundle : bytes) start n0 n :
  (n0 <= n)%nat ->
  (forall k, (n0 <= k < n)%nat ->
     exists b, bundle !! (start + k + 3)%nat = Some b /\ b <> Byte.x00) ->
  scan_config bundle start n = scan_config bundle start n0.
Proof.
  induction n as [|n IH]; intros Hle Hb.
  - by replace n0 with 0%nat by lia.
  - destruct (decide (n0 = S n)) as [->|Hne]; [done|]. cbn [scan_config].
    destruct (Hb n ltac:(lia)) as (b & Hl & Hnul).
    assert (start + n + 3 < length bundle)%nat by (by eapply lookup_lt_Some).
    assert (2 ^ 24 <= from_le_bytes (slice bundle (start + n) (start + n + 4))) as Hbig.
    { eapply from_le_bytes_high; [rewrite length_slice; lia| |exact Hnul].
      rewrite slice_lookup by lia. done. }
    assert ((from_le_bytes (slice bundle (start + n) (start + n + 4)) <? 1000000)%Z = false) as ->
      by lia.
    rewrite andb_false_r. apply IH; [lia|]. intros k Hk. apply Hb. lia.
Qed.

Definition no_nul (b : bytes) : Prop := Forall (fun x => x <> Byte.x00) b.

(** Past the length of the configuration there are only its bytes. *)
Lemma bundle_config_byte header_json encrypted config_json k :
  no_nul config_json -> (length encrypted < k < length encrypted + length config_json)%nat ->
  exists b, bundle_of header_json encrypted config_json !! (8 + length header_json + k + 3)%nat = Some b
            /\ b <> Byte.x00.
Proof.
  intros Hnul Hk. unfold bundle_of. rewrite !app_assoc.
  rewrite lookup_app_r by (rewrite !length_app; simpl; lia). rewrite !length_app. cbn [length].
  match goal with |- context[config_json !! ?i] =>
    destruct (lookup_lt_is_Some_2 config_json i) as [b Hb] end; [simpl; lia|].
  exists b. split; [done|]. by eapply Forall_lookup_1 in Hb; [|exact Hnul].
Qed.

(** Where the configuration section of a bundle starts. *)
Lemma find_config_bundle header_json encrypted config_json config :
  no_nul config_json -> (0 < length config_json)%nat -> Z.of_nat (length config_json) < 1000000 ->
  config_from_slice config_json = Ok config ->
  find_config (bundle_of header_json encrypted config_json) (8 + length header_json)
    = (config, (8 + length header_json + length encrypted)%nat).
Proof.
  intros Hnul Hpos Hmax Hcfg. unfold find_config.
  set (front := (EXPORT_MAGIC ++ to_le_bytes (len_u32 header_json) ++ header_json)%list).
  set (bundle := bundle_of header_json encrypted config_json).
  assert (length front = 8 + length header_json)%nat as Hfront
    by (unfold front; rewrite !length_app; done).
  assert (bundle = front ++ encrypted ++ to_le_bytes (len_u32 config_json) ++ config_json)%list
    as Hbundle by (unfold bundle, bundle_of, front; by rewrite <- !app_assoc).
  assert (length bundle = length front + (length encrypted + (4 + length config_json)))%nat as Hlen
    by (rewrite Hbundle, !length_app, length_to_le_bytes; lia).
  rewrite <- Hfront.
  rewrite (scan_config_skip bundle (length front) (S (length encrypted))); [|lia|].
  2:{ intros k Hk. rewrite Hfront. apply (bundle_config_byte _ encrypted); [done|lia]. }
  cbn [scan_config].
  replace (slice bundle (length front + length encrypted) (length front + length encrypted + 4))
    with (to_le_bytes (len_u32 config_json)).
  2:{ rewrite Hbundle, (app_assoc front), <- length_app. symmetry.
      exact (slice_app_mid (front ++ encrypted) (to_le_bytes _) config_json). }
  unfold len_u32. rewrite Z.mod_small by lia. rewrite from_to_le_bytes by lia.
  replace (_ =? _)%Z with true by lia. replace (_ <? _)%Z with true by lia. cbn [andb].
  replace (drop _ bundle) with config_json; [by rewrite Hcfg|].
  rewrite Hbundle, (app_assoc encrypted), (app_assoc front).
  rewrite drop_app_length'; [done|]. rewrite !length_app, length_to_le_bytes. lia.
Qed.

(** A configuration of a megabyte or more is not found again: the namespace
    gets the default one, and the section is taken for part of the payload. *)
Lemma find_config_too_large header_json encrypted config_json :
  1000000 <= Z.of_nat (length config_json) -> no_nul config_json ->
  find_config (bundle_of header_json encrypted config_json) (8 + length header_json)
    = (default_config, length (bundle_of header_json encrypted config_json)).
Proof.
  intros Hmax Hnul. unfold find_config. set (bundle := bundle_of _ _ _).
  assert (length bundle = 8 + length header_json + (length encrypted + (4 + length config_json)))%nat
    as Hlen by (unfold bundle, bundle_of; rewrite !length_app; simpl; lia).
  rewrite (scan_config_skip _ _ (S (length encrypted))); [|lia|].
  2:{ intros k Hk. unfold bundle. apply bundle_config_byte; [done|lia]. }
  assert (forall n, (n <= S (length encrypted))%nat ->
    scan_config bundle (8 + length header_json) n = None) as Hscan; [|by rewrite Hscan].
  induction n as [|n IH]; intros Hn; [done|]. cbn [scan_config].
  destruct (_ && _) eqn:Hc; [|apply IH; lia]. lia.
Qed.
End Boundary.

(** ** What the engine and the codecs promise *)

Section Histories.
Context `{StoreTypes}.

(** What a replayed version keeps of the original: its state, its actor and,
    unless it is a tombstone, its value and metadata. *)
Definition hist (r : VersionRecord) : EntryState * option (option bytes * Metadata) * string :=
  (vr_state r,
   match vr_state r with Active => Some (vr_value r, vr_metadata r) | Deleted => None end,
   vr_actor r).

Definition versions_of (n : NamespaceState) (key : bytes) : list (Z * VersionRecord) :=
  match nss_keys n !! key with Some ks => ks_versions ks | None => [] end.

Definition history (n : NamespaceState) (key : bytes) := map hist (map snd (versions_of n key)).

Definition next_in (n : NamespaceState) (key : bytes) : Z :=
  match nss_keys n !! key with Some ks => ks_current_version ks + 1 | None => 1 end.

(** [count] versions do not exceed the namespace's limit. *)
Definition within (n : NamespaceState) (count : nat) : Prop :=
  match max_versions (nss_config n) with Some m => Z.of_nat count <= m | None => True end.

Definition add_version (n : NamespaceState) (key : bytes) (r : VersionRecord) : NamespaceState :=
  {| nss_config := nss_config n; nss_created_at := nss_created_at n;
     nss_keys := <[key := {| ks_versions := (versions_of n key ++ [(next_in n key, r)])%list;
                             ks_current_version := next_in n key |}]> (nss_keys n) |}.
End Histories.

(** The engine: a version that fits is added and kept in memory, the log
    outlives a shutdown under the key it was written with, and the export key
    depends on the master key only. *)
Class EngineLaws `{StoreTypes} (D E : Type) `{!StorageEngine D E} := {
  se_key : E -> bytes;
  keyspace : bytes -> string -> bytes;
  law_iter_namespaces e : iter_namespaces e ≡ₚ map_to_list (se_index e);
  law_iter_keys n : iter_keys n ≡ₚ map_to_list (nss_keys n);
  law_open_key k d e : (se_open k d).1 = Ok e -> se_key e = k;
  law_open_empty k : exists e, (se_open k se_empty).1 = Ok e /\ se_index e = ∅;
  law_create e name config t : se_index e !! name = None ->
    exists e', se_apply "__system__" OpNamespaceCreated (WalNamespaceCreated name config t) e = (Ok tt, e')
      /\ se_index e' = <[name := {| nss_config := config; nss_created_at := t; nss_keys := ∅ |}]>
                         (se_index e)
      /\ se_key e' = se_key e;
  law_put e ns n key value md actor : se_index e !! ns = Some n ->
    within n (S (length (versions_of n key))) ->
    exists e' r, se_apply ns OpEntryPut (WalEntryPut key value md (next_in n key) actor) e = (Ok tt, e')
      /\ hist r = (Active, Some (Some value, md), actor)
      /\ se_index e' = <[ns := add_version n key r]> (se_index e)
      /\ se_key e' = se_key e;
  law_delete e ns n key actor : se_index e !! ns = Some n ->
    within n (S (length (versions_of n key))) ->
    exists e' r, se_apply ns OpEntryDeleted (WalEntryDeleted key (next_in n key) actor) e = (Ok tt, e')
      /\ hist r = (Deleted, None, actor)
      /\ se_index e' = <[ns := add_version n key r]> (se_index e)
      /\ se_key e' = se_key e;
  law_snapshot e : exists e', se_snapshot e = (Ok tt, e') /\ se_index e' = se_index e
      /\ se_key e' = se_key e;
  law_reopen e : exists d e', se_shutdown e = (Ok tt, d) /\ (se_open (se_key e) d).1 = Ok e'
      /\ se_index e' = se_index e;
  law_keyspace e c : se_keyspace_key e c = Ok (keyspace (se_key e) c);
}.

(** The codecs: what is serialized is read back; JSON text has no NUL and is
    not empty; a ciphertext decrypts under its key and associated data. *)
Class CodecLaws `{StoreTypes} `{!ExportCodec} : Prop := {
  law_header h : exists b, header_to_vec h = Ok b /\ header_from_slice b = Ok h;
  law_config c : exists b, config_to_vec c = Ok b /\ config_from_slice b = Ok c
    /\ no_nul b /\ (0 < length b)%nat;
  law_entries es : exists b, entries_to_allocvec es = Ok b /\ entries_from_bytes b = Ok es;
  law_aes nonce key p aad : exists c, aes_gcm_encrypt nonce key p aad = Ok c
    /\ aes_gcm_decrypt key c aad = Ok p;
}.

(** ** Replaying histories *)
Section Replay.
Context `{StoreTypes} {D E : Type} `{!StorageEngine D E} `{!EngineLaws D E}.

Implicit Types (e : E) (n : NamespaceState) (key : bytes).

(** The key holds exactly this history, numbered from one. *)
Definition holds n key (hs : list (EntryState * option (option bytes * Metadata) * string)) : Prop :=
  history n key = hs
  /\ map fst (versions_of n key) = map Z.of_nat (seq 1 (length hs))
  /\ next_in n key = Z.of_nat (length hs) + 1.

(** [n'] is [n] but for [keys]. *)
Definition frame (keys : bytes -> Prop) n n' : Prop :=
  nss_config n' = nss_config n /\ nss_created_at n' = nss_created_at n
  /\ forall k, ~ keys k -> nss_keys n' !! k = nss_keys n !! k.

(** The step succeeds, replaces the namespace by one that satisfies [P], and
    changes nothing else. *)
Definition replays (ns : string) (m : step unit) e (P : NamespaceState -> Prop) : Prop :=
  exists e' n', m e = (Ok tt, e') /\ se_index e' = <[ns := n']> (se_index e)
    /\ se_key e' = se_key e /\ P n'.

Lemma replays_then ns (m1 : step unit) (m2 : unit -> step unit) e P Q :
  replays ns m1 e P ->
  (forall e' n', se_index e' !! ns = Some n' -> P n' -> replays ns (m2 tt) e' Q) ->
  replays ns (and_then m1 m2) e Q.
Proof.
  intros (e1 & n1 & H1 & Hi1 & Hk1 & HP) Hm2.
  destruct (Hm2 e1 n1) as (e2 & n2 & H2 & Hi2 & Hk2 & HQ); [by rewrite Hi1, lookup_insert_eq|done|].
  exists e2, n2. unfold and_then. rewrite H1, H2. split; [done|].
  rewrite Hi2, Hi1, insert_insert_eq. repeat split; congruence.
Qed.

Lemma versions_of_add n key r :
  versions_of (add_version n key r) key = (versions_of n key ++ [(next_in n key, r)])%list.
Proof. unfold versions_of at 1. simpl. by rewrite lookup_insert_eq. Qed.

Lemma holds_add n key hs r : holds n key hs -> holds (add_version n key r) key (hs ++ [hist r]).
Proof.
  intros (Hh & Hf & Hn). unfold holds, history. rewrite versions_of_add, !map_app.
  split; [by unfold history in Hh; rewrite Hh|]. rewrite Hf, length_app, seq_app, map_app. simpl.
  split; [f_equal; f_equal; lia|]. unfold next_in at 1. simpl. rewrite lookup_insert_eq. simpl. lia.
Qed.

Lemma frame_add n key r : frame (eq key) n (add_version n key r).
Proof. repeat split. intros k Hk. simpl. by rewrite lookup_insert_ne. Qed.

Lemma frame_trans keys n1 n2 n3 : frame keys n1 n2 -> frame keys n2 n3 -> frame keys n1 n3.
Proof.
  intros (Hc1 & Ht1 & Hk1) (Hc2 & Ht2 & Hk2). repeat split; try congruence.
  intros k Hk. rewrite Hk2, Hk1; done.
Qed.

Lemma within_frame keys n n' c : frame keys n n' -> within n c -> within n' c.
Proof. intros (Hc & _). unfold within. by rewrite Hc. Qed.

(** The version numbers the code computes are the engine's next ones. *)
Lemma next_version_in e ns n key : se_index e !! ns = Some n -> next_version e ns key = next_in n key.
Proof. intros Hn. unfold next_version. by rewrite Hn. Qed.

(** A step that appends one version with the given history to a key. *)
Definition appends ns key (m : step unit) h : Prop := forall e n hs,
  se_index e !! ns = Some n -> holds n key hs -> within n (S (length hs)) ->
  replays ns m e (fun n' => holds n' key (hs ++ [h]) /\ frame (eq key) n n').

Lemma holds_length n key hs : holds n key hs -> length (versions_of n key) = length hs.
Proof. intros (Hh & _). rewrite <- Hh. unfold history. by rewrite !length_map. Qed.

Lemma put_entry_appends ns key value md actor :
  appends ns key (put_entry ns key value md actor) (Active, Some (Some value, md), actor).
Proof.
  intros e n hs Hn Hh Hw. rewrite <- (holds_length _ _ _ Hh) in Hw.
  destruct (law_put e ns n key value md actor Hn Hw) as (e' & r & Ha & Hr & Hi & Hk).
  exists e', (add_version n key r). unfold put_entry, apply.
  rewrite (next_version_in _ _ _ _ Hn), Ha. do 3 (split; [done|]).
  split; [rewrite <- Hr; by apply holds_add|apply frame_add].
Qed.

Lemma delete_entry_appends ns key actor :
  appends ns key (delete_entry ns key actor) (Deleted, None, actor).
Proof.
  intros e n hs Hn Hh Hw. rewrite <- (holds_length _ _ _ Hh) in Hw.
  destruct (law_delete e ns n key actor Hn Hw) as (e' & r & Ha & Hr & Hi & Hk).
  exists e', (add_version n key r). unfold delete_entry, apply.
  rewrite (next_version_in _ _ _ _ Hn), Ha. do 3 (split; [done|]).
  split; [rewrite <- Hr; by apply holds_add|apply frame_add].
Qed.

Lemma holds_frame keys n n' key hs : frame keys n n' -> ~ keys key -> holds n key hs -> holds n' key hs.
Proof.
  intros (_ & _ & Hf) Hk. unfold holds, history, versions_of, next_in. by rewrite (Hf key Hk).
Qed.

(** Appending versions one after the other. *)
Lemma for_each_appends {A} ns key (f : A -> step unit) (h : A -> _) xs :
  Forall (fun x => appends ns key (f x) (h x)) xs -> forall e n hs,
  se_index e !! ns = Some n -> holds n key hs -> within n (length hs + length xs) ->
  replays ns (for_each f xs) e (fun n' => holds n' key (hs ++ map h xs) /\ frame (eq key) n n').
Proof.
  induction 1 as [|x xs Hx _ IH]; intros e n hs Hn Hh Hw; cbn [for_each].
  - exists e, n. rewrite app_nil_r. rewrite insert_id by done. by repeat split; destruct Hh as (?&?&?).
  - eapply replays_then.
    + apply (Hx e n hs Hn Hh). unfold within in *. cbn [length] in Hw. case_match; [lia|done].
    + intros e' n' Hn' [Hh' Hf].
      destruct (IH e' n' (hs ++ [h x])%list Hn' Hh') as (e2 & n2 & Hrun & Hi & Hk & Hh2 & Hf2).
      { apply (within_frame _ _ _ _ Hf). rewrite length_app. cbn [length] in *.
        by replace (length hs + 1 + length xs)%nat with (length hs + S (length xs))%nat by lia. }
      exists e2, n2. rewrite <- app_assoc in Hh2. do 3 (split; [done|]).
      split; [done|]. by eapply frame_trans.
Qed.

(** Replaying the keys of a namespace, each of them new to it. *)
Lemma for_each_keys {A} ns (f : A -> step unit) (key_of : A -> bytes) (hs_of : A -> _) l :
  NoDup (map key_of l) ->
  Forall (fun a => forall e n, se_index e !! ns = Some n -> nss_keys n !! key_of a = None ->
            within n (length (hs_of a)) ->
            replays ns (f a) e (fun n' => holds n' (key_of a) (hs_of a)
                                          /\ frame (eq (key_of a)) n n')) l ->
  forall e n, se_index e !! ns = Some n ->
  Forall (fun a => nss_keys n !! key_of a = None /\ within n (length (hs_of a))) l ->
  replays ns (for_each f l) e (fun n' =>
    Forall (fun a => holds n' (key_of a) (hs_of a)) l /\ frame (fun k => k ∈ map key_of l) n n').
Proof.
  induction l as [|a l IH]; intros Hnd Hf e n Hn Hnew; cbn [for_each].
  - exists e, n. rewrite insert_id by done. by repeat split.
  - cbn [map] in Hnd. apply NoDup_cons in Hnd as [Hnot Hnd].
    apply Forall_cons in Hf as [Hfa Hf]. apply Forall_cons in Hnew as [[Habs Hwa] Hnew].
    eapply replays_then; [by apply Hfa|]. intros e' n' Hn' [Hh Hfr].
    destruct (IH Hnd Hf e' n' Hn') as (e2 & n2 & Hrun & Hi & Hk & Hall & Hfr2).
    { rewrite Forall_forall in Hnew |- *. intros b Hb. destruct (Hnew b Hb) as [Hb1 Hb2].
      split; [|by eapply within_frame]. destruct Hfr as (_ & _ & Hfr). rewrite Hfr; [done|].
      intros Heq. apply Hnot. rewrite Heq. by apply list_elem_of_fmap_2. }
    exists e2, n2. do 3 (split; [done|]). split.
    + constructor; [by eapply holds_frame|done].
    + cbn [map]. destruct Hfr as (Hc1 & Ht1 & Hk1), Hfr2 as (Hc2 & Ht2 & Hk2).
      repeat split; try congruence. intros k Hk'. rewrite Hk2, Hk1; [done| |].
      * intros <-. apply Hk'. left.
      * intros Hin. apply Hk'. by right.
Qed.

(** A namespace with the same configuration and, for every key, the same
    history, its versions numbered from one. *)
Definition renumbered n n' : Prop :=
  nss_config n' = nss_config n /\ nss_created_at n' = nss_created_at n
  /\ forall key, holds n' key (history n key).

(** No key has more versions than its namespace allows. *)
Definition limited n : Prop := forall key, within n (length (versions_of n key)).

Lemma holds_absent n key : nss_keys n !! key = None -> holds n key [].
Proof. intros Hn. unfold holds, history, versions_of, next_in. by rewrite Hn. Qed.

(** Creating a namespace and replaying every key of [n] into it. *)
Lemma create_and_replay {A} what name n (f : A -> step unit) (key_of : A -> bytes) l e :
  se_index e !! name = None -> limited n ->
  NoDup (map key_of l) -> (forall key, key ∈ map key_of l <-> is_Some (nss_keys n !! key)) ->
  Forall (fun a => forall e1 n1, se_index e1 !! name = Some n1 -> nss_keys n1 !! key_of a = None ->
            within n1 (length (history n (key_of a))) ->
            replays name (f a) e1 (fun n' => holds n' (key_of a) (history n (key_of a))
                                             /\ frame (eq (key_of a)) n1 n')) l ->
  replays name (and_then (create_namespace name (nss_config n) (nss_created_at n) what)
                  (fun _ => for_each f l)) e (renumbered n).
Proof.
  intros Hnone Hlim Hnd Hdom Hf.
  destruct (law_create e name (nss_config n) (nss_created_at n) Hnone) as (e1 & Ha & Hi1 & Hk1).
  set (n0 := {| nss_config := _; nss_created_at := _; nss_keys := _ |}) in Hi1.
  destruct (for_each_keys name f key_of (fun a => history n (key_of a)) l Hnd Hf e1 n0)
    as (e2 & n2 & Hrun & Hi2 & Hk2 & Hall & Hc & Ht & Hfr).
  - by rewrite Hi1, lookup_insert_eq.
  - apply Forall_forall. intros a _. split; [done|]. unfold history. rewrite !length_map.
    apply (Hlim (key_of a)).
  - exists e2, n2. split; [|split; [|split; [congruence|]]].
    + unfold and_then, create_namespace, apply. by rewrite Ha.
    + by rewrite Hi2, Hi1, insert_insert_eq.
    + split; [done|]. split; [done|]. intros key.
      destruct (decide (key ∈ map key_of l)) as [Hin|Hout].
      * apply list_elem_of_fmap in Hin as (a & -> & Hin). by eapply Forall_forall in Hall.
      * assert (history n key = []) as ->.
        { unfold history, versions_of. destruct (nss_keys n !! key) eqn:Hk; [|done].
          exfalso. apply Hout, Hdom. by rewrite Hk. }
        apply holds_absent. by rewrite (Hfr key Hout).
Qed.

(** *** Rekey *)

(** The values a rekey reads are in memory. *)
Definition readable n : Prop := forall key v r,
  (v, r) ∈ versions_of n key -> vr_state r = Active -> vr_value r <> None.

Lemma replay_record_appends ns key r :
  (vr_state r = Active -> vr_value r <> None) -> appends ns key (replay_record ns key r) (hist r).
Proof.
  intros Hr. unfold replay_record, hist. destruct (vr_state r).
  - destruct (vr_value r) as [v|]; [|by destruct (Hr eq_refl)]. apply put_entry_appends.
  - apply delete_entry_appends.
Qed.

(** The keys of a namespace, with what is stored of each. *)
Lemma iter_keys_spec n :
  NoDup (map fst (iter_keys n))
  /\ (forall key ks, (key, ks) ∈ iter_keys n <-> nss_keys n !! key = Some ks).
Proof.
  pose proof (law_iter_keys (D:=D) (E:=E) n) as Hp. split.
  - change (map fst (iter_keys n)) with ((iter_keys n).*1). rewrite Hp. apply NoDup_fst_map_to_list.
  - intros key ks. rewrite Hp. apply elem_of_map_to_list.
Qed.

Lemma iter_keys_dom n key :
  key ∈ map fst (iter_keys n) <-> is_Some (nss_keys n !! key).
Proof.
  destruct (iter_keys_spec n) as [_ Hk]. rewrite list_elem_of_fmap. split.
  - intros ([k ks] & -> & Hin). apply Hk in Hin. by exists ks.
  - intros [ks Hks]. exists (key, ks). split; [done|]. by apply Hk.
Qed.

Lemma replay_key_holds name n key ks e1 n1 :
  readable n -> nss_keys n !! key = Some ks ->
  se_index e1 !! name = Some n1 -> nss_keys n1 !! key = None ->
  within n1 (length (history n key)) ->
  replays name (replay_key name (key, map snd (ks_versions ks))) e1
    (fun n' => holds n' key (history n key) /\ frame (eq key) n1 n').
Proof.
  intros Hread Hks Hn1 Habs Hw. unfold replay_key. cbn [fst snd].
  assert (versions_of n key = ks_versions ks) as Hvs by (unfold versions_of; by rewrite Hks).
  unfold history in *. rewrite Hvs in *.
  eapply (for_each_appends name key (replay_record name key) hist) with (hs := []);
    [|done|by apply holds_absent|by rewrite length_map in Hw].
  apply Forall_forall. intros r Hr. apply list_elem_of_fmap in Hr as ([v r'] & -> & Hin).
  apply replay_record_appends. apply (Hread key v). by rewrite Hvs.
Qed.

Definition snapshot_of (nn : string * NamespaceState) : NamespaceSnapshot :=
  (nn.1, nss_config nn.2, nss_created_at nn.2,
   map (fun '(key, ks) => (key, map snd (ks_versions ks))) (iter_keys nn.2)).

Lemma replay_namespace_renumbered name n e :
  se_index e !! name = None -> limited n -> readable n ->
  replays name (replay_namespace (snapshot_of (name, n))) e (renumbered n).
Proof.
  intros Hnone Hlim Hread. unfold replay_namespace, snapshot_of. cbn [fst snd].
  destruct (iter_keys_spec n) as [Hnd Hin].
  apply (create_and_replay _ name n (replay_key name) fst); try done.
  - rewrite map_map. erewrite map_ext; [exact Hnd|]. by intros [].
  - intros key. rewrite map_map. erewrite map_ext; [apply iter_keys_dom|]. by intros [].
  - apply Forall_forall. intros kv Hkv. apply list_elem_of_fmap in Hkv as ([key ks] & -> & Hks).
    intros e1 n1 Hn1 Habs Hw. cbn [fst]. apply replay_key_holds; try done. by apply Hin.
Qed.

(** Replaying namespaces that are new to the engine. *)
Lemma for_each_namespaces l : NoDup l.*1 ->
  Forall (fun nn => limited nn.2 /\ readable nn.2) l -> forall e,
  Forall (fun nn => se_index e !! nn.1 = None) l ->
  exists e', for_each replay_namespace (map snapshot_of l) e = (Ok tt, e') /\ se_key e' = se_key e
    /\ (forall name n, (name, n) ∈ l -> exists n', se_index e' !! name = Some n' /\ renumbered n n')
    /\ (forall name, name ∉ l.*1 -> se_index e' !! name = se_index e !! name).
Proof.
  induction l as [|[name n] l IH]; intros Hnd Hl e Hnew; cbn [map for_each].
  - exists e. repeat split; try done. intros ?? Hin. by apply elem_of_nil in Hin.
  - cbn in Hnd. apply NoDup_cons in Hnd as [Hnot Hnd].
    apply Forall_cons in Hl as [[Hlim Hread] Hl]. apply Forall_cons in Hnew as [Hn Hnew].
    destruct (replay_namespace_renumbered name n e Hn Hlim Hread) as (e1 & n1 & Hrun & Hi & Hk & Hr).
    destruct (IH Hnd Hl e1) as (e2 & Hrun2 & Hk2 & Hin2 & Hout2).
    { rewrite Forall_forall in Hnew |- *. intros [name' n'] Hin. rewrite Hi, lookup_insert_ne.
      - by apply (Hnew (name', n')).
      - intros Heq. simpl in Heq. apply Hnot. rewrite Heq. by apply (list_elem_of_fmap_2 fst _ (name', n')). }
    exists e2. unfold and_then. rewrite Hrun, Hrun2. split; [done|]. split; [congruence|]. split.
    + intros name' n' Hin. apply elem_of_cons in Hin as [[= -> ->]|Hin]; [|by apply Hin2].
      exists n1. split; [|done]. by rewrite Hout2, Hi, lookup_insert_eq.
    + intros name' Hout. cbn in Hout. apply not_elem_of_cons in Hout as [Hne Hout].
      by rewrite Hout2, Hi, lookup_insert_ne.
Qed.

Lemma snapshot_data_eq e : snapshot_data e = map snapshot_of (iter_namespaces e).
Proof. unfold snapshot_data. apply map_ext. by intros []. Qed.

Lemma opened_as k d e : (se_open k d).1 = Ok e -> exists d', se_open k d = (Ok e, d').
Proof. destruct (se_open k d) as [r d']. simpl. intros ->. by exists d'. Qed.

(** Once the keys and the old directory are in order, a rekey is a rebuild. *)
Lemma run_rekey_rebuild hex_decode bind old_hex new_hex old new (d : D) e :
  hex_decode old_hex = Ok old -> hex_decode new_hex = Ok new ->
  length old = 32%nat -> length new = 32%nat -> (se_open old d).1 = Ok e ->
  run_rekey hex_decode true bind old_hex new_hex d = rebuild new (snapshot_data e).
Proof.
  intros Ho Hn Hlo Hln Hopen. destruct (opened_as _ _ _ Hopen) as [d0 Hopen0].
  destruct (law_reopen e) as (d1 & e1 & Hshut & _ & _).
  unfold run_rekey, rekey_keys, key_bytes, key_length. rewrite Ho, Hn. simpl.
  rewrite !decide_True by done. simpl. rewrite Hopen0. simpl. by rewrite Hshut.
Qed.


Lemma for_each_inv {A} (f : A -> step (E:=E) unit) l x e e' :
  x ∈ l -> for_each f l e = (Ok tt, e') -> exists e1 e2, f x e1 = (Ok tt, e2).
Proof.
  intros Hx. revert e. induction Hx as [x l|x y l _ IH]; intros e; cbn [for_each]; unfold and_then;
    destruct (f _ e) as [[[]|] e1] eqn:Hf; try done; eauto.
Qed.

(** Only readable namespaces are replayed to the end. *)
Lemma replay_all_readable e f f' name n :
  replay_all (snapshot_data e) f = (Ok tt, f') -> se_index e !! name = Some n -> readable n.
Proof.
  unfold replay_all, and_then. intros Hrun Hn key v r Hv Hs Hnone.
  destruct (for_each _ _ f) as [[[]|] f1] eqn:Hall; [|done]. rewrite snapshot_data_eq in Hall.
  apply (for_each_inv _ _ (snapshot_of (name, n))) in Hall as (e1 & e2 & Hns).
  2:{ apply list_elem_of_fmap_2. rewrite law_iter_namespaces. by apply elem_of_map_to_list. }
  unfold replay_namespace, snapshot_of, and_then in Hns. cbn [fst snd] in Hns.
  destruct (create_namespace _ _ _ _ e1) as [[[]|] e3]; [|done].
  unfold versions_of in Hv. destruct (nss_keys n !! key) as [ks|] eqn:Hks; [|by apply elem_of_nil in Hv].
  apply (for_each_inv _ _ (key, map snd (ks_versions ks))) in Hns as (e4 & e5 & Hkey).
  2:{ apply (list_elem_of_fmap_2 (fun '(k, s) => (k, map snd (ks_versions s))) _ (key, ks)).
      by apply iter_keys_spec. }
  apply (for_each_inv _ _ r) in Hkey as (e6 & e7 & Hrec); [|by apply (list_elem_of_fmap_2 snd _ (v, r))].
  unfold replay_record in Hrec. by rewrite Hs, Hnone in Hrec.
Qed.

(** A rekey destroys before it checks: when the value of some version is not in
    memory, the rekey fails, and what it leaves in the data directory is what an
    engine with the new key wrote into an empty directory before it gave up;
    the old directory, which opened and could be read, is gone. *)
Theorem rekey_wipes_first hex_decode bind old_hex new_hex old new (d : D) e name n :
  hex_decode old_hex = Ok old -> hex_decode new_hex = Ok new ->
  length old = 32%nat -> length new = 32%nat -> (se_open old d).1 = Ok e ->
  se_index e !! name = Some n -> ~ readable n ->
  exists a f f', (se_open new se_empty).1 = Ok f /\ se_index f = ∅
    /\ replay_all (snapshot_data e) f = (Err a, f')
    /\ run_rekey hex_decode true bind old_hex new_hex d = (Err a, se_disk f').
Proof.
  intros Ho Hn Hlo Hln Hopen Hname Hbad.
  destruct (law_open_empty new) as (f & Hf & Hfi). destruct (opened_as _ _ _ Hf) as [d2 Hf2].
  destruct (replay_all (snapshot_data e) f) as [[[]|a] f'] eqn:Hrun.
  { by apply (replay_all_readable _ _ _ name n) in Hrun. }
  exists a, f, f'. do 3 (split; [done|]).
  rewrite (run_rekey_rebuild _ _ _ _ old new d e) by done.
  unfold rebuild. rewrite Hf2. simpl. by rewrite Hrun.
Qed.

(** *** Export and import *)
Context `{!ExportCodec} `{!CodecLaws}.

(** The values an export reads are in memory. *)
Definition resident n : Prop := forall key v r, (v, r) ∈ versions_of n key -> vr_value r <> None.

(** The history an exported version stands for. *)
Definition xhist (v : ExportVersion) : EntryState * option (option bytes * Metadata) * string :=
  if xv_state v =? 0 then (Active, Some (Some (xv_value v), xv_metadata v), xv_actor v)
  else (Deleted, None, xv_actor v).

Lemma export_version_hist ns key r v :
  export_version r = Ok v ->
  xhist v = hist r /\ appends ns key (import_version ns key v) (xhist v).
Proof.
  unfold export_version, xhist, hist, import_version.
  destruct (vr_value r) as [b|]; [|done]. intros [= <-]. destruct (vr_state r); cbn.
  - split; [done|apply put_entry_appends].
  - split; [done|apply delete_entry_appends].
Qed.

Lemma export_entries n : resident n ->
  exists entries, collect export_entry (iter_keys n) = Ok entries
    /\ Forall2 (fun kv x => export_entry kv = Ok x) (iter_keys n) entries.
Proof.
  intros Hres. destruct (iter_keys_spec n) as [_ Hin].
  assert (Forall (fun kv => exists x, export_entry kv = Ok x) (iter_keys n)) as Hall.
  { apply Forall_forall. intros [key ks] Hks%Hin. unfold export_entry. cbn [fst snd].
    assert (exists vs, collect export_version (map snd (ks_versions ks)) = Ok vs) as [vs ->];
      [|by eexists].
    assert (Forall (fun vr => vr_value vr.2 <> None) (ks_versions ks)) as Hv.
    { apply Forall_forall. intros [v r] Hvr. apply (Hres key v). unfold versions_of. by rewrite Hks. }
    clear Hks. induction Hv as [|[v r] l Hr _ [vs IH]]; [by eexists|].
    cbn [map snd collect] in Hr |- *. rewrite IH. unfold export_version at 1.
    destruct (vr_value r) as [b|]; [by eexists|done]. }
  assert (exists entries, Forall2 (fun kv x => export_entry kv = Ok x) (iter_keys n) entries)
    as [entries He]; [|exists entries; split; [by apply collect_Ok_Forall2|done]].
  clear Hin. induction Hall as [|kv l [x Hx] _ [xs IH]]; [by exists []|].
  exists (x :: xs). by constructor.
Qed.

Lemma import_entry_holds name n kv x e1 n1 :
  kv ∈ iter_keys n -> export_entry kv = Ok x ->
  se_index e1 !! name = Some n1 -> nss_keys n1 !! xe_key x = None ->
  within n1 (length (history n (xe_key x))) ->
  replays name (import_entry name x) e1
    (fun n' => holds n' (xe_key x) (history n (xe_key x)) /\ frame (eq (xe_key x)) n1 n').
Proof.
  destruct kv as [key ks]. intros Hkv%(proj2 (iter_keys_spec n)) Hx Hn1 Habs Hw.
  unfold export_entry in Hx. cbn [fst snd] in Hx.
  destruct (collect _ _) as [vs|] eqn:Hvs; [|done]. injection Hx as <-. cbn [xe_key] in *.
  apply collect_Ok_Forall2 in Hvs. unfold import_entry. cbn [xe_versions xe_key].
  assert (history n key = map xhist vs) as Hh.
  { unfold history, versions_of. rewrite Hkv. clear -Hvs EngineLaws0.
    induction Hvs as [|r v rs vs Hr _ IH]; [done|]. cbn [map].
    rewrite IH. f_equal. symmetry. by apply (export_version_hist "" [] r v). }
  rewrite Hh in *. eapply (for_each_appends name key _ xhist) with (hs := []);
    [|done|by apply holds_absent|by rewrite length_map in Hw].
  clear -Hvs EngineLaws0. induction Hvs as [|r v rs vs Hr _ IH]; constructor; [|done].
  by eapply export_version_hist.
Qed.

Lemma parse_header_bundle h encrypted config header :
  header_from_slice h = Ok header -> Z.of_nat (length h) < 2 ^ 32 ->
  parse_header (bundle_of h encrypted config) = Ok (header, h).
Proof.
  intros Hh Hlen. unfold parse_header.
  assert (length (bundle_of h encrypted config)
          = 8 + length h + (length encrypted + (4 + length config)))%nat as Hl
    by (unfold bundle_of; rewrite !length_app; simpl; lia).
  rewrite Hl. replace (_ <? 8)%nat with false by lia.
  replace (take 4 _) with EXPORT_MAGIC by reflexivity. rewrite bool_decide_eq_true_2 by done.
  cbn [orb negb].
  replace (slice (bundle_of h encrypted config) 4 8) with (to_le_bytes (len_u32 h)) by reflexivity.
  unfold len_u32. rewrite Z.mod_small by lia. rewrite from_to_le_bytes by lia.
  replace (_ <? _)%Z with false by lia. rewrite Nat2Z.id.
  replace (slice _ 8 _) with h; [by rewrite Hh|]. symmetry.
  unfold bundle_of. rewrite (app_assoc EXPORT_MAGIC).
  exact (slice_app_mid (EXPORT_MAGIC ++ to_le_bytes (len_u32 h)) h _).
Qed.

Lemma open_bundle_exported e nonce h entries payload encrypted config config_json :
  entries_from_bytes payload = Ok entries ->
  aes_gcm_encrypt nonce (keyspace (se_key e) "__export__") payload h = Ok encrypted ->
  aes_gcm_decrypt (keyspace (se_key e) "__export__") encrypted h = Ok payload ->
  no_nul config_json -> (0 < length config_json)%nat -> Z.of_nat (length config_json) < 1000000 ->
  config_from_slice config_json = Ok config ->
  open_bundle e (bundle_of h encrypted config_json) h (8 + length h) = Ok (config, entries).
Proof.
  intros Hp Henc Hdec Hnul Hpos Hmax Hcfg. unfold open_bundle. rewrite law_keyspace. cbn [anyhow map_err].
  unfold mbind, result_bind at 1.
  replace (_ <? _)%nat with false
    by (symmetry; apply Nat.ltb_ge; unfold bundle_of; rewrite !length_app; simpl; lia).
  rewrite (find_config_bundle _ _ _ config) by done.
  replace (slice _ _ _) with encrypted; [unfold context; rewrite Hdec; cbn; by rewrite Hp|]. symmetry.
  unfold bundle_of. rewrite (app_assoc (to_le_bytes (len_u32 h))), (app_assoc EXPORT_MAGIC).
  exact (slice_app_mid (EXPORT_MAGIC ++ to_le_bytes (len_u32 h) ++ h) encrypted _).
Qed.

(** The engine's part of an import. *)
Lemma import_entries name n entries e :
  se_index e !! name = None -> limited n ->
  Forall2 (fun kv x => export_entry kv = Ok x) (iter_keys n) entries ->
  replays name
    (and_then (create_namespace name (nss_config n) (nss_created_at n) "failed to create namespace")
       (fun _ => for_each (import_entry name) entries)) e (renumbered n).
Proof.
  intros Hnone Hlim Hex. destruct (iter_keys_spec n) as [Hnd _].
  assert (map xe_key entries = map fst (iter_keys n)) as Hkeys.
  { clear -Hex. induction Hex as [|[key ks] x l xs Hx _ IH]; [done|]. cbn [map fst]. rewrite IH.
    f_equal. unfold export_entry in Hx. by destruct (collect _ _); simplify_eq/=. }
  apply (create_and_replay _ name n (import_entry name) xe_key); try done.
  - by rewrite Hkeys.
  - intros key. rewrite Hkeys. apply iter_keys_dom.
  - assert (Forall (fun x => exists kv, kv ∈ iter_keys n /\ export_entry kv = Ok x) entries) as Hall.
    { apply Forall_forall. intros x Hx. apply list_elem_of_lookup in Hx as [i Hi].
      destruct (Forall2_lookup_r _ _ _ _ _ Hex Hi) as (kv & Hkv & Hx). exists kv.
      split; [by eapply list_elem_of_lookup_2|done]. }
    eapply Forall_impl; [exact Hall|]. intros x (kv & Hin & Hx) e1 n1 Hn1 Habs Hw.
    by eapply import_entry_holds.
Qed.

Lemma import_into_ok bundle h start name n entries e :
  open_bundle e bundle h start = Ok (nss_config n, entries) ->
  Forall2 (fun kv x => export_entry kv = Ok x) (iter_keys n) entries ->
  se_index e !! name = None -> limited n ->
  exists e' n', import_into bundle h start name (nss_created_at n) e
      = (Ok (Z.of_nat (length entries)), e')
    /\ se_index e' = <[name := n']> (se_index e) /\ se_key e' = se_key e /\ renumbered n n'.
Proof.
  intros Hopen Hex Hnone Hlim.
  destruct (import_entries name n entries e Hnone Hlim Hex) as (e1 & n' & Hrun & Hi & Hk & Hr).
  destruct (law_snapshot e1) as (e2 & Hs & Hsi & Hsk). exists e2, n'.
  split; [|split; [congruence|split; [congruence|done]]].
  unfold import_into. rewrite Hopen. revert Hrun. unfold and_then.
  destruct (create_namespace _ _ _ _ e) as [[[]|] f]; [|done]. intros ->. by rewrite Hs.
Qed.

(** The header of an exported namespace. *)
Definition header_for (ns : string) n : ExportHeader :=
  {| eh_namespace := ns; eh_version := 1; eh_created_at := nss_created_at n;
     eh_key_count := Z.of_nat (size (nss_keys n)) |}.

(** C24. A namespace survives export and import: the bundle that [export] writes is
    accepted by [import] in any engine with the same master key that has no
    namespace of the target's name, and gives it a namespace with the same
    configuration, creation time and keys, every key with the same sequence of
    values, metadata, tombstones and actors; nothing else changes.  In
    particular the scan for the end of the encrypted section is right, although
    the format does not record it.  (For configurations below a megabyte and
    headers below 4 GiB.) *)
Theorem export_import_roundtrip master ns nonce (d : D) e n rename (d2 : D) e2 :
  (se_open master d).1 = Ok e -> se_index e !! ns = Some n -> resident n -> limited n ->
  (forall b, header_to_vec (header_for ns n) = Ok b -> Z.of_nat (length b) < 2 ^ 32) ->
  (forall b, config_to_vec (nss_config n) = Ok b -> Z.of_nat (length b) < 1000000) ->
  (se_open master d2).1 = Ok e2 -> se_index e2 !! default ns rename = None ->
  exists bundle d1 d3 e3 n3,
    run_export master ns nonce d = (Ok tt, Some bundle, d1)
    /\ run_import master bundle rename d2 = (Ok (Z.of_nat (size (nss_keys n))), d3)
    /\ (se_open master d3).1 = Ok e3
    /\ se_index e3 = <[default ns rename := n3]> (se_index e2)
    /\ renumbered n n3.
Proof.
  intros Ho Hn Hres Hlim Hhsize Hsize Ho2 Hnone.
  pose proof (law_open_key _ _ _ Ho) as Hk. pose proof (law_open_key _ _ _ Ho2) as Hk2.
  destruct (opened_as _ _ _ Ho) as [d0 Ho'], (opened_as _ _ _ Ho2) as [d0' Ho2'].
  destruct (export_entries n Hres) as (entries & Hcol & Hex).
  destruct (law_entries entries) as (payload & Hser & Hdes).
  assert (length entries = size (nss_keys n)) as Hcount.
  { rewrite <- (Forall2_length _ _ _ Hex), (Permutation_length (law_iter_keys n)).
    apply length_map_to_list. }
  destruct (law_header (header_for ns n)) as (h & Hh & Hh'). specialize (Hhsize h Hh).
  destruct (law_aes nonce (keyspace master "__export__") payload h) as (enc & Henc & Hdec).
  destruct (law_config (nss_config n)) as (cj & Hcj & Hcj' & Hnul & Hpos).
  destruct (law_reopen e) as (d1 & _ & Hshut & _).
  assert (open_bundle e2 (bundle_of h enc cj) h (8 + length h) = Ok (nss_config n, entries)) as Hob.
  { subst master. rewrite <- Hk2 in *. by eapply open_bundle_exported; eauto. }
  destruct (import_into_ok _ _ _ (default ns rename) n _ _ Hob Hex Hnone Hlim)
    as (f & n3 & Himp & Hfi & Hfk & Hren).
  destruct (law_reopen f) as (d3 & e3 & Hshut3 & Hop3 & Hi3).
  exists (bundle_of h enc cj), d1, d3, e3, n3. repeat split; try apply Hren; try congruence.
  - unfold run_export, export_bundle. rewrite Ho'. cbn [context map_err].
    rewrite Hn. cbn [ok_or mbind result_bind]. rewrite Hcol. cbn [mbind result_bind].
    rewrite Hser, law_keyspace, Hk. cbn [context anyhow map_err mbind result_bind].
    rewrite Hcount. fold (header_for ns n). rewrite Hh. cbn [propagate map_err mbind result_bind].
    rewrite Henc, Hcj. cbn. by rewrite Hshut.
  - unfold run_import. rewrite (parse_header_bundle _ _ _ (header_for ns n)) by done. rewrite Ho2'.
    cbn [context map_err eh_namespace eh_created_at header_for].
    by rewrite Hnone, Himp, Hshut3, Hcount.
Qed.
End Replay.

(** ** Concrete runs

    An engine in memory, a directory that remembers its key, a serializer of
    countable types and a cipher that prepends its key and associated data. *)

Record ToyDisk := { td_key : bytes; td_index : gmap string NamespaceState }.

Definition toy_append (ns : string) (key : bytes) (v : Z) (r : VersionRecord) (e : ToyDisk)
    : result string unit * ToyDisk :=
  match td_index e !! ns with
  | None => (Err "namespace not found", e)
  | Some n =>
      (Ok tt, {| td_key := td_key e;
                 td_index := <[ns := {| nss_config := nss_config n; nss_created_at := nss_created_at n;
                   nss_keys := <[key := {| ks_versions := (versions_of n key ++ [(v, r)])%list;
                                           ks_current_version := v |}]> (nss_keys n) |}]>
                   (td_index e) |})
  end.

Definition toy_record (s : EntryState) (value : bytes) (md actor : string) : VersionRecord :=
  {| vr_state := s; vr_value := Some value; vr_metadata := md; vr_updated_at := 7;
     vr_actor := actor; vr_expires_at_ms := None |}.

#[export] Instance toy_storage : StorageEngine (option ToyDisk) ToyDisk := {
  se_empty := None;
  se_open k d :=
    match d with
    | None => (Ok {| td_key := k; td_index := ∅ |}, Some {| td_key := k; td_index := ∅ |})
    | Some t => if decide (td_key t = k) then (Ok t, d) else (Err "authentication failed", d)
    end;
  se_index := td_index;
  iter_namespaces e := map_to_list (td_index e);
  iter_keys n := map_to_list (nss_keys n);
  se_apply ns _ p e :=
    match p with
    | WalNamespaceCreated name config t =>
        (Ok tt, {| td_key := td_key e;
                   td_index := <[name := {| nss_config := config; nss_created_at := t;
                                            nss_keys := ∅ |}]> (td_index e) |})
    | WalEntryPut key value md v actor => toy_append ns key v (toy_record Active value md actor) e
    | WalEntryDeleted key v actor => toy_append ns key v (toy_record Deleted [] "{}" actor) e
    end;
  se_snapshot e := (Ok tt, e);
  se_shutdown e := (Ok tt, Some e);
  se_disk e := Some e;
  se_keyspace_key e c := Ok (td_key e ++ as_bytes c)%list;
}.

#[export] Instance toy_storage_laws : EngineLaws (option ToyDisk) ToyDisk.
Proof.
  refine {| se_key := td_key; keyspace k c := (k ++ as_bytes c)%list |}.
  - done.
  - done.
  - intros k [t|] e; simpl; [|by intros [= <-]]. case_decide; [|done]. by intros [= <-].
  - intros k. by eexists.
  - intros e name config t Hn. by eexists.
  - intros e ns n key value md actor Hn _. simpl in *. unfold toy_append. rewrite Hn.
    eexists _, (toy_record Active value md actor). done.
  - intros e ns n key actor Hn _. simpl in *. unfold toy_append. rewrite Hn.
    eexists _, (toy_record Deleted [] "{}" actor). done.
  - intros e. by exists e.
  - intros e. exists (Some e), e. simpl. by rewrite decide_True.
  - done.
Defined.

#[local] Instance toy_header_eq_dec : EqDecision ExportHeader.
Proof. solve_decision. Defined.
#[local] Instance toy_header_countable : Countable ExportHeader.
Proof.
  refine (inj_countable' (fun h => (eh_namespace h, eh_version h, eh_created_at h, eh_key_count h))
    (fun '(a, b, c, d) => Build_ExportHeader a b c d) _). by intros [].
Defined.

#[local] Instance toy_config_eq_dec : EqDecision NamespaceConfig.
Proof. intros [a b c] [a' b' c']. unfold Decision. simpl in *. decide equality; solve_decision. Defined.
#[local] Instance toy_config_countable : Countable NamespaceConfig.
Proof.
  refine (inj_countable' (A:=option string * option Z * option Z)
    (fun c => (meta_schema c, max_versions c, tombstone_retention_secs c))
    (fun '(a, b, c) => {| meta_schema := a : option MetaSchema; max_versions := b; tombstone_retention_secs := c |}) _). by intros [].
Defined.

#[local] Instance toy_xversion_eq_dec : EqDecision ExportVersion.
Proof. intros [a b c d e] [a' b' c' d' e']. unfold Decision. simpl in *. decide equality; solve_decision. Defined.
#[local] Instance toy_xversion_countable : Countable ExportVersion.
Proof.
  refine (inj_countable' (A:=Z * bytes * string * Z * string)
    (fun v => (xv_state v, xv_value v, xv_metadata v, xv_updated_at v, xv_actor v))
    (fun '(a, b, c, d, e) => {| xv_state := a; xv_value := b; xv_metadata := c : Metadata; xv_updated_at := d; xv_actor := e |}) _). by intros [].
Defined.

#[local] Instance toy_xentry_eq_dec : EqDecision ExportEntry.
Proof. intros [a b] [a' b']. unfold Decision. decide equality; solve_decision. Defined.
#[local] Instance toy_xentry_countable : Countable ExportEntry.
Proof.
  refine (inj_countable' (fun x => (xe_key x, xe_versions x))
    (fun '(a, b) => {| xe_key := a; xe_versions := b |}) _). by intros [].
Defined.

(** A positive as text over three letters, the last of which ends it. *)
Fixpoint toy_print (p : positive) : bytes :=
  match p with
  | xH => [Byte.x2e]
  | xO p => Byte.x30 :: toy_print p
  | xI p => Byte.x31 :: toy_print p
  end.

Fixpoint toy_parse (b : bytes) : option positive :=
  match b with
  | [] => None
  | x :: b =>
      if decide (x = Byte.x2e) then match b with [] => Some xH | _ => None end
      else if decide (x = Byte.x30) then option_map xO (toy_parse b)
      else if decide (x = Byte.x31) then option_map xI (toy_parse b)
      else None
  end.

Lemma toy_parse_print p : toy_parse (toy_print p) = Some p.
Proof. induction p as [p IH|p IH|]; simpl; by rewrite ?IH. Qed.

Lemma toy_print_text p : no_nul (toy_print p) /\ (0 < length (toy_print p))%nat.
Proof. split; [induction p; by constructor|destruct p; simpl; lia]. Qed.

Definition toy_to_vec {A} `{Countable A} (a : A) : result string bytes :=
  Ok (toy_print (countable.encode a)).
Definition toy_from_slice {A} `{Countable A} (b : bytes) : result string A :=
  ok_or (toy_parse b ≫= countable.decode) "expected value".

Lemma toy_from_to_vec {A} `{Countable A} (a : A) :
  toy_from_slice (toy_print (countable.encode a)) = Ok a.
Proof. unfold toy_from_slice. rewrite toy_parse_print. simpl. by rewrite decode_encode. Qed.

Lemma toy_to_vec_length {A} `{Countable A} (a : A) m b :
  toy_to_vec a = Ok b -> Z.of_nat (length (toy_print (countable.encode a))) < m ->
  Z.of_nat (length b) < m.
Proof. by intros [= <-]. Qed.

#[export] Instance toy_export_codec : ExportCodec := {
  header_to_vec := toy_to_vec; header_from_slice := toy_from_slice;
  config_to_vec := toy_to_vec; config_from_slice := toy_from_slice;
  entries_to_allocvec := toy_to_vec; entries_from_bytes := toy_from_slice;
  aes_gcm_encrypt _ key p aad := Ok (key ++ aad ++ p)%list;
  aes_gcm_decrypt key c aad :=
    if decide (take (length (key ++ aad)) c = (key ++ aad)%list)
    then Ok (drop (length (key ++ aad)) c) else Err "aead::Error";
}.

#[export] Instance toy_codec_laws : CodecLaws.
Proof.
  split.
  - intros h. eexists. split; [done|]. apply toy_from_to_vec.
  - intros c. eexists. split; [done|]. split; [apply toy_from_to_vec|]. apply toy_print_text.
  - intros es. eexists. split; [done|]. apply toy_from_to_vec.
  - intros nonce key p aad. eexists. split; [done|]. simpl. rewrite app_assoc, take_app_length.
    rewrite decide_True by done. by rewrite drop_app_length.
Qed.

(** A namespace of which the versions 4 to 6 of one key are left. *)
Definition toy_namespace : NamespaceState :=
  {| nss_config := {| meta_schema := None; max_versions := Some 3; tombstone_retention_secs := None |};
     nss_created_at := 5;
     nss_keys := {[ as_bytes "k" :=
       {| ks_versions := [(4, toy_record Active (as_bytes "a") "{}" "alice");
                          (5, toy_record Deleted [] "{}" "bob");
                          (6, toy_record Active (as_bytes "b") "{}" "alice")];
          ks_current_version := 6 |} ]} |}.

Definition toy_master (b : byte) : bytes := repeat b 32.
Definition toy_disk (n : NamespaceState) : ToyDisk :=
  {| td_key := toy_master Byte.x61; td_index := {[ "ns" := n ]} |}.

Lemma toy_namespace_key key :
  key = as_bytes "k" \/ versions_of toy_namespace key = [].
Proof.
  destruct (decide (key = as_bytes "k")) as [->|Hne]; [by left|right].
  unfold versions_of. simpl. by rewrite lookup_singleton_ne.
Qed.

Lemma toy_namespace_limited : limited toy_namespace.
Proof. intros key. destruct (toy_namespace_key key) as [->|Hk]; [vm_compute; discriminate|]. by rewrite Hk. Qed.

Lemma toy_namespace_resident : resident toy_namespace.
Proof.
  intros key v r. destruct (toy_namespace_key key) as [->|Hk]; [|rewrite Hk; by intros ?%elem_of_nil].
  change (versions_of toy_namespace (as_bytes "k"))
    with [(4, toy_record Active (as_bytes "a") "{}" "alice"); (5, toy_record Deleted [] "{}" "bob");
          (6, toy_record Active (as_bytes "b") "{}" "alice")].
  rewrite !elem_of_cons, elem_of_nil. by intros [[= -> ->]|[[= -> ->]|[[= -> ->]|[]]]].
Qed.

(** Exported and imported under another name beside the original. *)
Lemma export_import_roundtrip_witness :
  exists bundle d1 d3 e3 n3,
    run_export (toy_master Byte.x61) "ns" 0 (Some (toy_disk toy_namespace)) = (Ok tt, Some bundle, d1)
    /\ run_import (toy_master Byte.x61) bundle (Some "copy") (Some (toy_disk toy_namespace))
       = (Ok (Z.of_nat (size (nss_keys toy_namespace))), d3)
    /\ (se_open (toy_master Byte.x61) d3).1 = Ok e3
    /\ se_index e3 = <["copy" := n3]> (se_index (toy_disk toy_namespace))
    /\ renumbered toy_namespace n3.
Proof.
  apply (export_import_roundtrip (toy_master Byte.x61) "ns" 0 (Some (toy_disk toy_namespace))
    (toy_disk toy_namespace) toy_namespace (Some "copy") (Some (toy_disk toy_namespace))
    (toy_disk toy_namespace)).
  - reflexivity.
  - reflexivity.
  - apply toy_namespace_resident.
  - apply toy_namespace_limited.
  - intros b Hb. refine (toy_to_vec_length _ _ b Hb _). vm_compute. reflexivity.
  - intros b Hb. refine (toy_to_vec_length _ _ b Hb _). vm_compute. reflexivity.
  - reflexivity.
  - reflexivity.
Defined.

(** A stand-in for [hex::decode] that knows two keys. *)
Definition toy_hex_decode (s : string) : result string bytes :=
  if String.eqb s "61" then Ok (toy_master Byte.x61)
  else if String.eqb s "62" then Ok (toy_master Byte.x62) else Err "Invalid string length".


(** A namespace with a value out of memory. *)
Definition toy_evicted_record : VersionRecord :=
  {| vr_state := Active; vr_value := None; vr_metadata := "{}"; vr_updated_at := 7;
     vr_actor := "alice"; vr_expires_at_ms := None |}.
Definition toy_evicted : NamespaceState :=
  {| nss_config := default_config; nss_created_at := 5;
     nss_keys := {[ as_bytes "k" := {| ks_versions := [(6, toy_evicted_record)];
                                       ks_current_version := 6 |} ]} |}.

Lemma rekey_wipes_first_witness :
  exists a f f', (se_open (toy_master Byte.x62) se_empty).1 = Ok f /\ se_index f = ∅
    /\ replay_all (snapshot_data (toy_disk toy_evicted)) f = (Err a, f')
    /\ run_rekey toy_hex_decode true "127.0.0.1:6399" "61" "62" (Some (toy_disk toy_evicted))
       = (Err a, se_disk f').
Proof.
  apply (rekey_wipes_first toy_hex_decode "127.0.0.1:6399" "61" "62" (toy_master Byte.x61)
    (toy_master Byte.x62) (Some (toy_disk toy_evicted)) (toy_disk toy_evicted) "ns" toy_evicted);
    try reflexivity.
  intros Hr. refine (Hr (as_bytes "k") 6 toy_evicted_record _ eq_refl eq_refl). apply list_elem_of_singleton. reflexivity.
Defined.
