(* ===== verification/ServerSpec.v ===== *)
(** * Properties of the server's configuration and background work

    The expansion of environment variables ([config.rs]) against a single pass
    over the file, the tokens the server accepts before and after a reload
    ([config.rs], [reload.rs]), the delivery schedule of a webhook
    ([webhooks.rs]), and the accept loop ([server.rs]). *)
From S2P Require Import Prelude RustStr Externals RateLimiter ServerConfig Background Toy.
Open Scope Z_scope.
Open Scope string_scope.

(** ** Environment variables *)

(** Replacing each [${..}] from left to right, without looking at the values. *)
Fixpoint substitute (env : string -> option string) (fuel : nat) (s : string) : string :=
  match fuel with
  | O => s
  | S fuel =>
      match split_at "${" s with
      | None => s
      | Some (before, rest) =>
          match split_once "}" rest with
          | None => s
          | Some (var, after) => before +:+ default "" (env var) +:+ substitute env fuel after
          end
      end
  end.

(** A value that can neither start nor complete a [${]. *)
Definition clean (s : string) : bool :=
  all_chars (fun c => negb (Ascii.eqb c "$") && negb (Ascii.eqb c "{")) s.

(** Text in front of which the search for [${] passes over. *)
Definition inert (p : string) : Prop := forall t,
  split_at "${" (p +:+ t) = option_map (fun '(l, r) => (p +:+ l, r)) (split_at "${" t).

Lemma split_at_cons c s :
  strip_prefix "${" (String c s) = None ->
  split_at "${" (String c s) = option_map (fun '(l, r) => (String c l, r)) (split_at "${" s).
Proof. intros Hs. cbn [split_at]. by rewrite Hs. Qed.

Lemma inert_nil : inert "".
Proof. intros t. change ("" +:+ t) with t. by destruct (split_at "${" t) as [[]|]. Qed.

Lemma inert_app p q : inert p -> inert q -> inert (p +:+ q).
Proof.
  intros Hp Hq t. rewrite string_app_assoc, Hp, Hq.
  destruct (split_at "${" t) as [[l r]|]; [|done]. cbn. by rewrite string_app_assoc.
Qed.

Lemma strip_dollar_other c s : c <> "$"%char -> strip_prefix "${" (String c s) = None.
Proof.
  intros Hc. cbn [strip_prefix]. destruct (Ascii.eqb "$" c) eqn:E; [|done].
  apply Ascii.eqb_eq in E. congruence.
Qed.

Lemma inert_cons c p : c <> "$"%char -> inert p -> inert (String c p).
Proof.
  intros Hc Hp t. change (String c p +:+ t) with (String c (p +:+ t)).
  rewrite split_at_cons, Hp by (by apply strip_dollar_other). by destruct (split_at "${" t) as [[]|].
Qed.

Lemma inert_clean x : clean x = true -> inert x.
Proof.
  induction x as [|c x IH]; intros Hx; [apply inert_nil|]. unfold clean in *. cbn [all_chars] in Hx.
  apply andb_prop in Hx as [Hc Hx]. apply andb_prop in Hc as [Hc _].
  apply inert_cons; [|by apply IH]. intros ->. discriminate.
Qed.

Lemma contains_cons p c s : contains p (String c s) = false -> contains p s = false.
Proof. cbn [contains]. intros H%orb_false_elim. apply H. Qed.

(** What stands before the first [${], unless a dollar sign precedes it. *)
Lemma split_at_before s b r :
  split_at "${" s = Some (b, r) -> contains "$$" s = false -> inert b /\ s = b +:+ "${" +:+ r.
Proof.
  revert b. induction s as [|c s IH]; intros b Hs Hd; [done|].
  destruct (strip_prefix "${" (String c s)) as [t|] eqn:Hp.
  - cbn [split_at] in Hs. rewrite Hp in Hs. injection Hs as <- <-. split; [apply inert_nil|].
    cbn [strip_prefix] in Hp. destruct (Ascii.eqb "$" c) eqn:Hc; [|done].
    apply Ascii.eqb_eq in Hc as <-. destruct s as [|c2 s]; [done|].
    destruct (Ascii.eqb "{" c2) eqn:Hc2; [|done]. apply Ascii.eqb_eq in Hc2 as <-. by injection Hp as ->.
  - rewrite (split_at_cons c s Hp) in Hs. destruct (split_at "${" s) as [[l r']|] eqn:Hl; [|done].
    cbn in Hs. injection Hs as <- <-. pose proof (contains_cons _ _ _ Hd) as Hd'.
    destruct (IH l eq_refl Hd') as [Hin Heq]. split; [|by rewrite Heq at 1].
    destruct (Ascii.eqb c "$") eqn:Hc; [apply Ascii.eqb_eq in Hc as ->|apply inert_cons; [|done]].
    2:{ intros ->. discriminate. }
    intros t. change (String "$" l +:+ t) with (String "$" (l +:+ t)).
    rewrite split_at_cons, Hin; [by destruct (split_at "${" t) as [[]|]|].
    destruct l as [|c2 l]; [exfalso; rewrite Heq in Hd; discriminate Hd|].
    rewrite Heq in Hp. cbn [strip_prefix] in Hp |- *. change (Ascii.eqb "$" "$") with true in Hp |- *.
    cbn iota in Hp |- *. change (String c2 l +:+ ?x) with (String c2 (l +:+ x)) in *.
    cbn [strip_prefix] in Hp |- *. by destruct (Ascii.eqb "{" c2).
Qed.

Lemma split_once_eq c s l r : split_once c s = Some (l, r) -> s = l +:+ String c r.
Proof.
  revert l. induction s as [|a s IH]; intros l; cbn [split_once]; [done|].
  destruct (Ascii.eqb a c) eqn:Ha; [apply Ascii.eqb_eq in Ha as ->; by intros [= <- <-]|].
  destruct (split_once c s) as [[l' r']|] eqn:Hs; [|done]. cbn. intros [= <- <-].
  by rewrite (IH l' eq_refl) at 1.
Qed.

Lemma contains_app_false p a s : contains p (a +:+ s) = false -> contains p s = false.
Proof.
  induction a as [|c a IH]; [done|]. intros H. apply IH.
  change (String c a +:+ s) with (String c (a +:+ s)) in H. by apply contains_cons in H.
Qed.

Section Expand.
Context (env : string -> option string) (Henv : forall v x, env v = Some x -> clean x = true).

Lemma value_inert v : inert (default "" (env v)).
Proof. destruct (env v) as [x|] eqn:Hx; [by eapply inert_clean, Henv|apply inert_nil]. Qed.

Lemma expand_after_inert fuel s p :
  inert p -> contains "$$" s = false -> (String.length s <= fuel)%nat ->
  expand_env_vars env fuel (p +:+ s) = Some (p +:+ substitute env fuel s).
Proof.
  revert s p. induction fuel as [|fuel IH]; intros s p Hp Hd Hlen.
  - destruct s; [|cbn in Hlen; lia]. cbn [expand_env_vars substitute]. unfold expand_step.
    by rewrite (Hp "").
  - cbn [expand_env_vars substitute]. unfold expand_step. rewrite (Hp s).
    destruct (split_at "${" s) as [[b r]|] eqn:Hs; [|done]. cbn [option_map].
    destruct (split_once "}" r) as [[v after]|] eqn:Hr; [|done].
    destruct (split_at_before s b r Hs Hd) as [Hb ->]. apply split_once_eq in Hr as ->.
    rewrite !string_app_assoc, <- (string_app_assoc p b), <- (string_app_assoc (p +:+ b)).
    rewrite IH; [by rewrite !string_app_assoc| | |].
    + apply inert_app; [by apply inert_app|apply value_inert].
    + change (String "}" after) with ("}" +:+ after) in Hd.
      by repeat apply contains_app_false in Hd.
    + rewrite !string_length_app in Hlen. cbn [String.length] in Hlen. lia.
Qed.

(** C29. Environment variables are expanded in one pass: the loop, which searches
    the whole text again after every replacement, ends after at most as many
    rounds as the file has characters, with every [${VAR}] replaced by the
    value of the variable (or by nothing) and everything else as it was;
    provided the values have no dollar signs and no opening braces, and the
    file no two dollar signs in a row. *)
Theorem expand_env_vars_single_pass s :
  contains "$$" s = false ->
  expand_env_vars env (String.length s) s = Some (substitute env (String.length s) s).
Proof. intros Hd. by apply (expand_after_inert _ s "" inert_nil). Qed.
End Expand.

(** A variable whose value refers to itself makes the expansion loop for ever. *)
Lemma expand_env_vars_diverges (fuel : nat) :
  expand_env_vars (fun v => if String.eqb v "A" then Some "${A}" else None) fuel "x = ${A}" = None.
Proof. induction fuel as [|fuel IH]; [reflexivity|]. exact IH. Qed.

Lemma expand_env_vars_single_pass_witness :
  expand_env_vars (fun v => if String.eqb v "PORT" then Some "6399" else None) 27
    "bind = 0.0.0.0:${PORT}${X};"
  = Some "bind = 0.0.0.0:6399;".
Proof.
  refine (eq_trans (expand_env_vars_single_pass
    (fun v => if String.eqb v "PORT" then Some "6399" else None) _
    "bind = 0.0.0.0:${PORT}${X};" eq_refl) _).
  - intros v x. destruct (String.eqb v "PORT"); [|done]. by intros [= <-].
  - reflexivity.
Defined.

(** ** Tokens *)

(** The token validator is a table: the last registration of a token counts. *)
Class StaticTokensLaws `{Acl} (V : Type) `{!StaticTokens V} : Prop := {
  law_new raw : is_ok (sv_validate (V:=V) sv_new raw) = false;
  law_register raw t (v : V) raw' :
    sv_validate (sv_register raw t v) raw' =
      if String.eqb raw' raw then Ok t else sv_validate v raw';
}.

Section Tokens.
Context `{!Acl} {V : Type} `{!StaticTokens V} `{!StaticTokensLaws V} {Tls : Type}.

(** The tokens of a configuration. *)
Definition configured (config : ShrouDBConfig Tls) : gmap string TokenConfig :=
  match cfg_auth config with Some auth => auth_tokens auth | None => ∅ end.

Lemma registered_out l (v : V) raw : raw ∉ l.*1 ->
  sv_validate (foldl (fun v '(r, tc) => sv_register r (token_of tc) v) v l) raw = sv_validate v raw.
Proof.
  revert v. induction l as [|[r tc] l IH]; intros v Hraw; [done|]. cbn in Hraw |- *.
  apply not_elem_of_cons in Hraw as [Hne Hraw]. rewrite IH by done. rewrite law_register.
  by rewrite (proj2 (String.eqb_neq raw r) Hne).
Qed.

Lemma registered_in l (v : V) raw tc : NoDup l.*1 -> (raw, tc) ∈ l ->
  sv_validate (foldl (fun v '(r, tc) => sv_register r (token_of tc) v) v l) raw = Ok (token_of tc).
Proof.
  revert v. induction l as [|[r tc'] l IH]; intros v Hnd Hin; [by apply elem_of_nil in Hin|].
  cbn in Hnd |- *. apply NoDup_cons in Hnd as [Hout Hnd].
  apply elem_of_cons in Hin as [[= <- <-]|Hin]; [|by apply IH].
  rewrite registered_out by done. rewrite law_register. by rewrite String.eqb_refl.
Qed.

(** The validator of a configuration accepts its tokens and no others. *)
Lemma build_token_validator_spec (config : ShrouDBConfig Tls) raw :
  match configured config !! raw with
  | Some tc => sv_validate (V:=V) (build_token_validator config) raw = Ok (token_of tc)
  | None => is_ok (sv_validate (V:=V) (build_token_validator config) raw) = false
  end.
Proof.
  unfold configured, build_token_validator. destruct (cfg_auth config) as [auth|].
  2:{ rewrite lookup_empty. apply law_new. }
  destruct (auth_tokens auth !! raw) as [tc|] eqn:Hraw.
  - apply registered_in; [apply NoDup_fst_map_to_list|]. by apply elem_of_map_to_list.
  - rewrite registered_out; [apply law_new|]. intros Hin.
    apply list_elem_of_fmap in Hin as ([r tc] & -> & Hin). apply elem_of_map_to_list in Hin.
    cbn in Hraw. congruence.
Qed.

(** A token grants a scope on a namespace exactly when its configuration says
    so, in any case of letters. *)
Lemma token_of_grants tc ns scope :
  (exists g, g ∈ tok_grants (token_of tc) /\ tg_namespace g = ns /\ scope ∈ tg_scopes g)
  <-> (exists g s, g ∈ tc_grants tc /\ gc_namespace g = ns /\ s ∈ gc_scopes g
                   /\ eq_ignore_ascii_case s (match scope with ScopeRead => "read" | ScopeWrite => "write" end) = true).
Proof.
  assert (forall s, scope_of s = Some scope <-> eq_ignore_ascii_case s
    (match scope with ScopeRead => "read" | ScopeWrite => "write" end) = true) as Hs.
  { intros s. unfold scope_of, eq_ignore_ascii_case.
    generalize (to_ascii_lowercase s) as l. intros l.
    destruct scope;
      [change (to_ascii_lowercase "read") with "read"|change (to_ascii_lowercase "write") with "write"];
      (destruct (String.eqb_spec l "read") as [->|]; [done|]);
      (destruct (String.eqb_spec l "write") as [->|]; done). }
  split.
  - intros (g & Hg & Hns & Hsc). apply list_elem_of_fmap in Hg as (gc & -> & Hg). cbn in Hns, Hsc.
    apply list_elem_of_omap in Hsc as (s & Hin & Hsome). exists gc, s. repeat split; try done. by apply Hs.
  - intros (gc & s & Hg & Hns & Hin & Heq). eexists. split; [by apply list_elem_of_fmap_2|].
    cbn. split; [done|]. apply list_elem_of_omap. exists s. split; [done|]. by apply Hs.
Qed.

(** What the server accepts after a reload. *)
Definition accepts (r : Reloader (V:=V)) (tokens : gmap string TokenConfig) : Prop := forall raw,
  match tokens !! raw with
  | Some tc => rv_validate (rl_validator r) raw = Ok (token_of tc)
  | None => is_ok (rv_validate (rl_validator r) raw) = false
  end.

(** The configuration in force after a series of ticks, each with the file's
    modification time and what loading it gives. *)
Fixpoint in_force (mtime : option Z) (config : ShrouDBConfig Tls)
    (ticks : list (option Z * result string (ShrouDBConfig Tls))) : ShrouDBConfig Tls :=
  match ticks with
  | [] => config
  | (t, loaded) :: ticks =>
      if decide (t = mtime) then in_force mtime config ticks
      else in_force t (match loaded with Ok c => c | Err _ => config end) ticks
  end.

Definition reloader_run (ticks : list (option Z * result string (ShrouDBConfig Tls)))
    (r : Reloader (V:=V)) : Reloader :=
  foldl (fun r '(t, loaded) => reload_tick t loaded r) r ticks.

Lemma reloader_run_state ticks mtime config (r : Reloader (V:=V)) :
  rl_last_mtime r = mtime -> rv_inner (rl_validator r) = build_token_validator config ->
  rl_rate_limit r = sc_rate_limit_per_second (cfg_server config) ->
  rv_inner (rl_validator (reloader_run ticks r)) = build_token_validator (in_force mtime config ticks)
  /\ rl_rate_limit (reloader_run ticks r)
     = sc_rate_limit_per_second (cfg_server (in_force mtime config ticks)).
Proof.
  revert mtime config r. induction ticks as [|[t loaded] ticks IH]; intros mtime config r Ht Hv Hr;
    [done|]. cbn [reloader_run foldl in_force].
  unfold reload_tick at 2 4. rewrite Ht. case_decide as Heq; [by apply IH|].
  destruct loaded as [c|e]; by apply IH.
Qed.

(** C30. Reloading: whatever happens to the configuration file, the server accepts
    exactly the tokens of the last version of it that could be loaded, each
    with the grants written there, and new connections get the rate limit
    written there; a version that cannot be loaded changes nothing. *)
Theorem reload_in_force config mtime ticks :
  let r := reloader_run ticks (reloader_start config mtime) in
  accepts r (configured (in_force mtime config ticks))
  /\ rl_rate_limit r = sc_rate_limit_per_second (cfg_server (in_force mtime config ticks)).
Proof.
  intros r. destruct (reloader_run_state ticks mtime config (reloader_start config mtime)) as [Hv Hr];
    try done.
  split; [|done]. intros raw. unfold rv_validate. subst r. rewrite Hv. apply build_token_validator_spec.
Qed.
End Tokens.

(** Tokens kept in a map. *)
#[export] Instance toy_static_tokens : StaticTokens (gmap string Token) := {
  sv_new := ∅;
  sv_register raw t v := <[raw := t]> v;
  sv_len v := Z.of_nat (size v);
  sv_validate v raw := match v !! raw with Some t => Ok t | None => Err "invalid token" end;
  into_context t :=
    {| toy_actor := tok_actor t; toy_reads := map tg_namespace (tok_grants t);
       toy_writes := map tg_namespace
         (List.filter (fun g => bool_decide (ScopeWrite ∈ tg_scopes g)) (tok_grants t));
       toy_admin := tok_is_platform t; toy_expires := tok_expires_at t |};
}.

#[export] Instance toy_static_tokens_laws : StaticTokensLaws (gmap string Token).
Proof.
  split; [done|]. intros raw t v raw'. cbn. destruct (String.eqb_spec raw' raw) as [->|Hne].
  - by rewrite lookup_insert_eq.
  - by rewrite lookup_insert_ne.
Qed.

Definition one_token (raw : string) : ShrouDBConfig unit :=
  {| cfg_server := default_server; cfg_storage := default_storage;
     cfg_auth := Some {| auth_method := Some "token";
       auth_tokens := {[ raw := {| tc_tenant := "t"; tc_actor := "a"; tc_platform := false;
         tc_grants := [{| gc_namespace := "ns"; gc_scopes := ["Read"; "admin"] |}] |} ]} |};
     cfg_webhooks := [] |}.

(** A broken version of the file, then one with another token. *)
Lemma reload_in_force_witness :
  let r := reloader_run [(Some 2, Err "expected newline"); (Some 3, Ok (one_token "new"))]
             (reloader_start (one_token "old") (Some 1)) in
  accepts r (configured (one_token "new")) /\ rl_rate_limit r = None.
Proof.
  exact (reload_in_force (V:=gmap string Token) (one_token "old") (Some 1)
    [(Some 2, Err "expected newline"); (Some 3, Ok (one_token "new"))]).
Defined.

(** ** Webhooks *)
Section Delivery.
Context (event_to_vec : SubscriptionEvent -> result string bytes).
Context (hmac_hex : string -> bytes -> string).

(** [k] failed attempts with a pause after each, then one more. *)
Definition schedule (r : Request) (k : nat) : list Action :=
  (flat_map (fun i => [Post r; Sleep (2 ^ Z.min (Z.of_nat i) 3)]) (seq 0 k) ++ [Post r])%list.

Definition schedule_from (r : Request) (a k : nat) : list Action :=
  (flat_map (fun i => [Post r; Sleep (2 ^ Z.min (Z.of_nat i) 3)]) (seq a k) ++ [Post r])%list.

Lemma attempts_success answers r m (k a remaining : nat) :
  (k < remaining)%nat -> Z.of_nat (a + k) <= m ->
  answers (Z.of_nat (a + k)) = true ->
  (forall i, (a <= i < a + k)%nat -> answers (Z.of_nat i) = false) ->
  attempts answers r m remaining (Z.of_nat a) = (true, schedule_from r a k).
Proof.
  revert a remaining. induction k as [|k IH]; intros a remaining Hk Hm Hok Hbad;
    (destruct remaining as [|remaining]; [lia|]); cbn [attempts].
  - rewrite Nat.add_0_r in Hok. by rewrite Hok.
  - rewrite Hbad by lia. replace (_ <? m)%Z with true by lia.
    replace (Z.of_nat a + 1) with (Z.of_nat (S a)) by lia. rewrite IH; [|lia|lia| |].
    + unfold schedule_from. cbn [seq flat_map app]. rewrite Z.shiftl_1_l. done.
    + by replace (S a + k)%nat with (a + S k)%nat by lia.
    + intros i Hi. apply Hbad. lia.
Qed.

Lemma attempts_exhausted answers r m (k a remaining : nat) :
  remaining = S k -> m = Z.of_nat (a + k) ->
  (forall i, (a <= i <= a + k)%nat -> answers (Z.of_nat i) = false) ->
  attempts answers r m remaining (Z.of_nat a) = (false, schedule_from r a k).
Proof.
  revert a remaining. induction k as [|k IH]; intros a [|remaining] Hr Hm Hbad; try lia;
    cbn [attempts]; rewrite Hbad by lia.
  - injection Hr as ->. replace (_ <? m)%Z with false by lia. done.
  - replace (_ <? m)%Z with true by lia. replace (Z.of_nat a + 1) with (Z.of_nat (S a)) by lia.
    rewrite IH; [|lia|lia|intros i Hi; apply Hbad; lia].
    unfold schedule_from. cbn [seq flat_map app]. by rewrite Z.shiftl_1_l.
Qed.

(** C31. Webhook delivery: an event is posted until the endpoint accepts it, at most
    [max_retries] times after the first, with pauses of 1, 2, 4 and then 8
    seconds; every attempt sends the same body with the signature of that body;
    nothing is sent after a success, and no pause follows the last attempt. *)
Theorem webhook_delivery answers config ev body (max : nat) :
  event_to_vec ev = Ok body -> wh_max_retries config = Z.of_nat max ->
  (forall k : nat, (k <= max)%nat -> answers (Z.of_nat k) = true ->
     (forall i : nat, (i < k)%nat -> answers (Z.of_nat i) = false) ->
     deliver_with_retry event_to_vec hmac_hex answers config ev
     = (true, schedule (request_for hmac_hex config ev body) k))
  /\ ((forall i : nat, (i <= max)%nat -> answers (Z.of_nat i) = false) ->
     deliver_with_retry event_to_vec hmac_hex answers config ev
     = (false, schedule (request_for hmac_hex config ev body) max)).
Proof.
  intros Hbody Hmax. unfold deliver_with_retry. rewrite Hbody, Hmax.
  replace (Z.to_nat (Z.of_nat max + 1)) with (S max) by lia. split.
  - intros k Hk Hok Hbad. apply (attempts_success answers _ _ k 0 (S max)); [lia|lia|done|].
    intros i Hi. apply Hbad. lia.
  - intros Hbad. apply (attempts_exhausted answers _ _ max 0 (S max)); [done|lia|]. intros i Hi. apply Hbad. lia.
Qed.
End Delivery.

Definition toy_webhook : WebhookConfig :=
  {| wh_url := "http://x"; wh_secret := "s"; wh_events := []; wh_namespaces := ["app.*"];
     wh_max_retries := 5; wh_timeout_ms := 5000 |}.

Definition toy_event : SubscriptionEvent :=
  {| ev_event := EventPut; ev_namespace := "app.users"; ev_key := []; ev_version := 1;
     ev_actor := "a"; ev_timestamp := 0 |}.

Lemma webhook_delivery_witness :
  deliver_with_retry (fun _ => Ok []) (fun _ _ => "00") (fun k => (k =? 4)%Z) toy_webhook toy_event
  = (true, let r := request_for (fun _ _ => "00") toy_webhook toy_event [] in
           [Post r; Sleep 1; Post r; Sleep 2; Post r; Sleep 4; Post r; Sleep 8; Post r]).
Proof.
  apply (proj1 (webhook_delivery (fun _ => Ok []) (fun _ _ => "00") (fun k => (k =? 4)%Z)
    toy_webhook toy_event [] 5 eq_refl eq_refl) 4%nat).
  - lia.
  - reflexivity.
  - intros i Hi. lia.
Defined.

(** ** The accept loop *)

(** While the server accepts connections it forgets none of them: those that
    have ended stay in the task set until the shutdown. *)
Lemma accept_loop_keeps_tasks inputs tasks tasks' :
  foldl (fun s i => server_step i s) (Accepting tasks) inputs = Accepting tasks' ->
  length tasks' = (length tasks
    + length (List.filter (fun i => match i with SrvAccepted _ _ => true | _ => false end) inputs))%nat.
Proof.
  revert tasks. induction inputs as [|i inputs IH]; intros tasks; cbn [foldl].
  - intros [= ->]. cbn. lia.
  - assert (forall s, (forall ts, s <> Accepting ts) ->
      foldl (fun s i => server_step i s) s inputs <> Accepting tasks') as Hend.
    { clear. induction inputs as [|i l IH]; intros s Hs; [by apply Hs|]. cbn [foldl]. apply IH.
      intros ts. destruct s as [ts'|ts'|]; [by destruct (Hs ts')| |done].
      destruct i; cbn; try done. unfold drain. by destruct (without id ts'). }
    destruct i as [[]|id rl| | |]; cbn [server_step List.filter]; intros Hrun.
    + exfalso. eapply Hend; [|exact Hrun]. intros ts. unfold drain. by destruct tasks.
    + by apply IH.
    + apply IH in Hrun. rewrite length_app in Hrun. cbn in *. lia.
    + by apply IH.
    + by apply IH.
    + by apply IH.
Qed.
