(* ===== verification/CompositionSpec.v ===== *)
(** * What the whole server guarantees

    Properties of the composed server ([Server]: [main.rs], [server.rs],
    [connection.rs], [reload.rs] and [dispatch.rs] together), over everything
    that can happen in whatever order: a connection's steps are those of its
    loop; the state of the server stays well formed, with no task that
    panicked; a namespace no configured token may write stays as it is; and
    the shutdown comes to its end. *)
From S2P Require Import Prelude RustStr Externals Resp3 Resp3Reader Resp3Spec Command ParseCommand Response Idempotency Handlers Dispatch Concurrent RateLimiter Connection ServerConfig Background Server Toy ParseSpec DispatchSpec ConcurrentSpec ConnectionSpec AclSpec ServerSpec.
Open Scope Z_scope.

Section Spec.
Context `{StoreErrorText} `{!Acl} {V : Type} `{!StaticTokens V} {Tls : Type}.
Context {S : Type} `{!Store S} {Sub : Type} `{!Subscribes S Sub}.
Context {E : Type} `{!Engine E} {C : Type} `{!Clock C}.
Context {R : Type} `{!AsyncBufRead R} {W : Type} `{!AsyncWrite W}.

Abbreviation server := (Server (V:=V) (S:=S) (Sub:=Sub) (E:=E) (C:=C) (R:=R) (W:=W)).
Abbreviation session := (Session (S:=S) (Sub:=Sub) (E:=E) (C:=C) (R:=R) (W:=W)).
Abbreviation happening := (Happening (Tls:=Tls) (S:=S) (R:=R) (W:=W)).

Implicit Types (p : ConnParams (V:=ReloadableValidator (V:=V))) (wk : Wakeup (R:=R)) (ss : session) (s : server) (ev : happening) (evs : list happening)
  (d : Dispatcher (S:=S) (E:=E) (C:=C)) (c : Conn (S:=S) (E:=E) (C:=C) (R:=R) (W:=W))
  (cmd : Command) (next : Next (Sub:=Sub)).

(** ** The steps of a task are the iterations of its loop *)

Lemma admitted_execute p wk next c cmd c' :
  admitted p wk next c = Some (cmd, c') -> next = Loop /\ conn_step p wk (next, c) = handle_execute cmd c'.
Proof.
  unfold admitted. destruct next; try done. destruct wk; try done.
  destruct (read_frame (reader c)) as [[[f|] r]|] eqn:Hr; try done.
  destruct (parse_command f) as [cmd0|] eqn:Hp; [|done].
  destruct (check_rate (set_reader r c)) as [ok c1] eqn:Hrate.
  intros Hadm. split; [done|]. unfold conn_step. cbn [fst snd command_step]. rewrite Hr.
  unfold handle_frame. rewrite Hp. unfold handle_command. rewrite Hrate. revert Hadm.
  destruct ok; cbn [negb orb]; [|by destruct cmd0].
  destruct cmd0; try done; cbn [handle_checked];
    unfold handle_checked; (case_match; [done|]);
    (destruct (check_expiry c1) as [[|] c2]; [done|]); by intros [= <- <-].
Qed.

Lemma admitted_wf `{!AsyncBufReadLaws R} p wk next c cmd c' :
  admitted p wk next c = Some (cmd, c') -> command_wf cmd.
Proof.
  unfold admitted. destruct next; try done. destruct wk; try done.
  destruct (read_frame (reader c)) as [[[f|] r]|] eqn:Hr; try done.
  destruct (parse_command f) as [cmd0|] eqn:Hp; [|done].
  pose proof (read_parse_wf _ _ _ _ Hr Hp) as Hwf.
  destruct (check_rate (set_reader r c)) as [ok c1]. intros Ha. replace cmd with cmd0; [done|].
  revert Ha. destruct cmd0; try done; (case_match; [done|]);
    (destruct (check_expiry c1) as [[|] c2]; [done|]); by intros [= <- <-].
Qed.

Lemma admitted_auth p wk next c cmd c' :
  admitted p wk next c = Some (cmd, c') -> auth c' = auth c /\ same_effects (dispatcher c) (dispatcher c').
Proof.
  unfold admitted. destruct next; try done. destruct wk; try done.
  destruct (read_frame (reader c)) as [[[f|] r]|]; try done.
  destruct (parse_command f) as [cmd0|]; [|done].
  pose proof (check_rate_same (set_reader r c)) as (Hca & Hce & _).
  destruct (check_rate (set_reader r c)) as [ok c1]. cbn [fst snd set_reader auth dispatcher] in *.
  assert (forall c2, check_expiry (Sub:=Sub) c1 = (None, c2) ->
            auth c2 = auth c1 /\ same_effects (dispatcher c1) (dispatcher c2)) as Hexp.
  { unfold check_expiry. destruct (auth c1) as [ctx|] eqn:Ha; [|intros c2 [= <-]; done].
    destruct (system_secs _) as [[now|] ck]; [|done]. case_match; [|intros c2 [= <-]; done].
    by destruct (reply_error _ _). }
  intros Ha. assert (exists c2, check_expiry (Sub:=Sub) c1 = (None, c2) /\ c' = c2) as (c2 & Hc2 & ->).
  { revert Ha. destruct cmd0; try done; (case_match; [done|]);
      (destruct (check_expiry c1) as [[|] c2]; [done|]); intros [= <- <-]; eauto. }
  destruct (Hexp c2 Hc2) as [-> He]. split; [done|]. by transitivity (dispatcher c1).
Qed.

(** The task alone: the wake-up that starts the iteration, then as many steps
    as the call takes (what wakes it up in between does not matter). *)
Fixpoint session_iter p (n : nat) wk d ss : session * Dispatcher :=
  match n with
  | O => (ss, d)
  | Datatypes.S n => let '(ss, d) := session_step p false wk d ss in session_iter p n wk d ss
  end.

Lemma session_iter_flight p wk n : forall m t d c next t' d',
  flight_iter (auth c) n (t, d) = (t', d') ->
  exists k, (k <= n)%nat /\ forall c0, set_dispatcher d c0 = set_dispatcher d c ->
  exists c1, set_dispatcher d' c1 = set_dispatcher d' c /\
    session_iter p (k + m) wk d {| ss_conn := c0; ss_next := next; ss_flight := Some t |}
    = session_iter p m wk d' {| ss_conn := c1; ss_next := next; ss_flight := Some t' |}.
Proof.
  induction n as [|n IH]; intros m t d c next t' d'; cbn [flight_iter fst snd].
  - intros [= <- <-]. exists 0%nat. split; [done|]. intros c0 Hc0. by exists c0.
  - destruct (finished t) eqn:Hf.
    + intros Hit. assert (t' = t /\ d' = d) as [-> ->].
      { assert (forall k, flight_iter (auth c) k (t, d) = (t, d)) as Hst.
        { intros k. induction k as [|k IHk]; [done|]. cbn [flight_iter fst snd].
          replace (flight_step (auth c) t d) with (t, d); [done|].
          by destruct t as [| |r [|]|]. }
        assert (flight_step (auth c) t d = (t, d)) as Hs by (by destruct t as [| |r [|]|]).
        rewrite Hs, Hst in Hit. by injection Hit. }
      exists 0%nat. split; [lia|]. intros c0 Hc0. by exists c0.
    + intros Hit. destruct (flight_step (auth c) t d) as [t1 d1] eqn:Hst.
      destruct (IH m t1 d1 c next t' d' Hit) as (k & Hk & Hrest).
      exists (Datatypes.S k). split; [lia|]. intros c0 Hc0.
      assert (session_step p false wk d {| ss_conn := c0; ss_next := next; ss_flight := Some t |}
              = ({| ss_conn := set_dispatcher d c; ss_next := next; ss_flight := Some t1 |}, d1)) as Hss.
      { unfold session_step. cbn [ss_conn ss_flight ss_next]. rewrite Hc0.
        cbn [auth set_dispatcher]. rewrite Hst. by destruct t as [| |r [|]|]. }
      change (Datatypes.S k + m)%nat with (Datatypes.S (k + m)). cbn [session_iter]. rewrite Hss.
      by apply Hrest.
Qed.


(** ** The state of the server is well formed *)

(** A task that is in a call is in the command loop, with commands that came
    off the wire; it has not panicked. *)
Definition session_wf ss : Prop :=
  ss_next ss <> Panicked
  /\ match ss_flight ss with
     | Some t => all_commands command_wf t /\ ss_next ss = Loop
     | None => True
     end.

Context `{!AsyncBufReadLaws R}.

Lemma handle_execute_panics cmd c :
  command_wf cmd -> (handle_execute (Sub:=Sub) cmd c).1 <> Panicked.
Proof.
  intros Hwf. unfold handle_execute. pose proof (execute_answers (auth c) cmd (dispatcher c) Hwf) as Ha.
  destruct (execute (auth c) cmd (dispatcher c)) as [[r|] d]; [|done].
  by destruct (reply_flushed _ _) as [[]].
Qed.

Lemma reply_panics f c : (reply (Sub:=Sub) f c).1 <> Panicked.
Proof. by destruct (reply_next (Sub:=Sub) f c) as [-> | ->]. Qed.

Lemma handle_frame_panics p f c :
  (forall cmd, parse_command f = Ok cmd -> command_wf cmd) ->
  (handle_frame (Sub:=Sub) p f c).1 <> Panicked.
Proof.
  intros Hwf. unfold handle_frame. destruct (parse_command f) as [cmd|]; [|apply reply_panics].
  specialize (Hwf _ eq_refl). unfold handle_command.
  destruct (check_rate c) as [[] c1]; cbn [negb]; [|apply reply_panics].
  assert ((handle_checked (Sub:=Sub) p cmd c1).1 <> Panicked) as Hc.
  { unfold handle_checked. destruct (_ && negb _); [apply reply_panics|].
    unfold check_expiry. assert (forall c2, (match cmd with
      | Subscribe ns key events => handle_subscribe (Sub:=Sub) p cmd ns key events c2
      | _ => handle_execute cmd c2 end).1 <> Panicked) as Hgo.
    { intros c2. destruct cmd; try (by apply handle_execute_panics).
      unfold handle_subscribe. destruct (subscribe_refusal _ _ _); [apply reply_panics|].
      destruct (st_subscribe _ _ _) as [[sub|e] st]; [|apply reply_panics].
      match goal with |- context[reply ?f ?x] => pose proof (reply_panics f x) as Hr;
        destruct (reply f x) as [n c3] end. by destruct n. }
    destruct (auth c1) as [ctx|]; [|apply Hgo].
    destruct (system_secs _) as [[now|] ck]; [|done].
    destruct (auth_is_expired ctx now); [|apply Hgo].
    match goal with |- context[reply_error ?e ?x] =>
      pose proof (reply_panics (response_to_frame (Error e)) x) as Hr; unfold reply_error;
      by destruct (reply (Sub:=Sub) _ x) end. }
  destruct cmd; try exact Hc. unfold handle_auth. destruct (validate _ _); apply reply_panics.
Qed.

Lemma conn_step_panics p wk next c : next <> Panicked -> (conn_step p wk (next, c)).1 <> Panicked.
Proof.
  intros Hn. unfold conn_step. destruct next as [|sub| |]; cbn [fst snd]; try done.
  - destruct wk as [[] r| |ev r]; cbn [command_step fst]; try done.
    destruct (read_frame (reader c)) as [[[f|] r]|] eqn:Hr; try done.
    apply handle_frame_panics. intros cmd. by apply (read_parse_wf _ _ _ _ Hr).
  - destruct (subscription_step sub wk c) as [n c'] eqn:Hs.
    apply subscription_step_next in Hs as [[-> _]|[-> | ->]]; done.
Qed.

Lemma session_step_wf p sh wk d ss : session_wf ss -> session_wf (session_step p sh wk d ss).1.
Proof.
  intros [Hn Hfl]. unfold session_step. set (c := set_dispatcher d (ss_conn ss)).
  destruct (ss_flight ss) as [t|] eqn:Hf.
  - destruct Hfl as [Hwf Hloop]. pose proof (flight_step_wf (auth c) t d Hwf) as Hwf'.
    destruct t as [cmd stack|pd stack|r [|pd stack]|]; try done.
    1,2: by destruct (flight_step (auth c) _ d) as [t' d'].
    by destruct (reply_flushed (response_to_frame r) c) as [[] c'].
  - match goal with |- context[admitted p ?w _ _] => generalize w end. intros wk'.
    destruct (admitted p wk' (ss_next ss) c) as [[cmd c']|] eqn:Hadm.
    + split; [done|]. cbn. split; [|by apply (admitted_execute _ _ _ _ _ _ Hadm)].
      split; [|done]. by apply (admitted_wf _ _ _ _ _ _ Hadm).
    + pose proof (conn_step_panics p wk' (ss_next ss) c Hn) as Hp.
      destruct (conn_step p wk' (ss_next ss, c)) as [next c']. by split.
Qed.

(** The tasks the accept loop has in its set. *)
Definition tasks_of (l : ServerState) : list Z :=
  match l with Accepting ts | Draining ts => map task_id ts | Stopped _ => [] end.

Record server_wf s : Prop := {
  wf_session id ss : srv_sessions s !! id = Some ss -> session_wf ss;
  wf_running id ss :
    srv_sessions s !! id = Some ss -> ended ss = false -> id ∈ tasks_of (srv_loop s);
  wf_known id : id ∈ tasks_of (srv_loop s) -> is_Some (srv_sessions s !! id);
  wf_distinct : NoDup (tasks_of (srv_loop s));
  wf_shutdown : srv_shutdown s = match srv_loop s with Accepting _ => false | _ => true end;
  wf_draining : srv_loop s <> Draining [];
}.

Lemma ended_stays p sh wk d ss : ended ss = true -> ended (session_step p sh wk d ss).1 = true.
Proof.
  unfold ended, session_step. destruct (ss_flight ss); [done|].
  destruct (ss_next ss) eqn:Hn; try done; intros _; by destruct sh.
Qed.

Lemma tasks_of_drain ts : tasks_of (drain ts) = map task_id ts.
Proof. by destruct ts. Qed.

Lemma elem_of_without id id' ts :
  id' ∈ map task_id (without id ts) <-> id' <> id /\ id' ∈ map task_id ts.
Proof.
  unfold without. rewrite !list_elem_of_fmap. split.
  - intros (t & -> & Ht). apply list_elem_of_In, filter_In in Ht as [Hin Hne].
    apply negb_true_iff, Z.eqb_neq in Hne. split; [done|]. exists t. by rewrite list_elem_of_In.
  - intros [Hne (t & -> & Ht)]. exists t. split; [done|]. apply list_elem_of_In, filter_In.
    rewrite <- list_elem_of_In. split; [done|]. by apply negb_true_iff, Z.eqb_neq.
Qed.

Lemma NoDup_without id ts : NoDup (map task_id ts) -> NoDup (map task_id (without id ts)).
Proof.
  induction ts as [|t ts IH]; [done|]. cbn. intros [Hn Hd]%NoDup_cons.
  destruct (negb (task_id t =? id)%Z); [|by apply IH]. cbn. apply NoDup_cons. split; [|by apply IH].
  intros Hin. change (List.filter _ ts) with (without id ts) in Hin.
  by apply elem_of_without in Hin as [_ Hin].
Qed.

Lemma on_accept_wf id r w s : server_wf s -> server_wf (on_accept id r w s).
Proof.
  intros Hwf. unfold on_accept. destruct (srv_loop s) as [ts| |] eqn:Hl; try done.
  destruct (srv_sessions s !! id) as [|] eqn:Hid; [done|]. destruct Hwf as [Hs Hr Hk Hd Hsh Hdr].
  rewrite Hl in *.
  set (c := accept (params_of s) r w (srv_dispatcher s)).
  assert (id ∉ map task_id ts) as Hnew.
  { intros Hin. destruct (Hk id Hin) as [? ?]. congruence. }
  split; cbn [srv_sessions srv_loop srv_shutdown set_srv_dispatcher set_srv_loop set_srv_sessions
              server_step tasks_of]; rewrite ?map_app; cbn [map task_id] in *.
  - intros id' ss [[<- <-]|[Hne Hss]]%lookup_insert_Some; [|by eapply Hs]. by split.
  - intros id' ss [[<- <-]|[Hne Hss]]%lookup_insert_Some He; apply elem_of_app;
      [right; by apply list_elem_of_singleton|left; by eapply Hr].
  - intros id' [Hin|Hin%list_elem_of_singleton]%elem_of_app.
    + rewrite lookup_insert_is_Some. destruct (decide (id = id')); [by left|right; auto].
    + subst. rewrite lookup_insert_eq. eauto.
  - apply NoDup_app. split_and!; [done| |apply NoDup_singleton].
    intros x Hx Hx'%list_elem_of_singleton. by subst.
  - done.
  - done.
Qed.

Lemma on_wake_wf id wk s : server_wf s -> server_wf (on_wake id wk s).
Proof.
  intros Hwf0. unfold on_wake. destruct (srv_sessions s !! id) as [ss|] eqn:Hid; [|done].
  destruct Hwf0 as [Hs Hr Hk Hd Hsh Hdr].
  pose proof (session_step_wf (params_of s) (srv_shutdown s) wk (srv_dispatcher s) ss (Hs _ _ Hid)) as Hwf.
  pose proof (ended_stays (params_of s) (srv_shutdown s) wk (srv_dispatcher s) ss) as He.
  destruct (session_step _ _ _ _ ss) as [ss' d']. cbn [fst] in *.
  split; cbn [srv_sessions srv_loop srv_shutdown set_srv_dispatcher set_srv_sessions]; try done.
  - intros id' ss1 [[<- <-]|[Hne Hss]]%lookup_insert_Some; [done|by eapply Hs].
  - intros id' ss1 [[<- <-]|[Hne Hss]]%lookup_insert_Some Hend; [|by eapply Hr].
    apply (Hr _ _ Hid). destruct (ended ss); [|done]. by rewrite He in Hend.
  - intros id' Hin. rewrite lookup_insert_is_Some. destruct (decide (id = id')); [by left|right; auto].
Qed.

Lemma signal_shutdown_wf s : server_wf s -> server_wf (signal_shutdown s).
Proof.
  intros [Hs Hr Hk Hd Hsh Hdr].
  assert (tasks_of (server_step (SrvShutdown true) (srv_loop s)) = tasks_of (srv_loop s)) as Ht.
  { destruct (srv_loop s); try done. apply tasks_of_drain. }
  split; cbn [srv_sessions srv_loop srv_shutdown signal_shutdown]; rewrite ?Ht; try done.
  - destruct (srv_loop s) as [[]| |]; done.
  - destruct (srv_loop s) as [[]| |]; done.
Qed.

Lemma on_join_wf id s : server_wf s -> server_wf (on_join id s).
Proof.
  intros Hwf. unfold on_join. destruct (srv_sessions s !! id) as [ss|] eqn:Hid; [|done].
  destruct (ended ss) eqn:He; [|done]. destruct Hwf as [Hs Hr Hk Hd Hsh Hdr].
  destruct (srv_loop s) as [ts|ts|] eqn:Hl; cbn [server_step];
    try (split; cbn [srv_sessions srv_loop srv_shutdown set_srv_loop]; try done; by rewrite Hsh).
  split; cbn [srv_sessions srv_loop srv_shutdown set_srv_loop]; rewrite ?tasks_of_drain.
  - done.
  - intros id' ss' Hss Hend. apply elem_of_without. split; [|by eapply Hr].
    intros ->. congruence.
  - intros id' [_ Hin]%elem_of_without. by apply Hk.
  - by apply NoDup_without.
  - rewrite Hsh. by destruct (without id ts).
  - by destruct (without id ts).
Qed.

Lemma on_deadline_wf s : server_wf s -> server_wf (on_deadline s).
Proof.
  intros Hwf. unfold on_deadline. destruct (srv_loop s) as [ts|ts|ab] eqn:Hl; [done| |done].
  split; cbn; try done; try (intros id ss; by rewrite lookup_empty).
  - by intros id Hin%elem_of_nil.
  - apply NoDup_nil_2.
  - by rewrite (wf_shutdown _ Hwf), Hl.
Qed.

Lemma happen_wf ev s : server_wf s -> server_wf (happen ev s).
Proof.
  intros Hwf. destruct ev; cbn [happen].
  - by apply on_accept_wf.
  - by apply on_wake_wf.
  - destruct (srv_shutdown s); [done|]. by destruct Hwf.
  - destruct (srv_shutdown s); [done|]. by destruct Hwf.
  - by destruct Hwf.
  - by apply signal_shutdown_wf.
  - by apply on_join_wf.
  - by apply on_deadline_wf.
Qed.

Lemma server_start_wf (config : ShrouDBConfig Tls) mtime d : server_wf (server_start config mtime d).
Proof.
  split; cbn; try done; try (intros id ss; by rewrite lookup_empty).
  - by intros id Hin%elem_of_nil.
  - apply NoDup_nil_2.
Qed.

Lemma happen_all_wf evs : forall s, server_wf s -> server_wf (happen_all evs s).
Proof. induction evs as [|ev evs IH]; intros s Hs; [done|]. apply IH. by apply happen_wf. Qed.


(** ** A namespace no token may write *)
Context {View : Type} (view : S -> string -> View) `{!NamespacedStore S view}.
(** Subscribing changes nothing a namespace holds. *)
Context (subscribe_pure : forall ns flt, pure_op view (st_subscribe (Sub:=Sub) ns flt)).

(** The caller can change neither the namespace nor the engine. *)
Definition powerless (ns : string) (auth : option AuthContext) : Prop :=
  ~ granted auth AclAdmin /\ ~ granted auth (AclNamespace ns ScopeWrite None).

Lemma powerless_none ns : powerless ns None.
Proof. split; intros (ctx & [=] & _). Qed.

(** Every token the validator accepts is powerless. *)
Definition guarded ns p : Prop := forall token ctx,
  validate (token_validator p) token = Ok ctx -> powerless ns (Some ctx).

Abbreviation intact := (intact view).

Lemma flight_step_intact ns auth t d :
  powerless ns auth -> intact ns d (flight_step auth t d).2.
Proof.
  intros [Hadmin Hwrite]. destruct t as [cmd stack|pd stack|r [|pd stack]|]; try done.
  - destruct (pipeline_or_single cmd) as [(cs & rid & ->)|Hc].
    + cbn [flight_step]. pose proof (lookup_request_effects rid d) as He.
      destruct (lookup_request rid d) as [[f|] d1]; by apply same_effects_intact.
    + rewrite flight_step_single by done.
      pose proof (execute_single_intact view auth cmd d ns Hadmin Hwrite) as Hi.
      by destruct (execute_single cmd auth d).
  - cbn [flight_step]. destruct (pd_rest pd); [|done]. apply same_effects_intact, remember_request_effects.
Qed.

(** A step of a connection that keeps its caller powerless and the namespace
    as it is. *)
Definition keeps_out ns c
    (o : Next (Sub:=Sub) * Conn (S:=S) (E:=E) (C:=C) (R:=R) (W:=W)) : Prop :=
  powerless ns (auth o.2) /\ intact ns (dispatcher c) (dispatcher o.2).

Lemma reply_keeps_out ns f c c' :
  powerless ns (auth c') -> intact ns (dispatcher c) (dispatcher c') -> keeps_out ns c (reply f c').
Proof. intros Hp Hi. split; [by rewrite reply_auth|by rewrite reply_dispatcher]. Qed.

Lemma handle_execute_keeps_out ns cmd c c' :
  powerless ns (auth c') -> intact ns (dispatcher c) (dispatcher c') ->
  keeps_out ns c (handle_execute cmd c').
Proof.
  intros Hp Hi. unfold handle_execute.
  pose proof (execute_intact view (auth c') cmd (dispatcher c') ns (proj1 Hp) (proj2 Hp)) as He.
  destruct (execute (auth c') cmd (dispatcher c')) as [[r|] d']; cbn [snd] in He.
  - pose proof (reply_flushed_same (response_to_frame r) (set_dispatcher d' c')) as (Hd & Ha & _).
    destruct (reply_flushed _ _) as [ok c2]. split; cbn [snd] in *.
    + by rewrite Ha.
    + rewrite Hd. cbn. by transitivity (dispatcher c').
  - split; [done|]. cbn. by transitivity (dispatcher c').
Qed.

Lemma handle_subscribe_keeps_out ns p cmd ns' key events c c' :
  powerless ns (auth c') -> intact ns (dispatcher c) (dispatcher c') ->
  keeps_out ns c (handle_subscribe p cmd ns' key events c').
Proof.
  intros Hp Hi. unfold handle_subscribe. destruct (subscribe_refusal _ _ _); [by apply reply_keeps_out|].
  match goal with |- context[st_subscribe ?a ?b ?s] => pose proof (subscribe_pure a b s ns) as Hs;
    destruct (st_subscribe a b s) as [r st] end. cbn [snd] in Hs.
  assert (intact ns (dispatcher c) (dispatcher (set_dispatcher (set_store st (dispatcher c')) c'))) as Hi'.
  { transitivity (dispatcher c'); [done|]. split; [done|done]. }
  destruct r as [sub|e]; [|by apply reply_keeps_out].
  match goal with |- context[reply ?f ?x] =>
    pose proof (reply_keeps_out ns f c x Hp Hi') as Hr; destruct (reply f x) as [n c2] end.
  by destruct n.
Qed.

Lemma handle_checked_keeps_out ns p cmd c c' :
  powerless ns (auth c') -> intact ns (dispatcher c) (dispatcher c') ->
  keeps_out ns c (handle_checked p cmd c').
Proof.
  intros Hp Hi. unfold handle_checked. destruct (_ && negb _); [by apply reply_keeps_out|].
  assert (forall c2, powerless ns (auth c2) -> intact ns (dispatcher c) (dispatcher c2) ->
    keeps_out ns c (match cmd with
      | Subscribe ns' key events => handle_subscribe p cmd ns' key events c2
      | _ => handle_execute cmd c2 end)) as Hgo.
  { intros c2 Hp2 Hi2. destruct cmd; try (by apply handle_execute_keeps_out).
    by apply handle_subscribe_keeps_out. }
  unfold check_expiry. destruct (auth c') as [ctx|] eqn:Ha; [|apply Hgo; [by rewrite Ha|done]].
  destruct (system_secs _) as [[now|] ck].
  - destruct (auth_is_expired ctx now); [|by apply Hgo; [cbn; rewrite Ha|]].
    unfold reply_error.
    match goal with |- context[reply ?f ?x] =>
      assert (keeps_out ns c (reply (Sub:=Sub) f x)) as Hr
        by (apply reply_keeps_out; [apply powerless_none|done]); by destruct (reply f x) end.
  - match goal with |- context[reply_ignoring ?f ?x] =>
      pose proof (reply_ignoring_same f x) as (Hd & Hau & _) end.
    split; cbn [snd]; [rewrite Hau; cbn; by rewrite Ha|by rewrite Hd].
Qed.

Lemma handle_frame_keeps_out ns p f c c' :
  guarded ns p -> powerless ns (auth c') -> intact ns (dispatcher c) (dispatcher c') ->
  keeps_out ns c (handle_frame p f c').
Proof.
  intros Hg Hp Hi. unfold handle_frame. destruct (parse_command f) as [cmd|]; [|by apply reply_keeps_out].
  unfold handle_command. pose proof (check_rate_same c') as (Hca & Hce & _).
  destruct (check_rate c') as [ok c1]. cbn [snd] in *. rewrite <- Hca in Hp.
  assert (intact ns (dispatcher c) (dispatcher c1)) as Hi1.
  { transitivity (dispatcher c'); [done|]. by apply same_effects_intact. }
  destruct ok; cbn [negb]; [|by apply reply_keeps_out].
  destruct cmd; try (by apply handle_checked_keeps_out). unfold handle_auth.
  destruct (validate (token_validator p) token) as [ctx|e] eqn:Hv; [|by apply reply_keeps_out].
  apply reply_keeps_out; [by apply (Hg token)|done].
Qed.

Lemma conn_step_keeps_out ns p wk next c :
  guarded ns p -> powerless ns (auth c) -> keeps_out ns c (conn_step p wk (next, c)).
Proof.
  intros Hg Hp. unfold conn_step. cbn [fst snd].
  destruct next as [|sub| |]; [|pose proof (subscription_step_session sub wk c) as (Hd & Ha & _);
    split; [by rewrite Ha|by rewrite Hd]|by split|by split].
  destruct wk as [[] r| |ev r]; cbn [command_step]; try (by split).
  destruct (read_frame (reader c)) as [[[f|] r]|e]; [by apply handle_frame_keeps_out|by split|].
  match goal with |- context[reply_ignoring ?f ?x] =>
    pose proof (reply_ignoring_same f x) as (Hd & Hau & _) end.
  split; cbn [snd]; [by rewrite Hau|by rewrite Hd].
Qed.

Lemma session_step_keeps_out ns p sh wk d ss :
  guarded ns p -> powerless ns (auth (ss_conn ss)) ->
  powerless ns (auth (ss_conn (session_step p sh wk d ss).1))
  /\ intact ns d (session_step p sh wk d ss).2.
Proof.
  intros Hg Hp. unfold session_step. set (c := set_dispatcher d (ss_conn ss)).
  assert (powerless ns (auth c)) as Hpc by done.
  destruct (ss_flight ss) as [t|].
  - assert (powerless ns (auth c) /\ intact ns d (flight_step (auth c) t d).2) as Hstep
      by (split; [done|by apply flight_step_intact]).
    destruct t as [cmd stack|pd stack|r [|pd stack]|]; try done;
      try (by destruct (flight_step (auth c) _ d)).
    pose proof (reply_flushed_same (response_to_frame r) c) as (_ & Ha & _).
    destruct (reply_flushed _ c) as [ok c2]. cbn [fst snd ss_conn] in *. by rewrite Ha.
  - match goal with |- context[admitted p ?w _ _] => generalize w end. intros wk'.
    destruct (admitted p wk' (ss_next ss) c) as [[cmd c']|] eqn:Hadm.
    + apply admitted_auth in Hadm as [Ha He]. cbn. rewrite Ha. split; [done|].
      by apply same_effects_intact.
    + destruct (conn_step_keeps_out ns p wk' (ss_next ss) c Hg Hpc) as [Ha Hi].
      by destruct (conn_step p wk' (ss_next ss, c)).
Qed.

(** No token of the configuration may write [ns], or administer the server. *)
Definition harmless ns (config : ShrouDBConfig Tls) : Prop := forall raw tc,
  configured config !! raw = Some tc -> powerless ns (Some (into_context (token_of tc))).

(** Neither a configuration the server is given nor the storage engine's own
    work touches [ns]. *)
Definition harmless_event ns ev : Prop :=
  match ev with
  | EvReload _ (Ok config) => harmless ns config
  | EvStorage f => forall st, view (f st) ns = view st ns
  | _ => True
  end.

Record sealed ns s : Prop := {
  sealed_auth : srv_auth_required s = true;
  sealed_validator token ctx :
    validate (rl_validator (srv_reloader s)) token = Ok ctx -> powerless ns (Some ctx);
  sealed_session id ss : srv_sessions s !! id = Some ss -> powerless ns (auth (ss_conn ss));
}.

Context `{!StaticTokensLaws V}.

Lemma harmless_validator ns (config : ShrouDBConfig Tls) r token ctx :
  harmless ns config -> rv_inner r = build_token_validator (V:=V) config ->
  validate r token = Ok ctx -> powerless ns (Some ctx).
Proof.
  intros Hh Hr. unfold validate, reloadable_validator, rv_validate. rewrite Hr.
  pose proof (build_token_validator_spec (V:=V) config token) as Hspec.
  destruct (configured config !! token) as [tc|] eqn:Htc.
  - rewrite Hspec. intros [= <-]. by apply (Hh token).
  - by destruct (sv_validate _ token).
Qed.

Lemma accept_auth p (r : R) (w : W) d :
  auth_required p = true ->
  auth (accept p r w d) = None /\ same_effects d (dispatcher (accept p r w d)).
Proof.
  intros Hreq. unfold accept. rewrite Hreq. destruct (rate_limit p); [|done].
  pose proof (read_instant_effects d) as He. by destruct (read_instant d).
Qed.

Lemma happen_sealed ns ev s :
  harmless_event ns ev -> sealed ns s ->
  sealed ns (happen ev s) /\ intact ns (srv_dispatcher s) (srv_dispatcher (happen ev s)).
Proof.
  intros Hev Hs. destruct ev as [id r w|id wk|mtime loaded|now|f| |id|]; cbn [happen].
  - unfold on_accept. destruct (srv_loop s); try (by split). destruct (srv_sessions s !! id); [by split|].
    destruct Hs as [Ha Hv Hss].
    destruct (accept_auth (params_of s) r w (srv_dispatcher s)) as [Hau He]; [done|].
    split; [split; cbn; try done|by apply same_effects_intact].
    intros id' ss [[<- <-]|[Hne Hl]]%lookup_insert_Some; [|by eapply Hss].
    cbn. rewrite Hau. apply powerless_none.
  - unfold on_wake. destruct (srv_sessions s !! id) as [ss|] eqn:Hid; [|by split].
    destruct Hs as [Ha Hv Hss].
    destruct (session_step_keeps_out ns (params_of s) (srv_shutdown s) wk (srv_dispatcher s) ss)
      as [Hp Hi]; [exact Hv|by eapply Hss|].
    destruct (session_step _ _ _ _ ss) as [ss' d']. cbn [fst snd] in *.
    split; [|done]. split; cbn; try done.
    intros id' ss1 [[<- <-]|[Hne Hl]]%lookup_insert_Some; [done|by eapply Hss].
  - destruct (srv_shutdown s); [by split|]. destruct Hs as [Ha Hv Hss]. split; [|done].
    split; [done| |done]. intros token ctx. cbn. unfold reload_tick. case_decide; [apply Hv|].
    destruct loaded as [config|]; [|apply Hv]. by apply (harmless_validator ns config).
  - destruct (srv_shutdown s); [by split|]. split; [by destruct Hs|done].
  - split; [by destruct Hs|]. split; [apply Hev|done].
  - split; [by destruct Hs|done].
  - unfold on_join. destruct (srv_sessions s !! id) as [ss|]; [|by split].
    destruct (ended ss); [|by split]. split; [by destruct Hs|done].
  - unfold on_deadline. destruct (srv_loop s); try (by split). split; [|done].
    by destruct Hs as [Ha Hv Hss].
Qed.


(** ** The shutdown comes to its end *)

(** The steps a task has left once the shutdown is signalled: those of its
    call, its reply, and the one in which it sees the signal. *)
Definition budget ss : nat :=
  match ss_flight ss with Some t => (work t + 2)%nat | None => 1%nat end.

Definition is_wake (id : Z) ev : bool :=
  match ev with EvWake id' _ => (id' =? id)%Z | _ => false end.

Definition wakes (id : Z) evs : nat := length (List.filter (is_wake id) evs).

Lemma session_step_budget p wk d ss :
  ended ss = false -> ss_next ss <> Panicked ->
  ended (session_step p true wk d ss).1 = true
  \/ (budget (session_step p true wk d ss).1 < budget ss)%nat.
Proof.
  intros He Hn. unfold session_step, budget. set (c := set_dispatcher d (ss_conn ss)).
  destruct (ss_flight ss) as [t|] eqn:Hf.
  - destruct (finished t) eqn:Hfin.
    + destruct t as [| |r [|pd stack]|]; try done; [|by left].
      right. destruct (reply_flushed _ c) as [ok c2]. cbn. lia.
    + right. pose proof (flight_step_work (auth c) t d Hfin) as Hw.
      destruct t as [cmd stack|pd stack|r [|pd stack]|]; try done;
        destruct (flight_step (auth c) _ d) as [t' d']; cbn [fst ss_flight] in *; lia.
  - left. unfold admitted, conn_step, ended in *. rewrite Hf in He.
    by destruct (ss_next ss).
Qed.

(** What an event leaves of a task after the signal. *)
Lemma happen_session ev s id ss' :
  server_wf s -> srv_shutdown s = true ->
  srv_sessions (happen ev s) !! id = Some ss' -> ended ss' = false ->
  exists ss, srv_sessions s !! id = Some ss /\ ended ss = false
    /\ (budget ss' + (if is_wake id ev then 1 else 0) <= budget ss)%nat.
Proof.
  intros Hwf Hsh Hss He.
  assert (srv_sessions s !! id = Some ss' -> is_wake id ev = false ->
    exists ss, srv_sessions s !! id = Some ss /\ ended ss = false
      /\ (budget ss' + (if is_wake id ev then 1 else 0) <= budget ss)%nat) as Hsame.
  { intros Hs ->. exists ss'. split_and!; [done|done|lia]. }
  destruct ev as [id' r w|id' wk|mtime loaded|now|f| |id'|]; cbn [happen] in Hss.
  - apply Hsame; [|done]. unfold on_accept in Hss. pose proof (wf_shutdown _ Hwf) as Hx.
    rewrite Hsh in Hx. by destruct (srv_loop s).
  - unfold on_wake in Hss. destruct (srv_sessions s !! id') as [ss|] eqn:Hid; [|apply Hsame; [done|]].
    2:{ cbn. apply Z.eqb_neq. intros ->. congruence. }
    rewrite Hsh in Hss. destruct (session_step _ true wk _ ss) as [ss1 d1] eqn:Hst.
    cbn [srv_sessions set_srv_dispatcher set_srv_sessions] in Hss.
    apply lookup_insert_Some in Hss as [[-> <-]|[Hne Hss]].
    + exists ss. split; [done|].
      pose proof (ended_stays (params_of s) true wk (srv_dispatcher s) ss) as Hstay.
      pose proof (session_step_budget (params_of s) wk (srv_dispatcher s) ss) as Hb.
      rewrite Hst in Hstay, Hb. cbn [fst] in *.
      destruct (ended ss); [by rewrite Hstay in He|]. split; [done|]. cbn. rewrite Z.eqb_refl.
      destruct Hb as [Hb|Hb]; [done|apply (wf_session _ Hwf _ _ Hid)|congruence|lia].
    + apply Hsame; [done|]. by apply Z.eqb_neq.
  - apply Hsame; [|done]. by destruct (srv_shutdown s).
  - apply Hsame; [|done]. by destruct (srv_shutdown s).
  - by apply Hsame.
  - by apply Hsame.
  - apply Hsame; [|done]. unfold on_join in Hss.
    destruct (srv_sessions s !! id') as [ss|]; [|done]. by destruct (ended ss).
  - apply Hsame; [|done]. unfold on_deadline in Hss. destruct (srv_loop s); try done.
Qed.

Lemma happen_shutdown ev s : srv_shutdown s = true -> srv_shutdown (happen ev s) = true.
Proof.
  intros Hsh. destruct ev; cbn [happen]; unfold on_accept, on_wake, on_join, on_deadline;
    rewrite ?Hsh; repeat case_match; done.
Qed.

Lemma happen_all_session evs : forall s id ss',
  server_wf s -> srv_shutdown s = true ->
  srv_sessions (happen_all evs s) !! id = Some ss' -> ended ss' = false ->
  exists ss, srv_sessions s !! id = Some ss /\ ended ss = false
    /\ (budget ss' + wakes id evs <= budget ss)%nat.
Proof.
  induction evs as [|ev evs IH]; intros s id ss' Hwf Hsh Hss He.
  - exists ss'. split_and!; [done|done|]. cbn. lia.
  - destruct (IH (happen ev s) id ss') as (ss1 & Hss1 & He1 & Hb1);
      [by apply happen_wf|by apply happen_shutdown|done|done|].
    destruct (happen_session ev s id ss1 Hwf Hsh Hss1 He1) as (ss & Hs & He2 & Hb).
    exists ss. split_and!; [done|done|]. unfold wakes in *. cbn [List.filter].
    destruct (is_wake id ev); cbn in *; lia.
Qed.

Lemma budget_pos ss : (1 <= budget ss)%nat.
Proof. unfold budget. destruct (ss_flight ss); lia. Qed.

(** Once every task has been given its steps, all of them are over. *)
Lemma all_ended evs s :
  server_wf s -> srv_shutdown s = true ->
  (forall id ss, srv_sessions s !! id = Some ss -> (budget ss <= wakes id evs)%nat) ->
  forall id ss, srv_sessions (happen_all evs s) !! id = Some ss -> ended ss = true.
Proof.
  intros Hwf Hsh Hb id ss' Hss. destruct (ended ss') eqn:He; [done|].
  destruct (happen_all_session evs s id ss' Hwf Hsh Hss He) as (ss & Hs & _ & Hle).
  specialize (Hb id ss Hs). pose proof (budget_pos ss'). lia.
Qed.

Lemma on_join_tasks id s ss : srv_sessions s !! id = Some ss -> ended ss = true ->
  forall id', id' ∈ tasks_of (srv_loop (on_join id s)) -> id' ∈ tasks_of (srv_loop s)
    /\ (srv_shutdown s = true -> server_wf s -> id' <> id).
Proof.
  intros Hs He id'. unfold on_join. rewrite Hs, He. cbn [srv_loop set_srv_loop].
  destruct (srv_loop s) as [ts|ts|ab] eqn:Hl; cbn [server_step].
  - intros Hin. split; [done|]. intros Hsh Hwf. pose proof (wf_shutdown _ Hwf) as Hx.
    rewrite Hsh, Hl in Hx. done.
  - rewrite tasks_of_drain. intros [Hne Hin]%elem_of_without. done.
  - by intros Hin%elem_of_nil.
Qed.

Lemma happen_tasks ev s :
  srv_shutdown s = true -> server_wf s ->
  forall id, id ∈ tasks_of (srv_loop (happen ev s)) -> id ∈ tasks_of (srv_loop s).
Proof.
  intros Hsh Hwf id. pose proof (wf_shutdown _ Hwf) as Hx. rewrite Hsh in Hx.
  destruct ev as [id' r w|id' wk|mtime loaded|now|f| |id'|]; cbn [happen]; rewrite ?Hsh; try done.
  - unfold on_accept. destruct (srv_loop s) eqn:Hl; rewrite ?Hl; done.
  - unfold on_wake. destruct (srv_sessions s !! id'); [|done]. by destruct (session_step _ _ _ _ _).
  - cbn. by destruct (srv_loop s).
  - destruct (srv_sessions s !! id') as [ss|] eqn:Hss; [|unfold on_join; by rewrite Hss].
    destruct (ended ss) eqn:He; [|unfold on_join; by rewrite Hss, He].
    intros Hin. by apply (on_join_tasks id' s ss Hss He).
  - unfold on_deadline. destruct (srv_loop s) eqn:Hl; rewrite ?Hl; try done.
    by intros Hin%elem_of_nil.
Qed.

Lemma happen_all_shutdown evs : forall s,
  srv_shutdown s = true -> srv_shutdown (happen_all evs s) = true.
Proof. induction evs as [|ev evs IH]; intros s Hsh; [done|]. by apply IH, happen_shutdown. Qed.

Lemma happen_all_tasks evs : forall s id,
  srv_shutdown s = true -> server_wf s ->
  id ∈ tasks_of (srv_loop (happen_all evs s)) -> id ∈ tasks_of (srv_loop s).
Proof.
  induction evs as [|ev evs IH]; intros s id Hsh Hwf Hin; [done|].
  apply (happen_tasks ev s Hsh Hwf), IH; [by apply happen_shutdown|by apply happen_wf|done].
Qed.

Lemma drained (joins : list happening) : forall s,
  server_wf s -> srv_shutdown s = true ->
  (forall id ss, srv_sessions s !! id = Some ss -> ended ss = true) ->
  (forall id, id ∈ tasks_of (srv_loop s) -> EvJoin id ∈ joins) ->
  exists aborted, srv_loop (happen_all joins s) = Stopped aborted.
Proof.
  induction joins as [|ev joins IH]; intros s Hwf Hsh Hend Hj.
  - cbn. pose proof (wf_shutdown _ Hwf) as Hx. pose proof (wf_draining _ Hwf) as Hdr.
    rewrite Hsh in Hx. destruct (srv_loop s) as [|[|t ts]|ab]; try done; [|eauto].
    destruct (not_elem_of_nil _ (Hj (task_id t) ltac:(left))).
  - change (happen_all (ev :: joins) s) with (happen_all joins (happen ev s)).
    apply IH; [by apply happen_wf|by apply happen_shutdown| |].
    + intros id ss' Hss. destruct (ended ss') eqn:He; [done|].
      destruct (happen_session ev s id ss' Hwf Hsh Hss He) as (ss & Hs & He' & _).
      by rewrite (Hend id ss Hs) in He'.
    + intros id Hin. pose proof (happen_tasks ev s Hsh Hwf id Hin) as Hin0.
      specialize (Hj id Hin0). apply elem_of_cons in Hj as [<-|Hj]; [|done].
      destruct (wf_known _ Hwf id Hin0) as [ss Hss]. exfalso.
      destruct (on_join_tasks id s ss Hss (Hend id ss Hss) id Hin) as [_ Hne]. by apply Hne.
Qed.

(** Nothing is aborted before the deadline. *)
Lemma nothing_aborted evs : forall s,
  EvDeadline ∉ evs -> (forall ab, srv_loop s = Stopped ab -> ab = []) ->
  forall ab, srv_loop (happen_all evs s) = Stopped ab -> ab = [].
Proof.
  induction evs as [|ev evs IH]; intros s Hd Hs ab; [apply Hs|].
  apply not_elem_of_cons in Hd as [Hne Hd]. apply (IH (happen ev s) Hd). clear IH ab. intros ab.
  destruct ev as [id' r w|id' wk|mtime loaded|now|f| |id'|]; cbn [happen]; try done.
  - unfold on_accept. destruct (srv_loop s) eqn:Hl; try (rewrite Hl; apply Hs).
    destruct (srv_sessions s !! id'); rewrite ?Hl; [apply Hs|done].
  - unfold on_wake. destruct (srv_sessions s !! id'); [|apply Hs].
    destruct (session_step _ _ _ _ _). apply Hs.
  - destruct (srv_shutdown s); apply Hs.
  - destruct (srv_shutdown s); apply Hs.
  - apply Hs.
  - cbn. destruct (srv_loop s) as [[]| |]; cbn; try done; try apply Hs. by intros [= <-].
  - unfold on_join. destruct (srv_sessions s !! id') as [ss|]; [|apply Hs].
    destruct (ended ss); [|apply Hs]. cbn. destruct (srv_loop s) as [|ts|]; cbn; try done; try apply Hs.
    destruct (without id' ts); cbn; try done. by intros [= <-].
Qed.

(** C7. A shutdown always completes: whatever has happened before the signal, once
    every connection has been given the few steps it has left (those of the
    call it is in, its reply, and the one in which it sees the signal), in any
    order and whatever else happens meanwhile, and the ended tasks have been
    joined, the server has stopped; and unless the time for draining ran out
    no connection was cut off. *)
Theorem shutdown_completes (config : ShrouDBConfig Tls) mtime d
    (before after joins : list happening) :
  let s := happen_all (before ++ [EvShutdown]) (server_start config mtime d) in
  (forall id ss, srv_sessions s !! id = Some ss -> (budget ss <= wakes id after)%nat) ->
  (forall id ss, srv_sessions s !! id = Some ss -> EvJoin id ∈ joins) ->
  exists aborted, srv_loop (happen_all (after ++ joins) s) = Stopped aborted
    /\ (EvDeadline ∉ (before ++ after ++ joins)%list -> aborted = []).
Proof.
  intros s Hb Hj.
  assert (server_wf s) as Hwf by apply happen_all_wf, server_start_wf.
  assert (srv_shutdown s = true) as Hsh.
  { unfold s, happen_all. rewrite fold_left_app. done. }
  unfold happen_all at 1. rewrite fold_left_app. fold (happen_all after s).
  fold (happen_all joins (happen_all after s)).
  destruct (drained joins (happen_all after s)) as (ab & Hab).
  - by apply happen_all_wf.
  - by apply happen_all_shutdown.
  - by apply all_ended.
  - intros id Hin%happen_all_tasks; [|done|done].
    destruct (wf_known _ Hwf id Hin) as [ss Hss]. by apply (Hj id ss).
  - exists ab. split; [done|]. intros Hd. rewrite !elem_of_app in Hd.
    eapply (nothing_aborted joins (happen_all after s)); [naive_solver| |exact Hab].
    apply nothing_aborted; [naive_solver|]. unfold s. apply nothing_aborted; [|done].
    rewrite elem_of_app, list_elem_of_singleton. intros [?|[=]]; naive_solver.
Qed.
End Spec.

(** ** Concrete runs *)

Definition client_bytes (requests : list (list string)) : bytes := flat_map (fun ws => encode (words_frame ws)) requests.

(** A client authenticates, tries to write and to drop the namespace; the token
    is replaced meanwhile, and another client comes. *)
Definition attack : list (Happening (Tls:=unit) (S:=toy_store) (R:=bytes) (W:=bytes)) :=
  [EvAccept 1 (client_bytes [["AUTH"; "old"]; ["PUT"; "ns"; "k"; "v"]; ["NAMESPACE"; "DROP"; "ns"; "FORCE"]]) [];
   EvWake 1 FrameReady; EvWake 1 FrameReady; EvWake 1 FrameReady;
   EvReload (Some 2) (Ok (one_token "new"));
   EvAccept 2 (client_bytes [["AUTH"; "old"]; ["DELETE"; "ns"; "k"]]) [];
   EvWake 2 FrameReady; EvWake 1 FrameReady; EvWake 2 FrameReady; EvWake 1 FrameReady;
   EvWake 1 FrameReady; EvShutdown; EvWake 2 FrameReady].

Definition toy_server : Server (V:=gmap string Token) (S:=toy_store) (Sub:=string) (E:=ToyEngine)
    (C:=Z) (R:=bytes) (W:=bytes) :=
  server_start (one_token "old") (Some 1) toy_dispatcher.

Lemma one_token_harmless raw : harmless "ns" (one_token raw).
Proof.
  intros raw' tc Hl. unfold configured in Hl. cbn in Hl.
  apply lookup_singleton_Some in Hl as [_ <-].
  split; intros (ctx & [= <-] & Hc); discriminate.
Qed.

Lemma toy_subscribe_pure ns flt : pure_op toy_view (st_subscribe (Sub:=string) ns flt).
Proof. intros st ns'. unfold st_subscribe, toy_subscribes. by destruct (st !! ns). Qed.

Lemma attack_harmless : Forall (harmless_event toy_view "ns") attack.
Proof.
  unfold attack. repeat (apply Forall_cons; split; [exact I || apply one_token_harmless|]).
  by apply Forall_nil.
Qed.


(** The signal finds a connection in the middle of a call. *)
Definition busy : list (Happening (Tls:=unit) (S:=toy_store) (R:=bytes) (W:=bytes)) :=
  [EvAccept 1 (client_bytes [["PING"]]) []; EvWake 1 FrameReady].

Definition last_steps : list (Happening (Tls:=unit) (S:=toy_store) (R:=bytes) (W:=bytes)) :=
  repeat (EvWake 1 FrameReady) 3.

Definition busy_sessions := srv_sessions (happen_all (busy ++ [EvShutdown]) toy_server).

Lemma busy_budgets : budget <$> busy_sessions = {[1 := 3%nat]}.
Proof. vm_compute. reflexivity. Qed.

Lemma busy_only id ss : busy_sessions !! id = Some ss -> id = 1 /\ budget ss = 3%nat.
Proof.
  intros Hss. assert ((budget <$> busy_sessions) !! id = Some (budget ss)) as Hb
    by (by rewrite lookup_fmap, Hss).
  rewrite busy_budgets in Hb. apply lookup_singleton_Some in Hb as [Hid Hbud].
  exact (conj (eq_sym Hid) (eq_sym Hbud)).
Qed.

Lemma shutdown_completes_witness :
  let s := happen_all (busy ++ [EvShutdown]) toy_server in
  exists aborted,
    srv_loop (happen_all (last_steps ++ [EvJoin 1]) s) = Stopped aborted
    /\ (EvDeadline ∉ (busy ++ last_steps ++ [EvJoin 1])%list -> aborted = []).
Proof.
  refine (shutdown_completes (one_token "old") (Some 1) toy_dispatcher busy
    last_steps [EvJoin 1] _ _).
  - intros id ss Hss. destruct (busy_only id ss Hss) as [-> ->]. apply Nat.le_refl.
  - intros id ss Hss. destruct (busy_only id ss Hss) as [-> _]. by left.
Defined.

(** A refused command, step by step, against the loop's iteration. *)
Definition toy_session : Session (Sub:=string) :=
  {| ss_conn := toy_conn (encode (words_frame ["PUT"; "ns"; "k"; "v"])); ss_next := Loop;
     ss_flight := None |}.


