(* ===== verification/SchedulerSpec.v ===== *)
(** * What the scheduler guarantees

    The compaction of tombstones ([compact_tombstones] of [scheduler.rs])
    removes exactly the tombstones that are older than their namespace keeps
    them, over any engine whose index finds the expired ones and whose log
    entry removes those it names; and no task of the scheduler but the reaper
    touches the cached responses, which it never takes from a caller who could
    still be given one. *)
From S2P Require Import Prelude RustStr Externals Resp3 Command Response Idempotency Handlers Dispatch RateLimiter Scheduler Toy.
Open Scope Z_scope.
Open Scope string_scope.

(** What the compactor relies on: [holds e ns t] when the tombstone is in the
    index, [expired cutoff t] when it dates from before the cutoff. *)
Class TombstoneLaws `{StoreTypes} (E Tomb : Type) `{!TombstoneEngine E Tomb} := {
  holds : E -> string -> Tomb -> Prop;
  expired : Z -> Tomb -> Prop;
  law_find e ns cutoff t :
    t ∈ find_expired_tombstones e ns cutoff <-> holds e ns t /\ expired cutoff t;
  law_compacted e ns ts ns' t :
    is_ok (apply_compacted ns ts e).1 = true ->
    holds (apply_compacted ns ts e).2 ns' t <-> holds e ns' t /\ ~ (ns' = ns /\ t ∈ ts);
  law_failed e ns ts ns' t :
    is_ok (apply_compacted ns ts e).1 = false ->
    holds (apply_compacted ns ts e).2 ns' t <-> holds e ns' t;
}.

Section Compaction.
Context `{StoreTypes} {E Tomb : Type} `{!EqDecision Tomb} `{!TombstoneEngine E Tomb} `{!TombstoneLaws E Tomb}.

(** The tombstone has outlived what the namespace's configuration keeps. *)
Definition outlived (now : Z) (config : NamespaceConfig) (t : Tomb) : Prop :=
  exists secs, tombstone_retention_secs config = Some secs /\ 0 < secs
    /\ expired (Z.max 0 (now - secs)) t.

(** Compacting a namespace takes outlived tombstones of it only; all of them
    when the log accepts the entry. *)
Lemma compact_namespace_spec now e ns config ns' t :
  (holds (compact_namespace now e (ns, config)) ns' t -> holds e ns' t)
  /\ (holds e ns' t -> holds (compact_namespace now e (ns, config)) ns' t
        \/ (ns' = ns /\ outlived now config t))
  /\ ((forall ts, is_ok (apply_compacted ns ts e).1 = true) -> ns' = ns -> outlived now config t ->
        ~ holds (compact_namespace now e (ns, config)) ns' t).
Proof.
  unfold compact_namespace, outlived. cbn [fst snd].
  destruct (tombstone_retention_secs config) as [secs|]; [|split_and!; auto; by intros _ _ (? & [=] & _)].
  destruct (Z.ltb_spec 0 secs) as [Hs|Hs];
    [|split_and!; auto; intros _ _ (? & [= <-] & Hpos & _); lia].
  pose proof (law_find e ns (Z.max 0 (now - secs))) as Hfind.
  destruct (find_expired_tombstones e ns (Z.max 0 (now - secs))) as [|t0 ts] eqn:Hf.
  { split_and!; [done|auto|]. intros _ -> (secs' & [= <-] & _ & Hexp) Hh.
    by destruct (not_elem_of_nil t (proj2 (Hfind t) (conj Hh Hexp))). }
  destruct (is_ok (apply_compacted ns (t0 :: ts) e).1) eqn:Hok.
  - pose proof (law_compacted e ns (t0 :: ts) ns' t Hok) as Hl. split_and!.
    + intros Hh. by apply Hl.
    + intros Hh. destruct (decide (ns' = ns /\ t ∈ t0 :: ts)) as [Hin|Hout]; [right|left].
      * destruct Hin as [-> Hin]. split; [done|]. exists secs. split_and!; [done|done|].
        by apply Hfind.
      * apply Hl. by split.
    + intros _ -> (secs' & [= <-] & _ & Hexp) Hh. apply Hl in Hh as [Hh Hno].
      apply Hno. split; [done|]. apply Hfind. by split.
  - pose proof (law_failed e ns (t0 :: ts) ns' t Hok) as Hl. split_and!.
    + intros Hh. by apply Hl.
    + intros Hh. left. by apply Hl.
    + intros Hall. by rewrite Hall in Hok.
Qed.

Lemma compact_all now nss : forall e ns t,
  let e' := foldl (compact_namespace now) e nss in
  (holds e' ns t -> holds e ns t)
  /\ (holds e ns t -> holds e' ns t \/ exists config, (ns, config) ∈ nss /\ outlived now config t)
  /\ ((forall e ns ts, is_ok (apply_compacted ns ts e).1 = true) ->
        forall config, (ns, config) ∈ nss -> outlived now config t -> ~ holds e' ns t).
Proof.
  induction nss as [|[ns0 config0] nss IH]; intros e ns t; cbn [foldl].
  { split_and!; [done|auto|]. by intros _ config Hin%elem_of_nil. }
  destruct (compact_namespace_spec now e ns0 config0 ns t) as (Hsub & Hkeep & Hgone).
  destruct (IH (compact_namespace now e (ns0, config0)) ns t) as (IHsub & IHkeep & IHgone).
  split_and!.
  - auto.
  - intros Hh. destruct (Hkeep Hh) as [Hh'|[-> Ho]].
    + destruct (IHkeep Hh') as [|(config & Hin & Ho)]; [by left|right]. exists config.
      split; [by right|done].
    + right. exists config0. split; [left|done].
  - intros Hok config [[= <- <-]|Hin]%elem_of_cons Ho; [|by apply (IHgone Hok config)].
    intros Hh. apply IHsub in Hh. by apply Hgone.
Qed.

(** C26. Compaction removes tombstones that have outlived the retention of their
    namespace and nothing else (none when the retention is zero or not set,
    none when the clock is before 1970); and when the log accepts its entries
    it removes all of them, so that what is left is exactly what is within its
    retention. *)
Theorem compaction_exact now e ns t :
  let e' := compact_tombstones now e in
  let due := exists secs config, now = Some secs /\ (ns, config) ∈ te_namespaces e
               /\ outlived secs config t in
  (holds e' ns t -> holds e ns t)
  /\ (holds e ns t -> holds e' ns t \/ due)
  /\ ((forall e ns ts, is_ok (apply_compacted ns ts e).1 = true) ->
        holds e' ns t <-> holds e ns t /\ ~ due).
Proof.
  cbn zeta. destruct now as [now|]; cbn [compact_tombstones];
    [|split_and!; auto; intros _; split; [|tauto]; intros Hh; split; [done|by intros (? & ? & [=] & _)]].
  destruct (compact_all now (te_namespaces e) e ns t) as (Hsub & Hkeep & Hgone). split_and!.
  - done.
  - intros Hh. destruct (Hkeep Hh) as [|(config & Hin & Ho)]; [by left|]. right. eauto.
  - intros Hok. split.
    + intros Hh. split; [by apply Hsub|]. intros (secs & config & [= <-] & Hin & Ho).
      by apply (Hgone Hok config).
    + intros [Hh Hno]. destruct (Hkeep Hh) as [|(config & Hin & Ho)]; [done|]. destruct Hno. eauto.
Qed.
End Compaction.

(** A tick of any task takes no response from a caller who could still be given
    one: what is cached and fresh at an instant after the tick was so before. *)
Lemma on_tick_cached `{StoreTypes} {E Tomb : Type} `{!PeriodicEngine E} `{!TombstoneEngine E Tomb}
    (task : SchedTask) (now : Tick) (s : Shared (E:=E)) t id :
  (forall k, tk_instant now k <= t) ->
  cached (sh_idempotency (on_tick task now s)) t id = cached (sh_idempotency s) t id.
Proof.
  intros Hn. destruct task; cbn [on_tick]; try done.
  - by destruct (snapshot_due _ _ _ _).
  - by apply idem_prune_keeps.
  - destruct (tk_millis now) as [ms|]; [|done]. destruct (sweep_tick _ _) as [[n|] e]; [|done].
    by destruct (0 <? n)%Z.
Qed.

(** An index as a list of tombstones with their times. *)
Definition toy_index : Type := list (string * NamespaceConfig) * list (string * Z).

#[export] Instance toy_tombstones : TombstoneEngine toy_index (string * Z) := {
  te_namespaces e := e.1;
  find_expired_tombstones e ns cutoff :=
    List.filter (fun t => String.eqb t.1 ns && (t.2 <=? cutoff)%Z) e.2;
  apply_compacted ns ts e := (Ok tt, (e.1, List.filter (fun t => negb (bool_decide (t.1 = ns /\ t ∈ ts))) e.2));
}.

#[export, refine] Instance toy_tombstone_laws : TombstoneLaws toy_index (string * Z) := {
  holds e ns t := t.1 = ns /\ t ∈ e.2;
  expired cutoff t := t.2 <= cutoff;
}.
Proof.
  - intros e ns cutoff t. cbn. rewrite list_elem_of_In, filter_In, andb_true_iff, String.eqb_eq, Z.leb_le.
    rewrite <- list_elem_of_In. naive_solver.
  - intros e ns ts ns' t _. cbn. rewrite list_elem_of_In, filter_In, negb_true_iff, bool_decide_eq_false.
    rewrite <- list_elem_of_In. naive_solver.
  - done.
Defined.

(** Two namespaces, one that keeps tombstones for 60 seconds. *)
Definition toy_graves : toy_index :=
  ([("keeps", toy_config);
    ("hour", {| meta_schema := None; max_versions := None; tombstone_retention_secs := Some 60 |})],
   [("keeps", 5); ("hour", 5); ("hour", 99)]).

Lemma compaction_exact_witness :
  holds (compact_tombstones (Some 100) toy_graves) "hour" ("hour", 99)
  /\ ~ holds (compact_tombstones (Some 100) toy_graves) "hour" ("hour", 5)
  /\ holds (compact_tombstones (Some 100) toy_graves) "keeps" ("keeps", 5).
Proof.
  assert (forall (e : toy_index) ns ts, is_ok (apply_compacted ns ts e).1 = true) as Hok by done.
  split_and!.
  - apply (compaction_exact (Some 100) toy_graves "hour" ("hour", 99)); [exact Hok|]. split.
    + split; [done|]. right. right. left.
    + intros (secs & config & [= <-] & Hin & (r & Hr & _ & Hexp)). cbn in Hin.
      rewrite !elem_of_cons in Hin. destruct Hin as [[=]|[[= ->]|Hin%elem_of_nil]]; [|done].
      cbn in Hr, Hexp. injection Hr as <-. lia.
  - intros Hh. apply (compaction_exact (Some 100) toy_graves "hour" ("hour", 5)) in Hh as [_ Hno];
      [|exact Hok].
    apply Hno. eexists 100, _. split; [done|]. split; [right; left|]. exists 60. cbn. split_and!; [done|lia|lia].
  - apply (compaction_exact (Some 100) toy_graves "keeps" ("keeps", 5)); [exact Hok|]. split.
    + split; [done|]. left.
    + intros (secs & config & [= <-] & Hin & (r & Hr & _ & Hexp)). cbn in Hin.
      rewrite !elem_of_cons in Hin. destruct Hin as [[= ->]|[[=]|Hin%elem_of_nil]]; done.
Defined.
