(* ===== verification/StartupSpec.v ===== *)
(** * What starting and stopping guarantee

    Properties of [main], [run_server] and [run_doctor] ([main.rs]): which
    configuration and which keys a run gets, that nothing is touched before
    the configuration is known to be usable, the order in which a run starts
    and stops its parts, and what the doctor's verdict means. *)
From S2P Require Import Prelude RustStr Externals RateLimiter ServerConfig Maintenance Background Scheduler Startup Toy MaintenanceSpec ServerSpec.
Open Scope Z_scope.
Open Scope string_scope.

(** ** The configuration of a run *)
Section Prepare.
Context {Tls : Type}.
Implicit Types (h : Host Tls) (cli : ServerCli) (p : Prepared Tls).

(** A setting comes from the command line, else from the file, else from the
    defaults; the address is the one it parses to. *)
Definition configured_by h cli (cfg : ShrouDBConfig Tls) : Prop :=
  exists base, base_config h cli = Ok base
  /\ match cli_bind cli with
     | Some bind => parse_addr h bind = Ok (sc_bind (cfg_server cfg))
     | None => sc_bind (cfg_server cfg) = sc_bind (cfg_server base)
     end
  /\ st_data_dir (cfg_storage cfg) = default (st_data_dir (cfg_storage base)) (cli_data_dir cli)
  /\ cfg_auth cfg = cfg_auth base /\ cfg_webhooks cfg = cfg_webhooks base
  /\ sc_tls (cfg_server cfg) = sc_tls (cfg_server base)
  /\ st_mode (cfg_storage cfg) = st_mode (cfg_storage base)
  /\ st_uri (cfg_storage cfg) = st_uri (cfg_storage base).

Lemma effective_config_by h cli cfg : effective_config h cli = Ok cfg -> configured_by h cli cfg.
Proof.
  unfold effective_config, configured_by. destruct (base_config h cli) as [base|]; [|done].
  cbn [mbind result_bind]. destruct (cli_bind cli) as [bind|].
  - destruct (parse_addr h bind) as [addr|]; [|done]. cbn. intros [= <-]. exists base.
    by destruct (cli_data_dir cli).
  - intros [= <-]. exists base. by destruct (cli_data_dir cli).
Qed.

(** What a job may be started from: the sub-command, or the store mode. *)
Definition job_allowed cli (cfg : ShrouDBConfig Tls) (j : Job) : Prop :=
  match j with
  | ServeEmbedded => cli_command cli = None /\ st_mode (cfg_storage cfg) = "embedded"
  | ServeRemote uri => cli_command cli = None /\ st_mode (cfg_storage cfg) = "remote"
                       /\ st_uri (cfg_storage cfg) = Some uri
  | _ => cli_command cli <> None
  end.

Lemma job_for_allowed cfg cli j : job_for cfg cli = Ok j -> job_allowed cli cfg j.
Proof.
  unfold job_for, job_allowed. destruct (cli_command cli) as [[]|]; try (by intros [= <-]).
  destruct (String.eqb_spec (st_mode (cfg_storage cfg)) "embedded"); [by intros [= <-]|].
  destruct (String.eqb_spec (st_mode (cfg_storage cfg)) "remote"); [|done].
  destruct (st_uri (cfg_storage cfg)) as [uri|]; [|done]. by intros [= <-].
Qed.

End Prepare.

(** ** The order of a run *)
Section Run.
Context `{!Acl} {V : Type} `{!StaticTokens V} {Tls : Type}.
Context `{StoreTypes} {D E : Type} `{!StorageEngine D E} `{!PeriodicEngine E}.
Context (tls_client_ca : Tls -> bool) (version : string).

Definition spawned (ph : Phase) : option Handle := match ph with Spawn h => Some h | _ => None end.
Definition aborted (ph : Phase) : option Handle := match ph with AbortTask h => Some h | _ => None end.
Definition is_stop (ph : Phase) : bool :=
  match ph with EngineShutdown | AcceptUntilShutdown => true | _ => false end.

(** Phases that start things: no task is stopped, nor the engine, nor does the
    loop run. *)
Definition starting (l : list Phase) : Prop := omap aborted l = [] /\ forallb (negb ∘ is_stop) l = true.

Lemma starting_app l1 l2 : starting l1 -> starting l2 -> starting (l1 ++ l2).
Proof.
  intros [Ha1 Hs1] [Ha2 Hs2]. split; [by rewrite omap_app, Ha1, Ha2|]. by rewrite forallb_app, Hs1, Hs2.
Qed.

Lemma starting_map {A} (f : A -> Phase) l :
  (forall a, aborted (f a) = None /\ is_stop (f a) = false) -> starting (map f l).
Proof.
  intros Hf. induction l as [|a l IH]; [done|]. apply (starting_app [f a]); [|done].
  destruct (Hf a) as [Ha Hs]. split; cbn; [by rewrite Ha|by rewrite Hs].
Qed.

Lemma starting_not ph l : starting l -> is_stop ph = true -> ph ∉ l.
Proof.
  intros [_ Hs] Hp Hin. rewrite forallb_forall in Hs. apply list_elem_of_In, Hs in Hin. cbn in Hin.
  by rewrite Hp in Hin.
Qed.

Lemma omap_map_none {A} (g : Phase -> option Handle) (f : A -> Phase) l :
  (forall a, g (f a) = None) -> omap g (map f l) = [].
Proof. intros Hf. induction l as [|a l IH]; [done|]. cbn. by rewrite Hf, IH. Qed.

Lemma omap_map_some (g : Phase -> option Handle) (f : Handle -> Phase) l :
  (forall h, g (f h) = Some h) -> omap g (map f l) = l.
Proof. intros Hf. induction l as [|h l IH]; [done|]. cbn. by rewrite Hf, IH. Qed.

(** C28. A run of the server that got to its accept loop stops what it started, and
    in order: after the loop every task that was started is aborted, once, and
    the engine, if there is one, is shut down last, when nothing the server
    started is left; the run succeeds if that does.  A run that does not get
    there (the exporter or a socket could not be set up) fails, and neither
    aborts its tasks nor shuts the engine down. *)
Theorem run_is_orderly cfg env exists_ install net (engine : option E) :
  let o := run_server (V:=V) (D:=D) tls_client_ca version cfg env exists_ install net engine in
  (AcceptUntilShutdown ∈ o.1.2 ->
     exists started stopped, o.1.2 = (started ++ (AcceptUntilShutdown :: stopped))%list
     /\ starting started /\ omap aborted stopped = omap spawned started /\ omap spawned stopped = []
     /\ match engine with
        | None => (EngineShutdown ∉ stopped) /\ o.1.1 = Ok tt
        | Some e => last stopped = Some EngineShutdown
                    /\ o.1.1 = propagate (se_shutdown e).1 /\ o.2 = Some (se_shutdown e).2
        end)
  /\ (AcceptUntilShutdown ∉ o.1.2 ->
       is_ok o.1.1 = false /\ starting o.1.2 /\ o.2 = option_map se_disk engine).
Proof.
  cbn zeta. unfold run_server.
  set (m := match sc_metrics_bind (cfg_server cfg) with Some _ => _ | None => _ end).
  assert (starting m.2 /\ omap spawned m.2 = []) as [Hm Hms].
  { unfold m. by destruct (sc_metrics_bind _). }
  destruct m as [[[]|a] installed]; cbn [snd] in Hm, Hms.
  2:{ split; [|done]. intros Hin. by destruct (starting_not AcceptUntilShutdown _ Hm eq_refl Hin). }
  destruct (listen net (cfg_server cfg)) as [listening steps].
  set (handles := handles_of cfg engine exists_).
  set (started := (installed ++ _)%list).
  assert (starting started) as Hst.
  { unfold started. repeat apply starting_app; try done; by apply starting_map. }
  assert (omap spawned started = handles) as Hsp.
  { unfold started. rewrite !omap_app, Hms. rewrite omap_map_some by done.
    rewrite omap_map_none by done. cbn. by rewrite app_nil_r. }
  destruct listening as [[]|a].
  2:{ split; [|done]. intros Hin. by destruct (starting_not AcceptUntilShutdown _ Hst eq_refl Hin). }
  assert (omap aborted (map AbortTask handles) = handles) as Hab by (by apply omap_map_some).
  assert (omap spawned (map AbortTask handles) = []) as Hno by (by apply omap_map_none).
  destruct engine as [e|].
  - destruct (se_shutdown e) as [r d] eqn:He. cbn [fst snd]. split.
    + intros _. exists started, (map AbortTask handles ++ [EngineShutdown])%list.
      rewrite !omap_app, Hab, Hno, Hsp, last_snoc. cbn. rewrite app_nil_r.
      split_and!; try done. by rewrite <- !app_assoc.
    + intros Hnot. destruct Hnot. apply elem_of_app. left. apply elem_of_app. right. left.
  - cbn [fst snd]. split.
    + intros _. exists started, (map AbortTask handles). split_and!; try done; [congruence|].
      intros Hin. apply list_elem_of_fmap in Hin as (h & [=] & _).
    + intros Hnot. destruct Hnot. apply elem_of_app. right. left.
Qed.

(** ** The doctor's verdict *)
Context (fsync_default : FsyncMode) (dir_exists : string -> bool).
Context (load_key : list KeySource -> result string bytes) (source_name : list KeySource -> string).
Context (engine_open : EngineConfig -> RecoveryMode -> list KeySource -> D -> result string E * D).
Context (active_key_count : NamespaceState -> Z).

Lemma no_verdict l : Forall (fun x => String.get 0 x <> Some "A"%char) l -> "All checks passed." ∉ l.
Proof. intros Hl Hin. rewrite Forall_forall in Hl. by apply (Hl _ Hin). Qed.

Lemma data_dir_line_verdict (cfg : ShrouDBConfig Tls) :
  String.get 0 (data_dir_line dir_exists cfg) <> Some "A"%char.
Proof. unfold data_dir_line. by destruct (dir_exists _). Qed.

(** The doctor's verdict means what it says: it passes, and prints that all
    checks passed, exactly when the master key can be loaded, the engine opens
    the data directory without tolerating damage, and it closes again; when
    the key cannot be loaded the data directory has not been opened. *)
Theorem doctor_verdict (cfg : ShrouDBConfig Tls) keys d :
  let o := run_doctor (V:=V) fsync_default dir_exists load_key source_name engine_open
             active_key_count cfg keys d in
  (is_ok o.1.1 = true <->
     is_ok (load_key keys) = true
     /\ exists e, (engine_open (to_engine_config fsync_default cfg) Strict keys d).1 = Ok e
          /\ is_ok (se_shutdown e).1 = true)
  /\ (is_ok o.1.1 = true <-> "All checks passed." ∈ o.1.2)
  /\ (is_ok (load_key keys) = false -> o.2 = d).
Proof.
  pose proof (data_dir_line_verdict cfg) as Hdir. cbn zeta. unfold run_doctor.
  assert (forall l x, Forall (fun x => String.get 0 x <> Some "A"%char) (l ++ [x])%list ->
    (false = true <-> "All checks passed." ∈ (l ++ [x])%list)) as Hfail.
  { intros l x Hl. split; [done|]. intros Hin. by destruct (no_verdict _ Hl). }
  destruct (load_key keys) as [key|m]; cbn [fst snd is_ok].
  2:{ split_and!; [naive_solver| |done]. apply Hfail. by repeat constructor. }
  destruct (engine_open _ Strict keys d) as [[e|m] d1]; cbn [fst snd is_ok].
  2:{ split_and!; [naive_solver| |done]. apply Hfail. by repeat constructor. }
  destruct (se_shutdown e) as [[[]|m] d2] eqn:Hs; cbn [fst snd is_ok].
  - split_and!; [|split; [|done]|done].
    + split; [|done]. intros _. split; [done|]. exists e. by rewrite Hs.
    + intros _. apply elem_of_app. right. right. right. left.
  - split_and!; [|apply Hfail; by repeat constructor|done].
    split; [done|]. intros (_ & e' & [= <-] & He). by rewrite Hs in He.
Qed.
End Run.
