(* ===== verification/CliSpec.v ===== *)
(** * What the command line client guarantees

    Properties of [shroudb-cli/src/main.rs] together with the client's codec and
    the server's parser: what is typed is what the server parses, the help
    shows commands the server takes, completion knows its verbs. *)
From S2P Require Import Prelude RustStr Resp3 Resp3Reader Resp3Spec Externals Command ParseCommand ClientResponse ClientConnection ClientApi ServerConfig Cli Toy ParseSpec ClientSpec.
Open Scope string_scope.

(** ** Quoting a word so that it is read back *)

Fixpoint escape (s : string) : string :=
  match s with
  | EmptyString => EmptyString
  | String c s' =>
      if Ascii.eqb c dquote || Ascii.eqb c backslash
      then String backslash (String c (escape s'))
      else String c (escape s')
  end.

Definition quote (s : string) : string :=
  String dquote (escape s +:+ String dquote EmptyString).

Fixpoint unwords (ws : list string) : string :=
  match ws with
  | [] => EmptyString
  | [w] => w
  | w :: ws => w +:+ String " " (unwords ws)
  end.

Lemma push_app current c s : push current c +:+ s = current +:+ String c s.
Proof. unfold push. by rewrite string_app_assoc. Qed.

(** Inside double quotes an escaped text is read as the text. *)
Lemma split_words_escape s current rest :
  split_words DoubleQuote current (escape s +:+ rest) = split_words DoubleQuote (current +:+ s) rest.
Proof.
  revert current. induction s as [|c s IH]; intros current.
  - cbn [escape]. by rewrite string_app_nil.
  - rewrite <- (push_app current c s), <- IH. cbn [escape].
    destruct (Ascii.eqb c dquote) eqn:Hq; [|destruct (Ascii.eqb c backslash) eqn:Hb].
    + apply Ascii.eqb_eq in Hq as ->. reflexivity.
    + apply Ascii.eqb_eq in Hb as ->. reflexivity.
    + change (String c (escape s) +:+ rest) with (String c (escape s +:+ rest)).
      cbn [orb]. change (String c (escape s) +:+ rest) with (String c (escape s +:+ rest)).
      cbn [split_words]. by rewrite Hq, Hb.
Qed.

Lemma split_words_quote w rest :
  split_words Normal EmptyString (quote w +:+ rest) = split_words Normal w rest.
Proof.
  unfold quote. change (String dquote ?s +:+ rest) with (String dquote (s +:+ rest)).
  cbn [split_words Ascii.eqb]. change (Ascii.eqb dquote dquote) with true. cbn iota.
  rewrite string_app_assoc.
  change (String dquote EmptyString +:+ rest) with (String dquote rest).
  rewrite split_words_escape. reflexivity.
Qed.

(** A line of quoted words is split back into the words, less the empty ones. *)
Lemma shell_words_quoted (ws : list string) :
  shell_words (unwords (map quote ws)) = List.filter (fun w => negb (String.eqb w "")) ws.
Proof.
  unfold shell_words. induction ws as [|w ws IH]; [done|].
  assert (forall rest, (emit w ++ rest)%list = if negb (String.eqb w "") then w :: rest else rest) as He
    by (by destruct w).
  destruct ws as [|w' ws].
  - cbn [map unwords List.filter]. rewrite <- (He []), app_nil_r.
    rewrite <- (string_app_nil (quote w)), split_words_quote. reflexivity.
  - cbn [map unwords List.filter] in IH |- *. rewrite split_words_quote.
    change (split_words Normal w (String " " ?s)) with (emit w ++ split_words Normal EmptyString s)%list.
    rewrite IH. apply He.
Qed.
(** ** A typed line at the server *)

Lemma trim_start_quoted s : trim_start (String dquote s) = String dquote s.
Proof. reflexivity. Qed.

Lemma strip_suffix_last p c s :
  (forall q, p <> q +:+ String c "") -> p <> "" -> strip_suffix p (s +:+ String c "") = None.
Proof.
  intros Hp Hne. destruct (strip_suffix p (s +:+ String c "")) as [t|] eqn:He; [|done].
  apply strip_suffix_Some in He. exfalso. apply (f_equal as_bytes) in He. rewrite !as_bytes_app in He.
  destruct (as_bytes p) as [|b l _] eqn:Hl using rev_ind.
  - apply Hne, as_bytes_inj. by rewrite Hl.
  - rewrite app_assoc in He. apply app_inj_tail in He as [_ Hb].
    apply (Hp (of_bytes l)). apply as_bytes_inj. rewrite as_bytes_app, as_of_bytes, Hl. by rewrite <- Hb.
Qed.

(** No whitespace character ends in a quote. *)
Lemma trim_quoted s : trim (String dquote (s +:+ String dquote "")) = String dquote (s +:+ String dquote "").
Proof.
  unfold trim. rewrite trim_start_quoted. rewrite <- string_app_cons.
  destruct (String.length _) as [|n]; [done|]. cbn [trim_whitespace_end].
  replace (strip_whitespace_end _) with (@None string); [done|]. symmetry.
  unfold strip_whitespace_end.
  assert (Forall (fun p => p <> "" /\ forall q, p <> q +:+ String dquote "") whitespace) as Hws.
  { assert (forallb (fun p => match last (as_bytes p) with Some b => negb (Byte.eqb b (byte_of_ascii dquote)) | None => false end)
      whitespace = true) as Hc by reflexivity.
    apply Forall_forall. intros p Hp%list_elem_of_In. rewrite forallb_forall in Hc. specialize (Hc p Hp).
    split; [by intros ->|]. intros q ->. rewrite as_bytes_app in Hc.
    change (as_bytes (String dquote "")) with [byte_of_ascii dquote] in Hc. by rewrite last_snoc in Hc. }
  induction Hws as [|p ps [Hne Hp] _ IH]; [done|]. by rewrite strip_suffix_last.
Qed.

Lemma unwords_quoted w ws :
  exists s, unwords (map quote (w :: ws)) = String dquote (s +:+ String dquote "").
Proof.
  revert w. induction ws as [|w' ws IH]; intros w; [by eexists|].
  destruct (IH w') as [s Hs]. cbn [map unwords] in Hs |- *. rewrite Hs.
  exists (escape w +:+ String dquote (String " " (String dquote s))).
  unfold quote. rewrite !string_app_cons, !string_app_assoc. done.
Qed.

Lemma repl_line_quoted w ws :
  repl_line (unwords (map quote (w :: ws))) = Send (shell_words (unwords (map quote (w :: ws)))).
Proof.
  destruct (unwords_quoted w ws) as [s ->]. unfold repl_line. rewrite trim_quoted.
  generalize (s +:+ String dquote ""). intros t. destruct t; reflexivity.
Qed.

(** C32. What is typed is what the server parses: a line of quoted words, whatever
    characters they have, is sent as the request of these words, and the server
    reads from the bytes of that request the frame of exactly these words,
    leaving what follows; only an empty word is lost, so an empty value cannot
    be typed.  The request must fit the protocol's limits. *)
Theorem typed_line_served {W R} `{AsyncWriteLaws W} `{AsyncBufReadLaws R}
    (word : string) (words : list string) (w w' : W) (r : R) (rest : bytes) :
  let sent := List.filter (fun w => negb (String.eqb w "")) (word :: words) in
  carriable (words_frame sent) = true ->
  write_command sent w = (Ok tt, w') ->
  pending r = (drop (length (written w)) (written w') ++ rest)%list ->
  repl_line (unwords (map quote (word :: words))) = Send sent
  /\ exists r', read_frame r = Ok (Some (words_frame sent), r') /\ pending r' = rest.
Proof.
  intros sent [Hsane Hdepth]%andb_true_iff Hw Hr. split.
  - rewrite repl_line_quoted. by rewrite shell_words_quoted.
  - pose proof (write_command_writes sent w) as Hwr. rewrite Hw in Hwr. unfold writes in Hwr. cbv beta iota in Hwr.
    rewrite Hwr, drop_app_length in Hr. apply agrees_Ok.
    rewrite <- (read_encode_frame (words_frame sent) rest Hsane ltac:(lia)), <- Hr.
    apply agrees_read_frame.
Qed.

Lemma typed_line_served_witness :
  repl_line (unwords (map quote ["PUT"; "ns"; "my key"; ""; "it's"])) = Send ["PUT"; "ns"; "my key"; "it's"]
  /\ exists r' : bytes,
       read_frame (encode (words_frame ["PUT"; "ns"; "my key"; "it's"]) ++ as_bytes "*1")%list
       = Ok (Some (words_frame ["PUT"; "ns"; "my key"; "it's"]), r')
       /\ r' = as_bytes "*1".
Proof.
  exact (typed_line_served "PUT" ["ns"; "my key"; ""; "it's"] ([] : bytes) _
    (encode (words_frame ["PUT"; "ns"; "my key"; "it's"]) ++ as_bytes "*1")%list (as_bytes "*1")
    eq_refl eq_refl eq_refl).
Defined.

(** ** The help and the completions *)

(** The lines of a text. *)
Fixpoint lines (fuel : nat) (s : string) : list string :=
  match fuel, split_once (ascii_of_byte LF) s with
  | S fuel, Some (l, r) => l :: lines fuel r
  | _, _ => [s]
  end.

(** The lines of a help text after the one that announces examples. *)
Definition examples (text : string) : list string :=
  List.filter (fun l => negb (String.eqb l ""))
    ((fix go (ls : list string) : list string :=
        match ls with
        | [] => []
        | l :: ls => if String.eqb l "  Example:" then ls else go ls
        end) (lines (String.length text) text)).

(** The metadata of an example. *)
Definition example_meta : string := "{" +:+ dq +:+ "role" +:+ dq +:+ ":" +:+ dq +:+ "admin" +:+ dq +:+ "}".
(** The example of TTL, which keeps the positional value beside a keyword. *)
Definition ttl_example : string := "    PUT myapp.sessions sess:abc token TTL 3600000".

Lemma existsb_exists_eqb (s : string) l : existsb (String.eqb s) l = true -> In s l.
Proof. intros (x & Hx & ->%String.eqb_eq)%existsb_exists. done. Qed.

Section Help.
Context `{Serde, !StoreTypes, !StoreErrorText}.

(** How an example of the help of [name] fares when it is typed. *)
Definition example_accepted (name e : string) : Prop :=
  exists ws, repl_line e = Send ws /\ head ws = Some name
    /\ if String.eqb e ttl_example
       then parse_command (words_frame ws) = Err (BadArg "unexpected argument: token")
       else exists cmd, parse_command (words_frame ws) = Ok cmd.

Definition example_check (name e : string) : bool :=
  match repl_line e with
  | Send ws =>
      match head ws with Some n => String.eqb n name | None => false end &&
      match parse_command (words_frame ws) with
      | Ok _ => negb (String.eqb e ttl_example)
      | Err (BadArg m) => String.eqb e ttl_example && String.eqb m "unexpected argument: token"
      | Err _ => false
      end
  | _ => false
  end.

Lemma example_check_accepted name e : example_check name e = true -> example_accepted name e.
Proof.
  unfold example_check, example_accepted. destruct (repl_line e) as [| | | |ws]; [done..|].
  intros [Hn Hp]%andb_true_iff. exists ws. split; [done|].
  destruct (head ws) as [n|]; [|done]. apply String.eqb_eq in Hn as ->. split; [done|].
  destruct (parse_command (words_frame ws)) as [cmd|[]]; try done.
  - apply negb_true_iff in Hp as ->. by exists cmd.
  - apply andb_true_iff in Hp as [-> ->%String.eqb_eq]. done.
Qed.

End Help.

(** The help tells the truth but for one line: every example of every help text,
    typed at the prompt, is sent as a command of that name which the server's
    parser takes, except the example of TTL, which it refuses: a keyword may
    follow the key only, so the value must be given with VALUE. *)
Theorem help_examples_parsed `{J : Serde, !StoreTypes, !StoreErrorText} (meta : Value) :
  json_from_str example_meta = Ok meta ->
  Forall (fun '(name, text) => Forall (example_accepted name) (examples text)) command_help
  /\ In ttl_example (flat_map (fun '(_, text) => examples text) command_help).
Proof.
  intros Hmeta. split.
  - assert (forallb (fun '(name, text) => forallb (example_check name) (examples text)) command_help = true) as Hc
      by (destruct J as [V js ts]; vm_compute in Hmeta; vm_compute; rewrite Hmeta; reflexivity).
    rewrite forallb_forall in Hc. apply Forall_forall. intros [name text] Hin%list_elem_of_In.
    specialize (Hc _ Hin). cbn beta iota in Hc. rewrite forallb_forall in Hc.
    apply Forall_forall. intros e He%list_elem_of_In. by apply example_check_accepted, Hc.
  - apply existsb_exists_eqb. vm_compute. reflexivity.
Qed.

Lemma help_examples_parsed_witness :
  json_from_str example_meta = Ok example_meta
  /\ Forall (fun '(name, text) => Forall (example_accepted name) (examples text)) command_help.
Proof. split; [reflexivity|exact (proj1 (help_examples_parsed example_meta eq_refl))]. Defined.

(** ** Completion *)

Definition verb_char (c : ascii) : bool := is_ascii (byte_of_ascii c) && negb (Ascii.eqb c " ").

Lemma verb_char_upper c : verb_char (ascii_upper c) = true -> verb_char c = true.
Proof. by destruct c as [[] [] [] [] [] [] [] []]. Qed.

Lemma ascii_upper_idemp c : ascii_upper (ascii_upper c) = ascii_upper c.
Proof. by destruct c as [[] [] [] [] [] [] [] []]. Qed.

Lemma uppercase_of_ascii c s : is_ascii (byte_of_ascii c) = true -> uppercase_of (String c s) = None.
Proof. by destruct c as [[] [] [] [] [] [] [] []]. Qed.

Lemma to_ascii_uppercase_cons c s :
  to_ascii_uppercase (String c s) = String (ascii_upper c) (to_ascii_uppercase s).
Proof. done. Qed.

Lemma to_ascii_uppercase_app s t :
  to_ascii_uppercase (s +:+ t) = to_ascii_uppercase s +:+ to_ascii_uppercase t.
Proof.
  induction s as [|c s IH]; [done|]. rewrite string_app_cons, !to_ascii_uppercase_cons, string_app_cons.
  by rewrite IH.
Qed.

Lemma to_ascii_uppercase_idemp s : to_ascii_uppercase (to_ascii_uppercase s) = to_ascii_uppercase s.
Proof.
  induction s as [|c s IH]; [done|]. by rewrite !to_ascii_uppercase_cons, IH, ascii_upper_idemp.
Qed.

Lemma verb_chars_upper s : all_chars verb_char (to_ascii_uppercase s) = true -> all_chars verb_char s = true.
Proof.
  induction s as [|c s IH]; [done|]. rewrite to_ascii_uppercase_cons. cbn [all_chars].
  intros [Hc Hs]%andb_true_iff. by rewrite (verb_char_upper _ Hc), IH.
Qed.

(** On the texts of the completions the two uppercases agree. *)
Lemma to_uppercase_verb s : all_chars verb_char s = true -> to_uppercase s = to_ascii_uppercase s.
Proof.
  unfold to_uppercase. induction s as [|c s IH]; [done|]. cbn [all_chars String.length].
  intros [[Hc _]%andb_true_iff Hs]%andb_true_iff. cbn [to_uppercase_go].
  rewrite uppercase_of_ascii by done. by rewrite to_ascii_uppercase_cons, IH.
Qed.

Lemma starts_with_app p q : starts_with p (p +:+ q) = true.
Proof.
  unfold starts_with. induction p as [|c p IH]; [by destruct q|].
  rewrite string_app_cons. cbn [strip_prefix]. by rewrite Ascii.eqb_refl.
Qed.

Lemma substring_all s : String.substring 0 (String.length s) s = s.
Proof. induction s as [|c s IH]; [done|]. cbn [String.length String.substring]. by rewrite IH. Qed.

Lemma drop_chars_all s : drop_chars (String.length s) s = "".
Proof. by induction s. Qed.

Lemma complete_end pre p :
  (pre = "" \/ exists b, pre = b +:+ " ") -> all_chars verb_char p = true ->
  complete (pre +:+ p) (String.length (pre +:+ p))
  = Some (String.length pre, List.filter (fun c => starts_with (to_uppercase p) (to_uppercase c)) COMMANDS).
Proof.
  intros Hpre Hp. unfold complete. rewrite Nat.leb_refl, drop_chars_all, substring_all. cbn [andb is_boundary].
  assert (has_no " " p = true) as Hno.
  { eapply all_chars_impl; [|exact Hp]. intros a [_ Ha]%andb_true_iff. exact Ha. }
  destruct Hpre as [->|[b ->]].
  - rewrite string_app_empty. by rewrite rsplit_once_none.
  - rewrite string_app_assoc. change (" " +:+ ?s) with (String " " s).
    rewrite rsplit_once_last by done. by rewrite string_length_app.
Qed.

Section Verbs.
Context `{Serde, !StoreTypes, !StoreErrorText}.

Lemma frame_to_string_word w s : frame_to_string (BulkString (as_bytes w)) = Ok s -> s = w.
Proof.
  unfold frame_to_string. destruct (from_utf8 (as_bytes w)) as [t|] eqn:Ht; [|done].
  apply from_utf8_Some in Ht as [_ ->]. intros [= <-]. apply of_as_bytes.
Qed.

(** The verbs the parser knows. *)
Lemma parse_flat_verb strings cmd :
  parse_flat strings = Ok cmd ->
  In (to_ascii_uppercase (arg strings 0)) COMMANDS \/ to_ascii_uppercase (arg strings 0) = "REKEY".
Proof.
  unfold parse_flat. generalize (to_ascii_uppercase (arg strings 0)). intros verb.
  repeat match goal with
    | |- context [String.eqb verb ?name] =>
        destruct (String.eqb_spec verb name) as [->|_];
        [intros _; first [by right|left; apply existsb_exists_eqb; reflexivity]|]
    end.
  done.
Qed.

(** A PIPELINE given as words has no sub-commands: they would be arrays. *)
Lemma pipeline_keywords_words ws rid n rid' m :
  pipeline_keywords rid n (map (fun w => BulkString (as_bytes w)) ws) = Ok (rid', m) ->
  m = (n + length ws)%nat.
Proof.
  remember (length ws) as len eqn:Hlen. revert ws rid n Hlen.
  induction len as [len IH] using lt_wf_ind. intros [|w [|w2 ws]] rid n ->; cbn [map pipeline_keywords].
  - intros [= <- <-]. cbn [length]. lia.
  - destruct (frame_to_string (BulkString (as_bytes w))) as [s|]; cbn [mbind result_bind]; [|done].
    by destruct (eq_ignore_ascii_case s "REQUEST_ID").
  - destruct (frame_to_string (BulkString (as_bytes w))) as [s|]; cbn [mbind result_bind]; [|done].
    destruct (eq_ignore_ascii_case s "REQUEST_ID"); [|done].
    destruct (frame_to_string _) as [id|]; cbn [mbind result_bind]; [|done].
    intros Hk%(IH (length ws) ltac:(cbn; lia) ws _ _ eq_refl). cbn [length]. lia.
Qed.

Lemma parse_subcommands_skip parse i els : parse_subcommands parse (length els) i els = Ok [].
Proof. by induction els. Qed.

Lemma typed_pipeline_refused v ws cmd :
  parse_command (words_frame (v :: ws)) = Ok cmd -> eq_ignore_ascii_case v "PIPELINE" = false.
Proof.
  unfold words_frame. cbn [map parse_command].
  destruct (frame_to_string (BulkString (as_bytes v))) as [s|] eqn:Hv; cbn [mbind result_bind]; [|done].
  apply frame_to_string_word in Hv as ->. destruct (eq_ignore_ascii_case v "PIPELINE"); [|done].
  unfold parse_pipeline_frame. set (els := map _ ws).
  destruct els as [|e els'] eqn:He; [done|]. rewrite <- He.
  destruct (pipeline_keywords None 0 els) as [[rid n]|] eqn:Hk; cbn [mbind result_bind]; [|done].
  apply pipeline_keywords_words in Hk. subst n. rewrite Nat.add_0_l.
  replace (length ws) with (length els) by (subst els; apply length_map).
  rewrite parse_subcommands_skip. done.
Qed.

Lemma typed_verb v ws cmd :
  parse_command (words_frame (v :: ws)) = Ok cmd ->
  In (to_ascii_uppercase v) COMMANDS \/ to_ascii_uppercase v = "REKEY".
Proof.
  intros Hp. pose proof (typed_pipeline_refused _ _ _ Hp) as Hv. revert Hp.
  unfold words_frame. cbn [map parse_command].
  destruct (frame_to_string (BulkString (as_bytes v))) as [s|] eqn:Hs; cbn [mbind result_bind]; [|done].
  pose proof (frame_to_string_word _ _ Hs) as ->. rewrite Hv. cbn [collect]. rewrite Hs. cbn [mbind result_bind].
  destruct (collect _ _) as [strings|]; cbn [mbind result_bind]; [|done].
  intros Hf%parse_flat_verb. exact Hf.
Qed.
End Verbs.

Lemma commands_verb_chars : Forall (fun c => all_chars verb_char c = true) COMMANDS.
Proof. repeat constructor. Qed.

(** Completion knows what the server takes: when the parser takes a typed
    command, however much of its verb stands at the end of the line, at its
    start or after a space, the completions replace just that word and have the
    verb; REKEY is the one they lack.  PIPELINE, which they have, can not be
    typed: the parser takes its sub-commands as arrays only. *)
Theorem completion_knows_verbs `{Serde, !StoreTypes, !StoreErrorText} (p q : string) (ws : list string)
    (cmd : Command) (pre : string) :
  parse_command (words_frame ((p +:+ q) :: ws)) = Ok cmd ->
  (pre = "" \/ exists b, pre = b +:+ " ") ->
  eq_ignore_ascii_case (p +:+ q) "PIPELINE" = false
  /\ (to_ascii_uppercase (p +:+ q) = "REKEY"
      \/ exists cs, complete (pre +:+ p) (String.length (pre +:+ p)) = Some (String.length pre, cs)
           /\ In (to_ascii_uppercase (p +:+ q)) cs).
Proof.
  intros Hparse Hpre. split; [by eapply typed_pipeline_refused|].
  apply typed_verb in Hparse as [Hin|]; [|by left]. right.
  pose proof (proj1 (Forall_forall _ _) commands_verb_chars _ (proj2 (list_elem_of_In _ _) Hin)) as Hchars.
  cbn beta in Hchars. pose proof (verb_chars_upper _ Hchars) as Hpq.
  rewrite all_chars_app in Hpq. apply andb_true_iff in Hpq as [Hp _].
  eexists. split; [by apply complete_end|]. apply filter_In. split; [done|].
  rewrite (to_uppercase_verb _ Hchars), to_ascii_uppercase_idemp, to_ascii_uppercase_app, (to_uppercase_verb _ Hp).
  apply starts_with_app.
Qed.

Lemma completion_knows_verbs_witness :
  eq_ignore_ascii_case "putif" "PIPELINE" = false
  /\ (to_ascii_uppercase "putif" = "REKEY"
      \/ exists cs, complete "put" 3 = Some (O, cs) /\ In "PUTIF" cs).
Proof.
  exact (completion_knows_verbs "put" "if" ["ns"; "k"; "v"; "EXPECT"; "2"] (PutIf "ns" (as_bytes "k") (as_bytes "v") None 2) ""
    eq_refl (or_introl eq_refl)).
Defined.

(** ** A refused token *)
Section Refusal.
Context {K : Type}.
Variable dial dial_tls : string -> result ClientError K.
Variable exchange : list string -> K -> result Failure Response * K.

(** The library's client over the same exchanges. *)
Definition exchange_transport : Transport K :=
  let run args k := let '(r, k) := exchange args k in r ≫= fun resp => Ok (resp, k) in
  {| send := run; send_meta := run; send_pipeline _ _ _ := Err Crashes |}.

(** A token the server refuses goes unnoticed: the command line client
    connects and goes on to its commands, where the library's client, over the
    same exchange, returns the refusal. *)
Lemma refused_token_unnoticed cli uri config token conn conn' msg :
  cli_uri cli = Some uri -> parse_uri uri = Ok config -> auth_token config = Some token ->
  (if tls config then dial_tls (address config) else dial (address config)) = Ok conn ->
  exchange ["AUTH"; token] conn = (Ok (RError msg), conn') ->
  connect_cli dial dial_tls exchange cli = Ok (address config, conn')
  /\ exists e, from_uri (H:=exchange_transport) dial dial_tls uri = Err (Fails e).
Proof.
  intros Huri Hparse Htok Hdial Hex. split.
  - unfold connect_cli. rewrite Huri, Hparse. cbn [map_err mbind result_bind].
    rewrite Hdial, Htok. cbn [map_err mbind result_bind]. by rewrite Hex.
  - unfold from_uri. rewrite Hparse. cbn [map_err mbind result_bind]. unfold open_connection.
    rewrite Hdial, Htok. cbn [map_err mbind result_bind]. unfold run_call, client_auth. cbn. rewrite Hex.
    cbn. eexists. reflexivity.
Qed.
End Refusal.
